(** * disco-dop: the LCFRS / CFG chart parsers and the lazy k-best extractor

    A shallow embedding of the parsing engine (plcfrs: [concat], [fatconcat],
    [process_edge], [parse], [cfgparse]), of the chart containers
    (containers.pyx) and of the k-best enumerator (kbest.pyx), with the
    properties of the specification stated and settled against it.

    Conventions.
    - A C [unsigned long long] is a [Z] in [0, 2^64); every operation that can
      leave that range is followed by [wrap64].
    - Costs are negative log probabilities held in C doubles.  The development
      works with integer costs: integers of this size are doubles, and sums and
      comparisons of them are exact, so every concrete run shown here is a run
      of the source.
    - Python dictionaries are [gmap]s; where the source iterates over a
      dictionary the iteration order is the one of [map_to_list]. *)

From stdpp Require Import gmap strings list fin_maps.
From Stdlib Require Import ZArith Lia DecimalString.

Local Open Scope Z_scope.

(** ** Bit-span primitives *)

Module Bit.

Definition wrap64 (z : Z) : Z := z mod 2 ^ 64.

(** [~v] on an unsigned 64-bit word. *)
Definition not64 (v : Z) : Z := wrap64 (Z.lnot v).

Fixpoint scanset (fuel : nat) (v i : Z) : Z :=
  match fuel with
  | O => -1
  | S fuel' => if Z.testbit v i then i else scanset fuel' v (i + 1)
  end.

Fixpoint scanunset (fuel : nat) (v i : Z) : Z :=
  match fuel with
  | O => i
  | S fuel' => if Z.testbit v i then scanunset fuel' v (i + 1) else i
  end.

(** Modelled from the spec: bit.pyx is not among the source files.
    [nextset v i] is the least bit index >= i that is set, or -1. *)
Definition nextset (v pos : Z) : Z := scanset (Z.to_nat (64 - pos)) v pos.

(** Modelled from the spec: bit.pyx is not among the source files.
    [nextunset v i] is the least bit index >= i that is unset; for a word
    whose bits from [i] on are all set this is the width, 64. *)
Definition nextunset (v pos : Z) : Z := scanunset (Z.to_nat (64 - pos)) v pos.

Fixpoint popcount (fuel : nat) (v : Z) : Z :=
  match fuel with
  | O => 0
  | S fuel' => Z.b2z (Z.odd v) + popcount fuel' (Z.div2 v)
  end.

(** Modelled from the spec: bit.pyx is not among the source files.
    [bitcount v] is the population count. *)
Definition bitcount (v : Z) : Z := popcount 64 v.

(** Modelled from the spec: bit.pyx is not among the source files.
    [bitlength v] is 1 + the index of the highest set bit, 0 if empty. *)
Definition bitlength (v : Z) : Z := if v =? 0 then 0 else Z.log2 v + 1.

(** Modelled from the spec: bit.pyx is not among the source files.
    [testbit v i] is the value of bit [i]. *)
Definition testbit (v i : Z) : bool := Z.testbit v i.

(** Modelled from the spec: bit.pyx is not among the source files.
    [testbitint] is [testbit] on the narrower integers of a [Rule]. *)
Definition testbitint (arg pos : Z) : bool := Z.testbit arg pos.

(** *** Wide vectors: arrays of [SLOTS] words *)

Definition SLOTS : Z := 2.
Definition BITSIZE : Z := 64.
Definition BITSLOT (b : Z) : Z := b / BITSIZE.
Definition BITMASK (b : Z) : Z := 2 ^ (b mod BITSIZE).

Definition word (a : list Z) (n : Z) : Z := nth (Z.to_nat n) a 0.

(** Modelled from the spec: macros.h is not among the source files.
    [TESTBIT a b] is non-zero iff bit [b] of the array is set. *)
Definition TESTBIT (a : list Z) (b : Z) : bool :=
  negb (Z.land (word a (BITSLOT b)) (BITMASK b) =? 0).

Fixpoint ascanset (fuel : nat) (a : list Z) (i : Z) : Z :=
  match fuel with
  | O => -1
  | S fuel' => if TESTBIT a i then i else ascanset fuel' a (i + 1)
  end.

Fixpoint ascanunset (fuel : nat) (a : list Z) (i : Z) : Z :=
  match fuel with
  | O => i
  | S fuel' => if TESTBIT a i then ascanunset fuel' a (i + 1) else i
  end.

(** Modelled from the spec: bit.pyx is not among the source files.
    The wide [nextset]: least set bit index >= pos in the array, or -1. *)
Definition anextset (a : list Z) (pos slots : Z) : Z :=
  ascanset (Z.to_nat (slots * BITSIZE - pos)) a pos.

(** Modelled from the spec: bit.pyx is not among the source files.
    The wide [nextunset]: least unset bit index >= pos in the array, the
    width of the array if there is none. *)
Definition anextunset (a : list Z) (pos slots : Z) : Z :=
  ascanunset (Z.to_nat (slots * BITSIZE - pos)) a pos.

(** Modelled from the spec: bit.pyx is not among the source files.
    The wide population count. *)
Definition abitcount (a : list Z) (slots : Z) : Z :=
  foldr (fun w acc => bitcount w + acc) 0 (take (Z.to_nat slots) a).

(** Modelled from the spec: bit.pyx is not among the source files.
    The wide [bitlength]. *)
Definition abitlength (a : list Z) (slots : Z) : Z :=
  let fix go (ws : list Z) (base : Z) : Z :=
    match ws with
    | [] => 0
    | w :: ws' =>
        let hi := go ws' (base + BITSIZE) in
        if hi =? 0 then (if w =? 0 then 0 else base + bitlength w) else hi
    end in
  go (take (Z.to_nat slots) a) 0.

(** Modelled from the spec: bit.pyx is not among the source files.
    [setunion dest a b] stores the word-wise union. *)
Definition setunion (a b : list Z) (slots : Z) : list Z :=
  take (Z.to_nat slots) (zip_with Z.lor a b).

(** The wide form of a narrow word: the word followed by empty slots. *)
Definition widen (v : Z) : list Z := [v; 0].

(** The maximal runs of set bits of a word, lowest first, each as the
    half-open interval [(start, stop)]. *)
Fixpoint runs_from (fuel : nat) (v pos : Z) : list (Z * Z) :=
  match fuel with
  | O => []
  | S fuel' =>
      let a := nextset v pos in
      if a =? -1 then []
      else let b := nextunset v a in (a, b) :: runs_from fuel' v b
  end.

Definition runs (v : Z) : list (Z * Z) := runs_from 64 v 0.

Arguments nextset : simpl never.
Arguments nextunset : simpl never.
Arguments bitcount : simpl never.
Arguments anextset : simpl never.
Arguments anextunset : simpl never.
Arguments runs : simpl never.

End Bit.

(** ** Containers (containers.pyx) *)

Module Containers.

(** [ChartItem]: a label and a span bit vector. *)
Record ChartItem := new_ChartItem { label : Z; vec : Z }.

#[global] Instance ChartItem_eq_dec : EqDecision ChartItem.
Proof. solve_decision. Defined.

#[global] Instance ChartItem_countable : Countable ChartItem.
Proof.
  refine (inj_countable' (fun i => (label i, vec i))
            (fun p => new_ChartItem p.1 p.2) _).
  by intros [].
Defined.

(** [ChartItem.__richcmp__]: the operator codes are Python's
    (0 [<], 1 [<=], 2 [==], 3 [!=], 4 [>], 5 [>=]); any other code falls
    off the end of the chain and returns nothing. *)
Definition ChartItem_richcmp (self other : ChartItem) (op : Z) : option bool :=
  if op =? 2 then Some ((label self =? label other) && (vec self =? vec other))
  else if op =? 3 then
    Some (negb (label self =? label other) || negb (vec self =? vec other))
  else if op =? 5 then
    Some ((label self >=? label other) || (vec self >=? vec other))
  else if op =? 1 then
    Some ((label self <=? label other) || (vec self <=? vec other))
  else if op =? 0 then
    Some ((label self <? label other) || (vec self <? vec other))
  else if op =? 4 then
    Some ((label self >? label other) || (vec self >? vec other))
  else None.

Definition ChartItem_lt (a b : ChartItem) : Prop :=
  ChartItem_richcmp a b 0 = Some true.

(** [ChartItem.__nonzero__] *)
Definition ChartItem_nonzero (self : ChartItem) : bool :=
  negb (label self =? 0) && negb (vec self =? 0).

(** A grammar rule.  [args] and [lengths] are the binary encoding of the
    yield function: bit [n] of [args] says from which child atom [n] comes
    (0 left, 1 right), bit [n] of [lengths] says that atom [n] is the last
    atom of its argument. *)
Record Rule := mkRule {
  lhs : Z; rhs1 : Z; rhs2 : Z;
  args : Z; lengths : Z;
  prob : Z; no : Z
}.

Record LexicalRule := mkLexicalRule { lex_lhs : Z; lex_prob : Z }.

(** An [LCFRSEdge]: the score used by the agenda, the inside cost, the cost
    of the rule, the rule number and the two back pointers. *)
Record Edge (I : Type) := new_Edge {
  score : Z; inside : Z; eprob : Z; ruleno : Z; left : I; right : I
}.
Arguments new_Edge {I} _ _ _ _ _ _.
Arguments score {I} _.
Arguments inside {I} _.
Arguments eprob {I} _.
Arguments ruleno {I} _.
Arguments left {I} _.
Arguments right {I} _.

#[global] Instance Edge_eq_dec {I} `{EqDecision I} : EqDecision (Edge I).
Proof. solve_decision. Defined.

(** [iscore]: replace the estimate with the inside cost. *)
Definition iscore {I} (e : Edge I) : Edge I :=
  new_Edge (inside e) (inside e) (eprob e) (ruleno e) (left e) (right e).

End Containers.

(** ** Outcomes of a run

    A Python function returns, raises, or (in the model only) is cut off
    when the fuel given to one of its [while] loops is used up. *)

Module Run.

Inductive exn := IndexError | KeyError | TypeError | ValueError.

Inductive result (A : Type) :=
| Ok (a : A)
| Raise (e : exn)
| OutOfFuel.
Arguments Ok {A} _.
Arguments Raise {A} _.
Arguments OutOfFuel {A}.

#[global] Instance result_ret : MRet result := fun _ a => Ok a.
#[global] Instance result_bind : MBind result := fun _ _ f m =>
  match m with
  | Ok a => f a
  | Raise e => Raise e
  | OutOfFuel => OutOfFuel
  end.

(** A dictionary or list read that raises when the key is missing. *)
Definition get {A} (e : exn) (o : option A) : result A :=
  match o with Some a => Ok a | None => Raise e end.

Definition returns {A} (m : result A) (a : A) : Prop := m = Ok a.

End Run.

(** ** The agenda *)

Module Agenda.

Section agenda.
Context {K V : Type} `{EqDecision K}.
(** The priority of a value: the score of an edge, or the value itself. *)
Variable prio : V → Z.

(** Modelled from the spec: agenda.pyx is not among the source files.
    The agenda is a priority queue keyed by [K]: a heap ordered by the
    priority of the values together with a map from keys to heap entries.
    Here it is the list of its live entries, oldest first; among entries of
    equal priority the oldest one is extracted first. *)
Abbreviation t := (list (K * V)).

Definition length (a : t) : Z := Z.of_nat (List.length a).

Fixpoint getitem (a : t) (k : K) : option V :=
  match a with
  | [] => None
  | e :: a' => if decide (e.1 = k) then Some e.2 else getitem a' k
  end.

Definition contains (a : t) (k : K) : bool := bool_decide (is_Some (getitem a k)).

Definition remove (a : t) (k : K) : t := filter (fun e => e.1 ≠ k) a.

(** [agenda[k] = v]: insert, or overwrite the entry of [k]. *)
Definition setitem (a : t) (k : K) (v : V) : t := remove a k ++ [(k, v)].

(** Modelled from the spec: [set_if_better] replaces the entry of [k] iff
    there is none or the new value has a lower priority value. *)
Definition setifbetter (a : t) (k : K) (v : V) : t :=
  match getitem a k with
  | None => setitem a k v
  | Some old => if prio v <? prio old then setitem a k v else a
  end.

(** [replace]: decrease-key by replacement; gives back the old value. *)
Definition replace (a : t) (k : K) (v : V) : option (V * t) :=
  match getitem a k with
  | None => None
  | Some old => Some (old, setitem a k v)
  end.

(** The entry of least priority value, the oldest among equals. *)
Fixpoint minentry (a : t) : option (K * V) :=
  match a with
  | [] => None
  | e :: a' =>
      match minentry a' with
      | None => Some e
      | Some m => if prio m.2 <? prio e.2 then Some m else Some e
      end
  end.

(** [popentry]: extract the entry of least priority value. *)
Definition popentry (a : t) : option ((K * V) * t) :=
  match minentry a with
  | None => None
  | Some e => Some (e, remove a e.1)
  end.

(** [Agenda(entries)] and [update(entries)]. *)
Definition update (a : t) (es : list (K * V)) : t :=
  foldl (fun acc e => setitem acc e.1 e.2) a es.

End agenda.

(** Modelled from the spec: [nsmallest k xs] is the [k] values of least
    priority value, least first. *)
Fixpoint insert_sorted {V} (prio : V → Z) (v : V) (l : list V) : list V :=
  match l with
  | [] => [v]
  | x :: l' => if prio v <? prio x then v :: l else x :: insert_sorted prio v l'
  end.

Definition nsmallest {V} (prio : V → Z) (k : Z) (xs : list V) : list V :=
  take (Z.to_nat k) (foldl (fun acc v => insert_sorted prio v acc) [] xs).

End Agenda.

(** ** Yield functions *)

Module YieldFunction.
Import Bit Containers.

(** The yield function of a rule as a tuple of tuples: the atoms
    [0 .. bitlength lengths - 1], cut after each atom whose [lengths] bit
    is set. *)
Fixpoint decode_atoms (a l : Z) (ns : list Z) (cur : list bool)
  : list (list bool) :=
  match ns with
  | [] => match cur with [] => [] | _ => [cur] end
  | n :: ns' =>
      let cur' := cur ++ [testbitint a n] in
      if testbitint l n then cur' :: decode_atoms a l ns' []
      else decode_atoms a l ns' cur'
  end.

Definition zrange_nat (n : nat) : list Z := map Z.of_nat (seq 0 n).

(** [range(n)] *)
Definition zrange (n : Z) : list Z := zrange_nat (Z.to_nat n).

Definition decode (rule : Rule) : list (list bool) :=
  decode_atoms (args rule) (lengths rule) (zrange (bitlength (lengths rule))) [].

(** One argument of the yield function: each atom takes the next unused run
    of its child, and the runs have to follow each other without a gap. *)
Fixpoint compose_arg (atoms : list bool) (ra rb : list (Z * Z))
    (cur : option (Z * Z)) : option ((Z * Z) * list (Z * Z) * list (Z * Z)) :=
  match atoms with
  | [] => match cur with Some c => Some (c, ra, rb) | None => None end
  | atom :: atoms' =>
      let pick := if atom : bool then rb else ra in
      match pick with
      | [] => None
      | (s, e) :: rest =>
          let ra' := if atom then ra else rest in
          let rb' := if atom then rest else rb in
          match cur with
          | None => compose_arg atoms' ra' rb' (Some (s, e))
          | Some (s0, e0) =>
              if e0 =? s then compose_arg atoms' ra' rb' (Some (s0, e))
              else None
          end
      end
  end.

(** The yield function applied to the runs of the two children: the list of
    composed runs, one per argument, when every run of both children is
    used. *)
Fixpoint apply_yield (yf : list (list bool)) (ra rb : list (Z * Z))
  : option (list (Z * Z)) :=
  match yf with
  | [] => match ra, rb with [], [] => Some [] | _, _ => None end
  | arg :: yf' =>
      match compose_arg arg ra rb None with
      | None => None
      | Some (c, ra', rb') =>
          match apply_yield yf' ra' rb' with
          | None => None
          | Some cs => Some (c :: cs)
          end
      end
  end.

(** [a] and [b] compose under the yield function of [rule] into the runs of
    their union, in order. *)
Definition yields (rule : Rule) (a b : Z) : Prop :=
  apply_yield (decode rule) (runs a) (runs b) = Some (runs (Z.lor a b)).

#[global] Instance yields_dec rule a b : Decision (yields rule a b).
Proof. unfold yields. solve_decision. Defined.

End YieldFunction.

(** ** The LCFRS parser (plcfrs) *)

Module Plcfrs.
Import Bit Containers YieldFunction.

(** *** [concat] *)

(** The part of the loop body of [concat] after the run has been taken:
    zero out the component, test for the gap, move the mask. *)
Definition concat_advance (rule : Rule) (n lvec rvec mask : Z)
  : option (Z * Z * Z) :=
  let lvec := Z.land lvec (not64 mask) in
  let rvec := Z.land rvec (not64 mask) in
  if testbitint (lengths rule) n then
    if negb (Z.land (Z.lxor lvec rvec) (wrap64 (mask + 1)) =? 0) then None
    else
      let mask := Z.land (Z.land (not64 lvec) (wrap64 (lvec - 1)))
                         (Z.land (not64 rvec) (wrap64 (rvec - 1))) in
      Some (lvec, rvec, wrap64 (mask + 1))
  else Some (lvec, rvec, wrap64 (mask + 1)).

(** One iteration of the [for n] loop; [None] is [return False]. *)
Definition concat_step (rule : Rule) (st : Z * Z * Z) (n : Z)
  : option (Z * Z * Z) :=
  let '(lvec, rvec, mask) := st in
  if testbitint (args rule) n then
    if Z.land rvec mask =? 0 then None
    else
      let rvec := Z.lor rvec (wrap64 (rvec - 1)) in
      let mask := Z.land rvec (wrap64 (not64 rvec - 1)) in
      concat_advance rule n lvec rvec mask
  else
    if Z.land lvec mask =? 0 then None
    else
      let lvec := Z.lor lvec (wrap64 (lvec - 1)) in
      let mask := Z.land lvec (wrap64 (not64 lvec - 1)) in
      concat_advance rule n lvec rvec mask.

Fixpoint concat_loop (rule : Rule) (ns : list Z) (st : Z * Z * Z) : bool :=
  match ns with
  | [] => let '(lvec, rvec, _) := st in (lvec =? rvec) && (rvec =? 0)
  | n :: ns' =>
      match concat_step rule st n with
      | None => false
      | Some st' => concat_loop rule ns' st'
      end
  end.

Definition concat (rule : Rule) (lvec rvec : Z) : bool :=
  if negb (Z.land lvec rvec =? 0) then false
  else
    let mask := if testbitint (args rule) 0 then rvec else lvec in
    concat_loop rule (zrange (bitlength (lengths rule))) (lvec, rvec, mask).

(** *** [fatconcat] *)

Definition fat_overlap (lvec rvec : list Z) : bool :=
  existsb (fun n => negb (Z.land (word lvec n) (word rvec n) =? 0))
          (zrange SLOTS).

(** One iteration of the [for n] loop on the cursors [(lpos, rpos)]. *)
Definition fatconcat_step (rule : Rule) (lvec rvec : list Z)
    (st : Z * Z) (n : Z) : option (Z * Z) :=
  let '(lpos, rpos) := st in
  if testbitint (args rule) n then
    if (rpos =? -1) || (negb (lpos =? -1) && (lpos <=? rpos)) then None
    else
      let rpos := anextunset rvec rpos SLOTS in
      if negb (lpos =? -1) && (lpos <? rpos) then None
      else if (if testbitint (lengths rule) n then TESTBIT lvec rpos
               else negb (TESTBIT lvec rpos)) then None
      else Some (lpos, anextset rvec rpos SLOTS)
  else
    if (lpos =? -1) || (negb (rpos =? -1) && (rpos <=? lpos)) then None
    else
      let lpos := anextunset lvec lpos SLOTS in
      if negb (rpos =? -1) && (rpos <? lpos) then None
      else if (if testbitint (lengths rule) n then TESTBIT rvec lpos
               else negb (TESTBIT rvec lpos)) then None
      else Some (anextset lvec lpos SLOTS, rpos).

Fixpoint fatconcat_loop (rule : Rule) (lvec rvec : list Z) (ns : list Z)
    (st : Z * Z) : bool :=
  match ns with
  | [] => let '(lpos, rpos) := st in (lpos =? rpos) && (rpos =? -1)
  | n :: ns' =>
      match fatconcat_step rule lvec rvec st n with
      | None => false
      | Some st' => fatconcat_loop rule lvec rvec ns' st'
      end
  end.

Definition fatconcat (rule : Rule) (lvec rvec : list Z) : bool :=
  if fat_overlap lvec rvec then false
  else
    let lpos := anextset lvec 0 SLOTS in
    let rpos := anextset rvec 0 SLOTS in
    if (2 =? args rule) && (args rule =? lengths rule) then
      let n := anextunset lvec lpos SLOTS in
      (rpos =? n)
      && ((-1 =? anextset lvec n SLOTS)
          && (anextset lvec n SLOTS
              =? anextset rvec (anextunset rvec rpos SLOTS) SLOTS))
    else
      fatconcat_loop rule lvec rvec (zrange (bitlength (lengths rule)))
                     (lpos, rpos).

(** *** [process_edge] *)

(** An entry of the whitelist: a dictionary of admitted items (their labels
    zeroed), or, with [markorigin], a list of such dictionaries, one per
    component. *)
Inductive wl_entry :=
| WlDict (d : gset ChartItem)
| WlList (l : list (gset ChartItem)).

(** [whitelist]: [None], or a list indexed by label whose entries may be
    [None]. *)
Definition Whitelist := option (list (option wl_entry)).

Abbreviation LEdge := (Edge ChartItem).

(** What [process_edge] reads and writes: the agenda, the chart, the Viterbi
    index (one dictionary per label), the counter behind [blocked] and the
    items passed to [logging.warning]. *)
Record PState := mkPState {
  agenda : list (ChartItem * LEdge);
  chart : gmap ChartItem (list LEdge);
  viterbi : list (gmap ChartItem LEdge);
  blocked : Z;
  warnings : list ChartItem
}.

Definition set_agenda (st : PState) a :=
  mkPState a (chart st) (viterbi st) (blocked st) (warnings st).
Definition set_chart (st : PState) c :=
  mkPState (agenda st) c (viterbi st) (blocked st) (warnings st).
Definition set_viterbi (st : PState) v :=
  mkPState (agenda st) (chart st) v (blocked st) (warnings st).
Definition set_blocked (st : PState) b :=
  mkPState (agenda st) (chart st) (viterbi st) b (warnings st).
Definition add_warning (st : PState) (i : ChartItem) :=
  mkPState (agenda st) (chart st) (viterbi st) (blocked st) (warnings st ++ [i]).

(** [blocked] is a C [unsigned int]. *)
Definition wrap32 (z : Z) : Z := z mod 2 ^ 32.

Definition escore : LEdge → Z := score.

(** The [while a != -1] loop of the split-PCFG pruning: [true] when some
    component of the span is missing from its dictionary.  A 64-bit word has
    at most 32 runs, so the fuel is never used up. *)
Fixpoint split_rejects (fuel : nat) (markorigin : bool) (entry : wl_entry)
    (v a cnt : Z) : Run.result bool :=
  match fuel with
  | O => Run.Ok false
  | S fuel' =>
      if a =? -1 then Run.Ok false
      else
        let b := nextunset v a in
        let component :=
          new_ChartItem 0 (wrap64 (wrap64 (Z.shiftl 1 b) - wrap64 (Z.shiftl 1 a))) in
        componentdict ←
          (if markorigin then
             match entry with
             | WlList l => Run.get Run.IndexError (l !! Z.to_nat cnt)
             | WlDict _ => Run.Raise Run.TypeError
             end
           else
             match entry with
             | WlDict d => Run.Ok d
             | WlList _ => Run.Raise Run.TypeError
             end);
        if bool_decide (component ∈ componentdict) then
          split_rejects fuel' markorigin entry v (nextset v b) (cnt + 1)
        else Run.Ok true
  end.

Arguments split_rejects : simpl never.

(** The pruning of a new item against the whitelist: [true] when the item
    is rejected. *)
Definition whitelist_rejects (whitelist : Whitelist)
    (splitprune markorigin : bool) (newitem : ChartItem) : Run.result bool :=
  match whitelist with
  | None => Run.Ok false
  | Some wl =>
      entry ← Run.get Run.IndexError (wl !! Z.to_nat (label newitem));
      match entry with
      | None => Run.Ok false
      | Some entry =>
          if splitprune then
            split_rejects 64 markorigin entry (vec newitem)
                          (nextset (vec newitem) 0) 0
          else
            match entry with
            | WlDict d =>
                Run.Ok (negb (bool_decide (new_ChartItem 0 (vec newitem) ∈ d)))
            | WlList _ => Run.Raise Run.TypeError
            end
      end
  end.

(** [process_edge]: decide what to do with a newly derived edge.  The
    boolean of the result says whether a fresh item object is returned
    ([true]) or [newitem] itself ([false], the item was blocked). *)
Definition process_edge (newitem : ChartItem) (score inside prob ruleno : Z)
    (left right : ChartItem) (st : PState) (exhaustive : bool)
    (whitelist : Whitelist) (splitprune markorigin : bool)
  : Run.result (PState * bool) :=
  let inagenda := Agenda.contains (agenda st) newitem in
  let inchart := bool_decide (is_Some (chart st !! newitem)) in
  let edge := new_Edge score inside prob ruleno left right in
  if negb inagenda && negb inchart then
    rejected ← whitelist_rejects whitelist splitprune markorigin newitem;
    if rejected : bool then
      Run.Ok (set_blocked st (wrap32 (blocked st + 1)), false)
    else
      Run.Ok (set_chart (set_agenda st (Agenda.setitem (agenda st) newitem edge))
                        (<[newitem := []]> (chart st)), true)
  else if negb exhaustive && inagenda then
    Run.Ok (set_agenda st (Agenda.setifbetter escore (agenda st) newitem edge),
            true)
  else if inagenda
          && match Agenda.getitem (agenda st) newitem with
             | Some old => inside <? Containers.inside old
             | None => false
             end then
    cell ← Run.get Run.KeyError (chart st !! newitem);
    '(old, agenda') ← Run.get Run.KeyError
                        (Agenda.replace (agenda st) newitem edge);
    Run.Ok (set_chart (set_agenda st agenda')
                      (<[newitem := cell ++ [iscore old]]> (chart st)), true)
  else
    better ←
      (if inagenda then Run.Ok false
       else
         d ← Run.get Run.IndexError (viterbi st !! Z.to_nat (label newitem));
         best ← Run.get Run.KeyError (d !! newitem);
         Run.Ok (inside <? Containers.inside best));
    if better : bool then
      Run.Ok (add_warning
                (set_agenda st (Agenda.setitem (agenda st) newitem edge))
                newitem, true)
    else if exhaustive then
      cell ← Run.get Run.KeyError (chart st !! newitem);
      Run.Ok (set_chart st (<[newitem := cell ++ [iscore edge]]> (chart st)),
              true)
    else Run.Ok (st, true).

(** *** [parse] *)

(** Modelled from the spec: the Grammar class is not among the source
    files.  Its interface: [toid] and [tolabel] between label strings and
    numbers, the lexicon, and the rule arrays [unary], [lbinary] and
    [rbinary], indexed by a label and a position, each sorted so that the
    rules of the label come first. *)
Record Grammar := mkGrammar {
  toid : gmap string Z;
  tolabel : Z → string;
  numrules : Z;
  nonterminals : Z;
  lexical : gmap string (list LexicalRule);
  unary : Z → Z → Rule;
  lbinary : Z → Z → Rule;
  rbinary : Z → Z → Rule;
  bylhs : Z → Rule;
  fanout : Z → Z
}.

Definition NONE : ChartItem := new_ChartItem 0 0.

Definition SX : Z := 1.
Definition SXlrgaps : Z := 2.

(** [estimates]: the kind of estimate and the outside scores, a
    4-dimensional array. *)
Definition Estimates := option (string * (Z → Z → Z → Z → Z)).

Definition estimatetype_of (estimates : Estimates) : Run.result Z :=
  match estimates with
  | None => Run.Ok 0
  | Some (kind, _) =>
      if String.eqb kind "SX" then Run.Ok SX
      else if String.eqb kind "SXlrgaps" then Run.Ok SXlrgaps
      else Run.Raise Run.KeyError
  end.

Definition outside_of (estimates : Estimates) : Z → Z → Z → Z → Z :=
  match estimates with
  | None => fun _ _ _ _ => 0
  | Some (_, o) => o
  end.

(** The score of a candidate: the inside cost plus the outside estimate;
    [None] when the candidate is dropped ([score > 300.0: continue]). *)
Definition with_estimate (estimatetype : Z) (outside : Z → Z → Z → Z → Z)
    (inside lhs length left right gaps : Z) : option Z :=
  if estimatetype =? SX then
    let score := inside + outside lhs left right 0 in
    if score >? 300 then None else Some score
  else if estimatetype =? SXlrgaps then
    let score := inside + outside lhs length (left + right) gaps in
    if score >? 300 then None else Some score
  else Some inside.

(** [not tags]: no tags were given, or an empty list. *)
Definition no_tags (tags : option (list string)) : bool :=
  match tags with None | Some [] => true | Some (_ :: _) => false end.

Definition tag_at (tags : option (list string)) (i : nat) : Run.result string :=
  match tags with
  | None => Run.Raise Run.TypeError
  | Some ts => Run.get Run.IndexError (ts !! i)
  end.

(** The test on a lexical rule in the scan: no tags, or the label of the
    rule is the gold tag, possibly followed by an address. *)
Definition tag_allows (g : Grammar) (tags : option (list string)) (i : nat)
    (lhs : Z) : Run.result bool :=
  if no_tags tags then Run.Ok true
  else
    t ← tag_at tags i;
    Run.Ok (String.eqb (tolabel g lhs) t
            || String.prefix (t +:+ "@") (tolabel g lhs)).

(** The parameters of a call of [parse] that stay fixed. *)
Record Config := mkConfig {
  grammar : Grammar;
  tags : option (list string);
  exhaustive : bool;
  whitelist : Whitelist;
  splitprune : bool;
  markorigin : bool;
  estimates : Estimates;
  beamwidth : Z;
  lensent : Z;
  estimatetype : Z
}.

Section with_config.
Variable cfg : Config.
Let g := grammar cfg.
Let outside := outside_of (estimates cfg).

(** The loop over the lexical rules of the word at position [i]. *)
Fixpoint scan_terminals (i : nat) (item : ChartItem)
    (terminals : list LexicalRule) (st : PState) (recognized : bool)
  : Run.result (PState * bool) :=
  match terminals with
  | [] => Run.Ok (st, recognized)
  | terminal :: rest =>
      ok ← tag_allows g (tags cfg) i (lex_lhs terminal);
      if ok : bool then
        match with_estimate (estimatetype cfg) outside (lex_prob terminal)
                (lex_lhs terminal) 1 (Z.of_nat i)
                (lensent cfg - 1 - Z.of_nat i) 0 with
        | None => scan_terminals i item rest st recognized
        | Some score =>
            let newitem :=
              new_ChartItem (lex_lhs terminal)
                            (wrap64 (Z.shiftl 1 (Z.of_nat i))) in
            '(st', fresh) ← process_edge newitem score (lex_prob terminal)
                              (lex_prob terminal) (-1) item NONE st
                              (exhaustive cfg) (whitelist cfg) false
                              (markorigin cfg);
            scan_terminals i item rest st' (recognized || fresh)
        end
      else scan_terminals i item rest st recognized
  end.

(** What the scan does at one position. *)
Inductive scanned :=
| Scanned (st : PState)
| NotCovered (st : PState) (token : string).

Definition scan_position (Epsilon : Z) (i : nat) (w : string) (st : PState)
  : Run.result scanned :=
  let item := new_ChartItem Epsilon (Z.of_nat i) in
  '(st, recognized) ← scan_terminals i item (default [] (lexical g !! w))
                        st false;
  if negb recognized && negb (no_tags (tags cfg)) then
    t ← tag_at (tags cfg) i;
    match toid g !! t with
    | Some lhs =>
        match with_estimate (estimatetype cfg) outside 0 lhs 1 (Z.of_nat i)
                (lensent cfg - 1 - Z.of_nat i) 0 with
        | None => Run.Ok (Scanned st)
        | Some score =>
            let tagitem :=
              new_ChartItem lhs (wrap64 (Z.shiftl 1 (Z.of_nat i))) in
            Run.Ok (Scanned
              (set_chart
                 (set_agenda st
                    (Agenda.setitem (agenda st) tagitem
                       (new_Edge score 0 0 (-1) item NONE)))
                 (<[tagitem := []]> (chart st))))
        end
    | None => Run.Ok (NotCovered st t)
    end
  else if negb recognized then
    Run.Ok (NotCovered st w)
  else Run.Ok (Scanned st).

(** The [for i, w in enumerate(sent)] loop. *)
Fixpoint scan (Epsilon : Z) (i : nat) (ws : list string) (st : PState)
  : Run.result scanned :=
  match ws with
  | [] => Run.Ok (Scanned st)
  | w :: ws' =>
      r ← scan_position Epsilon i w st;
      match r with
      | Scanned st' => scan Epsilon (S i) ws' st'
      | NotCovered st' t => Run.Ok (NotCovered st' t)
      end
  end.

(** The state of the agenda loop: what [process_edge] works on, the
    histogram of spans behind [beamwidth], and the largest agenda seen. *)
Record LState := mkLState {
  pstate : PState;
  beam : gmap Z Z;
  maxA : Z
}.

(** [beam[v]] on a [defaultdict(int)]. *)
Definition beam_get (b : gmap Z Z) (v : Z) : Z := default 0 (b !! v).
Definition beam_incr (b : gmap Z Z) (v : Z) : gmap Z Z :=
  <[v := beam_get b v + 1]> b.

(** The unary rules of the label of [item], each applied to the span of
    [item]; [x] is the inside cost of the popped edge. *)
Fixpoint unary_loop (item : ChartItem) (x length left right gaps : Z)
    (idxs : list Z) (st : PState) : Run.result PState :=
  match idxs with
  | [] => Run.Ok st
  | i :: idxs' =>
      let rule := unary g (label item) i in
      if negb (rhs1 rule =? label item) then Run.Ok st
      else
        let inside := x + prob rule in
        match with_estimate (estimatetype cfg) outside inside (lhs rule)
                length left right gaps with
        | None => unary_loop item x length left right gaps idxs' st
        | Some score =>
            '(st', _) ← process_edge (new_ChartItem (lhs rule) (vec item))
                          score inside (prob rule) (no rule) item NONE st
                          (exhaustive cfg) (whitelist cfg)
                          (splitprune cfg && negb (fanout g (lhs rule) =? 1))
                          (markorigin cfg);
            unary_loop item x length left right gaps idxs' st'
        end
  end.

(** The score of a binary candidate.  [v] is the span the estimate is
    looked up for: the new span in the left loop, the span of the popped
    item in the right loop. *)
Definition binary_score (rule : Rule) (inside v : Z) : option Z :=
  if estimatetype cfg =? SX then
    let length := bitcount v in
    let left := nextset v 0 in
    let right := lensent cfg - length - left in
    with_estimate (estimatetype cfg) outside inside (lhs rule)
                  length left right 0
  else if estimatetype cfg =? SXlrgaps then
    let length := bitcount v in
    let left := nextset v 0 in
    let gaps := bitlength v - length - left in
    let right := lensent cfg - length - left - gaps in
    with_estimate (estimatetype cfg) outside inside (lhs rule)
                  length left right gaps
  else Some inside.

(** The inner loop of the left binary expansion: the popped [item] is the
    left child, the siblings are the Viterbi items of the label [rhs2]. *)
Fixpoint left_siblings (rule : Rule) (item : ChartItem) (x : Z)
    (sibs : list (ChartItem * LEdge)) (st : PState) (bm : gmap Z Z)
  : Run.result (PState * gmap Z Z) :=
  match sibs with
  | [] => Run.Ok (st, bm)
  | (sibling, e) :: sibs' =>
      let span := Z.lxor (vec item) (vec sibling) in
      if negb (beamwidth cfg =? 0) && (beam_get bm span >? beamwidth cfg) then
        left_siblings rule item x sibs' st bm
      else
        let bm := if negb (beamwidth cfg =? 0) then beam_incr bm span else bm in
        if concat rule (vec item) (vec sibling) then
          let inside := x + Containers.inside e + prob rule in
          match binary_score rule inside span with
          | None => left_siblings rule item x sibs' st bm
          | Some score =>
              '(st', _) ← process_edge (new_ChartItem (lhs rule) span)
                            score inside (prob rule) (no rule) item sibling st
                            (exhaustive cfg) (whitelist cfg)
                            (splitprune cfg && negb (fanout g (lhs rule) =? 1))
                            (markorigin cfg);
              left_siblings rule item x sibs' st' bm
          end
        else left_siblings rule item x sibs' st bm
  end.

(** The inner loop of the right binary expansion: the popped [item] is the
    right child. *)
Fixpoint right_siblings (rule : Rule) (item : ChartItem) (x : Z)
    (sibs : list (ChartItem * LEdge)) (st : PState) (bm : gmap Z Z)
  : Run.result (PState * gmap Z Z) :=
  match sibs with
  | [] => Run.Ok (st, bm)
  | (sibling, e) :: sibs' =>
      let span := Z.lxor (vec sibling) (vec item) in
      if negb (beamwidth cfg =? 0) && (beam_get bm span >? beamwidth cfg) then
        right_siblings rule item x sibs' st bm
      else
        let bm := if negb (beamwidth cfg =? 0) then beam_incr bm span else bm in
        if concat rule (vec sibling) (vec item) then
          let inside := x + Containers.inside e + prob rule in
          match binary_score rule inside (vec item) with
          | None => right_siblings rule item x sibs' st bm
          | Some score =>
              '(st', _) ← process_edge (new_ChartItem (lhs rule) span)
                            score inside (prob rule) (no rule) sibling item st
                            (exhaustive cfg) (whitelist cfg)
                            (splitprune cfg && negb (fanout g (lhs rule) =? 1))
                            (markorigin cfg);
              right_siblings rule item x sibs' st' bm
          end
        else right_siblings rule item x sibs' st bm
  end.

(** The outer loops of the binary expansions, over the rules. *)
Fixpoint binary_left (item : ChartItem) (x : Z) (idxs : list Z)
    (st : PState) (bm : gmap Z Z) : Run.result (PState * gmap Z Z) :=
  match idxs with
  | [] => Run.Ok (st, bm)
  | i :: idxs' =>
      let rule := lbinary g (label item) i in
      if negb (rhs1 rule =? label item) then Run.Ok (st, bm)
      else
        d ← Run.get Run.IndexError (viterbi st !! Z.to_nat (rhs2 rule));
        '(st', bm') ← left_siblings rule item x (map_to_list d) st bm;
        binary_left item x idxs' st' bm'
  end.

Fixpoint binary_right (item : ChartItem) (x : Z) (idxs : list Z)
    (st : PState) (bm : gmap Z Z) : Run.result (PState * gmap Z Z) :=
  match idxs with
  | [] => Run.Ok (st, bm)
  | i :: idxs' =>
      let rule := rbinary g (label item) i in
      if negb (rhs2 rule =? label item) then Run.Ok (st, bm)
      else
        d ← Run.get Run.IndexError (viterbi st !! Z.to_nat (rhs1 rule));
        '(st', bm') ← right_siblings rule item x (map_to_list d) st bm;
        binary_right item x idxs' st' bm'
  end.

Definition update_maxA (ls : LState) : LState :=
  let n := Agenda.length (agenda (pstate ls)) in
  if n >? maxA ls then mkLState (pstate ls) (beam ls) n else ls.

(** The expansion of a popped item that is not the goal: the [else] branch
    of the loop body.  The boolean says whether the end of the loop body
    is reached ([false] after [continue]). *)
Definition expand (item : ChartItem) (edge : LEdge) (ls : LState)
  : Run.result (LState * bool) :=
  let x := Containers.inside edge in
  let length := bitcount (vec item) in
  let left := nextset (vec item) 0 in
  let gaps := bitlength (vec item) - length - left in
  let right := lensent cfg - length - left - gaps in
  if negb (beamwidth cfg =? 0)
     && (beam_get (beam ls) (vec item) >? beamwidth cfg) then
    Run.Ok (ls, false)
  else
    let bm := if negb (beamwidth cfg =? 0) then beam_incr (beam ls) (vec item)
              else beam ls in
    st1 ← unary_loop item x length left right gaps (zrange (numrules g))
            (pstate ls);
    '(st2, bm2) ← binary_left item x (zrange (numrules g)) st1 bm;
    '(st3, bm3) ← binary_right item x (zrange (numrules g)) st2 bm2;
    Run.Ok (mkLState st3 bm3 (maxA ls), true).

(** What one turn of the [while agenda.length] loop does. *)
Inductive turn :=
| Break (ls : LState)
| Next (ls : LState).

Definition loop_body (goal : ChartItem) (ls : LState) : Run.result turn :=
  '(entry, agenda') ← Run.get Run.IndexError
                        (Agenda.popentry escore (agenda (pstate ls)));
  let item := entry.1 in
  let edge := iscore entry.2 in
  let st := set_agenda (pstate ls) agenda' in
  cell ← Run.get Run.KeyError (chart st !! item);
  let st := set_chart st (<[item := cell ++ [edge]]> (chart st)) in
  d ← Run.get Run.IndexError (viterbi st !! Z.to_nat (label item));
  let st := set_viterbi st (<[Z.to_nat (label item) := <[item := edge]> d]>
                              (viterbi st)) in
  let ls := mkLState st (beam ls) (maxA ls) in
  if (label item =? label goal) && (vec item =? vec goal) then
    if negb (exhaustive cfg) then Run.Ok (Break ls)
    else Run.Ok (Next (update_maxA ls))
  else
    '(ls', finished) ← expand item edge ls;
    Run.Ok (Next (if finished : bool then update_maxA ls' else ls')).

(** The [while agenda.length] loop. *)
Fixpoint agenda_loop (fuel : nat) (goal : ChartItem) (ls : LState)
  : Run.result LState :=
  match fuel with
  | O => Run.OutOfFuel
  | S fuel' =>
      if Agenda.length (agenda (pstate ls)) =? 0 then Run.Ok ls
      else
        t ← loop_body goal ls;
        match t with
        | Break ls' => Run.Ok ls'
        | Next ls' => agenda_loop fuel' goal ls'
        end
  end.

End with_config.

(** [%d] *)
Definition show_Z (z : Z) : string := NilZero.string_of_int (Z.to_int z).

(** The counters of the diagnostic message. *)
Definition chart_items (c : gmap ChartItem (list LEdge)) : Z :=
  Z.of_nat (List.length (filter (fun p => p.2 ≠ []) (map_to_list c))).
Definition viterbi_labels (v : list (gmap ChartItem LEdge)) : Z :=
  Z.of_nat (List.length (filter (fun d => d ≠ ∅) v)).
Definition chart_edges (c : gmap ChartItem (list LEdge)) : Z :=
  foldr (fun p acc => Z.of_nat (List.length p.2) + acc) 0 (map_to_list c).

Definition stats (ls : LState) : string :=
  let st := pstate ls in
  "agenda max " +:+ show_Z (maxA ls)
  +:+ ", now " +:+ show_Z (Agenda.length (agenda st))
  +:+ ", items " +:+ show_Z (chart_items (chart st))
  +:+ " (" +:+ show_Z (viterbi_labels (viterbi st))
  +:+ " labels), edges " +:+ show_Z (chart_edges (chart st))
  +:+ ", blocked " +:+ show_Z (blocked st).

(** What [parse] returns: the chart, the goal item or [NONE], and the
    message; or the result of [parse_longsent], to which sentences of 64
    words and more are handed over. *)
Inductive parsed :=
| Returned (chart : gmap ChartItem (list LEdge)) (goal : ChartItem)
           (msg : string)
| Longsent.

Definition goal_of (start : Z) (sent : list string) : ChartItem :=
  new_ChartItem start (wrap64 (wrap64 (Z.shiftl 1 (Z.of_nat (List.length sent))) - 1)).

Definition initial (g : Grammar) : PState :=
  mkPState [] ∅ (replicate (size (toid g)) ∅) 0 [].

(** [parse].  [fuel] bounds the number of turns of the agenda loop. *)
Definition parse (fuel : nat) (sent : list string) (g : Grammar)
    (tags : option (list string)) (start : Z) (exhaustive : bool)
    (whitelist : Whitelist) (splitprune markorigin : bool)
    (estimates : Estimates) (beamwidth : Z) : Run.result parsed :=
  Epsilon ← Run.get Run.KeyError (toid g !! "Epsilon");
  let lensent := Z.of_nat (List.length sent) in
  let goal := goal_of start sent in
  if lensent >=? 64 then Run.Ok Longsent
  else
    estimatetype ← estimatetype_of estimates;
    let cfg := mkConfig g tags exhaustive whitelist splitprune markorigin
                        estimates beamwidth lensent estimatetype in
    r ← scan cfg Epsilon 0 sent (initial g);
    match r with
    | NotCovered st t =>
        Run.Ok (Returned (chart st) NONE ("not covered: '" +:+ t +:+ "'. "))
    | Scanned st =>
        ls ← agenda_loop cfg fuel goal (mkLState st ∅ 0);
        let msg := stats ls in
        if bool_decide (is_Some (chart (pstate ls) !! goal)) then
          Run.Ok (Returned (chart (pstate ls)) goal msg)
        else
          Run.Ok (Returned (chart (pstate ls)) NONE ("no parse " +:+ msg))
    end.

End Plcfrs.

(** ** The CFG parser ([cfgparse]) *)

Module Cfg.
Import Bit Containers YieldFunction Plcfrs.

(** A [CFGEdge]: the inside cost, the rule ([None] for [NULL]) and the
    split point. *)
Record CFGEdge := new_CFGEdge { cinside : Z; crule : option Rule; cmid : Z }.

Record CFGChartItem := new_CFGChartItem { clabel : Z; cstart : Z; cend : Z }.

Definition CFGNONE : CFGChartItem := new_CFGChartItem 0 0 0.

(** A two-dimensional array filled with one value at first. *)
Record Matrix := mkMatrix { fill : Z; cells : gmap (Z * Z) Z }.

Definition mget (m : Matrix) (l p : Z) : Z := default (fill m) (cells m !! (l, p)).
Definition mset (m : Matrix) (l p v : Z) : Matrix :=
  mkMatrix (fill m) (<[(l, p) := v]> (cells m)).

(** The five arrays of the parser: the Viterbi costs, where an absent entry
    stands for the initial infinity, and the four split filters. *)
Record Tables := mkTables {
  viterbi : gmap (Z * Z * Z) Z;
  minsplitleft : Matrix;
  maxsplitleft : Matrix;
  minsplitright : Matrix;
  maxsplitright : Matrix
}.

Definition set_cost (t : Tables) (l left right v : Z) : Tables :=
  mkTables (<[(l, left, right) := v]> (viterbi t)) (minsplitleft t)
           (maxsplitleft t) (minsplitright t) (maxsplitright t).

(** The four assignments under [# update filter]. *)
Definition update_filter (t : Tables) (l left right : Z) : Tables :=
  let minl := if left >? mget (minsplitleft t) l right
              then mset (minsplitleft t) l right left else minsplitleft t in
  let maxl := if left <? mget (maxsplitleft t) l right
              then mset (maxsplitleft t) l right left else maxsplitleft t in
  let minr := if right <? mget (minsplitright t) l left
              then mset (minsplitright t) l left right else minsplitright t in
  let maxr := if right >? mget (maxsplitright t) l left
              then mset (maxsplitright t) l left right else maxsplitright t in
  mkTables (viterbi t) minl maxl minr maxr.

(** The chart: [chart[left][right]] is a dictionary from labels to lists of
    edges. *)
Abbreviation Chart := (list (list (gmap Z (list CFGEdge)))).

Definition cell_of (c : Chart) (left right : Z) : gmap Z (list CFGEdge) :=
  default ∅ (c !! Z.to_nat left ≫= (.!! Z.to_nat right)).

(** [chart[left][right][l] = edges]; the indices are within the chart
    wherever the parser writes. *)
Definition store (c : Chart) (left right l : Z) (edges : list CFGEdge) : Chart :=
  alter (alter (<[l := edges]>) (Z.to_nat right)) (Z.to_nat left) c.

(** The state of the parser.  [consulted] is not in the source: it records
    the arrays as they are each time the binary loop reads the filters for
    a rule and a cell [(left, right)]. *)
Record CState := mkCState {
  chart : Chart;
  tables : Tables;
  consulted : list (Rule * Z * Z * Tables)
}.

Definition set_tables (st : CState) (t : Tables) : CState :=
  mkCState (chart st) t (consulted st).
Definition set_chart (st : CState) (c : Chart) : CState :=
  mkCState c (tables st) (consulted st).
Definition observe (st : CState) (rule : Rule) (left right : Z) : CState :=
  mkCState (chart st) (tables st)
           (consulted st ++ [(rule, left, right, tables st)]).

Definition cost (st : CState) (l left right : Z) : option Z :=
  viterbi (tables st) !! (l, left, right).

Section with_grammar.
Variable g : Grammar.
Variable tags : option (list string).

(** The loop over the lexical rules of the word at position [i]. *)
Fixpoint tag_terminals (i : nat) (left right : Z)
    (terminals : list LexicalRule) (st : CState) (recognized : bool)
  : Run.result (CState * bool) :=
  match terminals with
  | [] => Run.Ok (st, recognized)
  | terminal :: rest =>
      ok ← tag_allows g tags i (lex_lhs terminal);
      if ok : bool then
        let l := lex_lhs terminal in
        let x := lex_prob terminal in
        let st := set_chart st (store (chart st) left right l
                                      [new_CFGEdge x None right]) in
        let st := set_tables st
                    (update_filter (set_cost (tables st) l left right x)
                                   l left right) in
        tag_terminals i left right rest st true
      else tag_terminals i left right rest st recognized
  end.

(** The edge appended to the cell of [l], which is created if the label
    has no finite cost yet. *)
Definition append_edge (st : CState) (l left right : Z) (edge : CFGEdge)
  : Run.result CState :=
  cell ← (if bool_decide (is_Some (cost st l left right)) then
            Run.get Run.KeyError (cell_of (chart st) left right !! l)
          else Run.Ok []);
  Run.Ok (set_chart st (store (chart st) left right l (cell ++ [edge]))).

Definition edge_cost : CFGEdge → Z := cinside.

Definition improves (prob : Z) (old : option Z) : bool :=
  match old with Some v => prob <? v | None => true end.

(** The unary rules of [rhs1] on a cell. *)
Fixpoint unary_rules (left right rhs1 : Z) (idxs : list Z)
    (st : CState) (agenda : list (Z * CFGEdge))
  : Run.result (CState * list (Z * CFGEdge)) :=
  match idxs with
  | [] => Run.Ok (st, agenda)
  | i :: idxs' =>
      let rule := unary g rhs1 i in
      if negb (Containers.rhs1 rule =? rhs1) then Run.Ok (st, agenda)
      else
        v ← Run.get Run.TypeError (cost st rhs1 left right);
        let prob := prob rule + v in
        let edge := new_CFGEdge prob (Some rule) right in
        st ← append_edge st (lhs rule) left right edge;
        if improves prob (cost st (lhs rule) left right) then
          let agenda := Agenda.setifbetter edge_cost agenda (lhs rule) edge in
          let st := set_tables st
                      (update_filter
                         (set_cost (tables st) (lhs rule) left right prob)
                         (lhs rule) left right) in
          unary_rules left right rhs1 idxs' st agenda
        else unary_rules left right rhs1 idxs' st agenda
  end.

(** The labels the unary agenda of a cell starts with: those with a finite
    cost and a unary rule. *)
Definition unary_seed (st : CState) (left right : Z) : list (Z * CFGEdge) :=
  flat_map (λ rhs1,
              match cost st rhs1 left right with
              | Some v =>
                  if Containers.rhs1 (unary g rhs1 0) =? rhs1
                  then [(rhs1, new_CFGEdge v None 0)] else []
              | None => []
              end)
           (zrange (nonterminals g)).

(** [while unaryagenda.length]; [fuel] bounds the number of turns. *)
Fixpoint unary_closure (fuel : nat) (left right : Z)
    (agenda : list (Z * CFGEdge)) (st : CState) : Run.result CState :=
  match fuel with
  | O => Run.OutOfFuel
  | S fuel' =>
      match Agenda.popentry edge_cost agenda with
      | None => Run.Ok st
      | Some (entry, agenda') =>
          '(st', agenda'') ← unary_rules left right entry.1
                               (zrange (numrules g)) st agenda';
          unary_closure fuel' left right agenda'' st'
      end
  end.

Definition unaries (fuel : nat) (left right : Z) (st : CState)
  : Run.result CState :=
  unary_closure fuel left right
    (Agenda.update [] (unary_seed st left right)) st.

(** What [cfgparse] has reached after the part on the tags. *)
Inductive tagged :=
| Tagged (st : CState)
| Uncovered (st : CState).

(** One turn of [for i, w in enumerate(sent)]. *)
Definition tag_position (fuel : nat) (i : nat) (w : string) (st : CState)
  : Run.result tagged :=
  let left := Z.of_nat i in
  let right := Z.of_nat i + 1 in
  '(st, recognized) ← tag_terminals i left right
                        (default [] (lexical g !! w)) st false;
  r ← (if negb recognized && negb (no_tags tags) then
         t ← tag_at tags i;
         match toid g !! t with
         | Some l =>
             let st := set_tables st (set_cost (tables st) l left right 0) in
             let st := set_chart st (store (chart st) left right l
                                           [new_CFGEdge 0 None right]) in
             Run.Ok (Some (set_tables st
                             (update_filter (tables st) l left right)))
         | None => Run.Ok None
         end
       else if negb recognized then Run.Ok None
       else Run.Ok (Some st));
  match r with
  | None => Run.Ok (Uncovered st)
  | Some st' => st'' ← unaries fuel left right st'; Run.Ok (Tagged st'')
  end.

Fixpoint tag_positions (fuel : nat) (i : nat) (ws : list string) (st : CState)
  : Run.result tagged :=
  match ws with
  | [] => Run.Ok (Tagged st)
  | w :: ws' =>
      r ← tag_position fuel i w st;
      match r with
      | Tagged st' => tag_positions fuel (S i) ws' st'
      | Uncovered st' => Run.Ok (Uncovered st')
      end
  end.

(** [for mid in range(minmid, maxmid)] *)
Fixpoint mid_loop (rule : Rule) (left right : Z) (mids : list Z)
    (st : CState) (foundbetter : bool) : Run.result (CState * bool) :=
  match mids with
  | [] => Run.Ok (st, foundbetter)
  | mid :: mids' =>
      match cost st (rhs1 rule) left mid, cost st (rhs2 rule) mid right with
      | Some v1, Some v2 =>
          let prob := prob rule + v1 + v2 in
          st ← append_edge st (lhs rule) left right
                 (new_CFGEdge prob (Some rule) mid);
          if improves prob (cost st (lhs rule) left right) then
            mid_loop rule left right mids'
              (set_tables st (set_cost (tables st) (lhs rule) left right prob))
              true
          else mid_loop rule left right mids' st foundbetter
      | _, _ => mid_loop rule left right mids' st foundbetter
      end
  end.

Definition zrange_from (lo hi : Z) : list Z :=
  map (λ k, lo + k) (zrange (hi - lo)).

(** The body of the loop over the binary rules for one rule that is not
    skipped: read the filters, try the admissible split points, update the
    filters. *)
Definition binary_rule (rule : Rule) (left right : Z) (st : CState)
  : Run.result CState :=
  let st := observe st rule left right in
  let t := tables st in
  let narrowr := mget (minsplitright t) (rhs1 rule) left in
  if narrowr >=? right then Run.Ok st
  else
    let narrowl := mget (minsplitleft t) (rhs2 rule) right in
    if narrowl <? narrowr then Run.Ok st
    else
      let widel := mget (maxsplitleft t) (rhs2 rule) right in
      let minmid := if narrowr >? widel then narrowr else widel in
      let wider := mget (maxsplitright t) (rhs1 rule) left in
      let maxmid := 1 + (if wider <? narrowl then wider else narrowl) in
      let oldscore := cost st (lhs rule) left right in
      '(st, foundbetter) ← mid_loop rule left right
                             (zrange_from minmid maxmid) st false;
      if foundbetter && negb (bool_decide (is_Some oldscore)) then
        Run.Ok (set_tables st (update_filter (tables st) (lhs rule) left right))
      else Run.Ok st.

(** The loop over [bylhs[0]], up to the sentinel rule. *)
Fixpoint binary_rules (left right : Z) (idxs : list Z) (st : CState)
  : Run.result CState :=
  match idxs with
  | [] => Run.Ok st
  | i :: idxs' =>
      let rule := bylhs g i in
      if lhs rule =? nonterminals g then Run.Ok st
      else if rhs2 rule =? 0 then binary_rules left right idxs' st
      else
        st' ← binary_rule rule left right st;
        binary_rules left right idxs' st'
  end.

(** One cell: the binary rules, then the unary rules. *)
Definition fill_cell (fuel : nat) (left right : Z) (st : CState)
  : Run.result CState :=
  st' ← binary_rules left right (zrange (numrules g)) st;
  unaries fuel left right st'.

Fixpoint fill_cells (fuel : nat) (span : Z) (lefts : list Z) (st : CState)
  : Run.result CState :=
  match lefts with
  | [] => Run.Ok st
  | left :: lefts' =>
      st' ← fill_cell fuel left (left + span) st;
      fill_cells fuel span lefts' st'
  end.

Fixpoint fill_spans (fuel : nat) (lensent : Z) (spans : list Z) (st : CState)
  : Run.result CState :=
  match spans with
  | [] => Run.Ok st
  | span :: spans' =>
      st' ← fill_cells fuel span (zrange (lensent - span + 1)) st;
      fill_spans fuel lensent spans' st'
  end.

End with_grammar.

Definition empty_tables (lensent : Z) : Tables :=
  mkTables ∅ (mkMatrix (-1) ∅) (mkMatrix (lensent + 1) ∅)
           (mkMatrix (lensent + 1) ∅) (mkMatrix (-1) ∅).

Definition empty_chart (lensent : nat) : Chart :=
  replicate lensent (replicate (S lensent) ∅).

(** [cfgparse]: the state it ends in, and the goal item or [CFGNONE].
    [fuel] bounds the turns of each unary closure. *)
Definition cfgparse (fuel : nat) (sent : list string) (g : Grammar)
    (start : Z) (tags : option (list string))
  : Run.result (CState * CFGChartItem) :=
  let lensent := Z.of_nat (List.length sent) in
  let goal := new_CFGChartItem start 0 lensent in
  Epsilon ← Run.get Run.KeyError (toid g !! "Epsilon");
  let st := mkCState (empty_chart (List.length sent)) (empty_tables lensent) [] in
  r ← tag_positions g tags fuel 0 sent st;
  match r with
  | Uncovered st => Run.Ok (st, CFGNONE)
  | Tagged st =>
      st ← fill_spans g fuel lensent (zrange_from 2 (lensent + 1)) st;
      row ← Run.get Run.IndexError (chart st !! 0%nat);
      cell ← Run.get Run.IndexError (row !! List.length sent);
      if bool_decide (is_Some (cell !! clabel goal)) then Run.Ok (st, goal)
      else Run.Ok (st, CFGNONE)
  end.

End Cfg.

(** ** The lazy k-best enumerator (kbest.pyx) *)

Module Kbest.
Import Containers.

(** An [Edge] as containers.pyx has it: two edges are equal when all their
    fields are.  [kprob] is the cost of the rule of the edge. *)
Record KEdge := mkKEdge {
  kscore : Z; kinside : Z; kprob : Z; kleft : ChartItem; kright : ChartItem
}.

#[global] Instance KEdge_eq_dec : EqDecision KEdge.
Proof. solve_decision. Defined.

#[global] Instance KEdge_countable : Countable KEdge.
Proof.
  refine (inj_countable'
            (λ e, (kscore e, kinside e, kprob e, kleft e, kright e))
            (λ t, mkKEdge t.1.1.1.1 t.1.1.1.2 t.1.1.2 t.1.2 t.2) _).
  by intros [].
Defined.

(** The edge [edge] derives [head] from the [rleft]-th best derivation of
    its left child and the [rright]-th best of its right child; [rright]
    is -1 when there is no right child. *)
Record RankedEdge := mkRankedEdge {
  head : ChartItem; edge : KEdge; rleft : Z; rright : Z
}.

#[global] Instance RankedEdge_eq_dec : EqDecision RankedEdge.
Proof. solve_decision. Defined.

#[global] Instance RankedEdge_countable : Countable RankedEdge.
Proof.
  refine (inj_countable' (λ r, (head r, edge r, rleft r, rright r))
            (λ t, mkRankedEdge t.1.1.1 t.1.1.2 t.1.2 t.2) _).
  by intros [].
Defined.

(** An entry of an agenda or of a ranked list: a ranked edge and its
    cost. *)
Abbreviation Entry := (RankedEdge * Z)%type.

(** The chart: the edges of each item ([chart[v].values()]). *)
Abbreviation KChart := (gmap ChartItem (list KEdge)).

(** The tables of one request: [D], [cand] and [explored]. *)
Record KState := mkKState {
  D : gmap ChartItem (list Entry);
  cand : gmap ChartItem (list Entry);
  explored : gset RankedEdge
}.

Definition set_D (st : KState) d := mkKState d (cand st) (explored st).
Definition set_cand (st : KState) c := mkKState (D st) c (explored st).

(** The agendas of the enumerator are ordered by the cost itself. *)
Definition cost_prio : Z → Z := id.

(** The rank vector a fresh candidate starts with. *)
Definition first_ranks (v : ChartItem) (el : KEdge) : RankedEdge :=
  mkRankedEdge v el 0 (if label (kright el) =? 0 then -1 else 0).

(** [getcandidates]: a heap with up to [k] candidate arcs of [v]. *)
Definition getcandidates (chart : KChart) (v : ChartItem) (k : Z)
  : list Entry :=
  match chart !! v with
  | None => []
  | Some edges =>
      Agenda.update []
        (map (λ el, (first_ranks v el, kinside el))
             (Agenda.nsmallest kscore k edges))
  end.

(** [min(chart[ei])]: the edge of least score, the first of them. *)
Fixpoint min_edge (edges : list KEdge) : option KEdge :=
  match edges with
  | [] => None
  | e :: rest =>
      match min_edge rest with
      | None => Some e
      | Some m => if kscore m <? kscore e then Some m else Some e
      end
  end.

(** The cost of the [j]-th best derivation of the child [ei], as [getprob]
    reads it. *)
Definition child_cost (chart : KChart) (d : gmap ChartItem (list Entry))
    (ei : ChartItem) (j : Z) : Run.result Z :=
  match d !! ei with
  | Some l =>
      entry ← Run.get Run.IndexError (l !! Z.to_nat j); Run.Ok entry.2
  | None =>
      if j =? 0 then
        edges ← Run.get Run.KeyError (chart !! ei);
        e ← Run.get Run.ValueError (min_edge edges);
        Run.Ok (kinside e)
      else Run.Raise Run.ValueError
  end.

(** [getprob] *)
Definition getprob (chart : KChart) (d : gmap ChartItem (list Entry))
    (ej : RankedEdge) : Run.result Z :=
  prob ← child_cost chart d (kleft (edge ej)) (rleft ej);
  let result := kprob (edge ej) + prob in
  if rright ej >=? 0 then
    prob ← child_cost chart d (kright (edge ej)) (rright ej);
    Run.Ok (result + prob)
  else Run.Ok result.

Definition agenda_of (st : KState) (v : ChartItem) : list Entry :=
  default [] (cand st !! v).
Definition ranked (st : KState) (v : ChartItem) : list Entry :=
  default [] (D st !! v).

Section with_chart.
Variable chart : KChart.
(** [k1], the number of derivations asked for at the root. *)
Variable k1 : Z.

(** One side of [lazynext]: after the subproblem of the child [ei] has been
    solved, the neighbour [ej1] is put on the heap of its head if the child
    has a derivation of that rank and the neighbour is new. *)
Definition push_neighbour (ei : ChartItem) (rank : Z) (ej1 : RankedEdge)
    (st : KState) : Run.result KState :=
  match D st !! ei with
  | Some l =>
      if (rank <? Z.of_nat (List.length l))
         && negb (bool_decide (ej1 ∈ explored st)) then
        prob ← getprob chart (D st) ej1;
        heap ← Run.get Run.KeyError (cand st !! head ej1);
        Run.Ok (mkKState (D st)
                  (<[head ej1 := Agenda.setitem heap ej1 prob]> (cand st))
                  ({[ej1]} ∪ explored st))
      else Run.Ok st
  | None => Run.Ok st
  end.

(** [lazynext], given the function that solves a subproblem. *)
Definition lazynext (solve : ChartItem → Z → KState → Run.result KState)
    (ej : RankedEdge) (st : KState) : Run.result KState :=
  let ei := kleft (edge ej) in
  let ej1 := mkRankedEdge (head ej) (edge ej) (rleft ej + 1) (rright ej) in
  st ← solve ei (rleft ej1 + 1) st;
  st ← push_neighbour ei (rleft ej1) ej1 st;
  if rright ej >=? 0 then
    let ei := kright (edge ej) in
    let ej1 := mkRankedEdge (head ej) (edge ej) (rleft ej) (rright ej + 1) in
    st ← solve ei (rright ej1 + 1) st;
    push_neighbour ei (rright ej1) ej1 st
  else Run.Ok st.

(** The [while] loop of [lazykthbest].  Each turn but the last adds a
    derivation to [D[v]], so [n] turns are enough when [n] is above the
    number of derivations still missing. *)
Fixpoint kth_loop (solve : ChartItem → Z → KState → Run.result KState)
    (n : nat) (v : ChartItem) (k : Z) (st : KState) : Run.result KState :=
  match n with
  | O => Run.Ok st
  | S n' =>
      if bool_decide (is_Some (D st !! v))
         && negb (Z.of_nat (List.length (ranked st v)) <? k) then Run.Ok st
      else
        st ← match D st !! v with
             | Some l =>
                 entry ← Run.get Run.IndexError (last l);
                 lazynext solve entry.1 st
             | None => Run.Ok st
             end;
        heap ← Run.get Run.KeyError (cand st !! v);
        match Agenda.popentry cost_prio heap with
        | Some (entry, heap') =>
            kth_loop solve n' v k
              (mkKState (<[v := ranked st v ++ [entry]]> (D st))
                        (<[v := heap']> (cand st)) (explored st))
        | None => Run.Ok st
        end
  end.

(** [lazykthbest]; [fuel] bounds the depth of the recursion through
    [lazynext]. *)
Fixpoint lazykthbest (fuel : nat) (v : ChartItem) (k : Z) (st : KState)
  : Run.result KState :=
  match fuel with
  | O => Run.OutOfFuel
  | S fuel' =>
      let st := if bool_decide (is_Some (cand st !! v)) then st
                else set_cand st (<[v := getcandidates chart v k1]> (cand st)) in
      kth_loop (lazykthbest fuel') (S (Z.to_nat k)) v k st
  end.

End with_chart.

End Kbest.

(** ** Grammars to run the parsers on *)

Module Driver.
Import Bit Containers YieldFunction Plcfrs.

(** A rule array read by label and position; past its end, and for a label
    without rules, it gives the sentinel, whose labels match nothing. *)
Definition sentinel : Rule := mkRule 100 100 100 0 0 0 0.

Definition table (rows : list (Z * list Rule)) (lab i : Z) : Rule :=
  match list_find (λ row, row.1 = lab) rows with
  | Some (_, (_, rules)) => nth (Z.to_nat i) rules sentinel
  | None => sentinel
  end.

Definition labels_of (names : list string) : gmap string Z :=
  list_to_map (zip names (zrange_nat (List.length names))).

Definition label_name (names : list string) (l : Z) : string :=
  nth (Z.to_nat l) names "".

(** The grammar of [main]:
    S -> VP2 VMFIN ((0,1,0),);  VP2 -> VP2 VAINF ((0,),(0,1));
    VP2 -> PROAV VVPP ((0,),(1,)); and one word for each tag.  The costs
    are whole numbers here. *)
Definition nt_S : Z := 1.
Definition nt_VP2 : Z := 2.
Definition nt_VMFIN : Z := 3.
Definition nt_PROAV : Z := 4.
Definition nt_VAINF : Z := 5.
Definition nt_VVPP : Z := 6.

Definition names : list string :=
  ["Epsilon"; "S"; "VP2"; "VMFIN"; "PROAV"; "VAINF"; "VVPP"].

Definition rule_S : Rule := mkRule nt_S nt_VP2 nt_VMFIN 2 4 0 0.
Definition rule_VP2_VAINF : Rule := mkRule nt_VP2 nt_VP2 nt_VAINF 4 5 1 1.
Definition rule_VP2_VVPP : Rule := mkRule nt_VP2 nt_PROAV nt_VVPP 2 3 1 2.

Definition german : Grammar :=
  mkGrammar (labels_of names) (label_name names) 3 7
    (list_to_map [("Daruber", [mkLexicalRule nt_PROAV 0]);
                  ("werden", [mkLexicalRule nt_VAINF 0]);
                  ("muss", [mkLexicalRule nt_VMFIN 0]);
                  ("nachgedacht", [mkLexicalRule nt_VVPP 0])])
    (table [])
    (table [(nt_VP2, [rule_S; rule_VP2_VAINF]); (nt_PROAV, [rule_VP2_VVPP])])
    (table [(nt_VMFIN, [rule_S]); (nt_VAINF, [rule_VP2_VAINF]);
            (nt_VVPP, [rule_VP2_VVPP])])
    (λ _, sentinel)
    (λ l, if l =? nt_VP2 then 2 else 1).

(** A grammar with three tags for one word:
    S -> A3 B ((0,1),); a -> A1 | A2 | A3 (the last at cost 1); b -> B. *)
Definition nt_A1 : Z := 2.
Definition nt_A2 : Z := 3.
Definition nt_A3 : Z := 4.
Definition nt_B : Z := 5.

Definition tag_names : list string := ["Epsilon"; "S"; "A1"; "A2"; "A3"; "B"].

Definition rule_S_A3_B : Rule := mkRule nt_S nt_A3 nt_B 2 2 0 0.

Definition three_tags : Grammar :=
  mkGrammar (labels_of tag_names) (label_name tag_names) 1 6
    (list_to_map [("a", [mkLexicalRule nt_A1 0; mkLexicalRule nt_A2 0;
                         mkLexicalRule nt_A3 1]);
                  ("b", [mkLexicalRule nt_B 0])])
    (table [])
    (table [(nt_A3, [rule_S_A3_B])])
    (table [(nt_B, [rule_S_A3_B])])
    (λ _, sentinel)
    (λ _, 1).


Definition two_words : list string := ["a"; "b"].



(** Gold tags for "a b" of which the first matches no lexical rule of "a",
    and an estimate that is above the threshold at position 0 only. *)
Definition gold_tags : list string := ["B"; "B"].

Definition steep_outside (lhs left right gaps : Z) : Z :=
  if left =? 0 then 301 else 0.

(** The grammar of the last test of [main], without its unary cycles:
    S -> D; D -> NP VP; mary -> NP; walks -> VP. *)
Definition nt_D : Z := 2.
Definition nt_NP : Z := 3.
Definition nt_VP : Z := 4.

Definition cfg_names : list string := ["Epsilon"; "S"; "D"; "NP"; "VP"].

Definition rule_S_D : Rule := mkRule nt_S nt_D 0 0 1 1 0.
Definition rule_D_NP_VP : Rule := mkRule nt_D nt_NP nt_VP 2 2 0 1.

(** [bylhs[0]]: all the rules, ended by a rule whose left-hand side is the
    number of nonterminals. *)
Definition all_rules (n : Z) (rules : list Rule) (i : Z) : Rule :=
  nth (Z.to_nat i) rules (mkRule n 0 0 0 0 0 0).

Definition mary_walks : Grammar :=
  mkGrammar (labels_of cfg_names) (label_name cfg_names) 2 5
    (list_to_map [("mary", [mkLexicalRule nt_NP 0]);
                  ("walks", [mkLexicalRule nt_VP 0])])
    (table [(nt_D, [rule_S_D])])
    (table [(nt_NP, [rule_D_NP_VP])])
    (table [(nt_VP, [rule_D_NP_VP])])
    (all_rules 5 [rule_S_D; rule_D_NP_VP])
    (λ _, 1).

(** One nonterminal that derives every span: X -> X X; a -> X. *)
Definition nt_X : Z := 1.

Definition rule_X_X_X : Rule := mkRule nt_X nt_X nt_X 2 2 1 0.

Definition doubling : Grammar :=
  mkGrammar (labels_of ["Epsilon"; "X"]) (label_name ["Epsilon"; "X"]) 1 2
    (list_to_map [("a", [mkLexicalRule nt_X 0])])
    (table [])
    (table [(nt_X, [rule_X_X_X])])
    (table [(nt_X, [rule_X_X_X])])
    (all_rules 2 [rule_X_X_X])
    (λ _, 1).

Definition three_words : list string := ["a"; "a"; "a"].

End Driver.

(** ** A chart to run the enumerator on *)

Module KbestDriver.
Import Containers Kbest.

(** The chart of "Mary walks": S over both words from NP and VP, two edges
    for NP, the words as items with label 0. *)
Definition item_S : ChartItem := new_ChartItem 1 3.
Definition item_NP : ChartItem := new_ChartItem 2 1.
Definition item_VP : ChartItem := new_ChartItem 5 2.
Definition word_at (i : Z) : ChartItem := new_ChartItem 0 i.

Definition mary_chart_edges : list (ChartItem * list KEdge) :=
  [(item_S, [mkKEdge 4 4 1 item_NP item_VP]);
   (item_NP, [mkKEdge 1 1 1 (word_at 0) (new_ChartItem 0 0);
              mkKEdge 2 2 2 (word_at 0) (new_ChartItem 0 0)]);
   (item_VP, [mkKEdge 2 2 2 (word_at 1) (new_ChartItem 0 0)])].

Definition mary_chart : KChart := list_to_map mary_chart_edges.

(** The height of an item of [mary_chart] above the words. *)
Definition height (v : ChartItem) : nat :=
  if label v =? 0 then 0%nat else if label v =? 1 then 2%nat else 1%nat.

(** The tables after [lazykthbest] has been asked for the two best
    derivations of S. *)
Definition mary_tables : KState :=
  Eval vm_compute in
    match lazykthbest mary_chart 2 5 item_S 2 (mkKState ∅ ∅ ∅) with
    | Run.Ok st => st
    | _ => mkKState ∅ ∅ ∅
    end.

End KbestDriver.

(** ** Runs of the parsers on the grammars of [Driver] *)

Module Runs.
Import Containers Plcfrs Cfg.

(** [parse] on "a b" with the grammar of three tags. *)
Definition ab_parse : Run.result parsed :=
  parse 10 Driver.two_words Driver.three_tags None Driver.nt_S false None
        false false None 0.

Definition ab_chart : gmap ChartItem (list LEdge) :=
  Eval vm_compute in
    match ab_parse with Run.Ok (Returned c _ _) => c | _ => ∅ end.

Definition ab_item : ChartItem :=
  Eval vm_compute in
    match ab_parse with Run.Ok (Returned _ item _) => item | _ => NONE end.

Definition ab_message : string :=
  Eval vm_compute in
    match ab_parse with Run.Ok (Returned _ _ msg) => msg | _ => "" end.

(** [cfgparse] on "a a a" with the grammar of one nonterminal. *)
Definition aaa_cfgparse : Run.result (CState * CFGChartItem) :=
  cfgparse 10 Driver.three_words Driver.doubling Driver.nt_X None.

Definition aaa_state : CState :=
  Eval vm_compute in
    match aaa_cfgparse with
    | Run.Ok (st, _) => st
    | _ => mkCState [] (empty_tables 0) []
    end.

Definition aaa_goal : CFGChartItem :=
  Eval vm_compute in
    match aaa_cfgparse with Run.Ok (_, goal) => goal | _ => CFGNONE end.

End Runs.

(** * Properties *)

(** ** Bit-span primitives *)

Module BitFacts.
Import Bit.

Lemma scanset_found fuel v i j :
  0 ≤ i ≤ j → j < i + Z.of_nat fuel → Z.testbit v j = true →
  i ≤ scanset fuel v i ≤ j ∧ Z.testbit v (scanset fuel v i) = true.
Proof.
  revert i. induction fuel as [|fuel IH]; intros i Hij Hj Hbit; [lia|].
  simpl. destruct (Z.testbit v i) eqn:Hi; [split; [lia|done]|].
  assert (i ≠ j) by (intros ->; congruence).
  destruct (IH (i + 1)) as [? ?]; [lia|lia|done|]. split; [lia|done].
Qed.

Lemma scanset_none fuel v i :
  scanset fuel v i = -1 → 0 ≤ i →
  ∀ j, i ≤ j < i + Z.of_nat fuel → Z.testbit v j = false.
Proof.
  revert i. induction fuel as [|fuel IH]; intros i Hs Hi j Hj; [lia|].
  simpl in Hs. destruct (Z.testbit v i) eqn:Hb; [lia|].
  destruct (decide (j = i)) as [->|]; [done|]. apply (IH (i + 1)); [done|lia|lia].
Qed.

(** A non-empty word has a lowest set bit. *)
Lemma nextset_nonempty v : 0 < v < 2 ^ 64 → 0 ≤ nextset v 0 < 64.
Proof.
  intros [Hpos Hlt]. unfold nextset.
  assert (Hlog : 0 ≤ Z.log2 v < 64).
  { split; [apply Z.log2_nonneg|]. by apply Z.log2_lt_pow2. }
  destruct (scanset_found (Z.to_nat (64 - 0)) v 0 (Z.log2 v)) as [? ?];
    [lia|lia|by apply Z.bit_log2|lia].
Qed.

(** The span of position [j]. *)
Lemma unit_span j : 0 ≤ j < 64 → wrap64 (Z.shiftl 1 j) = 2 ^ j.
Proof.
  intros Hj. unfold wrap64. rewrite Z.shiftl_1_l. apply Z.mod_small.
  split; [apply Z.pow_nonneg; lia|apply Z.pow_lt_mono_r; lia].
Qed.



End BitFacts.

(** ** Chart items *)

Module ContainersFacts.
Import Containers.

(** C9.  The less-than of [ChartItem] is the disjunction of the less-thans
    of the two fields, not their lexicographic combination; so there are
    distinct items each less than the other, and the comparison is neither
    antisymmetric nor a strict order. *)
Theorem ChartItem_lt_disjunctive :
  (∀ a b, ChartItem_richcmp a b 0
          = Some ((label a <? label b) || (vec a <? vec b)))
  ∧ (∃ a b, a ≠ b ∧ ChartItem_lt a b ∧ ChartItem_lt b a)
  ∧ ¬ (∀ a b, ChartItem_lt a b → ¬ ChartItem_lt b a).
Proof.
  split; [reflexivity|].
  assert (Hw : ChartItem_lt (new_ChartItem 1 2) (new_ChartItem 2 1)
               ∧ ChartItem_lt (new_ChartItem 2 1) (new_ChartItem 1 2))
    by (split; reflexivity).
  split.
  - exists (new_ChartItem 1 2), (new_ChartItem 2 1).
    split; [discriminate|exact Hw].
  - intros Hasym. destruct Hw as [H1 H2]. exact (Hasym _ _ H1 H2).
Qed.

End ContainersFacts.

(** ** [concat] and [fatconcat] *)

Module ConcatFacts.
Import Bit Containers YieldFunction Plcfrs.

(** The plain concatenation [((0, 1),)]. *)
Definition plain_concatenation : Rule := mkRule 1 2 3 2 2 0 0.

(** The left child covers positions 1 and 2, the right child positions 0
    and 3. *)
Definition inner_span : Z := 6.
Definition outer_span : Z := 9.

(** [concat] returns [False] as soon as the two vectors overlap. *)
Lemma concat_overlap rule lvec rvec :
  Z.land lvec rvec ≠ 0 → concat rule lvec rvec = false.
Proof.
  intros H. unfold concat.
  destruct (Z.eqb_spec (Z.land lvec rvec) 0); [contradiction|reflexivity].
Qed.

Lemma concat_disjoint rule lvec rvec :
  concat rule lvec rvec = true → Z.land lvec rvec = 0.
Proof.
  intros H. destruct (decide (Z.land lvec rvec = 0)) as [|Hne]; [done|].
  rewrite (concat_overlap _ _ _ Hne) in H. discriminate.
Qed.

(** C1, at the input on which the source departs from it.  [concat] accepts
    the plain concatenation of a left child over positions 1-2 and a right
    child over positions 0 and 3: taking the first run of the left child
    wipes the lower run of the right child instead of rejecting it.  The
    yield function applied to the runs of the two children does not give
    the runs of the union. *)
Theorem concat_accepts_wrong_order :
  concat plain_concatenation inner_span outer_span = true
  ∧ runs inner_span = [(1, 3)]
  ∧ runs outer_span = [(0, 1); (3, 4)]
  ∧ runs (Z.lor inner_span outer_span) = [(0, 4)]
  ∧ apply_yield (decode plain_concatenation) (runs inner_span)
                (runs outer_span) = None
  ∧ ¬ yields plain_concatenation inner_span outer_span.
Proof.
  repeat split; try reflexivity.
  unfold yields. vm_compute. discriminate.
Qed.

(** C2, at the same input: [fatconcat] rejects what [concat] accepts, on its
    fast path for the plain concatenation. *)
Theorem concat_fatconcat_differ :
  (2 =? args plain_concatenation) && (args plain_concatenation
                                      =? lengths plain_concatenation) = true
  ∧ concat plain_concatenation inner_span outer_span = true
  ∧ fatconcat plain_concatenation (widen inner_span) (widen outer_span)
    = false.
Proof. repeat split; reflexivity. Qed.

(** The same disagreement away from the fast path, for the yield function
    [((1, 0),)]. *)
Lemma concat_fatconcat_differ_general :
  let rule := mkRule 1 2 3 1 2 0 0 in
  concat rule outer_span inner_span = true
  ∧ fatconcat rule (widen outer_span) (widen inner_span) = false.
Proof. split; reflexivity. Qed.

End ConcatFacts.

(** ** The agenda *)

Module AgendaFacts.
Import Agenda.

Section facts.
Context {K V : Type} `{EqDecision K}.
Variable prio : V → Z.
Implicit Types (a : list (K * V)) (k : K) (v : V).

Lemma getitem_None a k : getitem a k = None ↔ ∀ v, (k, v) ∉ a.
Proof.
  induction a as [|[k' v'] a IH]; simpl.
  - split; [intros _ v Hin; inversion Hin|done].
  - destruct (decide (k' = k)) as [->|Hne].
    + split; [done|]. intros Hall. destruct (Hall v'). left.
    + rewrite IH. split.
      * intros Hall v Hin. apply elem_of_cons in Hin as [[= <- <-]|Hin];
          [done|by apply (Hall v)].
      * intros Hall v Hin. apply (Hall v). by right.
Qed.

Lemma getitem_Some_elem a k v : getitem a k = Some v → (k, v) ∈ a.
Proof.
  induction a as [|[k' v'] a IH]; simpl; [done|].
  destruct (decide (k' = k)) as [->|Hne].
  - intros [= ->]. left.
  - intros Hg. right. auto.
Qed.

Lemma getitem_app a1 a2 k :
  getitem (a1 ++ a2) k
  = match getitem a1 k with Some v => Some v | None => getitem a2 k end.
Proof.
  induction a1 as [|[k' v'] a1 IH]; simpl; [done|].
  by destruct (decide (k' = k)).
Qed.

Lemma getitem_remove_eq a k : getitem (remove a k) k = None.
Proof.
  apply getitem_None. intros v Hin. unfold remove in Hin.
  apply list_elem_of_filter in Hin as [Hne _]. by apply Hne.
Qed.

Lemma getitem_remove_ne a k k' : k ≠ k' → getitem (remove a k) k' = getitem a k'.
Proof.
  intros Hne. induction a as [|[k0 v0] a IH]; [done|].
  unfold remove in *. rewrite filter_cons. simpl.
  destruct (decide (k0 ≠ k)) as [Hk|Hk]; simpl.
  - destruct (decide (k0 = k')); [done|apply IH].
  - apply dec_stable in Hk as ->.
    destruct (decide (k = k')); [done|apply IH].
Qed.

Lemma getitem_setitem_eq a k v : getitem (setitem a k v) k = Some v.
Proof.
  unfold setitem. rewrite getitem_app, getitem_remove_eq. simpl.
  by rewrite decide_True.
Qed.

Lemma getitem_setitem_ne a k k' v :
  k ≠ k' → getitem (setitem a k v) k' = getitem a k'.
Proof.
  intros Hne. unfold setitem. rewrite getitem_app, getitem_remove_ne by done.
  destruct (getitem a k'); [done|]. simpl. by rewrite decide_False.
Qed.

Lemma contains_true a k : contains a k = true ↔ is_Some (getitem a k).
Proof. unfold contains. apply bool_decide_eq_true. Qed.

Lemma contains_false a k : contains a k = false ↔ getitem a k = None.
Proof.
  unfold contains. rewrite bool_decide_eq_false, eq_None_not_Some. done.
Qed.

(** The keys of an agenda after [agenda[k] = v]. *)
Lemma elem_of_setitem a k v k' v' :
  (k', v') ∈ setitem a k v → (k' = k ∧ v' = v) ∨ (k', v') ∈ a.
Proof.
  unfold setitem, remove. rewrite elem_of_app, list_elem_of_filter.
  intros [[_ Hin]|Hin]; [by right|].
  apply list_elem_of_singleton in Hin as [= -> ->]. by left.
Qed.

Lemma elem_of_setifbetter a k v k' v' :
  (k', v') ∈ setifbetter prio a k v → (k' = k ∧ v' = v) ∨ (k', v') ∈ a.
Proof.
  unfold setifbetter. destruct (getitem a k) as [old|].
  - destruct (prio v <? prio old); [apply elem_of_setitem|by right].
  - apply elem_of_setitem.
Qed.

(** [set_if_better] keeps, of the old and the new value, the one of lower
    priority value; the old one on a tie. *)
Lemma getitem_setifbetter_eq a k v old :
  getitem a k = Some old →
  getitem (setifbetter prio a k v) k
  = Some (if prio v <? prio old then v else old).
Proof.
  intros Hold. unfold setifbetter. rewrite Hold.
  destruct (prio v <? prio old); [apply getitem_setitem_eq|done].
Qed.

Lemma getitem_setifbetter_ne a k k' v :
  k ≠ k' → getitem (setifbetter prio a k v) k' = getitem a k'.
Proof.
  intros Hne. unfold setifbetter. destruct (getitem a k) as [old|].
  - destruct (prio v <? prio old); [by apply getitem_setitem_ne|done].
  - by apply getitem_setitem_ne.
Qed.

Lemma minentry_elem a e : minentry prio a = Some e → e ∈ a.
Proof.
  revert e. induction a as [|e0 a IH]; simpl; [done|]. intros e.
  destruct (minentry prio a) as [m|].
  - destruct (prio m.2 <? prio e0.2); intros [= <-]; [right; auto|left].
  - intros [= <-]. left.
Qed.

(** The extracted entry has the least priority value. *)
Lemma minentry_least a e :
  minentry prio a = Some e → ∀ e', e' ∈ a → prio e.2 ≤ prio e'.2.
Proof.
  revert e. induction a as [|e0 a IH]; simpl; [done|]. intros e.
  destruct (minentry prio a) as [m|] eqn:Hm.
  - destruct (Z.ltb_spec (prio m.2) (prio e0.2)); intros [= <-] e' Hin;
      apply elem_of_cons in Hin as [->|Hin]; try lia.
    + by apply IH.
    + specialize (IH m eq_refl e' Hin). lia.
  - intros [= <-] e' Hin. apply elem_of_cons in Hin as [->|Hin]; [lia|].
    destruct a; [inversion Hin|]. simpl in Hm.
    destruct (minentry prio a); [destruct (_ <? _)|]; discriminate.
Qed.

Lemma minentry_is_Some a : a ≠ [] → is_Some (minentry prio a).
Proof.
  destruct a as [|e a]; [done|]. intros _. simpl.
  destruct (minentry prio a); [destruct (_ <? _)|]; eauto.
Qed.

Lemma popentry_elem a e a' :
  popentry prio a = Some (e, a') → e ∈ a ∧ ∀ x, x ∈ a' → x ∈ a.
Proof.
  unfold popentry. destruct (minentry prio a) as [m|] eqn:Hm; [|done].
  intros [= <- <-]. split; [by eapply minentry_elem|].
  intros x Hx. unfold remove in Hx. by apply list_elem_of_filter in Hx as [_ ?].
Qed.

End facts.

End AgendaFacts.

(** ** [process_edge] *)

Module ProcessEdgeFacts.
Import Bit Containers Plcfrs.

(** The five cases of the arbitration, in the words of the
    specification. *)
Inductive arbitration :=
| NewItem              (* in neither the agenda nor the chart *)
| FirstParseInAgenda   (* not exhaustive, in the agenda *)
| DecreaseKey          (* in the agenda, strictly better inside *)
| Reinsert             (* not in the agenda, strictly better than Viterbi *)
| Otherwise.           (* a suboptimal edge of an admitted item *)

Definition better (inside : Z) (than : option Z) : bool :=
  match than with Some i => inside <? i | None => false end.

(** The case that applies: the first of the five, in their order, whose
    condition holds. *)
Definition arbitrate (inagenda inchart exhaustive : bool)
    (agenda_inside viterbi_inside : option Z) (inside : Z) : arbitration :=
  if negb inagenda && negb inchart then NewItem
  else if negb exhaustive && inagenda then FirstParseInAgenda
  else if inagenda && better inside agenda_inside then DecreaseKey
  else if negb inagenda && better inside viterbi_inside then Reinsert
  else Otherwise.

(** The Viterbi edge of an item, if it has one. *)
Definition viterbi_edge (st : PState) (item : ChartItem) : option LEdge :=
  viterbi st !! Z.to_nat (label item) ≫= (.!! item).

(** Everything but the entries of [item] in the agenda and the chart is
    as before. *)
Definition same_elsewhere (item : ChartItem) (st st' : PState) : Prop :=
  (∀ k, k ≠ item →
        Agenda.getitem (agenda st') k = Agenda.getitem (agenda st) k
        ∧ chart st' !! k = chart st !! k)
  ∧ viterbi st' = viterbi st.

Ltac solve_same :=
  split; [|done]; intros ? ?; simpl;
  rewrite ?AgendaFacts.getitem_setitem_ne, ?AgendaFacts.getitem_setifbetter_ne,
    ?lookup_insert_ne by done;
  done.

(** C4.  For every candidate edge exactly one of the five cases applies,
    the first in their order whose condition holds, and [process_edge]
    does what that case prescribes:
    (1) a new item is put through the whitelist and then inserted into the
        agenda with an empty chart entry;
    (2) in first-parse mode an item of the agenda keeps the edge of lower
        score;
    (3) an item of the agenda with a strictly better inside gets the new
        edge, and the old agenda edge goes to the chart;
    (4) an item outside the agenda with an inside strictly better than its
        Viterbi edge is inserted again and a warning is logged;
    (5) otherwise the edge is appended to the chart in exhaustive mode, and
        nothing happens in first-parse mode. *)
Theorem process_edge_five_cases
    newitem score inside prob ruleno left right st exhaustive whitelist
    splitprune markorigin :
  let edge := new_Edge score inside prob ruleno left right in
  let old := Agenda.getitem (agenda st) newitem in
  let best := viterbi_edge st newitem in
  let r := process_edge newitem score inside prob ruleno left right st
             exhaustive whitelist splitprune markorigin in
  match arbitrate (Agenda.contains (agenda st) newitem)
          (bool_decide (is_Some (chart st !! newitem))) exhaustive
          (Containers.inside <$> old) (Containers.inside <$> best) inside with
  | NewItem =>
      match whitelist_rejects whitelist splitprune markorigin newitem with
      | Run.Ok true =>
          r = Run.Ok (set_blocked st (wrap32 (blocked st + 1)), false)
      | Run.Ok false =>
          ∃ st', r = Run.Ok (st', true)
                 ∧ Agenda.getitem (agenda st') newitem = Some edge
                 ∧ chart st' !! newitem = Some []
                 ∧ same_elsewhere newitem st st'
                 ∧ blocked st' = blocked st ∧ warnings st' = warnings st
      | Run.Raise e => r = Run.Raise e
      | Run.OutOfFuel => r = Run.OutOfFuel
      end
  | FirstParseInAgenda =>
      ∃ o st', old = Some o ∧ r = Run.Ok (st', true)
               ∧ Agenda.getitem (agenda st') newitem
                 = Some (if score <? Containers.score o then edge else o)
               ∧ same_elsewhere newitem st st' ∧ chart st' = chart st
               ∧ blocked st' = blocked st ∧ warnings st' = warnings st
  | DecreaseKey =>
      ∃ o, old = Some o ∧ inside < Containers.inside o
           ∧ match chart st !! newitem with
             | Some cell =>
                 ∃ st', r = Run.Ok (st', true)
                        ∧ Agenda.getitem (agenda st') newitem = Some edge
                        ∧ chart st' !! newitem = Some (cell ++ [iscore o])
                        ∧ same_elsewhere newitem st st'
                        ∧ blocked st' = blocked st
                        ∧ warnings st' = warnings st
             | None => r = Run.Raise Run.KeyError
             end
  | Reinsert =>
      ∃ b st', best = Some b ∧ inside < Containers.inside b
               ∧ r = Run.Ok (st', true)
               ∧ Agenda.getitem (agenda st') newitem = Some edge
               ∧ same_elsewhere newitem st st' ∧ chart st' = chart st
               ∧ blocked st' = blocked st
               ∧ warnings st' = warnings st ++ [newitem]
  | Otherwise =>
      if Agenda.contains (agenda st) newitem || bool_decide (is_Some best) then
        if exhaustive then
          match chart st !! newitem with
          | Some cell =>
              ∃ st', r = Run.Ok (st', true)
                     ∧ chart st' !! newitem = Some (cell ++ [iscore edge])
                     ∧ agenda st' = agenda st
                     ∧ same_elsewhere newitem st st'
                     ∧ blocked st' = blocked st
                     ∧ warnings st' = warnings st
          | None => r = Run.Raise Run.KeyError
          end
        else r = Run.Ok (st, true)
      else ∃ e, r = Run.Raise e
  end.
Proof.
  intros edge old best r. subst r. unfold process_edge, arbitrate.
  fold edge. fold old.
  destruct (Agenda.contains (agenda st) newitem) eqn:Hin; simpl.
  - (* in the agenda *)
    apply AgendaFacts.contains_true in Hin as [o Ho].
    unfold old in *. rewrite Ho. simpl.
    destruct exhaustive; simpl.
    + destruct (Z.ltb_spec inside (Containers.inside o)) as [Hlt|Hge]; simpl.
      * exists o. split; [done|]. split; [done|].
        destruct (chart st !! newitem) as [cell|] eqn:Hc; simpl; [|done].
        unfold Agenda.replace. rewrite Ho. simpl.
        eexists. split; [done|]. simpl.
        rewrite AgendaFacts.getitem_setitem_eq, lookup_insert_eq.
        split_and!; try done. solve_same.
      * destruct (chart st !! newitem) as [cell|] eqn:Hc; simpl; [|done].
        eexists. split; [done|]. simpl. rewrite lookup_insert_eq.
        split_and!; try done. solve_same.
    + exists o. eexists. split; [done|]. split; [done|]. simpl.
      rewrite (AgendaFacts.getitem_setifbetter_eq _ _ _ _ _ Ho).
      split_and!; try done. solve_same.
  - (* not in the agenda *)
    destruct (bool_decide (is_Some (chart st !! newitem))) eqn:Hc; simpl.
    + (* in the chart *)
      replace (negb exhaustive && false) with false by (by destruct exhaustive).
      unfold best, viterbi_edge.
      destruct (viterbi st !! Z.to_nat (label newitem)) as [d|]; simpl;
        [|eauto].
      destruct (d !! newitem) as [b|]; simpl; [|eauto].
      destruct (Z.ltb_spec inside (Containers.inside b)) as [Hlt|Hge]; simpl.
      * exists b. eexists. split_and!; try done.
        -- simpl. apply AgendaFacts.getitem_setitem_eq.
        -- solve_same.
      * destruct exhaustive; [|done].
        apply bool_decide_eq_true in Hc as [cell Hcell]. rewrite Hcell. simpl.
        eexists. split; [done|]. simpl. rewrite lookup_insert_eq.
        split_and!; try done. solve_same.
    + (* a new item *)
      destruct (whitelist_rejects whitelist splitprune markorigin newitem)
        as [[|]|e|]; simpl; try done.
      eexists. split; [done|]. simpl.
      rewrite AgendaFacts.getitem_setitem_eq, lookup_insert_eq.
      split_and!; try done. solve_same.
Qed.

Lemma split_rejects_step fuel markorigin entry v a cnt :
  split_rejects (S fuel) markorigin entry v a cnt
  = if a =? -1 then Run.Ok false
    else
      componentdict ←
        (if markorigin then
           match entry with
           | WlList l => Run.get Run.IndexError (l !! Z.to_nat cnt)
           | WlDict _ => Run.Raise Run.TypeError
           end
         else
           match entry with
           | WlDict d => Run.Ok d
           | WlList _ => Run.Raise Run.TypeError
           end);
      if bool_decide
           (new_ChartItem 0
              (wrap64 (wrap64 (Z.shiftl 1 (nextunset v a))
                       - wrap64 (Z.shiftl 1 a))) ∈ componentdict)
      then split_rejects fuel markorigin entry v (nextset v (nextunset v a))
                         (cnt + 1)
      else Run.Ok true.
Proof. reflexivity. Qed.

(** A rejection is all that returns [newitem] itself, and all it does is
    count. *)
Lemma process_edge_blocked
    newitem score inside prob ruleno left right st exhaustive whitelist
    splitprune markorigin st' :
  process_edge newitem score inside prob ruleno left right st exhaustive
    whitelist splitprune markorigin = Run.Ok (st', false) →
  whitelist_rejects whitelist splitprune markorigin newitem = Run.Ok true
  ∧ st' = set_blocked st (wrap32 (blocked st + 1)).
Proof.
  unfold process_edge.
  destruct (negb (Agenda.contains (agenda st) newitem)
            && negb (bool_decide (is_Some (chart st !! newitem)))).
  - destruct (whitelist_rejects whitelist splitprune markorigin newitem)
      as [[|]|e|]; simpl; [|done..]. by intros [= <-].
  - repeat (match goal with
            | |- context [if ?b then _ else _] => destruct b
            | |- context [Run.get _ ?o] => destruct o; simpl
            | |- context [let '(_, _) := ?p in _] => destruct p
            end; simpl; try done).
Qed.

(** C8.  For a new item: a whitelist entry [None] for its label admits it;
    an entry that is an empty mapping blocks it, in plain mode and, for an
    item with a non-empty span, in split mode with a shared mapping; and
    whenever the item is rejected the counter [blocked] goes up by exactly
    one while nothing else changes. *)
Theorem whitelist_boundaries
    newitem score inside prob ruleno left right st exhaustive entries
    splitprune markorigin :
  Agenda.contains (agenda st) newitem = false →
  chart st !! newitem = None →
  0 ≤ blocked st < 2 ^ 32 - 1 →
  let run := process_edge newitem score inside prob ruleno left right st
               exhaustive (Some entries) splitprune markorigin in
  let edge := new_Edge score inside prob ruleno left right in
  (entries !! Z.to_nat (label newitem) = Some None →
   run = Run.Ok (set_chart
                   (set_agenda st (Agenda.setitem (agenda st) newitem edge))
                   (<[newitem := []]> (chart st)), true))
  ∧ (entries !! Z.to_nat (label newitem) = Some (Some (WlDict ∅)) →
     splitprune = false ∨ (markorigin = false ∧ 0 < vec newitem < 2 ^ 64) →
     run = Run.Ok (set_blocked st (blocked st + 1), false))
  ∧ (∀ st', run = Run.Ok (st', false) →
            blocked st' = blocked st + 1
            ∧ agenda st' = agenda st ∧ chart st' = chart st
            ∧ viterbi st' = viterbi st ∧ warnings st' = warnings st).
Proof.
  intros Hag Hch Hb run edge. subst run.
  assert (Hwrap : wrap32 (blocked st + 1) = blocked st + 1).
  { unfold wrap32. apply Z.mod_small. lia. }
  split_and!.
  - intros Hentry. unfold process_edge. rewrite Hag, Hch. simpl.
    by rewrite Hentry.
  - intros Hentry Hmode. unfold process_edge. rewrite Hag, Hch. simpl.
    rewrite Hentry. simpl. rewrite Hwrap.
    destruct Hmode as [->|[-> Hvec]]; [done|].
    destruct splitprune; [|done].
    pose proof (BitFacts.nextset_nonempty _ Hvec) as Hns.
    change 64%nat with (S 63). rewrite split_rejects_step.
    destruct (Z.eqb_spec (nextset (vec newitem) 0) (-1)); [lia|].
    cbn [mbind Run.result_bind]. rewrite bool_decide_eq_false_2; [done|].
    apply not_elem_of_empty.
  - intros st' Hrun. apply process_edge_blocked in Hrun as [_ ->].
    simpl. by rewrite Hwrap.
Qed.

(** A new item whose label has the entry [None] is admitted. *)
Lemma whitelist_boundaries_witness :
  process_edge (new_ChartItem 2 3) 0 0 0 0 NONE NONE (initial Driver.german)
               false (Some [None; None; None]) false false
  = Run.Ok (mkPState [(new_ChartItem 2 3, new_Edge 0 0 0 0 NONE NONE)]
                     {[ new_ChartItem 2 3 := [] ]}
                     (viterbi (initial Driver.german)) 0 [], true).
Proof.
  destruct (whitelist_boundaries (new_ChartItem 2 3) 0 0 0 0 NONE NONE
              (initial Driver.german) false [None; None; None] false false)
    as (Hnone & _ & _).
  - reflexivity.
  - reflexivity.
  - simpl. lia.
  - rewrite Hnone by reflexivity. reflexivity.
Defined.

End ProcessEdgeFacts.

(** ** Keys of the agenda, the chart and the Viterbi index *)

Module KeysFacts.
Import Bit Containers Plcfrs.


(** [process_edge] adds no key but [newitem], and leaves the Viterbi index
    alone. *)
Lemma process_edge_shape
    newitem score inside prob ruleno left right st exhaustive whitelist
    splitprune markorigin st' fresh :
  process_edge newitem score inside prob ruleno left right st exhaustive
    whitelist splitprune markorigin = Run.Ok (st', fresh) →
  viterbi st' = viterbi st
  ∧ (∀ k e, (k, e) ∈ agenda st' → k = newitem ∨ (k, e) ∈ agenda st)
  ∧ (∀ k, is_Some (chart st' !! k) → k = newitem ∨ is_Some (chart st !! k)).
Proof.
  assert (Hins : ∀ (c : gmap ChartItem (list LEdge)) k x,
             is_Some (<[newitem := x]> c !! k) → k = newitem ∨ is_Some (c !! k)).
  { intros c k x. destruct (decide (k = newitem)) as [->|Hne]; [by left|].
    rewrite lookup_insert_ne by done. by right. }
  assert (Hset : ∀ (a : list (ChartItem * LEdge)) k e x,
             (k, e) ∈ Agenda.setitem a newitem x → k = newitem ∨ (k, e) ∈ a).
  { intros a k e x Hin.
    apply AgendaFacts.elem_of_setitem in Hin as [[-> _]|?]; auto. }
  unfold process_edge.
  destruct (negb (Agenda.contains (agenda st) newitem)
            && negb (bool_decide (is_Some (chart st !! newitem)))).
  { destruct (whitelist_rejects whitelist splitprune markorigin newitem)
      as [[|]|e|]; simpl; try done; intros [= <- <-]; simpl;
      split_and!; eauto. }
  destruct (negb exhaustive && Agenda.contains (agenda st) newitem).
  { intros [= <- <-]. simpl. split_and!; eauto.
    intros k e Hin.
    apply AgendaFacts.elem_of_setifbetter in Hin as [[-> _]|?]; auto. }
  destruct (Agenda.contains (agenda st) newitem
            && match Agenda.getitem (agenda st) newitem with
               | Some old => inside <? Containers.inside old
               | None => false
               end).
  { destruct (chart st !! newitem) as [cell|]; simpl; [|done].
    unfold Agenda.replace.
    destruct (Agenda.getitem (agenda st) newitem) as [old|]; simpl; [|done].
    intros [= <- <-]. simpl. split_and!; eauto. }
  destruct (Agenda.contains (agenda st) newitem); simpl.
  - destruct exhaustive.
    + destruct (chart st !! newitem) as [cell|]; simpl; [|done].
      intros [= <- <-]. simpl. split_and!; eauto.
    + intros [= <- <-]. split_and!; eauto.
  - destruct (viterbi st !! Z.to_nat (label newitem)) as [d|]; simpl; [|done].
    destruct (d !! newitem) as [best|]; simpl; [|done].
    destruct (inside <? Containers.inside best).
    + intros [= <- <-]. simpl. split_and!; eauto.
    + destruct exhaustive.
      * destruct (chart st !! newitem) as [cell|]; simpl; [|done].
        intros [= <- <-]. simpl. split_and!; eauto.
      * intros [= <- <-]. split_and!; eauto.
Qed.


Section closed.
Variable P : ChartItem → Prop.
Hypothesis P_relabel : ∀ k l, P k → P (new_ChartItem l (vec k)).
Hypothesis P_xor :
  ∀ a b l, P a → P b → P (new_ChartItem l (Z.lxor (vec a) (vec b))).
Variable cfg : Config.








Lemma update_maxA_pstate ls : pstate (update_maxA ls) = pstate ls.
Proof. unfold update_maxA. by destruct (_ >? _). Qed.



End closed.

End KeysFacts.

(** ** [parse]: the scan *)

Module ScanFacts.
Import Bit Containers Plcfrs KeysFacts.



Section scan.
Variable cfg : Config.











(** The state the scan stopped in. *)
Definition scanned_state (r : scanned) : PState :=
  match r with Scanned st | NotCovered st _ => st end.


End scan.

End ScanFacts.

(** ** [parse]: what it returns *)

Module ParseFacts.
Import Bit Containers Plcfrs KeysFacts ScanFacts.

Definition not_covered (tok : string) : string :=
  "not covered: '" +:+ tok +:+ "'. ".

(** The configuration [parse] works with. *)
Definition config_of (sent : list string) (g : Grammar)
    (tags : option (list string)) (exhaustive : bool) (whitelist : Whitelist)
    (splitprune markorigin : bool) (estimates : Estimates) (beamwidth : Z)
    (estimatetype : Z) : Config :=
  mkConfig g tags exhaustive whitelist splitprune markorigin estimates
           beamwidth (Z.of_nat (List.length sent)) estimatetype.

Lemma short_sentence (sent : list string) :
  (List.length sent < 64)%nat → (Z.of_nat (List.length sent) >=? 64) = false.
Proof. intros H. rewrite Z.geb_leb. apply Z.leb_gt. lia. Qed.








(** The whole run on that input ends with "no parse". *)
Example bare_tag_skipped_run :
  parse 10 Driver.two_words Driver.three_tags (Some Driver.gold_tags)
    Driver.nt_S false None false false (Some ("SX", Driver.steep_outside)) 0
  = Run.Ok (Returned
              {[ new_ChartItem Driver.nt_B 2
                 := [new_Edge 0 0 0 (-1) (new_ChartItem 0 1) NONE] ]}
              NONE
              "no parse agenda max 0, now 0, items 1 (1 labels), edges 1, blocked 0").
Proof. vm_compute. reflexivity. Qed.

End ParseFacts.

(** ** [parse]: the histogram of spans behind [beamwidth] *)

Module BeamFacts.
Import Bit Containers Plcfrs.






Section loops.
Variable cfg : Config.
Let bw := beamwidth cfg.






(** With [beamwidth = 0] the histogram is never written. *)
Lemma left_siblings_no_beam rule item x sibs st bm st' bm' :
  bw = 0 →
  left_siblings cfg rule item x sibs st bm = Run.Ok (st', bm') → bm' = bm.
Proof.
  intros H0. revert st bm. induction sibs as [|[sib e] sibs IH]; intros st bm;
    simpl; [by intros [= _ <-]|].
  fold bw. rewrite H0. simpl.
  destruct (concat _ _ _); [|apply IH].
  destruct (binary_score _ _ _ _); [|apply IH].
  destruct (process_edge _ _ _ _ _ _ _ _ _ _ _ _) as [[s b]|?|]; simpl;
    try done. apply IH.
Qed.

Lemma right_siblings_no_beam rule item x sibs st bm st' bm' :
  bw = 0 →
  right_siblings cfg rule item x sibs st bm = Run.Ok (st', bm') → bm' = bm.
Proof.
  intros H0. revert st bm. induction sibs as [|[sib e] sibs IH]; intros st bm;
    simpl; [by intros [= _ <-]|].
  fold bw. rewrite H0. simpl.
  destruct (concat _ _ _); [|apply IH].
  destruct (binary_score _ _ _ _); [|apply IH].
  destruct (process_edge _ _ _ _ _ _ _ _ _ _ _ _) as [[s b]|?|]; simpl;
    try done. apply IH.
Qed.

Lemma binary_left_no_beam item x idxs st bm st' bm' :
  bw = 0 → binary_left cfg item x idxs st bm = Run.Ok (st', bm') → bm' = bm.
Proof.
  intros H0. revert st bm. induction idxs as [|i idxs IH]; intros st bm; simpl;
    [by intros [= _ <-]|].
  destruct (negb _); [by intros [= _ <-]|].
  destruct (viterbi st !! _) as [d|]; simpl; [|done].
  destruct (left_siblings _ _ _ _ _ _ _) as [[s b]|?|] eqn:Hl; simpl; try done.
  apply left_siblings_no_beam in Hl as ->; [apply IH|done].
Qed.

Lemma binary_right_no_beam item x idxs st bm st' bm' :
  bw = 0 → binary_right cfg item x idxs st bm = Run.Ok (st', bm') → bm' = bm.
Proof.
  intros H0. revert st bm. induction idxs as [|i idxs IH]; intros st bm; simpl;
    [by intros [= _ <-]|].
  destruct (negb _); [by intros [= _ <-]|].
  destruct (viterbi st !! _) as [d|]; simpl; [|done].
  destruct (right_siblings _ _ _ _ _ _ _) as [[s b]|?|] eqn:Hl; simpl; try done.
  apply right_siblings_no_beam in Hl as ->; [apply IH|done].
Qed.

End loops.

Import Driver.




End BeamFacts.

(** ** [cfgparse]: the split filters *)

Module CfgFacts.
Import Containers YieldFunction Plcfrs Cfg.

(** [l] has been derived over [[left, right)]: its Viterbi cost is
    finite. *)
Definition derived (t : Tables) (l left right : Z) : Prop :=
  is_Some (viterbi t !! (l, left, right)).

(** [m] is the greatest (least) [x] with [P x], or the initial value of the
    array when there is none. *)
Definition greatest (P : Z → Prop) (none m : Z) : Prop :=
  (m = none ∧ ∀ x, ¬ P x) ∨ (P m ∧ ∀ x, P x → x ≤ m).
Definition least (P : Z → Prop) (none m : Z) : Prop :=
  (m = none ∧ ∀ x, ¬ P x) ∨ (P m ∧ ∀ x, P x → m ≤ x).

(** What the four filters hold, for a sentence of [n] words:
    [minsplitleft[l, r]] is the greatest left end of a span of [l] that
    ends at [r] (the narrowest such span), [maxsplitleft[l, r]] the least
    (the widest); [minsplitright[l, left]] is the least right end of a span
    of [l] that starts at [left], [maxsplitright[l, left]] the greatest. *)
Definition filters_exact (n : Z) (t : Tables) : Prop :=
  (∀ l left right, derived t l left right → 0 ≤ left < right ∧ right ≤ n)
  ∧ ∀ l p,
      greatest (λ left, derived t l left p) (-1) (mget (minsplitleft t) l p)
      ∧ least (λ left, derived t l left p) (n + 1) (mget (maxsplitleft t) l p)
      ∧ least (λ right, derived t l p right) (n + 1)
              (mget (minsplitright t) l p)
      ∧ greatest (λ right, derived t l p right) (-1)
                 (mget (maxsplitright t) l p).

Lemma greatest_ext P Q none m :
  (∀ x, P x ↔ Q x) → greatest P none m → greatest Q none m.
Proof.
  intros HPQ [[-> Hn]|[Hm Hmax]]; [left|right].
  - split; [done|]. intros x Hx. by apply (Hn x), HPQ.
  - split; [by apply HPQ|]. intros x Hx. by apply Hmax, HPQ.
Qed.

Lemma least_ext P Q none m :
  (∀ x, P x ↔ Q x) → least P none m → least Q none m.
Proof.
  intros HPQ [[-> Hn]|[Hm Hmin]]; [left|right].
  - split; [done|]. intros x Hx. by apply (Hn x), HPQ.
  - split; [by apply HPQ|]. intros x Hx. by apply Hmin, HPQ.
Qed.

Lemma greatest_add P none m a :
  greatest P none m → none < a →
  greatest (λ x, P x ∨ x = a) none (if a >? m then a else m).
Proof.
  intros [[-> Hn]|[Hm Hmax]] Ha; right.
  - destruct (Z.gtb_spec a none); [|lia]. split; [by right|].
    intros x [Hx| ->]; [by destruct (Hn x)|lia].
  - destruct (Z.gtb_spec a m).
    + split; [by right|]. intros x [Hx| ->]; [|lia].
      specialize (Hmax x Hx). lia.
    + split; [by left|]. intros x [Hx| ->]; [by apply Hmax|lia].
Qed.

Lemma least_add P none m a :
  least P none m → a < none →
  least (λ x, P x ∨ x = a) none (if a <? m then a else m).
Proof.
  intros [[-> Hn]|[Hm Hmin]] Ha; right.
  - destruct (Z.ltb_spec a none); [|lia]. split; [by right|].
    intros x [Hx| ->]; [by destruct (Hn x)|lia].
  - destruct (Z.ltb_spec a m).
    + split; [by right|]. intros x [Hx| ->]; [|lia].
      specialize (Hmin x Hx). lia.
    + split; [by left|]. intros x [Hx| ->]; [by apply Hmin|lia].
Qed.

Lemma mget_mset m l p v l' p' :
  mget (mset m l p v) l' p'
  = if decide ((l, p) = (l', p')) then v else mget m l' p'.
Proof.
  unfold mget, mset. simpl. rewrite lookup_insert.
  by destruct (decide ((l, p) = (l', p'))).
Qed.

(** An entry of a filter after the conditional assignment. *)
Lemma mget_cond_mset (b : bool) m l p v l' p' :
  mget (if b then mset m l p v else m) l' p'
  = if decide ((l, p) = (l', p')) then (if b then v else mget m l p)
    else mget m l' p'.
Proof.
  destruct b; [apply mget_mset|]. by destruct (decide _) as [[= -> ->]|].
Qed.

Lemma empty_tables_exact n : filters_exact n (empty_tables n).
Proof.
  assert (Hnone : ∀ l left right, ¬ derived (empty_tables n) l left right).
  { intros l left right [v Hv]. simpl in Hv. by rewrite lookup_empty in Hv. }
  split; [intros l left right H; by destruct (Hnone _ _ _ H)|].
  intros l p. split_and!; left; (split; [done|intros x; apply Hnone]).
Qed.

(** The filters stay exact when a span gets a finite cost, wherever it had
    one before or not, and the filters are updated for it. *)
Ltac der_eq :=
  split; (intros [?|?]; [by left|right; congruence]).
Ltac der_ne :=
  split; [by left|intros [?|?]; [done|exfalso; congruence]].

Lemma update_filter_exact n t t' l left right :
  filters_exact n t →
  0 ≤ left < right ∧ right ≤ n →
  minsplitleft t' = minsplitleft t → maxsplitleft t' = maxsplitleft t →
  minsplitright t' = minsplitright t → maxsplitright t' = maxsplitright t →
  (∀ l' a b, derived t' l' a b
             ↔ derived t l' a b ∨ (l', a, b) = (l, left, right)) →
  filters_exact n (update_filter t' l left right).
Proof.
  intros [Hbound Hex] Hlr E1 E2 E3 E4 Hder.
  assert (Hder' : ∀ l' a b, derived (update_filter t' l left right) l' a b
                            ↔ derived t l' a b ∨ (l', a, b) = (l, left, right)).
  { intros l' a b. apply Hder. }
  split.
  { intros l' a b Hd. apply Hder' in Hd as [Hd|[= -> -> ->]]; [eauto|lia]. }
  intros l' p. destruct (Hex l' p) as (H1 & H2 & H3 & H4).
  replace (mget (minsplitleft (update_filter t' l left right)) l' p)
    with (if decide ((l, right) = (l', p))
          then (if left >? mget (minsplitleft t) l right then left
                else mget (minsplitleft t) l right)
          else mget (minsplitleft t) l' p)
    by (unfold update_filter; simpl; by rewrite E1, mget_cond_mset).
  replace (mget (maxsplitleft (update_filter t' l left right)) l' p)
    with (if decide ((l, right) = (l', p))
          then (if left <? mget (maxsplitleft t) l right then left
                else mget (maxsplitleft t) l right)
          else mget (maxsplitleft t) l' p)
    by (unfold update_filter; simpl; by rewrite E2, mget_cond_mset).
  replace (mget (minsplitright (update_filter t' l left right)) l' p)
    with (if decide ((l, left) = (l', p))
          then (if right <? mget (minsplitright t) l left then right
                else mget (minsplitright t) l left)
          else mget (minsplitright t) l' p)
    by (unfold update_filter; simpl; by rewrite E3, mget_cond_mset).
  replace (mget (maxsplitright (update_filter t' l left right)) l' p)
    with (if decide ((l, left) = (l', p))
          then (if right >? mget (maxsplitright t) l left then right
                else mget (maxsplitright t) l left)
          else mget (maxsplitright t) l' p)
    by (unfold update_filter; simpl; by rewrite E4, mget_cond_mset).
  split_and!.
  - destruct (decide ((l, right) = (l', p))) as [[= <- <-]|Hne].
    + eapply greatest_ext, greatest_add; [|apply (Hex l right)|lia].
      intros x. simpl. rewrite Hder'. der_eq.
    + eapply greatest_ext; [|exact H1]. intros x. simpl. rewrite Hder'.
      der_ne.
  - destruct (decide ((l, right) = (l', p))) as [[= <- <-]|Hne].
    + eapply least_ext, least_add; [|apply (Hex l right)|lia].
      intros x. simpl. rewrite Hder'. der_eq.
    + eapply least_ext; [|exact H2]. intros x. simpl. rewrite Hder'.
      der_ne.
  - destruct (decide ((l, left) = (l', p))) as [[= <- <-]|Hne].
    + eapply least_ext, least_add; [|apply (Hex l left)|lia].
      intros x. simpl. rewrite Hder'. der_eq.
    + eapply least_ext; [|exact H3]. intros x. simpl. rewrite Hder'.
      der_ne.
  - destruct (decide ((l, left) = (l', p))) as [[= <- <-]|Hne].
    + eapply greatest_ext, greatest_add; [|apply (Hex l left)|lia].
      intros x. simpl. rewrite Hder'. der_eq.
    + eapply greatest_ext; [|exact H4]. intros x. simpl. rewrite Hder'.
      der_ne.
Qed.

(** The filters stay exact when costs change but no span gains or loses a
    finite cost. *)
Lemma filters_exact_ext n t t' :
  filters_exact n t →
  minsplitleft t' = minsplitleft t → maxsplitleft t' = maxsplitleft t →
  minsplitright t' = minsplitright t → maxsplitright t' = maxsplitright t →
  (∀ l a b, derived t' l a b ↔ derived t l a b) →
  filters_exact n t'.
Proof.
  intros [Hbound Hex] E1 E2 E3 E4 Hder. split.
  { intros l a b Hd. apply Hder in Hd. eauto. }
  intros l p. destruct (Hex l p) as (H1 & H2 & H3 & H4).
  rewrite E1, E2, E3, E4. split_and!.
  - eapply greatest_ext; [|exact H1]. intros x. simpl. by rewrite Hder.
  - eapply least_ext; [|exact H2]. intros x. simpl. by rewrite Hder.
  - eapply least_ext; [|exact H3]. intros x. simpl. by rewrite Hder.
  - eapply greatest_ext; [|exact H4]. intros x. simpl. by rewrite Hder.
Qed.

Lemma derived_set_cost t l left right v l' a b :
  derived (set_cost t l left right v) l' a b
  ↔ derived t l' a b ∨ (l', a, b) = (l, left, right).
Proof.
  unfold derived, set_cost. simpl.
  destruct (decide ((l, left, right) = (l', a, b))) as [[= <- <- <-]|Hne].
  - rewrite lookup_insert_eq. split; [by right|by eexists].
  - rewrite lookup_insert_ne by done.
    split; [by left|intros [?|?]; [done|exfalso; congruence]].
Qed.

Lemma set_cost_update_exact n t l left right v :
  filters_exact n t → 0 ≤ left < right ∧ right ≤ n →
  filters_exact n (update_filter (set_cost t l left right v) l left right).
Proof.
  intros Hex Hlr. eapply update_filter_exact; try done.
  intros l' a b. apply derived_set_cost.
Qed.

(** The filters are exact now, and were exact each time the binary loop
    read them. *)
Definition exact_state (n : Z) (st : CState) : Prop :=
  filters_exact n (tables st)
  ∧ Forall (λ c : Rule * Z * Z * Tables, filters_exact n c.2) (consulted st).

Section preservation.
Variable g : Grammar.
Variable tags : option (list string).
Variable n : Z.

Lemma append_edge_tables st l left right edge st' :
  append_edge st l left right edge = Run.Ok st' →
  tables st' = tables st ∧ consulted st' = consulted st.
Proof.
  unfold append_edge. destruct (bool_decide _).
  - destruct (cell_of _ _ _ !! l); simpl; [|done]. by intros [= <-].
  - simpl. by intros [= <-].
Qed.

Lemma tag_terminals_exact i left right terminals st r st' r' :
  0 ≤ left < right ∧ right ≤ n →
  exact_state n st →
  tag_terminals g tags i left right terminals st r = Run.Ok (st', r') →
  exact_state n st'.
Proof.
  intros Hlr. revert st r. induction terminals as [|t ts IH]; intros st r Hst;
    simpl; [by intros [= <- _]|].
  destruct (tag_allows _ _ _ _) as [[|]|?|]; simpl; try done; [|by apply IH].
  apply IH. destruct Hst as [Ht Hc]. split; [|done]. simpl.
  by apply set_cost_update_exact.
Qed.

Lemma unary_rules_exact left right rhs1 idxs st agenda st' agenda' :
  0 ≤ left < right ∧ right ≤ n →
  exact_state n st →
  unary_rules g left right rhs1 idxs st agenda = Run.Ok (st', agenda') →
  exact_state n st'.
Proof.
  intros Hlr. revert st agenda.
  induction idxs as [|i idxs IH]; intros st agenda Hst; simpl;
    [by intros [= <- _]|].
  destruct (negb _); [by intros [= <- _]|].
  destruct (cost st rhs1 left right) as [v|]; simpl; [|done].
  destruct (append_edge _ _ _ _ _) as [st1|?|] eqn:Happ; simpl; [|done..].
  apply append_edge_tables in Happ as [Et Ec].
  assert (Hst1 : exact_state n st1).
  { destruct Hst. split; [by rewrite Et|by rewrite Ec]. }
  destruct (improves _ _); [|by apply IH].
  apply IH. destruct Hst1 as [Ht Hc]. split; [|done]. simpl.
  by apply set_cost_update_exact.
Qed.

Lemma unary_closure_exact fuel left right agenda st st' :
  0 ≤ left < right ∧ right ≤ n →
  exact_state n st →
  unary_closure g fuel left right agenda st = Run.Ok st' →
  exact_state n st'.
Proof.
  intros Hlr. revert agenda st.
  induction fuel as [|fuel IH]; intros agenda st Hst; simpl; [done|].
  destruct (Agenda.popentry _ _) as [[entry agenda']|]; [|by intros [= <-]].
  destruct (unary_rules _ _ _ _ _ _ _) as [[st1 agenda1]|?|] eqn:Hu; simpl;
    [|done..].
  apply IH. by eapply unary_rules_exact.
Qed.

Lemma tag_position_exact fuel i w st r :
  0 ≤ Z.of_nat i < n →
  exact_state n st →
  tag_position g tags fuel i w st = Run.Ok r →
  exact_state n (match r with Tagged s | Uncovered s => s end).
Proof.
  intros Hi Hst. unfold tag_position.
  assert (Hlr : 0 ≤ Z.of_nat i < Z.of_nat i + 1 ∧ Z.of_nat i + 1 ≤ n) by lia.
  destruct (tag_terminals _ _ _ _ _ _ _ _) as [[st1 rec]|?|] eqn:Ht; simpl;
    [|done..].
  apply tag_terminals_exact in Ht; [|done..].
  assert (Hclose : ∀ s r', exact_state n s →
            (s' ← unaries g fuel (Z.of_nat i) (Z.of_nat i + 1) s;
             Run.Ok (Tagged s')) = Run.Ok r' →
            exact_state n (match r' with Tagged s | Uncovered s => s end)).
  { intros s r' Hs. unfold unaries.
    destruct (unary_closure _ _ _ _ _ _) as [s'|?|] eqn:Hu; simpl; [|done..].
    intros [= <-]. by eapply unary_closure_exact. }
  destruct (_ && _).
  - destruct (tag_at _ _) as [t|?|]; simpl; [|done..].
    destruct (toid g !! t) as [l|]; simpl; [|by intros [= <-]].
    apply Hclose. destruct Ht as [Ht Hc]. split; [|done]. simpl.
    by apply set_cost_update_exact.
  - destruct (negb rec); simpl; [by intros [= <-]|]. by apply Hclose.
Qed.

Lemma tag_positions_exact fuel i ws st r :
  Z.of_nat i + Z.of_nat (List.length ws) ≤ n →
  exact_state n st →
  tag_positions g tags fuel i ws st = Run.Ok r →
  exact_state n (match r with Tagged s | Uncovered s => s end).
Proof.
  revert i st. induction ws as [|w ws IH]; intros i st Hlen Hst; simpl.
  - by intros [= <-].
  - simpl in Hlen.
    destruct (tag_position _ _ _ _ _ _) as [r1|?|] eqn:Hp; simpl; [|done..].
    apply tag_position_exact in Hp; [|lia|done].
    destruct r1 as [s|s]; [|by intros [= <-]].
    apply IH; [lia|done].
Qed.

(** What the loop over the split points changes: the cost of the span of
    the left-hand side, and only if a better edge was found. *)
Lemma mid_loop_changes rule left right mids st fb st' fb' :
  mid_loop rule left right mids st fb = Run.Ok (st', fb') →
  minsplitleft (tables st') = minsplitleft (tables st)
  ∧ maxsplitleft (tables st') = maxsplitleft (tables st)
  ∧ minsplitright (tables st') = minsplitright (tables st)
  ∧ maxsplitright (tables st') = maxsplitright (tables st)
  ∧ consulted st' = consulted st
  ∧ (∀ l a b, derived (tables st) l a b → derived (tables st') l a b)
  ∧ (∀ l a b, derived (tables st') l a b →
              derived (tables st) l a b ∨ (l, a, b) = (lhs rule, left, right))
  ∧ (fb = true → fb' = true)
  ∧ (fb' = false → tables st' = tables st)
  ∧ (fb' = true → fb = true ∨ derived (tables st') (lhs rule) left right).
Proof.
  revert st fb. induction mids as [|mid mids IH]; intros st fb; simpl.
  { intros [= <- <-]. split_and!; try done; auto. }
  destruct (cost st (rhs1 rule) left mid) as [v1|]; [|apply IH].
  destruct (cost st (rhs2 rule) mid right) as [v2|]; [|apply IH].
  destruct (append_edge _ _ _ _ _) as [st1|?|] eqn:Happ; simpl; [|done..].
  apply append_edge_tables in Happ as [Et Ec].
  destruct (improves _ _).
  - intros Hrun. apply IH in Hrun
      as (E1 & E2 & E3 & E4 & E5 & Hup & Hdown & Hkeep & Hfalse & Htrue).
    simpl in *. rewrite Et in *.
    split_and!; try done; try congruence.
    + intros l a b Hd. apply Hup, derived_set_cost. by left.
    + intros l a b Hd. apply Hdown in Hd as [Hd|?]; [|by right].
      by apply derived_set_cost in Hd.
    + intros _. by apply Hkeep.
    + intros Hfb. rewrite Hkeep in Hfb; done.
    + intros _. right. apply Hup, derived_set_cost. by right.
  - intros Hrun. apply IH in Hrun
      as (E1 & E2 & E3 & E4 & E5 & Hup & Hdown & Hkeep & Hfalse & Htrue).
    rewrite Et, Ec in *. split_and!; done.
Qed.

(** The step that reads the filters: they are exact when read, and exact
    again after the step. *)
Lemma binary_rule_exact rule left right st st' :
  0 ≤ left < right ∧ right ≤ n →
  exact_state n st →
  binary_rule rule left right st = Run.Ok st' →
  exact_state n st'.
Proof.
  intros Hlr [Ht Hc]. unfold binary_rule.
  assert (Hobs : exact_state n (observe st rule left right)).
  { split; [done|]. simpl. apply Forall_app. split; [done|].
    by apply Forall_singleton. }
  set (so := observe st rule left right) in *.
  destruct (_ >=? _); [by intros [= <-]|].
  destruct (_ <? _); [by intros [= <-]|].
  destruct (mid_loop _ _ _ _ _ _) as [[st2 fb]|?|] eqn:Hmid; simpl; [|done..].
  apply mid_loop_changes in Hmid
    as (E1 & E2 & E3 & E4 & E5 & Hup & Hdown & _ & Hfalse & Htrue).
  destruct Hobs as [Hto Hco].
  destruct fb; simpl.
  - destruct (Htrue eq_refl) as [?|Hkey]; [done|].
    destruct (bool_decide _) eqn:Hold; simpl; intros [= <-].
    + (* the cost was finite before: no span is new *)
      split; [|by rewrite E5]. eapply filters_exact_ext; try done.
      intros l a b. split; [|apply Hup].
      intros Hd. apply Hdown in Hd as [Hd|[= -> -> ->]]; [done|].
      by apply bool_decide_eq_true in Hold.
    + (* the span is new: the filters are updated *)
      split; [|simpl; by rewrite E5]. simpl.
      eapply update_filter_exact; try done.
      intros l a b. split; [apply Hdown|].
      intros [Hd|[= -> -> ->]]; [by apply Hup|done].
  - intros [= <-].
    split; [by rewrite (Hfalse eq_refl)|by rewrite E5].
Qed.

Lemma binary_rules_exact left right idxs st st' :
  0 ≤ left < right ∧ right ≤ n →
  exact_state n st →
  binary_rules g left right idxs st = Run.Ok st' →
  exact_state n st'.
Proof.
  intros Hlr. revert st. induction idxs as [|i idxs IH]; intros st Hst; simpl;
    [by intros [= <-]|].
  destruct (_ =? _); [by intros [= <-]|].
  destruct (_ =? _); [by apply IH|].
  destruct (binary_rule _ _ _ _) as [st1|?|] eqn:Hb; simpl; [|done..].
  apply IH. by eapply binary_rule_exact.
Qed.

Lemma fill_cell_exact fuel left right st st' :
  0 ≤ left < right ∧ right ≤ n →
  exact_state n st →
  fill_cell g fuel left right st = Run.Ok st' →
  exact_state n st'.
Proof.
  intros Hlr Hst. unfold fill_cell, unaries.
  destruct (binary_rules _ _ _ _ _) as [st1|?|] eqn:Hb; simpl; [|done..].
  intros Hu. eapply unary_closure_exact; [done| |done].
  by eapply binary_rules_exact.
Qed.

Lemma fill_cells_exact fuel span lefts st st' :
  0 < span →
  Forall (λ left, 0 ≤ left ∧ left + span ≤ n) lefts →
  exact_state n st →
  fill_cells g fuel span lefts st = Run.Ok st' →
  exact_state n st'.
Proof.
  intros Hspan Hlefts. revert st.
  induction Hlefts as [|left lefts Hleft _ IH]; intros st Hst; simpl;
    [by intros [= <-]|].
  destruct (fill_cell _ _ _ _ _) as [st1|?|] eqn:Hc; simpl; [|done..].
  apply IH. eapply fill_cell_exact; [|done|done]. lia.
Qed.

Lemma elem_of_zrange k m : k ∈ zrange m → 0 ≤ k < m.
Proof.
  unfold zrange, zrange_nat. intros Hin.
  apply list_elem_of_fmap in Hin as (i & -> & Hi).
  apply elem_of_seq in Hi. lia.
Qed.

Lemma fill_spans_exact fuel spans st st' :
  Forall (λ span, 0 < span) spans →
  exact_state n st →
  fill_spans g fuel n spans st = Run.Ok st' →
  exact_state n st'.
Proof.
  intros Hspans. revert st.
  induction Hspans as [|span spans Hspan _ IH]; intros st Hst; simpl;
    [by intros [= <-]|].
  destruct (fill_cells _ _ _ _ _) as [st1|?|] eqn:Hc; simpl; [|done..].
  apply IH. eapply fill_cells_exact; [done| |done|done].
  apply Forall_forall. intros left Hin. apply elem_of_zrange in Hin. lia.
Qed.

End preservation.

(** C3, as the code has it.  Each time the binary loop of [cfgparse] reads
    the filters, and for every label [l] and position [p]:
    [minsplitleft[l, p]] is the greatest [left] such that [l] has been
    derived over [[left, p)] (-1 if there is none) and [maxsplitleft[l, p]]
    the least (the length of the sentence + 1 if there is none); on the
    other side [minsplitright[l, p]] is the least [right] such that [l] has
    been derived over [[p, right)] and [maxsplitright[l, p]] the
    greatest. *)
Theorem cfgparse_filters_exact fuel sent g start tags st goal :
  cfgparse fuel sent g start tags = Run.Ok (st, goal) →
  Forall (λ c : Rule * Z * Z * Tables,
            filters_exact (Z.of_nat (List.length sent)) c.2)
         (consulted st)
  ∧ filters_exact (Z.of_nat (List.length sent)) (tables st).
Proof.
  unfold cfgparse. set (n := Z.of_nat (List.length sent)).
  assert (H0 : exact_state n (mkCState (empty_chart (List.length sent))
                                       (empty_tables n) [])).
  { split; [apply empty_tables_exact|constructor]. }
  destruct (toid g !! "Epsilon") as [eps|]; simpl; [|done].
  destruct (tag_positions _ _ _ _ _ _) as [r|?|] eqn:Htag; simpl; [|done..].
  apply (tag_positions_exact g tags n) in Htag; [|lia|done].
  destruct r as [s|s].
  - destruct (fill_spans _ _ _ _ _) as [s1|?|] eqn:Hfill; simpl; [|done..].
    apply (fill_spans_exact g n) in Hfill; [|..|done].
    + destruct (chart s1 !! 0%nat) as [row|]; simpl; [|done].
      destruct (row !! _) as [cell|]; simpl; [|done].
      destruct Hfill. by destruct (bool_decide _); intros [= <- _].
    + apply Forall_forall. intros span Hin. unfold zrange_from in Hin.
      apply list_elem_of_fmap in Hin as (k & -> & Hk).
      apply elem_of_zrange in Hk. lia.
  - intros [= <- _]. by destruct Htag.
Qed.

(** C3 does not hold as stated.  On "a a a" with X -> X X and a -> X, when
    the binary loop reads the filters for the cell [(0, 3)], X has been
    derived over [[1, 3)] and over [[2, 3)]: [minsplitleft[X, 3]] is 2, the
    greatest of the two left ends and not the smallest, and
    [maxsplitleft[X, 3]] is 1, the least and not the largest. *)
Lemma minsplitleft_is_the_greatest_left :
  ∃ st goal t,
    cfgparse 10 Driver.three_words Driver.doubling Driver.nt_X None
    = Run.Ok (st, goal)
    ∧ consulted st !! 2%nat = Some (Driver.rule_X_X_X, 0, 3, t)
    ∧ derived t Driver.nt_X 1 3
    ∧ derived t Driver.nt_X 2 3
    ∧ mget (minsplitleft t) Driver.nt_X 3 = 2
    ∧ mget (maxsplitleft t) Driver.nt_X 3 = 1
    ∧ ¬ least (λ left, derived t Driver.nt_X left 3) 4
              (mget (minsplitleft t) Driver.nt_X 3)
    ∧ ¬ greatest (λ left, derived t Driver.nt_X left 3) (-1)
                 (mget (maxsplitleft t) Driver.nt_X 3).
Proof.
  destruct (cfgparse 10 Driver.three_words Driver.doubling Driver.nt_X None)
    as [[st goal]|?|] eqn:Hrun; try (vm_compute in Hrun; discriminate).
  destruct (consulted st !! 2%nat) as [[[[r l] rr] t]|] eqn:Ht.
  2:{ vm_compute in Hrun. injection Hrun as <- _. vm_compute in Ht.
      discriminate. }
  exists st, goal, t.
  vm_compute in Hrun. injection Hrun as <- _.
  vm_compute in Ht. injection Ht as <- <- <- <-.
  split_and!; try (vm_compute; reflexivity).
  - by eexists.
  - by eexists.
  - intros [[Hm _]|[_ Hmin]]; [vm_compute in Hm; discriminate|].
    specialize (Hmin 1). vm_compute in Hmin.
    assert (Hd : is_Some (Some 1)) by by eexists.
    specialize (Hmin Hd). by destruct Hmin.
  - intros [[Hm _]|[_ Hmax]]; [vm_compute in Hm; discriminate|].
    specialize (Hmax 2). vm_compute in Hmax.
    assert (Hd : is_Some (Some 0)) by by eexists.
    specialize (Hmax Hd). by destruct Hmax.
Qed.

(** The filters on that run, by the theorem. *)
Lemma cfgparse_filters_witness :
  ∃ st goal,
    cfgparse 10 Driver.three_words Driver.doubling Driver.nt_X None
    = Run.Ok (st, goal)
    ∧ Forall (λ c : Rule * Z * Z * Tables, filters_exact 3 c.2) (consulted st)
    ∧ filters_exact 3 (tables st).
Proof.
  destruct (cfgparse 10 Driver.three_words Driver.doubling Driver.nt_X None)
    as [[st goal]|?|] eqn:Hrun.
  - exists st, goal. split; [reflexivity|].
    exact (cfgparse_filters_exact 10 Driver.three_words Driver.doubling
             Driver.nt_X None st goal Hrun).
  - vm_compute in Hrun. discriminate.
  - vm_compute in Hrun. discriminate.
Defined.

End CfgFacts.

(** ** The bit operations of [concat] on 64-bit words *)

Module WordFacts.
Import Bit.

(** An [unsigned long long]. *)
Definition word (v : Z) : Prop := 0 ≤ v < 2 ^ 64.

(** [v] has no position below [p]. *)
Definition from (p v : Z) : Prop := ∀ i, 0 ≤ i < p → Z.testbit v i = false.

(** [v] with its positions below [e] removed. *)
Definition drop (e v : Z) : Z := Z.land v (not64 (Z.ones e)).

(** The single position [e], nothing for [e = 64]: the mask after
    [mask += 1]. *)
Definition position (e : Z) : Z := wrap64 (2 ^ e).

Lemma word_bits v i : word v → 64 ≤ i → Z.testbit v i = false.
Proof.
  intros [H0 H1] Hi. by apply (Z.bounded_iff_bits_nonneg 64 v); [lia..| |].
Qed.

Lemma bits_word v :
  0 ≤ v → (∀ i, 64 ≤ i → Z.testbit v i = false) → word v.
Proof.
  intros H0 Hb. split; [done|]. by apply (Z.bounded_iff_bits_nonneg 64 v).
Qed.

Lemma wrap64_word x : word (wrap64 x).
Proof. unfold word, wrap64. apply Z.mod_pos_bound. lia. Qed.

Lemma wrap64_small v : word v → wrap64 v = v.
Proof. intros Hv. unfold wrap64. by apply Z.mod_small. Qed.

Lemma testbit_wrap64 x i : Z.testbit (wrap64 x) i = (i <? 64) && Z.testbit x i.
Proof. unfold wrap64. by apply Z.testbit_mod_pow2. Qed.

Lemma testbit_not64 v i :
  0 ≤ i → Z.testbit (not64 v) i = (i <? 64) && negb (Z.testbit v i).
Proof.
  intros Hi. unfold not64. by rewrite testbit_wrap64, Z.lnot_spec.
Qed.

Lemma not64_word v : word (not64 v).
Proof. apply wrap64_word. Qed.

Lemma land_word a b : word a → word (Z.land a b).
Proof.
  intros Ha. apply bits_word.
  - apply Z.land_nonneg. left. apply Ha.
  - intros i Hi. by rewrite Z.land_spec, (word_bits a).
Qed.

Lemma lor_word a b : word a → word b → word (Z.lor a b).
Proof.
  intros Ha Hb. apply bits_word.
  - apply Z.lor_nonneg. split; [apply Ha|apply Hb].
  - intros i Hi. by rewrite Z.lor_spec, (word_bits a), (word_bits b).
Qed.

Lemma ones_word e : 0 ≤ e ≤ 64 → word (Z.ones e).
Proof.
  intros He. apply bits_word.
  - rewrite Z.ones_equiv. assert (0 < 2 ^ e) by (apply Z.pow_pos_nonneg; lia).
    lia.
  - intros i Hi. apply Z.ones_spec_high. lia.
Qed.

Lemma zero_bits v : (∀ i, 0 ≤ i → Z.testbit v i = false) → v = 0.
Proof.
  intros Hb. apply Z.bits_inj'. intros i Hi. by rewrite Hb, Z.bits_0.
Qed.

Lemma word_zero v :
  word v → (∀ i, 0 ≤ i < 64 → Z.testbit v i = false) → v = 0.
Proof.
  intros Hv Hb. apply zero_bits. intros i Hi.
  destruct (decide (i < 64)); [apply Hb; lia|apply (word_bits v); [done|lia]].
Qed.

(** The bits of [v - 1], for [v] with lowest position [t]. *)
Lemma pred_lowest v t :
  0 ≤ t → Z.testbit v t = true → from t v →
  v - 1 = Z.lor (Z.ldiff v (2 ^ t)) (Z.ones t).
Proof.
  intros Ht Hbit Hlow.
  assert (H1 : v - 2 ^ t = Z.ldiff v (2 ^ t)).
  { apply Z.sub_nocarry_ldiff. apply Z.bits_inj'. intros i Hi.
    rewrite Z.ldiff_spec, Z.bits_0, Z.pow2_bits_eqb by done.
    destruct (Z.eqb_spec t i) as [<-|]; [by rewrite Hbit|done]. }
  rewrite <- Z.add_nocarry_lor.
  - rewrite <- H1, Z.ones_equiv. lia.
  - apply Z.bits_inj'. intros i Hi.
    rewrite Z.land_spec, Z.ldiff_spec, Z.bits_0, Z.testbit_ones_nonneg by done.
    destruct (Z.ltb_spec i t); [|by rewrite andb_false_r].
    rewrite Hlow by lia. done.
Qed.

Lemma testbit_pred v t i :
  0 ≤ t → Z.testbit v t = true → from t v → 0 ≤ i →
  Z.testbit (v - 1) i
  = if i <? t then true else if i =? t then false else Z.testbit v i.
Proof.
  intros Ht Hbit Hlow Hi. rewrite (pred_lowest v t) by done.
  rewrite Z.lor_spec, Z.ldiff_spec, Z.pow2_bits_eqb, Z.testbit_ones_nonneg by done.
  destruct (Z.ltb_spec i t); [by rewrite orb_true_r|].
  rewrite orb_false_r. rewrite (Z.eqb_sym t i).
  destruct (Z.eqb_spec i t); [by rewrite andb_false_r|by rewrite andb_true_r].
Qed.

(** [nextset] and [nextunset] *)
Lemma scanset_spec fuel v i :
  0 ≤ i →
  (scanset fuel v i = -1
   ∧ ∀ j, i ≤ j < i + Z.of_nat fuel → Z.testbit v j = false)
  ∨ (i ≤ scanset fuel v i < i + Z.of_nat fuel
     ∧ Z.testbit v (scanset fuel v i) = true
     ∧ ∀ j, i ≤ j < scanset fuel v i → Z.testbit v j = false).
Proof.
  revert i. induction fuel as [|fuel IH]; intros i Hi; simpl.
  { left. split; [done|]. intros j Hj. lia. }
  destruct (Z.testbit v i) eqn:Hb.
  { right. split_and!; [lia|lia|done|]. intros j Hj. lia. }
  destruct (IH (i + 1)) as [[-> Hn]|(Hr & Hbit & Hn)]; [lia| |].
  - left. split; [done|]. intros j Hj.
    destruct (decide (j = i)) as [->|]; [done|apply Hn; lia].
  - right. split_and!; [lia|lia|done|]. intros j Hj.
    destruct (decide (j = i)) as [->|]; [done|apply Hn; lia].
Qed.

Lemma scanunset_spec fuel v i :
  i ≤ scanunset fuel v i ≤ i + Z.of_nat fuel
  ∧ (∀ j, i ≤ j < scanunset fuel v i → Z.testbit v j = true)
  ∧ (scanunset fuel v i < i + Z.of_nat fuel
     → Z.testbit v (scanunset fuel v i) = false).
Proof.
  revert i. induction fuel as [|fuel IH]; intros i; simpl.
  { split_and!; [lia|lia| |lia]. intros j Hj. lia. }
  destruct (Z.testbit v i) eqn:Hb.
  - destruct (IH (i + 1)) as (Hr & Hset & Hstop).
    split_and!; [lia|lia| |].
    + intros j Hj. destruct (decide (j = i)) as [->|]; [done|apply Hset; lia].
    + intros Hlt. apply Hstop. lia.
  - split_and!; [lia|lia| |done]. intros j Hj. lia.
Qed.

(** The lowest position of [v] from [pos] on, 64 if there is none. *)
Definition lowest (v pos : Z) : Z :=
  if nextset v pos =? -1 then 64 else nextset v pos.

Lemma lowest_spec v pos :
  0 ≤ pos ≤ 64 →
  pos ≤ lowest v pos ≤ 64
  ∧ (∀ i, pos ≤ i < lowest v pos → Z.testbit v i = false)
  ∧ (lowest v pos < 64 → Z.testbit v (lowest v pos) = true).
Proof.
  intros Hp. unfold lowest, nextset.
  destruct (scanset_spec (Z.to_nat (64 - pos)) v pos) as [[-> Hn]|(Hr & Hb & Hn)];
    [lia| |].
  - simpl. split_and!; [lia|lia| |lia]. intros i Hi. apply Hn. lia.
  - destruct (Z.eqb_spec (scanset (Z.to_nat (64 - pos)) v pos) (-1)); [lia|].
    split_and!; [lia|lia|done|done].
Qed.

Lemma nextset_lowest v pos :
  0 ≤ pos ≤ 64 →
  nextset v pos = if lowest v pos =? 64 then -1 else lowest v pos.
Proof.
  intros Hp. unfold lowest, nextset.
  destruct (scanset_spec (Z.to_nat (64 - pos)) v pos) as [[-> Hn]|(Hr & Hb & Hn)];
    [lia|done|].
  destruct (Z.eqb_spec (scanset (Z.to_nat (64 - pos)) v pos) (-1)); [lia|].
  destruct (Z.eqb_spec (scanset (Z.to_nat (64 - pos)) v pos) 64); [lia|done].
Qed.

Lemma nextunset_spec v a :
  0 ≤ a ≤ 64 →
  a ≤ nextunset v a ≤ 64
  ∧ (∀ j, a ≤ j < nextunset v a → Z.testbit v j = true)
  ∧ (nextunset v a < 64 → Z.testbit v (nextunset v a) = false).
Proof.
  intros Ha. unfold nextunset.
  destruct (scanunset_spec (Z.to_nat (64 - a)) v a) as (Hr & Hset & Hstop).
  split_and!; [lia|lia|done|]. intros Hlt. apply Hstop. lia.
Qed.

(** The lowest position is determined by its properties. *)
Lemma lowest_unique v pos t :
  0 ≤ pos ≤ t → t ≤ 64 →
  (∀ i, pos ≤ i < t → Z.testbit v i = false) →
  (t < 64 → Z.testbit v t = true) →
  lowest v pos = t.
Proof.
  intros Hp Ht Hn Hb.
  destruct (lowest_spec v pos) as (Hr & Hn' & Hb'); [lia|].
  destruct (Z.lt_trichotomy (lowest v pos) t) as [Hlt|[?|Hgt]]; [|done|].
  - rewrite Hn in Hb' by lia. by discriminate Hb'; lia.
  - rewrite Hn' in Hb by lia. by discriminate Hb; lia.
Qed.

Lemma nextunset_unique v a e :
  0 ≤ a ≤ e → e ≤ 64 →
  (∀ i, a ≤ i < e → Z.testbit v i = true) →
  (e < 64 → Z.testbit v e = false) →
  nextunset v a = e.
Proof.
  intros Ha He Hs Hb.
  destruct (nextunset_spec v a) as (Hr & Hs' & Hb'); [lia|].
  destruct (Z.lt_trichotomy (nextunset v a) e) as [Hlt|[?|Hgt]]; [|done|].
  - rewrite Hs in Hb' by lia. by discriminate Hb'; lia.
  - rewrite Hs' in Hb by lia. by discriminate Hb; lia.
Qed.

Lemma lowest_zero v pos : word v → 0 ≤ pos ≤ 64 → from pos v →
  lowest v pos = 64 ↔ v = 0.
Proof.
  intros Hv Hp Hf. destruct (lowest_spec v pos) as (Hr & Hn & Hb); [done|].
  split.
  - intros H64. apply word_zero; [done|]. intros i Hi.
    destruct (decide (i < pos)); [apply Hf; lia|apply Hn; lia].
  - intros ->. destruct (decide (lowest 0 pos = 64)) as [|Hne]; [done|].
    rewrite Z.bits_0 in Hb. by discriminate Hb; lia.
Qed.

(** *** The steps of [concat] *)

Lemma testbit_drop e v i :
  0 ≤ e → 0 ≤ i → word v →
  Z.testbit (drop e v) i = Z.testbit v i && (e <=? i).
Proof.
  intros He Hi Hv. unfold drop.
  rewrite Z.land_spec, testbit_not64, Z.testbit_ones_nonneg by done.
  destruct (Z.ltb_spec i 64).
  - simpl. destruct (Z.ltb_spec i e), (Z.leb_spec e i); simpl; try lia;
      by rewrite ?andb_false_r, ?andb_true_r.
  - rewrite (word_bits v) by done. done.
Qed.

Lemma drop_word e v : word v → word (drop e v).
Proof. intros Hv. by apply land_word. Qed.

Lemma drop_from e v : 0 ≤ e → word v → from e (drop e v).
Proof.
  intros He Hv i Hi. rewrite testbit_drop by (done || lia).
  destruct (Z.leb_spec e i); [lia|by rewrite andb_false_r].
Qed.

Lemma drop_id e v : 0 ≤ e → word v → from e v → drop e v = v.
Proof.
  intros He Hv Hf. apply Z.bits_inj'. intros i Hi.
  rewrite testbit_drop by done.
  destruct (Z.leb_spec e i); [by rewrite andb_true_r|].
  rewrite Hf by lia. done.
Qed.

(** [v |= v - 1]: the positions below the lowest one are filled. *)
Lemma fill_spec v t :
  word v → 0 ≤ t < 64 → Z.testbit v t = true → from t v →
  Z.lor v (wrap64 (v - 1)) = Z.lor v (Z.ones t).
Proof.
  intros Hv Ht Hb Hf. apply Z.bits_inj'. intros i Hi.
  rewrite !Z.lor_spec, testbit_wrap64, (testbit_pred v t), Z.testbit_ones_nonneg
    by (done || lia).
  destruct (Z.ltb_spec i 64).
  - simpl. destruct (Z.ltb_spec i t); [done|].
    destruct (Z.eqb_spec i t); by destruct (Z.testbit v i).
  - simpl. destruct (Z.ltb_spec i t); [lia|]. done.
Qed.

(** [w & (~w - 1)]: the positions of [w] before its first gap. *)
Lemma lowmask_spec w e :
  word w → 0 ≤ e ≤ 64 →
  (∀ i, 0 ≤ i < e → Z.testbit w i = true) →
  (e < 64 → Z.testbit w e = false) →
  Z.land w (wrap64 (not64 w - 1)) = Z.ones e.
Proof.
  intros Hw He Hs Hb. apply Z.bits_inj'. intros i Hi.
  rewrite Z.land_spec, testbit_wrap64, Z.testbit_ones_nonneg by (done || lia).
  destruct (decide (e = 64)) as [->|Hne].
  - assert (Hz : not64 w = 0).
    { apply word_zero; [apply not64_word|]. intros j Hj.
      rewrite testbit_not64, Hs by lia. by rewrite andb_false_r. }
    rewrite Hz. change (0 - 1) with (-1). rewrite Z.bits_m1 by done.
    rewrite andb_true_r. destruct (Z.ltb_spec i 64).
    + rewrite Hs by lia. done.
    + rewrite (word_bits w) by done. done.
  - rewrite (testbit_pred (not64 w) e); [| lia | | |done].
    + rewrite testbit_not64 by done.
      destruct (Z.ltb_spec i 64); simpl.
      * destruct (Z.ltb_spec i e); [by rewrite Hs by lia|].
        destruct (Z.eqb_spec i e); [by rewrite andb_false_r|].
        by destruct (Z.testbit w i).
      * destruct (Z.ltb_spec i e); [lia|]. by rewrite andb_false_r.
    + rewrite testbit_not64 by lia. rewrite Hb by lia.
      destruct (Z.ltb_spec e 64); [done|lia].
    + intros j Hj. rewrite testbit_not64, Hs by lia. by rewrite andb_false_r.
Qed.

(** [~v & (v - 1)]: the positions below the lowest one of [v]. *)
Lemma tailmask_spec v :
  word v → Z.land (not64 v) (wrap64 (v - 1)) = Z.ones (lowest v 0).
Proof.
  intros Hv. destruct (lowest_spec v 0) as (Hr & Hn & Hb); [lia|].
  apply Z.bits_inj'. intros i Hi.
  rewrite Z.land_spec, testbit_not64, testbit_wrap64, Z.testbit_ones_nonneg
    by (done || lia).
  destruct (decide (lowest v 0 = 64)) as [H64|Hne].
  - rewrite H64 in *. assert (v = 0) as ->.
    { apply word_zero; [done|]. intros j Hj. apply Hn. lia. }
    change (0 - 1) with (-1). rewrite Z.bits_m1, Z.bits_0 by done.
    by destruct (i <? 64).
  - rewrite (testbit_pred v (lowest v 0)); [|lia|apply Hb; lia| |done].
    + destruct (Z.ltb_spec i 64); simpl.
      * destruct (Z.ltb_spec i (lowest v 0)); [by rewrite Hn by lia|].
        destruct (Z.eqb_spec i (lowest v 0)); [by rewrite andb_false_r|].
        by destruct (Z.testbit v i).
      * destruct (Z.ltb_spec i (lowest v 0)); [lia|done].
    + intros j Hj. apply Hn. lia.
Qed.

Lemma land_ones a b :
  0 ≤ a → 0 ≤ b → Z.land (Z.ones a) (Z.ones b) = Z.ones (Z.min a b).
Proof.
  intros Ha Hb. apply Z.bits_inj'. intros i Hi.
  rewrite Z.land_spec, !Z.testbit_ones_nonneg by lia.
  destruct (Z.ltb_spec i a), (Z.ltb_spec i b), (Z.ltb_spec i (Z.min a b));
    done || lia.
Qed.

(** [mask + 1] *)
Lemma succ_ones e : 0 ≤ e → wrap64 (Z.ones e + 1) = position e.
Proof.
  intros He. unfold position. f_equal. rewrite Z.ones_equiv. lia.
Qed.

Lemma testbit_position e i :
  0 ≤ e → Z.testbit (position e) i = (i <? 64) && (e =? i).
Proof.
  intros He. unfold position. by rewrite testbit_wrap64, Z.pow2_bits_eqb.
Qed.

(** The test for the expected component. *)
Lemma land_position v p :
  0 ≤ p → word v →
  (Z.land v (position p) =? 0) = negb (Z.testbit v p).
Proof.
  intros Hp Hv. destruct (Z.testbit v p) eqn:Hb; simpl.
  - apply Z.eqb_neq. intros H0.
    assert (Hbit : Z.testbit (Z.land v (position p)) p = false)
      by (by rewrite H0, Z.bits_0).
    rewrite Z.land_spec, testbit_position, Hb, Z.eqb_refl in Hbit by done.
    destruct (Z.ltb_spec p 64); [done|].
    rewrite (word_bits v) in Hb by done. done.
  - apply Z.eqb_eq. apply zero_bits. intros i Hi.
    rewrite Z.land_spec, testbit_position by done.
    destruct (Z.eqb_spec p i) as [<-|]; [by rewrite Hb|by rewrite !andb_false_r].
Qed.

End WordFacts.

(** ** The runs of a word *)

Module RunFacts.
Import Bit WordFacts.

Lemma scanset_agree fuel v w i :
  (∀ j, i ≤ j → Z.testbit v j = Z.testbit w j) →
  scanset fuel v i = scanset fuel w i.
Proof.
  revert i. induction fuel as [|fuel IH]; intros i Hag; simpl; [done|].
  rewrite <- Hag by lia. destruct (Z.testbit v i); [done|].
  apply IH. intros j Hj. apply Hag. lia.
Qed.

Lemma scanunset_agree fuel v w i :
  (∀ j, i ≤ j → Z.testbit v j = Z.testbit w j) →
  scanunset fuel v i = scanunset fuel w i.
Proof.
  revert i. induction fuel as [|fuel IH]; intros i Hag; simpl; [done|].
  rewrite <- Hag by lia. destruct (Z.testbit v i); [|done].
  apply IH. intros j Hj. apply Hag. lia.
Qed.

Lemma lowest_agree v w pos :
  (∀ j, pos ≤ j → Z.testbit v j = Z.testbit w j) →
  lowest v pos = lowest w pos.
Proof.
  intros Hag. unfold lowest, nextset.
  by rewrite (scanset_agree _ v w pos).
Qed.

Lemma nextunset_agree v w a :
  (∀ j, a ≤ j → Z.testbit v j = Z.testbit w j) →
  nextunset v a = nextunset w a.
Proof. intros Hag. unfold nextunset. by apply scanunset_agree. Qed.

(** The runs of [v] from [pos] on. *)
Definition rest (v pos : Z) : list (Z * Z) :=
  runs_from (Z.to_nat (64 - pos)) v pos.

Lemma runs_rest v : runs v = rest v 0.
Proof. done. Qed.

(** The end of the run of [v] that starts at [a]. *)
Lemma run_end v a :
  0 ≤ a < 64 → Z.testbit v a = true → a < nextunset v a ≤ 64.
Proof.
  intros Ha Hb. destruct (nextunset_spec v a) as (Hr & Hs & Hu); [lia|].
  destruct (decide (nextunset v a = a)) as [E|]; [|lia].
  rewrite E in Hu. rewrite Hu in Hb by lia. done.
Qed.

Lemma runs_from_fuel f f' v pos :
  0 ≤ pos ≤ 64 → 64 - pos ≤ Z.of_nat f → 64 - pos ≤ Z.of_nat f' →
  runs_from f v pos = runs_from f' v pos.
Proof.
  revert f' pos. induction f as [|f IH]; intros f' pos Hp Hf Hf'.
  - assert (pos = 64) as -> by lia. destruct f' as [|f']; [done|].
    simpl. change (nextset v 64) with (-1). done.
  - destruct f' as [|f'].
    + assert (pos = 64) as -> by lia. simpl.
      change (nextset v 64) with (-1). done.
    + simpl. rewrite (nextset_lowest v pos) by done.
      destruct (lowest_spec v pos) as (Hr & Hn & Hb); [done|].
      destruct (Z.eqb_spec (lowest v pos) 64) as [|Hne]; [done|].
      destruct (Z.eqb_spec (lowest v pos) (-1)) as [|_]; [lia|].
      f_equal.
      pose proof (run_end v (lowest v pos) ltac:(lia) (Hb ltac:(lia))) as He.
      apply IH; lia.
Qed.

Lemma rest_step v pos :
  0 ≤ pos ≤ 64 →
  rest v pos
  = if lowest v pos =? 64 then []
    else (lowest v pos, nextunset v (lowest v pos))
         :: rest v (nextunset v (lowest v pos)).
Proof.
  intros Hp. unfold rest.
  destruct (lowest_spec v pos) as (Hr & Hn & Hb); [done|].
  destruct (Z.to_nat (64 - pos)) as [|f] eqn:Hf.
  - assert (pos = 64) as -> by lia.
    assert (lowest v 64 = 64) as -> by lia. done.
  - simpl. rewrite (nextset_lowest v pos) by done.
    destruct (Z.eqb_spec (lowest v pos) 64) as [|Hne]; [done|].
    destruct (Z.eqb_spec (lowest v pos) (-1)) as [|_]; [lia|].
    f_equal.
    pose proof (run_end v (lowest v pos) ltac:(lia) (Hb ltac:(lia))) as He.
    apply runs_from_fuel; lia.
Qed.

Lemma rest_agree v w pos :
  0 ≤ pos ≤ 64 →
  (∀ j, pos ≤ j → Z.testbit v j = Z.testbit w j) →
  rest v pos = rest w pos.
Proof.
  intros Hp Hag.
  remember (Z.to_nat (64 - pos)) as n eqn:Hn.
  revert pos Hp Hag Hn. induction (lt_wf n) as [n _ IH].
  intros pos Hp Hag Hn. rewrite (rest_step v), (rest_step w) by done.
  rewrite <- (lowest_agree v w pos) by done.
  destruct (lowest_spec v pos) as (Hr & Hno & Hb); [done|].
  destruct (Z.eqb_spec (lowest v pos) 64) as [|Hne]; [done|].
  rewrite <- (nextunset_agree v w (lowest v pos))
    by (intros j Hj; apply Hag; lia).
  f_equal.
  pose proof (run_end v (lowest v pos) ltac:(lia) (Hb ltac:(lia))) as He.
  eapply (IH (Z.to_nat (64 - nextunset v (lowest v pos)))); [lia|lia| |done].
  intros j Hj. apply Hag. lia.
Qed.

Lemma rest_skip v pos b :
  0 ≤ pos ≤ b → b ≤ 64 →
  (∀ i, pos ≤ i < b → Z.testbit v i = false) →
  rest v pos = rest v b.
Proof.
  intros Hp Hb Hno. rewrite (rest_step v pos), (rest_step v b) by lia.
  destruct (lowest_spec v b) as (Hr & Hn & Hbit); [lia|].
  assert (lowest v pos = lowest v b) as ->; [|done].
  apply lowest_unique; [lia|lia| |done].
  intros i Hi. destruct (decide (i < b)); [apply Hno; lia|apply Hn; lia].
Qed.

(** The runs of [v] without its positions below [e]. *)
Lemma runs_drop e v : 0 ≤ e ≤ 64 → word v → runs (drop e v) = rest v e.
Proof.
  intros He Hv. rewrite runs_rest.
  rewrite (rest_skip _ 0 e); [|lia|lia|].
  - apply rest_agree; [done|]. intros j Hj. rewrite testbit_drop by (done || lia).
    destruct (Z.leb_spec e j); [by rewrite andb_true_r|lia].
  - intros i Hi. apply (drop_from e v); [lia|done|lia].
Qed.

Lemma runs_from_position v p :
  0 ≤ p ≤ 64 → from p v → runs v = rest v p.
Proof.
  intros Hp Hf. rewrite runs_rest. apply rest_skip; [lia|lia|].
  intros i Hi. apply Hf. lia.
Qed.

(** A word without positions has no run, and conversely. *)
Lemma runs_nil v : word v → runs v = [] ↔ v = 0.
Proof.
  intros Hv. rewrite runs_rest, rest_step by lia.
  destruct (Z.eqb_spec (lowest v 0) 64) as [H64|Hne].
  - split; [|done]. intros _. apply (lowest_zero v 0); [done|lia| |done].
    intros i Hi. lia.
  - split; [done|]. intros ->. destruct Hne.
    apply (lowest_zero 0 0); [done|lia| |done]. intros i Hi. lia.
Qed.

(** The first run of a word that starts at [p]. *)
Lemma runs_first v p :
  word v → 0 ≤ p < 64 → from p v → Z.testbit v p = true →
  runs v = (p, nextunset v p) :: runs (drop (nextunset v p) v).
Proof.
  intros Hv Hp Hf Hb. rewrite runs_rest, rest_step by lia.
  assert (lowest v 0 = p) as ->.
  { apply lowest_unique; [lia|lia| |done]. intros i Hi. apply Hf. lia. }
  destruct (Z.eqb_spec p 64); [lia|].
  pose proof (run_end v p Hp Hb). rewrite runs_drop by (done || lia). done.
Qed.

(** The first run of a word that does not start at [p] starts after it. *)
Lemma runs_later v p :
  word v → 0 ≤ p ≤ 64 → from p v → (p < 64 → Z.testbit v p = false) →
  match runs v with
  | [] => True
  | (s, e) :: _ => p < s
  end.
Proof.
  intros Hv Hp Hf Hb. rewrite runs_rest, rest_step by lia.
  destruct (lowest_spec v 0) as (Hr & Hn & Hbit); [lia|].
  destruct (Z.eqb_spec (lowest v 0) 64) as [|Hne]; [done|].
  destruct (Z.lt_trichotomy (lowest v 0) p) as [Hlt|[Heq|Hgt]]; [| |done].
  - rewrite Hf in Hbit by lia. by discriminate Hbit; lia.
  - rewrite Heq in *. rewrite Hb in Hbit by lia. by discriminate Hbit; lia.
Qed.

(** The pending run [(s0, p)] put before the runs of [u], merged with the
    first of them if that one starts at [p]. *)
Definition glue (s0 p : Z) (rs : list (Z * Z)) : list (Z * Z) :=
  match rs with
  | (s, e) :: more => if s =? p then (s0, e) :: more else (s0, p) :: rs
  | [] => [(s0, p)]
  end.

Lemma glue_rest s0 p u :
  0 ≤ p ≤ 64 →
  glue s0 p (rest u p)
  = if decide (p < 64 ∧ Z.testbit u p = true)
    then (s0, nextunset u p) :: rest u (nextunset u p)
    else (s0, p) :: rest u p.
Proof.
  intros Hp. rewrite (rest_step u p) at 1 by done.
  destruct (lowest_spec u p) as (Hr & Hn & Hbit); [lia|].
  destruct (decide (p < 64 ∧ Z.testbit u p = true)) as [[Hlt Hb]|Hno].
  - assert (lowest u p = p) as ->.
    { apply lowest_unique; [lia|lia| |done]. intros i Hi. lia. }
    destruct (Z.eqb_spec p 64); [lia|]. simpl. by rewrite Z.eqb_refl.
  - destruct (Z.eqb_spec (lowest u p) 64) as [H64|Hne].
    + simpl. f_equal. rewrite (rest_step u p) by done.
      by rewrite H64.
    + simpl. destruct (Z.eqb_spec (lowest u p) p) as [Heq|Hneq].
      * destruct Hno. rewrite Heq in *. split; [lia|]. apply Hbit. lia.
      * f_equal. rewrite (rest_step u p) by done.
        destruct (Z.eqb_spec (lowest u p) 64); [lia|done].
Qed.

(** Taking the positions [p .. e - 1] of [u] into the pending run. *)
Lemma glue_advance s0 p e u :
  0 ≤ p ≤ e → e ≤ 64 →
  (∀ i, p ≤ i < e → Z.testbit u i = true) →
  glue s0 p (rest u p) = glue s0 e (rest u e).
Proof.
  intros Hp He Hs. destruct (decide (p = e)) as [->|Hne]; [done|].
  rewrite !glue_rest by lia.
  assert (Hbp : Z.testbit u p = true) by (apply Hs; lia).
  rewrite decide_True by (split; [lia|done]).
  destruct (nextunset_spec u p) as (Hr & Hset & Hstop); [lia|].
  assert (Hge : e ≤ nextunset u p).
  { destruct (decide (e ≤ nextunset u p)) as [|Hlt]; [done|].
    rewrite Hs in Hstop by lia. by discriminate Hstop; lia. }
  destruct (decide (e < 64 ∧ Z.testbit u e = true)) as [[Hlt Hb]|Hno].
  - assert (nextunset u e = nextunset u p) as ->; [|done].
    apply nextunset_unique; [lia|lia| |done].
    intros i Hi. apply Hset. lia.
  - assert (nextunset u p = e) as ->; [|done].
    destruct (decide (nextunset u p = e)) as [|Hne']; [done|].
    destruct Hno. split; [lia|]. apply Hset. lia.
Qed.

End RunFacts.

(** ** [concat] and the yield function *)

Module ConcatYieldFacts.
Import Bit Containers YieldFunction Plcfrs WordFacts RunFacts.

(** *** The yield function, atom by atom *)

(** The pending run after one more atom: the run [(s, e)] of the child
    starts a new one, or continues the pending one if it follows it without
    a gap. *)
Definition merged (cur : option (Z * Z)) (s e : Z) : option (Z * Z) :=
  match cur with
  | None => Some (s, e)
  | Some (s0, e0) => if e0 =? s then Some (s0, e) else None
  end.

(** [apply_yield] on the decoded yield function, as one walk over the
    atoms: each atom takes the next run of its child, and an atom with its
    [lengths] bit set ends the argument. *)
Fixpoint walk (a l : Z) (ns : list Z) (ra rb : list (Z * Z))
    (cur : option (Z * Z)) : option (list (Z * Z)) :=
  match ns with
  | [] =>
      match ra, rb with
      | [], [] => Some (match cur with Some c => [c] | None => [] end)
      | _, _ => None
      end
  | n :: ns' =>
      match (if testbitint a n then rb else ra) with
      | [] => None
      | (s, e) :: more =>
          let ra' := if testbitint a n then ra else more in
          let rb' := if testbitint a n then more else rb in
          match merged cur s e with
          | None => None
          | Some c =>
              if testbitint l n
              then cons c <$> walk a l ns' ra' rb' None
              else walk a l ns' ra' rb' (Some c)
          end
      end
  end.

(** [compose_arg] without its final test. *)
Fixpoint compose_state (atoms : list bool) (ra rb : list (Z * Z))
    (cur : option (Z * Z))
  : option (option (Z * Z) * list (Z * Z) * list (Z * Z)) :=
  match atoms with
  | [] => Some (cur, ra, rb)
  | atom :: atoms' =>
      match (if atom : bool then rb else ra) with
      | [] => None
      | (s, e) :: more =>
          let ra' := if atom then ra else more in
          let rb' := if atom then more else rb in
          match merged cur s e with
          | None => None
          | Some c => compose_state atoms' ra' rb' (Some c)
          end
      end
  end.

Lemma compose_arg_state atoms ra rb cur :
  compose_arg atoms ra rb cur
  = match compose_state atoms ra rb cur with
    | Some (Some c, ra', rb') => Some (c, ra', rb')
    | _ => None
    end.
Proof.
  revert ra rb cur. induction atoms as [|atom atoms IH]; intros ra rb cur.
  - simpl. by destruct cur.
  - simpl. destruct (if atom then rb else ra) as [|[s e] more]; [done|].
    destruct cur as [[s0 e0]|]; simpl; [|apply IH].
    destruct (e0 =? s); [apply IH|done].
Qed.

Lemma compose_state_app acc atoms ra rb cur :
  compose_state (acc ++ atoms) ra rb cur
  = match compose_state acc ra rb cur with
    | Some (cur', ra', rb') => compose_state atoms ra' rb' cur'
    | None => None
    end.
Proof.
  revert ra rb cur. induction acc as [|atom acc IH]; intros ra rb cur; [done|].
  simpl. destruct (if atom then rb else ra) as [|[s e] more]; [done|].
  destruct (merged cur s e); [apply IH|done].
Qed.

Lemma compose_state_Some acc ra rb c r :
  compose_state acc ra rb (Some c) = Some r → is_Some r.1.1.
Proof.
  revert ra rb c. induction acc as [|atom acc IH]; intros ra rb c; simpl.
  - intros [= <-]. by eexists.
  - destruct (if atom then rb else ra) as [|[s e] more]; [done|].
    destruct c as [s0 e0]. simpl. destruct (e0 =? s); [apply IH|done].
Qed.

Lemma compose_state_pending acc ra rb cur ra' rb' :
  compose_state acc ra rb cur = Some (None, ra', rb') → acc = [].
Proof.
  destruct acc as [|atom acc]; [done|]. simpl.
  destruct (if atom then rb else ra) as [|[s e] more]; [done|].
  destruct (merged cur s e) as [c|]; [|done].
  intros H. apply compose_state_Some in H. by destruct H.
Qed.

Lemma apply_yield_walk a l ns acc ra0 rb0 :
  apply_yield (decode_atoms a l ns acc) ra0 rb0
  = match compose_state acc ra0 rb0 None with
    | Some (cur, ra, rb) => walk a l ns ra rb cur
    | None => None
    end.
Proof.
  revert acc ra0 rb0. induction ns as [|n ns IH]; intros acc ra0 rb0.
  - simpl. destruct acc as [|atom acc]; [done|].
    cbn [apply_yield]. rewrite compose_arg_state.
    destruct (compose_state (atom :: acc) ra0 rb0 None)
      as [[[[c|] ra] rb]|] eqn:Hst; [| |done].
    + simpl. by destruct ra, rb.
    + by apply compose_state_pending in Hst.
  - cbn [decode_atoms]. cbn zeta.
    destruct (testbitint l n) eqn:Hl.
    + cbn [apply_yield]. rewrite compose_arg_state, compose_state_app.
      destruct (compose_state acc ra0 rb0 None) as [[[cur ra] rb]|]; [|done].
      cbn [compose_state walk].
      destruct (if testbitint a n then rb else ra) as [|[s e] more]; [done|].
      destruct (merged cur s e) as [c|]; [|done].
      rewrite Hl. rewrite IH. simpl.
      by destruct (walk a l ns _ _ None).
    + rewrite IH, compose_state_app.
      destruct (compose_state acc ra0 rb0 None) as [[[cur ra] rb]|]; [|done].
      cbn [compose_state walk].
      destruct (if testbitint a n then rb else ra) as [|[s e] more]; [done|].
      destruct (merged cur s e) as [c|]; [|done].
      by rewrite Hl.
Qed.

Lemma yields_walk rule a b :
  yields rule a b
  ↔ walk (args rule) (lengths rule) (zrange (bitlength (lengths rule)))
         (runs a) (runs b) None
    = Some (runs (Z.lor a b)).
Proof. unfold yields, decode. by rewrite apply_yield_walk. Qed.

(** The first run a walk gives starts where the pending run starts. *)
Lemma walk_head a l ns ra rb s0 e0 out :
  walk a l ns ra rb (Some (s0, e0)) = Some out →
  ∃ e more, out = (s0, e) :: more.
Proof.
  revert ra rb e0 out. induction ns as [|n ns IH]; intros ra rb e0 out; simpl.
  - destruct ra, rb; try done. intros [= <-]. by eexists _, _.
  - destruct (if testbitint a n then rb else ra) as [|[s e] more]; [done|].
    destruct (e0 =? s); [|done].
    destruct (testbitint l n).
    + destruct (walk a l ns _ _ None); [|done]. intros [= <-]. by eexists _, _.
    + apply IH.
Qed.

(** *** One step of [concat] *)

Lemma lxor_word a b : word a → word b → word (Z.lxor a b).
Proof.
  intros Ha Hb. apply bits_word.
  - apply Z.lxor_nonneg. split; intros _; [apply Hb|apply Ha].
  - intros i Hi. by rewrite Z.lxor_spec, (word_bits a), (word_bits b).
Qed.

(** The end of the first run of [v]. *)
Definition taken (v : Z) : Z := nextunset v (lowest v 0).

(** What the loop body does once the component has been found: both
    vectors lose their positions below the end [e] of the run; at the end
    of an argument the next position has to be free in both, and the mask
    moves to the lowest position left. *)
Definition step_spec (gap : bool) (e lvec rvec : Z) : option (Z * Z * Z) :=
  let lvec := drop e lvec in
  let rvec := drop e rvec in
  if gap then
    if xorb (Z.testbit lvec e) (Z.testbit rvec e) then None
    else Some (lvec, rvec,
               position (Z.min (lowest lvec 0) (lowest rvec 0)))
  else Some (lvec, rvec, position e).

Lemma lowest_range v : 0 ≤ lowest v 0 ≤ 64.
Proof. destruct (lowest_spec v 0) as (? & _); lia. Qed.

Lemma concat_advance_spec rule n lvec rvec e :
  word lvec → word rvec → 0 ≤ e ≤ 64 →
  concat_advance rule n lvec rvec (Z.ones e)
  = step_spec (testbitint (lengths rule) n) e lvec rvec.
Proof.
  intros Hl Hr He. unfold concat_advance, step_spec. cbn zeta.
  fold (drop e lvec). fold (drop e rvec).
  destruct (testbitint (lengths rule) n); [|by rewrite succ_ones by lia].
  rewrite succ_ones by lia.
  rewrite land_position, Z.lxor_spec, negb_involutive
    by (lia || apply lxor_word; by apply drop_word).
  destruct (xorb _ _); [done|].
  rewrite !tailmask_spec by (by apply drop_word).
  pose proof (lowest_range (drop e lvec)).
  pose proof (lowest_range (drop e rvec)).
  rewrite land_ones, succ_ones by lia. done.
Qed.

Lemma drop_fill v t e :
  word v → 0 ≤ t ≤ e → e ≤ 64 →
  drop e (Z.lor v (Z.ones t)) = drop e v.
Proof.
  intros Hv Ht He. apply Z.bits_inj'. intros i Hi.
  assert (Hw : word (Z.lor v (Z.ones t)))
    by (apply lor_word; [done|apply ones_word; lia]).
  rewrite !testbit_drop by (done || lia).
  rewrite Z.lor_spec, Z.testbit_ones_nonneg by lia.
  destruct (Z.leb_spec e i); [|by rewrite !andb_false_r].
  destruct (Z.ltb_spec i t); [lia|]. by rewrite orb_false_r.
Qed.

Lemma nonzero_lowest v : word v → v ≠ 0 →
  0 ≤ lowest v 0 < 64 ∧ Z.testbit v (lowest v 0) = true
  ∧ from (lowest v 0) v.
Proof.
  intros Hv Hne. destruct (lowest_spec v 0) as (Hr & Hn & Hb); [lia|].
  assert (lowest v 0 ≠ 64).
  { intros H64. apply Hne. apply (lowest_zero v 0); [done|lia| |done].
    intros i Hi. lia. }
  split_and!; [lia|lia|apply Hb; lia|]. intros i Hi. apply Hn. lia.
Qed.

(** The fill and the recomputed mask, for the vector of the component. *)
Lemma component_mask v :
  word v → v ≠ 0 →
  let filled := Z.lor v (wrap64 (v - 1)) in
  filled = Z.lor v (Z.ones (lowest v 0))
  ∧ Z.land filled (wrap64 (not64 filled - 1)) = Z.ones (taken v).
Proof.
  intros Hv Hne. cbn zeta.
  destruct (nonzero_lowest v Hv Hne) as (Ht & Hb & Hf).
  rewrite (fill_spec v (lowest v 0)) by done. split; [done|].
  unfold taken.
  destruct (nextunset_spec v (lowest v 0)) as (Hr & Hset & Hstop); [lia|].
  apply lowmask_spec.
  - apply lor_word; [done|apply ones_word; lia].
  - lia.
  - intros i Hi. rewrite Z.lor_spec, Z.testbit_ones_nonneg by lia.
    destruct (Z.ltb_spec i (lowest v 0)); [by rewrite orb_true_r|].
    rewrite Hset by lia. done.
  - intros Hlt. rewrite Z.lor_spec, Z.testbit_ones_nonneg by lia.
    rewrite Hstop by lia.
    pose proof (run_end v (lowest v 0) Ht Hb).
    destruct (Z.ltb_spec (nextunset v (lowest v 0)) (lowest v 0)); [lia|done].
Qed.

Lemma taken_range v : word v → v ≠ 0 → lowest v 0 < taken v ≤ 64.
Proof.
  intros Hv Hne. destruct (nonzero_lowest v Hv Hne) as (Ht & Hb & Hf).
  apply run_end; done.
Qed.

Lemma concat_step_spec rule lvec rvec mask n :
  word lvec → word rvec →
  concat_step rule (lvec, rvec, mask) n
  = let vec := if testbitint (args rule) n then rvec else lvec in
    if Z.land vec mask =? 0 then None
    else step_spec (testbitint (lengths rule) n) (taken vec) lvec rvec.
Proof.
  intros Hl Hr. unfold concat_step. cbn zeta.
  destruct (testbitint (args rule) n).
  - destruct (Z.eqb_spec (Z.land rvec mask) 0) as [|Hne]; [done|].
    assert (Hnz : rvec ≠ 0) by (intros ->; by rewrite Z.land_0_l in Hne).
    destruct (component_mask rvec Hr Hnz) as [Hfill Hmask].
    cbn zeta in Hfill, Hmask. rewrite Hmask, Hfill.
    pose proof (taken_range rvec Hr Hnz) as Hrange.
    pose proof (lowest_range rvec) as Hlow.
    rewrite concat_advance_spec;
      [|done|apply lor_word; [done|apply ones_word; lia]|lia].
    unfold step_spec. cbn zeta. by rewrite drop_fill by (done || lia).
  - destruct (Z.eqb_spec (Z.land lvec mask) 0) as [|Hne]; [done|].
    assert (Hnz : lvec ≠ 0) by (intros ->; by rewrite Z.land_0_l in Hne).
    destruct (component_mask lvec Hl Hnz) as [Hfill Hmask].
    cbn zeta in Hfill, Hmask. rewrite Hmask, Hfill.
    pose proof (taken_range lvec Hl Hnz) as Hrange.
    pose proof (lowest_range lvec) as Hlow.
    rewrite concat_advance_spec;
      [|apply lor_word; [done|apply ones_word; lia]|done|lia].
    unfold step_spec. cbn zeta. by rewrite drop_fill by (done || lia).
Qed.

(** *** The loop of [concat] against the walk *)

Lemma disjoint_bits lvec rvec i :
  Z.land lvec rvec = 0 → Z.testbit lvec i = true → Z.testbit rvec i = false.
Proof.
  intros H Hb.
  assert (H0 : Z.testbit (Z.land lvec rvec) i = false)
    by (rewrite H; apply Z.bits_0).
  by rewrite Z.land_spec, Hb in H0.
Qed.

Lemma drop_lor e lvec rvec :
  0 ≤ e → word lvec → word rvec →
  drop e (Z.lor lvec rvec) = Z.lor (drop e lvec) (drop e rvec).
Proof.
  intros He Hl Hr. apply Z.bits_inj'. intros i Hi.
  rewrite Z.lor_spec, !testbit_drop, Z.lor_spec
    by (done || by apply lor_word).
  by destruct (Z.testbit lvec i), (Z.testbit rvec i), (e <=? i).
Qed.

Lemma drop_disjoint e lvec rvec :
  0 ≤ e → word lvec → word rvec → Z.land lvec rvec = 0 →
  Z.land (drop e lvec) (drop e rvec) = 0.
Proof.
  intros He Hl Hr Hd. apply zero_bits. intros i Hi.
  rewrite Z.land_spec, !testbit_drop by done.
  destruct (Z.testbit lvec i) eqn:Hb; [|done].
  rewrite (disjoint_bits lvec rvec i) by done. by rewrite andb_false_r.
Qed.

Lemma from_lor p lvec rvec :
  from p lvec → from p rvec → from p (Z.lor lvec rvec).
Proof. intros Hl Hr i Hi. by rewrite Z.lor_spec, Hl, Hr. Qed.

Lemma lowest_lor lvec rvec :
  lowest (Z.lor lvec rvec) 0 = Z.min (lowest lvec 0) (lowest rvec 0).
Proof.
  destruct (lowest_spec lvec 0) as (Hrl & Hnl & Hbl); [lia|].
  destruct (lowest_spec rvec 0) as (Hrr & Hnr & Hbr); [lia|].
  apply lowest_unique; [lia|lia| |].
  - intros i Hi. rewrite Z.lor_spec, Hnl, Hnr by lia. done.
  - intros Hlt. rewrite Z.lor_spec.
    destruct (Z.min_spec (lowest lvec 0) (lowest rvec 0)) as [[? ->]|[? ->]].
    + rewrite Hbl by lia. done.
    + rewrite Hbr by lia. apply orb_true_r.
Qed.

Lemma from_lowest v : from (lowest v 0) v.
Proof.
  destruct (lowest_spec v 0) as (_ & Hn & _); [lia|].
  intros i Hi. apply Hn. lia.
Qed.

Lemma from_le p q v : q ≤ p → from p v → from q v.
Proof. intros Hq Hf i Hi. apply Hf. lia. Qed.

(** The vectors of the two children while [concat] runs: disjoint words
    without positions below [p]. *)
Record state (lvec rvec p : Z) : Prop := mkState {
  st_l : word lvec;
  st_r : word rvec;
  st_disjoint : Z.land lvec rvec = 0;
  st_p : 0 ≤ p ≤ 64;
  st_from_l : from p lvec;
  st_from_r : from p rvec
}.

(** The run of [vec] that starts at [p], and what taking it does. *)
Lemma take_run vec oth p :
  word vec → word oth → Z.land vec oth = 0 → 0 ≤ p ≤ 64 →
  from p vec → from p oth → Z.testbit vec p = true →
  p < 64 ∧ p < nextunset vec p ≤ 64
  ∧ taken vec = nextunset vec p
  ∧ runs vec = (p, nextunset vec p) :: runs (drop (nextunset vec p) vec)
  ∧ drop (nextunset vec p) oth = oth
  ∧ (∀ i, p ≤ i < nextunset vec p → Z.testbit vec i = true).
Proof.
  intros Hv Ho Hd Hp Hfv Hfo Hb.
  assert (Hlt : p < 64).
  { destruct (decide (p < 64)); [done|].
    rewrite (word_bits vec) in Hb by (done || lia). done. }
  pose proof (run_end vec p ltac:(lia) Hb) as He.
  destruct (nextunset_spec vec p) as (_ & Hset & _); [lia|].
  assert (Hlow : lowest vec 0 = p).
  { apply lowest_unique; [lia|lia| |done]. intros i Hi. apply Hfv. lia. }
  split_and!; [done|lia|lia| | | |done].
  - unfold taken. by rewrite Hlow.
  - apply runs_first; [done|lia|done|done].
  - apply drop_id; [lia|done|]. intros i Hi.
    destruct (decide (i < p)); [apply Hfo; lia|].
    apply (disjoint_bits vec oth); [done|]. apply Hset. lia.
Qed.

Lemma gap_bit e lvec rvec :
  0 ≤ e → word lvec → word rvec → Z.land lvec rvec = 0 →
  xorb (Z.testbit (drop e lvec) e) (Z.testbit (drop e rvec) e)
  = Z.testbit (Z.lor lvec rvec) e.
Proof.
  intros He Hl Hr Hd. rewrite !testbit_drop, Z.lor_spec, Z.leb_refl by done.
  rewrite !andb_true_r.
  destruct (Z.testbit lvec e) eqn:Hb; [|by destruct (Z.testbit rvec e)].
  by rewrite (disjoint_bits lvec rvec e).
Qed.

Lemma glue_self p u :
  0 ≤ p < 64 → Z.testbit u p = true → glue p p (rest u p) = rest u p.
Proof.
  intros Hp Hb. rewrite glue_rest by lia.
  rewrite decide_True by (split; [lia|done]).
  rewrite (rest_step u p) by lia.
  assert (lowest u p = p) as ->.
  { apply lowest_unique; [lia|lia| |done]. intros i Hi. lia. }
  destruct (Z.eqb_spec p 64); [lia|done].
Qed.

Lemma concat_loop_nil rule lvec rvec mask :
  concat_loop rule [] (lvec, rvec, mask) = true ↔ lvec = 0 ∧ rvec = 0.
Proof.
  simpl. rewrite andb_true_iff, !Z.eqb_eq. split; [intros [-> ->]|intros [-> ->]];
    done.
Qed.

Section loop.
Variable rule : Rule.

(** [concat_loop] accepts from a state exactly when the walk over the same
    atoms gives the runs of the union: after the pending run [(s0, p)]
    within an argument, and from the lowest position left at the start of
    an argument. *)
Definition agrees (ns : list Z) (lvec rvec p : Z) : Prop :=
  (∀ s0, concat_loop rule ns (lvec, rvec, position p) = true
         ↔ walk (args rule) (lengths rule) ns (runs lvec) (runs rvec)
                (Some (s0, p))
           = Some (glue s0 p (runs (Z.lor lvec rvec))))
  ∧ (p = lowest (Z.lor lvec rvec) 0 →
     concat_loop rule ns (lvec, rvec, position p) = true
     ↔ walk (args rule) (lengths rule) ns (runs lvec) (runs rvec) None
       = Some (runs (Z.lor lvec rvec))).

Lemma agrees_nil lvec rvec p : state lvec rvec p → agrees [] lvec rvec p.
Proof.
  intros [Hl Hr Hd Hp Hfl Hfr]. split; [intros s0|intros _];
    rewrite concat_loop_nil; simpl.
  - split.
    + intros [-> ->]. done.
    + destruct (runs lvec) eqn:El; [|done].
      destruct (runs rvec) eqn:Er; [|done]. intros _.
      split; by apply runs_nil.
  - split.
    + intros [-> ->]. done.
    + destruct (runs lvec) eqn:El; [|done].
      destruct (runs rvec) eqn:Er; [|done]. intros _.
      split; by apply runs_nil.
Qed.

Lemma agrees_cons n ns :
  (∀ lvec rvec p, state lvec rvec p → agrees ns lvec rvec p) →
  ∀ lvec rvec p, state lvec rvec p → agrees (n :: ns) lvec rvec p.
Proof.
  intros IH lvec rvec p [Hl Hr Hd Hp Hfl Hfr].
  set (b := testbitint (args rule) n).
  set (vec := if b then rvec else lvec).
  set (oth := if b then lvec else rvec).
  set (u := Z.lor lvec rvec).
  assert (Hu : word u) by (by apply lor_word).
  assert (Hfu : from p u) by (by apply from_lor).
  assert (Hv : word vec) by (by destruct b).
  assert (Ho : word oth) by (by destruct b).
  assert (Hvo : Z.land vec oth = 0)
    by (subst vec oth; destruct b; [by rewrite Z.land_comm|done]).
  assert (Hfv : from p vec) by (by destruct b).
  assert (Hfo : from p oth) by (by destruct b).
  assert (Hsub : ∀ i, Z.testbit vec i = true → Z.testbit u i = true).
  { intros i Hi. subst u vec. rewrite Z.lor_spec.
    destruct b; rewrite Hi; [apply orb_true_r|done]. }
  assert (Hloop : concat_loop rule (n :: ns) (lvec, rvec, position p)
            = if Z.testbit vec p
              then match step_spec (testbitint (lengths rule) n) (taken vec)
                           lvec rvec with
                   | Some st => concat_loop rule ns st
                   | None => false
                   end
              else false).
  { cbn [concat_loop]. rewrite concat_step_spec by done. cbn zeta.
    fold b. fold vec. rewrite land_position by (lia || done).
    by destruct (Z.testbit vec p). }
  destruct (Z.testbit vec p) eqn:Hbit.
  - (* the component starts at [p] *)
    destruct (take_run vec oth p) as (Hlt & He & Htaken & Hruns & Hoth & Hset);
      [done..|].
    set (e := nextunset vec p) in *.
    set (l2 := drop e lvec). set (r2 := drop e rvec).
    assert (Hst2 : state l2 r2 e).
    { split; [by apply drop_word|by apply drop_word|by apply drop_disjoint; [lia|..]
             |lia|apply drop_from; [lia|done]|apply drop_from; [lia|done]]. }
    assert (Hu2 : runs (Z.lor l2 r2) = rest u e).
    { subst l2 r2. rewrite <- drop_lor by (done || lia).
      apply runs_drop; [lia|done]. }
    assert (Hglue : ∀ s0, glue s0 p (runs u) = glue s0 e (rest u e)).
    { intros s0. rewrite (runs_from_position u p) by done.
      apply glue_advance; [lia|lia|]. intros i Hi. apply Hsub, Hset. lia. }
    assert (Hwalk : ∀ cur s0, merged cur p e = Some (s0, e) →
              walk (args rule) (lengths rule) (n :: ns) (runs lvec) (runs rvec)
                   cur
              = if testbitint (lengths rule) n
                then cons (s0, e)
                     <$> walk (args rule) (lengths rule) ns (runs l2) (runs r2)
                              None
                else walk (args rule) (lengths rule) ns (runs l2) (runs r2)
                          (Some (s0, e))).
    { intros cur s0 Hm. cbn [walk]. fold b. subst l2 r2 vec oth.
      destruct b; by rewrite Hruns, Hm, Hoth. }
    assert (Hpp : ∀ s0, merged (Some (s0, p)) p e = Some (s0, e))
      by (intros s0; simpl; by rewrite Z.eqb_refl).
    assert (Hself : runs u = glue p p (runs u)).
    { rewrite (runs_from_position u p) by done. symmetry.
      apply glue_self; [lia|]. by apply Hsub. }
    assert (Hcases : ∀ cur s0, merged cur p e = Some (s0, e) →
              (match (if testbitint (lengths rule) n
                      then if xorb (Z.testbit l2 e) (Z.testbit r2 e) then None
                           else Some (l2, r2,
                                      position (Z.min (lowest l2 0)
                                                      (lowest r2 0)))
                      else Some (l2, r2, position e)) with
               | Some st => concat_loop rule ns st
               | None => false
               end = true
               ↔ walk (args rule) (lengths rule) (n :: ns) (runs lvec)
                      (runs rvec) cur
                 = Some (glue s0 p (runs u)))).
    { intros cur s0 Hm. rewrite (Hwalk cur s0 Hm), Hglue.
      destruct (testbitint (lengths rule) n).
      - (* the end of an argument *)
        subst l2 r2. rewrite gap_bit by (done || lia). fold u.
        rewrite glue_rest by lia.
        destruct (Z.testbit u e) eqn:Hue.
        + assert (He64 : e < 64).
          { destruct (decide (e < 64)); [done|].
            rewrite (word_bits u) in Hue by (done || lia). done. }
          rewrite decide_True by done.
          pose proof (run_end u e ltac:(lia) Hue) as Hend.
          split; [done|].
          destruct (walk _ _ ns _ _ None); simpl; [|done].
          intros [= Heq _]. lia.
        + rewrite decide_False by (by intros [_ ?]).
          fold (drop e lvec) (drop e rvec).
          set (l2 := drop e lvec) in *. set (r2 := drop e rvec) in *.
          set (q := Z.min (lowest l2 0) (lowest r2 0)).
          assert (Hq : q = lowest (Z.lor l2 r2) 0)
            by (by rewrite lowest_lor).
          assert (Hstq : state l2 r2 q).
          { destruct Hst2 as [? ? ? ? ? ?].
            pose proof (lowest_range l2). pose proof (lowest_range r2).
            split; [done|done|done|lia| |].
            - apply (from_le (lowest l2 0)); [lia|apply from_lowest].
            - apply (from_le (lowest r2 0)); [lia|apply from_lowest]. }
          destruct (IH l2 r2 q Hstq) as [_ HB]. rewrite (HB Hq), Hu2.
          destruct (walk _ _ ns _ _ None) as [out|]; simpl.
          * split; [by intros [= ->]|by intros [= ->]].
          * done.
      - (* within an argument *)
        destruct (IH l2 r2 e Hst2) as [HA _]. by rewrite (HA s0), Hu2. }
    unfold agrees. rewrite Hloop, Htaken. unfold step_spec. cbn zeta.
    fold l2 r2. fold u. split.
    + intros s0. apply Hcases, Hpp.
    + intros _. rewrite Hself. by apply Hcases.
  - (* no component at [p] *)
    unfold agrees. rewrite Hloop. fold u.
    assert (Hlater := runs_later vec p Hv Hp Hfv (λ _, Hbit)).
    assert (Hpick : (if b then runs rvec else runs lvec) = runs vec)
      by (by destruct b).
    split.
    + intros s0. split; [done|]. cbn [walk]. fold b. rewrite Hpick.
      destruct (runs vec) as [|[s e] more]; [done|]. simpl.
      destruct (Z.eqb_spec p s); [lia|done].
    + intros Hlow. split; [done|]. cbn [walk]. fold b. rewrite Hpick.
      destruct (runs vec) as [|[s e] more] eqn:Hrv; [done|]. simpl.
      intros Hw.
      assert (Hhead : ∃ e' more', runs u = (s, e') :: more').
      { destruct (testbitint (lengths rule) n).
        - destruct (walk _ _ ns _ _ None); [|done]. injection Hw as <-.
          by eexists _, _.
        - by apply walk_head in Hw. }
      destruct Hhead as (e' & more' & Hhead).
      rewrite runs_rest, rest_step in Hhead by lia. fold u in Hhead.
      destruct (lowest u 0 =? 64); [done|].
      injection Hhead as Hs _ _. lia.
Qed.

Lemma concat_loop_agrees ns lvec rvec p :
  state lvec rvec p → agrees ns lvec rvec p.
Proof.
  revert lvec rvec p. induction ns as [|n ns IH].
  - apply agrees_nil.
  - by apply agrees_cons.
Qed.

End loop.

(** The child that the first atom names starts first: every position of
    the other child has a position of that child before it. *)
Definition leads (rule : Rule) (lvec rvec : Z) : Prop :=
  let first := if testbitint (args rule) 0 then rvec else lvec in
  let other := if testbitint (args rule) 0 then lvec else rvec in
  ∀ i, Z.testbit other i = true → ∃ j, 0 ≤ j < i ∧ Z.testbit first j = true.

Lemma state_lowest lvec rvec :
  word lvec → word rvec → Z.land lvec rvec = 0 →
  state lvec rvec (lowest (Z.lor lvec rvec) 0).
Proof.
  intros Hl Hr Hd. rewrite lowest_lor.
  pose proof (lowest_range lvec). pose proof (lowest_range rvec).
  split; [done|done|done|lia| |].
  - apply (from_le (lowest lvec 0)); [lia|apply from_lowest].
  - apply (from_le (lowest rvec 0)); [lia|apply from_lowest].
Qed.

(** With the mask that [concat] starts from, the first test only asks for
    a component; with the mask on the lowest position of both vectors it
    asks for the component to start there. *)
Lemma first_test vec oth :
  word vec → word oth → Z.land vec oth = 0 →
  let p := lowest (Z.lor vec oth) 0 in
  (vec ≠ 0 ∧ ∀ i, Z.testbit oth i = true
                  → ∃ j, 0 ≤ j < i ∧ Z.testbit vec j = true)
  ↔ Z.testbit vec p = true.
Proof.
  intros Hv Ho Hd p.
  destruct (lowest_spec (Z.lor vec oth) 0) as (Hr & Hn & Hb); [lia|].
  fold p in Hr, Hn, Hb. split.
  - intros [Hnz Hleads].
    assert (Hp : p < 64).
    { destruct (decide (p < 64)) as [|Hge]; [done|]. destruct Hnz.
      apply word_zero; [done|]. intros i Hi.
      specialize (Hn i ltac:(lia)). rewrite Z.lor_spec in Hn.
      by apply orb_false_iff in Hn as [? _]. }
    specialize (Hb Hp). rewrite Z.lor_spec in Hb.
    destruct (Z.testbit vec p) eqn:Hvp; [done|]. simpl in Hb.
    destruct (Hleads p Hb) as (j & Hj & Hvj).
    specialize (Hn j ltac:(lia)). rewrite Z.lor_spec, Hvj in Hn. done.
  - intros Hvp. split.
    + intros ->. by rewrite Z.bits_0 in Hvp.
    + intros i Hoi. exists p. split; [|done].
      assert (Hi : 0 ≤ i).
      { destruct (decide (0 ≤ i)); [done|].
        rewrite Z.testbit_neg_r in Hoi by lia. done. }
      destruct (decide (i < p)) as [Hlt|Hge].
      { specialize (Hn i ltac:(lia)). rewrite Z.lor_spec, Hoi in Hn.
        by rewrite orb_true_r in Hn. }
      destruct (decide (i = p)) as [->|]; [|lia].
      by rewrite (disjoint_bits vec oth p) in Hoi.
Qed.

Lemma zrange_head k :
  zrange k = [] ∨ ∃ ns, zrange k = 0 :: ns.
Proof.
  unfold zrange, zrange_nat. destruct (Z.to_nat k) as [|n]; [by left|].
  right. simpl. by eexists.
Qed.

(** [concat], against the walk. *)
Lemma concat_walk rule lvec rvec :
  word lvec → word rvec →
  concat rule lvec rvec = true ∧ leads rule lvec rvec
  ↔ Z.land lvec rvec = 0
    ∧ walk (args rule) (lengths rule) (zrange (bitlength (lengths rule)))
           (runs lvec) (runs rvec) None
      = Some (runs (Z.lor lvec rvec)).
Proof.
  intros Hl Hr. unfold concat.
  destruct (Z.eqb_spec (Z.land lvec rvec) 0) as [Hd|Hnd]; cbn [negb].
  2:{ split; [by intros [? _]|by intros [? _]]. }
  set (p := lowest (Z.lor lvec rvec) 0).
  pose proof (state_lowest lvec rvec Hl Hr Hd) as Hst. fold p in Hst.
  destruct (concat_loop_agrees rule (zrange (bitlength (lengths rule)))
              lvec rvec p Hst) as [_ HB].
  specialize (HB eq_refl). rewrite <- HB. clear HB.
  destruct (zrange_head (bitlength (lengths rule))) as [->|[ns ->]].
  - rewrite !concat_loop_nil. split; [by intros [? _]|].
    intros [_ [-> ->]]. split; [done|]. unfold leads. cbn zeta.
    intros i Hi. destruct (testbitint (args rule) 0);
      by rewrite Z.bits_0 in Hi.
  - cbn [concat_loop]. rewrite !concat_step_spec by done. cbn zeta.
    set (b := testbitint (args rule) 0).
    set (vec := if b then rvec else lvec).
    set (oth := if b then lvec else rvec).
    assert (Hv : word vec) by (by destruct b).
    assert (Ho : word oth) by (by destruct b).
    assert (Hvo : Z.land vec oth = 0)
      by (subst vec oth; destruct b; [by rewrite Z.land_comm|done]).
    assert (Hu : Z.lor vec oth = Z.lor lvec rvec)
      by (subst vec oth; destruct b; [by rewrite Z.lor_comm|done]).
    pose proof (first_test vec oth Hv Ho Hvo) as Hfirst.
    cbn zeta in Hfirst. rewrite Hu in Hfirst. fold p in Hfirst.
    change (leads rule lvec rvec)
      with (∀ i, Z.testbit oth i = true
                 → ∃ j, 0 ≤ j < i ∧ Z.testbit vec j = true).
    rewrite Z.land_diag, land_position by (done || apply Hst).
    split.
    + intros [Hrun Hleads]. split; [done|]. revert Hrun.
      destruct (Z.eqb_spec vec 0) as [|Hnz]; [done|].
      by rewrite (proj1 Hfirst).
    + intros [_ Hrun].
      destruct (Z.testbit vec p) eqn:Hvp; [|done].
      destruct (proj2 Hfirst eq_refl) as [Hnz Hleads].
      split; [|done]. by destruct (Z.eqb_spec vec 0).
Qed.

(** [concat] accepts two vectors, with the child of the first atom starting
    first, exactly when the vectors are disjoint and the yield function of
    the rule, applied to their runs, gives the runs of their union. *)
Theorem concat_accepts_iff_yields rule lvec rvec :
  word lvec → word rvec →
  concat rule lvec rvec = true ∧ leads rule lvec rvec
  ↔ Z.land lvec rvec = 0 ∧ yields rule lvec rvec.
Proof. intros Hl Hr. rewrite yields_walk. by apply concat_walk. Qed.

(** The plain concatenation of position 0 and position 1. *)
Lemma concat_accepts_witness :
  let rule := mkRule 1 2 3 2 2 0 0 in
  word 1 ∧ word 2
  ∧ (concat rule 1 2 = true ∧ leads rule 1 2
     ↔ Z.land 1 2 = 0 ∧ yields rule 1 2).
Proof.
  assert (H1 : word 1) by (split; [done|reflexivity]).
  assert (H2 : word 2) by (split; [done|reflexivity]).
  split; [exact H1|]. split; [exact H2|].
  exact (concat_accepts_iff_yields (mkRule 1 2 3 2 2 0 0) 1 2 H1 H2).
Defined.

End ConcatYieldFacts.

(** ** [fatconcat] and the yield function *)

Module FatYieldFacts.
Import Bit Containers YieldFunction Plcfrs WordFacts RunFacts ConcatYieldFacts.

(** *** Wide vectors with one word in use *)

Lemma TESTBIT_widen v i :
  word v → 0 ≤ i → TESTBIT (widen v) i = Z.testbit v i.
Proof.
  intros Hv Hi. unfold TESTBIT, BITSLOT, BITMASK, BITSIZE, Bit.word, widen.
  destruct (decide (i < 64)) as [Hlt|Hge].
  - rewrite Z.div_small, Z.mod_small by lia. cbn [Z.to_nat nth].
    assert (Hw : word (2 ^ i)).
    { split; [lia|]. apply Z.pow_lt_mono_r; lia. }
    rewrite <- (wrap64_small (2 ^ i) Hw). fold (position i).
    by rewrite land_position, negb_involutive by (done || lia).
  - rewrite (word_bits v) by (done || lia).
    assert (1 ≤ i / 64) by (apply Z.div_le_lower_bound; lia).
    destruct (Z.to_nat (i / 64)) as [|[|k]] eqn:E; [lia|done|].
    cbn [nth]. by destruct k.
Qed.

Lemma ascanset_widen fuel v i :
  word v → 0 ≤ i → ascanset fuel (widen v) i = scanset fuel v i.
Proof.
  intros Hv. revert i. induction fuel as [|fuel IH]; intros i Hi; [done|].
  cbn [ascanset scanset]. rewrite TESTBIT_widen by done.
  destruct (Z.testbit v i); [done|]. apply IH. lia.
Qed.

Lemma ascanunset_widen fuel v i :
  word v → 0 ≤ i → ascanunset fuel (widen v) i = scanunset fuel v i.
Proof.
  intros Hv. revert i. induction fuel as [|fuel IH]; intros i Hi; [done|].
  cbn [ascanunset scanunset]. rewrite TESTBIT_widen by done.
  destruct (Z.testbit v i); [|done]. apply IH. lia.
Qed.

(** A position as [anextset] reports it: [-1] when there is none. *)
Definition cursor (p : Z) : Z := if p =? 64 then -1 else p.

Lemma cursor_range p : 0 ≤ p ≤ 64 → -1 ≤ cursor p < 64.
Proof. intros Hp. unfold cursor. destruct (Z.eqb_spec p 64); lia. Qed.

Lemma cursor_none p : 0 ≤ p ≤ 64 → (cursor p =? -1) = (p =? 64).
Proof.
  intros Hp. unfold cursor. destruct (Z.eqb_spec p 64) as [|Hne]; [done|].
  destruct (Z.eqb_spec p (-1)); [lia|done].
Qed.

Lemma cursor_some p : 0 ≤ p < 64 → cursor p = p.
Proof. intros Hp. unfold cursor. destruct (Z.eqb_spec p 64); [lia|done]. Qed.

Lemma anextset_widen v pos :
  word v → 0 ≤ pos ≤ 64 →
  anextset (widen v) pos SLOTS = cursor (lowest v pos).
Proof.
  intros Hv Hp. unfold anextset. rewrite ascanset_widen by (done || lia).
  unfold SLOTS, BITSIZE.
  destruct (scanset_spec (Z.to_nat (2 * 64 - pos)) v pos)
    as [[-> Hn]|(Hr & Hb & Hn)]; [lia| |].
  - rewrite (lowest_unique v pos 64); [done|lia|lia| |lia].
    intros i Hi. apply Hn. lia.
  - set (r := scanset _ v pos) in *.
    assert (r < 64).
    { destruct (decide (r < 64)); [done|].
      rewrite (word_bits v) in Hb by (done || lia). done. }
    rewrite (lowest_unique v pos r);
      [by rewrite cursor_some by lia|lia|lia| |done].
    intros i Hi. apply Hn. lia.
Qed.

Lemma anextunset_widen v pos :
  word v → 0 ≤ pos ≤ 64 →
  anextunset (widen v) pos SLOTS = nextunset v pos.
Proof.
  intros Hv Hp. unfold anextunset. rewrite ascanunset_widen by (done || lia).
  unfold SLOTS, BITSIZE.
  destruct (scanunset_spec (Z.to_nat (2 * 64 - pos)) v pos)
    as (Hr & Hset & Hstop).
  set (r := scanunset _ v pos) in *.
  assert (r ≤ 64).
  { destruct (decide (r ≤ 64)); [done|].
    specialize (Hset 64 ltac:(lia)).
    by rewrite (word_bits v) in Hset by (done || lia). }
  symmetry. apply nextunset_unique; [lia|lia|done|].
  intros Hlt. apply Hstop. lia.
Qed.

(** *** One step of [fatconcat] *)

(** The loop body for the child [vec] of the atom, with the other child
    [oth] and their cursors: the new cursors of [vec] and [oth]. *)
Definition fat_take (gap : bool) (vec oth vpos opos : Z) : option (Z * Z) :=
  if (vpos =? -1) || (negb (opos =? -1) && (opos <=? vpos)) then None
  else
    let e := nextunset vec vpos in
    if negb (opos =? -1) && (opos <? e) then None
    else if (if gap then Z.testbit oth e else negb (Z.testbit oth e))
    then None
    else Some (cursor (lowest vec e), opos).

Lemma fatconcat_step_spec rule lvec rvec lpos rpos n :
  word lvec → word rvec → -1 ≤ lpos < 64 → -1 ≤ rpos < 64 →
  fatconcat_step rule (widen lvec) (widen rvec) (lpos, rpos) n
  = if testbitint (args rule) n
    then match fat_take (testbitint (lengths rule) n) rvec lvec rpos lpos with
         | Some (v, o) => Some (o, v)
         | None => None
         end
    else fat_take (testbitint (lengths rule) n) lvec rvec lpos rpos.
Proof.
  intros Hl Hr Hlp Hrp. unfold fatconcat_step, fat_take.
  destruct (testbitint (args rule) n).
  - destruct ((rpos =? -1) || _) eqn:Hc1; [done|].
    apply orb_false_iff in Hc1 as [Hne _]. apply Z.eqb_neq in Hne.
    rewrite anextunset_widen by (done || lia). cbn zeta.
    destruct (nextunset_spec rvec rpos) as (He & _); [lia|].
    destruct (negb (lpos =? -1) && _); [done|].
    rewrite TESTBIT_widen by (done || lia).
    destruct (if testbitint (lengths rule) n then _ else _); [done|].
    by rewrite anextset_widen by (done || lia).
  - destruct ((lpos =? -1) || _) eqn:Hc1; [done|].
    apply orb_false_iff in Hc1 as [Hne _]. apply Z.eqb_neq in Hne.
    rewrite anextunset_widen by (done || lia). cbn zeta.
    destruct (nextunset_spec lvec lpos) as (He & _); [lia|].
    destruct (negb (rpos =? -1) && _); [done|].
    rewrite TESTBIT_widen by (done || lia).
    destruct (if testbitint (lengths rule) n then _ else _); [done|].
    by rewrite anextset_widen by (done || lia).
Qed.

(** The step from the cursors that stand at the lowest positions from [c]
    on: the run of [vec] that starts at [s] has to come before every
    position of [oth]; it ends at [e], where [oth] has to go on within an
    argument and must not at the end of one. *)
Lemma fat_take_spec gap vec oth c :
  word vec → word oth → Z.land vec oth = 0 → 0 ≤ c ≤ 64 →
  let s := lowest vec c in
  let e := nextunset vec s in
  fat_take gap vec oth (cursor s) (cursor (lowest oth c))
  = if (s <? 64) && (s <? lowest oth c)
    then if (if gap then Z.testbit oth e else negb (Z.testbit oth e))
         then None
         else Some (cursor (lowest vec e), cursor (lowest oth e))
    else None.
Proof.
  intros Hv Ho Hd Hc s e.
  destruct (lowest_spec vec c) as (Hrs & Hns & Hbs); [done|].
  fold s in Hrs, Hns, Hbs.
  destruct (lowest_spec oth c) as (Hro & Hno & Hbo); [done|].
  set (o := lowest oth c) in *.
  unfold fat_take. rewrite !cursor_none by lia.
  destruct (Z.eqb_spec s 64) as [Hs64|Hs64].
  { destruct (Z.ltb_spec s 64); [lia|done]. }
  destruct (Z.ltb_spec s 64); [|lia].
  rewrite (cursor_some s) by lia. fold e. cbn [orb andb].
  specialize (Hbs ltac:(lia)).
  pose proof (run_end vec s ltac:(lia) Hbs) as He. fold e in He.
  destruct (nextunset_spec vec s) as (_ & Hset & _); [lia|]. fold e in Hset.
  assert (Hne : o < 64 → o ≠ s).
  { intros Ho64 ->. rewrite (disjoint_bits vec oth s) in Hbo by done.
    by discriminate Hbo. }
  assert (Hoe : s < o → e ≤ o).
  { intros Hso. destruct (decide (e ≤ o)) as [|Hlt]; [done|].
    specialize (Hbo ltac:(lia)).
    rewrite (disjoint_bits vec oth o) in Hbo by (done || apply Hset; lia).
    done. }
  destruct (Z.eqb_spec o 64) as [Ho64|Ho64]; cbn [negb andb].
  - destruct (Z.ltb_spec s o); [|lia].
    destruct (if gap then _ else _); [done|].
    rewrite (lowest_unique oth e 64); [by rewrite Ho64|lia|lia| |lia].
    intros i Hi. apply Hno. lia.
  - rewrite (cursor_some o) by lia.
    destruct (Z.leb_spec o s), (Z.ltb_spec s o); try lia; [done|].
    specialize (Hoe ltac:(lia)).
    destruct (Z.ltb_spec o e); [lia|].
    destruct (if gap then _ else _); [done|].
    rewrite (lowest_unique oth e o);
      [by rewrite (cursor_some o) by lia|lia|lia| |done].
    intros i Hi. apply Hno. lia.
Qed.

(** *** The loop of [fatconcat] against the walk *)

Lemma lowest_lor_from lvec rvec c :
  0 ≤ c ≤ 64 →
  lowest (Z.lor lvec rvec) c = Z.min (lowest lvec c) (lowest rvec c).
Proof.
  intros Hc.
  destruct (lowest_spec lvec c) as (Hrl & Hnl & Hbl); [lia|].
  destruct (lowest_spec rvec c) as (Hrr & Hnr & Hbr); [lia|].
  apply lowest_unique; [lia|lia| |].
  - intros i Hi. rewrite Z.lor_spec, Hnl, Hnr by lia. done.
  - intros Hlt. rewrite Z.lor_spec.
    destruct (Z.min_spec (lowest lvec c) (lowest rvec c)) as [[? ->]|[? ->]].
    + rewrite Hbl by lia. done.
    + rewrite Hbr by lia. apply orb_true_r.
Qed.

Lemma rest_nil v c : 0 ≤ c ≤ 64 → rest v c = [] ↔ lowest v c = 64.
Proof.
  intros Hc. rewrite rest_step by done.
  by destruct (Z.eqb_spec (lowest v c) 64).
Qed.

(** Within an argument, after a run that ends at [e], the next atom needs
    a run that starts at [e]. *)
Lemma walk_stuck a l n ns lvec rvec s0 e :
  0 ≤ e ≤ 64 → Z.testbit (Z.lor lvec rvec) e = false →
  walk a l (n :: ns) (rest lvec e) (rest rvec e) (Some (s0, e)) = None.
Proof.
  intros He Hu. rewrite Z.lor_spec in Hu.
  apply orb_false_iff in Hu as [Hlb Hrb].
  assert (Hone : ∀ v, Z.testbit v e = false →
            match rest v e with
            | [] => True
            | (s, _) :: _ => (e =? s) = false
            end).
  { intros v Hv. rewrite rest_step by done.
    destruct (lowest_spec v e) as (Hr & Hn & Hb); [done|].
    destruct (Z.eqb_spec (lowest v e) 64) as [|Hne]; [done|].
    destruct (Z.eqb_spec e (lowest v e)) as [Heq|]; [|done].
    rewrite <- Heq in Hb. rewrite Hb in Hv by lia. done. }
  cbn [walk]. destruct (testbitint a n).
  - specialize (Hone rvec Hrb).
    destruct (rest rvec e) as [|[s e'] more]; [done|]. simpl. by rewrite Hone.
  - specialize (Hone lvec Hlb).
    destruct (rest lvec e) as [|[s e'] more]; [done|]. simpl. by rewrite Hone.
Qed.

Section fatloop.
Variable rule : Rule.
Variables lvec rvec : Z.
Hypothesis Hl : word lvec.
Hypothesis Hr : word rvec.
Hypothesis Hd : Z.land lvec rvec = 0.

(** The cursors of [fatconcat] when the positions below [c] are used. *)
Definition cursors (c : Z) : Z * Z :=
  (cursor (lowest lvec c), cursor (lowest rvec c)).

(** The last atom ends an argument. *)
Definition closes (ns : list Z) : Prop :=
  match last ns with
  | Some n => testbitint (lengths rule) n = true
  | None => True
  end.

(** [fatconcat_loop] accepts from the cursors at [c] exactly when the walk
    over the same atoms gives the runs of the union from [c] on: after the
    pending run [(s0, c)] within an argument, where position [c] is that
    of a child, and at the start of an argument. *)
Definition fat_agrees (ns : list Z) : Prop :=
  ∀ c, 0 ≤ c ≤ 64 →
    (∀ s0, Z.testbit (Z.lor lvec rvec) c = true →
       fatconcat_loop rule (widen lvec) (widen rvec) ns (cursors c) = true
       ↔ walk (args rule) (lengths rule) ns (rest lvec c) (rest rvec c)
              (Some (s0, c))
         = Some (glue s0 c (rest (Z.lor lvec rvec) c)))
    ∧ (fatconcat_loop rule (widen lvec) (widen rvec) ns (cursors c) = true
       ↔ walk (args rule) (lengths rule) ns (rest lvec c) (rest rvec c) None
         = Some (rest (Z.lor lvec rvec) c)).

Lemma closes_tail n ns : closes (n :: ns) → closes ns.
Proof.
  unfold closes. destruct ns as [|n' ns]; [done|]. by rewrite last_cons_cons.
Qed.

Lemma closes_within n ns :
  closes (n :: ns) → testbitint (lengths rule) n = false →
  ∃ n' ns', ns = n' :: ns'.
Proof.
  unfold closes. destruct ns as [|n' ns]; [|by eexists _, _].
  simpl. intros -> ?. done.
Qed.

Lemma fat_agrees_nil : fat_agrees [].
Proof.
  intros c Hc. unfold cursors. cbn [fatconcat_loop walk].
  destruct (lowest_spec lvec c) as (Hrl & Hnl & Hbl); [done|].
  destruct (lowest_spec rvec c) as (Hrr & Hnr & Hbr); [done|].
  rewrite (cursor_none (lowest rvec c)) by lia.
  destruct (Z.eqb_spec (lowest rvec c) 64) as [Er|Er].
  - destruct (Z.eqb_spec (lowest lvec c) 64) as [El|El].
    + rewrite El, Er. rewrite (proj2 (rest_nil lvec c Hc) El).
      rewrite (proj2 (rest_nil rvec c Hc) Er).
      assert (Hu : lowest (Z.lor lvec rvec) c = 64)
        by (rewrite lowest_lor_from by done; lia).
      split.
      * intros s0 Hb. rewrite Z.lor_spec in Hb.
        destruct (decide (c < 64)).
        -- rewrite Hnl, Hnr in Hb by lia. done.
        -- rewrite (word_bits lvec), (word_bits rvec) in Hb by (done || lia).
           done.
      * by rewrite (proj2 (rest_nil _ c Hc) Hu).
    + assert (Hf : (cursor (lowest lvec c) =? cursor (lowest rvec c)) = false).
      { rewrite Er. rewrite (cursor_some (lowest lvec c)) by lia.
        apply Z.eqb_neq. unfold cursor. simpl. lia. }
      rewrite Hf. cbn [andb].
      destruct (rest lvec c) eqn:E; [by apply (rest_nil lvec c Hc) in E|].
      split; [intros s0 _|]; (split; [done|]); by destruct (rest rvec c).
  - rewrite andb_false_r.
    destruct (rest rvec c) eqn:E; [by apply (rest_nil rvec c Hc) in E|].
    split; [intros s0 _|]; (split; [done|]); by destruct (rest lvec c).
Qed.

Lemma fat_agrees_cons n ns :
  closes (n :: ns) → fat_agrees ns → fat_agrees (n :: ns).
Proof.
  intros Hcl IH c Hc.
  set (b := testbitint (args rule) n).
  set (gap := testbitint (lengths rule) n).
  set (vec := if b then rvec else lvec).
  set (oth := if b then lvec else rvec).
  set (u := Z.lor lvec rvec).
  assert (Hu : word u) by (by apply lor_word).
  assert (Hv : word vec) by (by destruct b).
  assert (Ho : word oth) by (by destruct b).
  assert (Hvo : Z.land vec oth = 0)
    by (subst vec oth; destruct b; [by rewrite Z.land_comm|done]).
  assert (Hbits : ∀ i, Z.testbit u i = Z.testbit vec i || Z.testbit oth i).
  { intros i. subst u vec oth. rewrite Z.lor_spec.
    destruct b; [apply orb_comm|done]. }
  set (s := lowest vec c). set (e := nextunset vec s).
  set (o := lowest oth c).
  destruct (lowest_spec vec c) as (Hrs & Hns & Hbs); [done|].
  fold s in Hrs, Hns, Hbs.
  destruct (lowest_spec oth c) as (Hro & Hno & Hbo); [done|].
  fold o in Hro, Hno, Hbo.
  assert (Hloop : fatconcat_loop rule (widen lvec) (widen rvec) (n :: ns)
                    (cursors c)
            = if (s <? 64) && (s <? o)
              then if (if gap then Z.testbit oth e
                       else negb (Z.testbit oth e))
                   then false
                   else fatconcat_loop rule (widen lvec) (widen rvec) ns
                          (cursors e)
              else false).
  { cbn [fatconcat_loop]. unfold cursors.
    pose proof (lowest_spec lvec c Hc) as (? & _).
    pose proof (lowest_spec rvec c Hc) as (? & _).
    rewrite fatconcat_step_spec by (done || apply cursor_range; lia).
    fold b gap. subst s e o vec oth. destruct b.
    - rewrite fat_take_spec by (done || by rewrite Z.land_comm).
      cbn zeta. destruct (_ && _); [|done].
      by destruct (if gap then _ else _).
    - rewrite fat_take_spec by done.
      cbn zeta. destruct (_ && _); [|done].
      by destruct (if gap then _ else _). }
  assert (Hpick : (if b then rest rvec c else rest lvec c) = rest vec c)
    by (by destruct b).
  assert (Hrv : s < 64 → rest vec c = (s, e) :: rest vec e).
  { intros Hs. rewrite (rest_step vec c) by done. fold s. fold e.
    destruct (Z.eqb_spec s 64); [lia|done]. }
  assert (Hlu : lowest u c = Z.min s o).
  { subst u s o vec oth. rewrite lowest_lor_from by done.
    destruct b; lia. }
  destruct ((s <? 64) && (s <? o)) eqn:Hfirst.
  - (* the run of the atom comes first *)
    apply andb_true_iff in Hfirst as [Hs64 Hso].
    apply Z.ltb_lt in Hs64. apply Z.ltb_lt in Hso.
    specialize (Hbs Hs64). specialize (Hrv Hs64).
    pose proof (run_end vec s ltac:(lia) Hbs) as He. fold e in He.
    destruct (nextunset_spec vec s) as (_ & Hset & Hstop); [lia|].
    fold e in Hset, Hstop.
    assert (Hoe : e ≤ o).
    { destruct (decide (e ≤ o)) as [|Hlt]; [done|].
      specialize (Hbo ltac:(lia)).
      rewrite (disjoint_bits vec oth o) in Hbo by (done || apply Hset; lia).
      done. }
    assert (Hro' : rest oth c = rest oth e).
    { apply rest_skip; [lia|lia|]. intros i Hi. apply Hno. lia. }
    assert (Hnu : ∀ i, c ≤ i < s → Z.testbit u i = false).
    { intros i Hi. by rewrite Hbits, Hns, Hno by lia. }
    assert (Hus : ∀ i, s ≤ i < e → Z.testbit u i = true).
    { intros i Hi. by rewrite Hbits, Hset by lia. }
    assert (Hue : Z.testbit u e = Z.testbit oth e).
    { rewrite Hbits. destruct (decide (e < 64)).
      - by rewrite Hstop by lia.
      - by rewrite (word_bits vec) by (done || lia). }
    assert (Hwalk : ∀ cur s0, merged cur s e = Some (s0, e) →
              walk (args rule) (lengths rule) (n :: ns) (rest lvec c)
                   (rest rvec c) cur
              = if gap
                then cons (s0, e)
                     <$> walk (args rule) (lengths rule) ns (rest lvec e)
                              (rest rvec e) None
                else walk (args rule) (lengths rule) ns (rest lvec e)
                          (rest rvec e) (Some (s0, e))).
    { intros cur s0 Hm. cbn [walk]. fold b gap. subst vec oth.
      destruct b; by rewrite Hrv, Hm, Hro'. }
    assert (Hcases : ∀ cur s0, merged cur s e = Some (s0, e) →
              ((if (if gap then Z.testbit oth e else negb (Z.testbit oth e))
                then false
                else fatconcat_loop rule (widen lvec) (widen rvec) ns
                       (cursors e)) = true
               ↔ walk (args rule) (lengths rule) (n :: ns) (rest lvec c)
                      (rest rvec c) cur
                 = Some (glue s0 e (rest u e)))).
    { intros cur s0 Hm. rewrite (Hwalk cur s0 Hm).
      destruct (IH e ltac:(lia)) as [HA HB]. fold u in HA, HB.
      destruct gap eqn:Hgap.
      - (* the end of an argument *)
        rewrite glue_rest by lia. rewrite Hue.
        destruct (Z.testbit oth e) eqn:Hoth.
        + assert (He64 : e < 64).
          { destruct (decide (e < 64)); [done|].
            rewrite (word_bits oth) in Hoth by (done || lia). done. }
          rewrite decide_True by done.
          assert (Hbe : Z.testbit u e = true)
            by (by rewrite Hbits, Hoth, orb_true_r).
          pose proof (run_end u e ltac:(lia) Hbe) as Hend.
          split; [done|].
          destruct (walk _ _ ns _ _ None); simpl; [|done].
          intros [= Heq _]. lia.
        + rewrite decide_False by (by intros [_ ?]).
          rewrite HB.
          destruct (walk _ _ ns _ _ None) as [out|]; simpl.
          * split; [by intros [= ->]|by intros [= ->]].
          * done.
      - (* within an argument *)
        destruct (Z.testbit oth e) eqn:Hoth; cbn [negb].
        + apply HA. by rewrite Hbits, Hoth, orb_true_r.
        + split; [done|].
          destruct (closes_within n ns Hcl Hgap) as (n' & ns' & ->).
          rewrite walk_stuck; [done|lia|]. fold u. rewrite Hbits, Hoth.
          destruct (decide (e < 64)).
          * by rewrite Hstop by lia.
          * by rewrite (word_bits vec) by (done || lia). }
    rewrite Hloop. split.
    + intros s0 Hbc.
      assert (Hsc : s = c).
      { destruct (decide (s = c)) as [|Hne]; [done|].
        rewrite Hnu in Hbc by lia. done. }
      rewrite (glue_advance s0 c e u) by (lia || (intros i Hi; apply Hus; lia)).
      apply Hcases. simpl. rewrite Hsc. by rewrite Z.eqb_refl.
    + assert (Hexp : rest u c = glue s e (rest u e)).
      { rewrite (rest_skip u c s) by (lia || done).
        rewrite <- (glue_self s u) by (lia || apply Hus; lia).
        apply glue_advance; [lia|lia|done]. }
      rewrite Hexp. by apply Hcases.
  - (* the other child comes first, or the child has no run left *)
    rewrite Hloop.
    destruct (decide (s < 64)) as [Hs64|Hs64].
    2:{ assert (Hnil : rest vec c = []) by (apply rest_nil; [done|]; lia).
        split; [intros s0 _|]; (split; [done|]); cbn [walk]; fold b;
          by rewrite Hpick, Hnil. }
    specialize (Hbs Hs64). specialize (Hrv Hs64).
    assert (Hos : o < s).
    { apply andb_false_iff in Hfirst as [Hf|Hf]; apply Z.ltb_ge in Hf; [lia|].
      destruct (decide (o = s)) as [Heq|]; [|lia].
      specialize (Hbo ltac:(lia)). rewrite Heq in Hbo.
      by rewrite (disjoint_bits vec oth s) in Hbo. }
    split.
    + intros s0 _. split; [done|]. cbn [walk]. fold b.
      rewrite Hpick, Hrv. simpl.
      destruct (Z.eqb_spec c s); [lia|done].
    + split; [done|]. cbn [walk]. fold b. rewrite Hpick, Hrv. simpl.
      intros Hw.
      assert (Hhead : ∃ e' more', rest u c = (s, e') :: more').
      { destruct (testbitint (lengths rule) n).
        - destruct (walk _ _ ns _ _ None); [|done]. injection Hw as <-.
          by eexists _, _.
        - by apply walk_head in Hw. }
      destruct Hhead as (e' & more' & Hhead).
      rewrite rest_step in Hhead by lia.
      destruct (lowest u c =? 64); [done|].
      injection Hhead as Hs _ _. lia.
Qed.

Lemma fatconcat_loop_agrees ns : closes ns → fat_agrees ns.
Proof.
  induction ns as [|n ns IH]; intros Hcl.
  - apply fat_agrees_nil.
  - apply fat_agrees_cons; [done|]. apply IH. by eapply closes_tail.
Qed.

End fatloop.

(** *** [fatconcat] *)

Lemma fat_overlap_widen lvec rvec :
  fat_overlap (widen lvec) (widen rvec) = negb (Z.land lvec rvec =? 0).
Proof.
  unfold fat_overlap, Bit.word, widen. change (zrange SLOTS) with [0; 1].
  simpl. by rewrite orb_false_r.
Qed.

(** A yield function with its [lengths] read as an unsigned number ends
    with the end of an argument. *)
Lemma closes_zrange rule :
  0 ≤ lengths rule → closes rule (zrange (bitlength (lengths rule))).
Proof.
  intros Hle. unfold closes, bitlength.
  destruct (Z.eqb_spec (lengths rule) 0) as [|Hne]; [done|].
  pose proof (Z.log2_nonneg (lengths rule)) as Hlog.
  unfold zrange, zrange_nat.
  replace (Z.to_nat (Z.log2 (lengths rule) + 1))
    with (S (Z.to_nat (Z.log2 (lengths rule)))) by lia.
  rewrite seq_S, map_app. cbn [map]. rewrite last_snoc. cbn [Nat.add].
  rewrite Z2Nat.id by done. apply Z.bit_log2. lia.
Qed.

(** The run of [vec] that starts before every position of [oth] ends
    before them. *)
Lemma run_clear vec oth c :
  Z.land vec oth = 0 → 0 ≤ c ≤ 64 →
  lowest vec c < 64 → lowest vec c < lowest oth c →
  nextunset vec (lowest vec c) ≤ lowest oth c.
Proof.
  intros Hd Hc Hs Hso.
  destruct (lowest_spec vec c) as (Hrs & _ & _); [done|].
  destruct (lowest_spec oth c) as (Hro & _ & Hbo); [done|].
  destruct (nextunset_spec vec (lowest vec c)) as (He & Hset & _); [lia|].
  destruct (decide (nextunset vec (lowest vec c) ≤ lowest oth c)) as [|Hlt];
    [done|].
  specialize (Hbo ltac:(lia)).
  rewrite (disjoint_bits vec oth (lowest oth c)) in Hbo
    by (done || apply Hset; lia).
  done.
Qed.

(** The shortcut for the concatenation of two components gives what the
    loop gives. *)
Lemma fast_path rule lvec rvec :
  word lvec → word rvec → Z.land lvec rvec = 0 → lvec ≠ 0 ∨ rvec ≠ 0 →
  args rule = 2 → lengths rule = 2 →
  let lpos := anextset (widen lvec) 0 SLOTS in
  let rpos := anextset (widen rvec) 0 SLOTS in
  let n := anextunset (widen lvec) lpos SLOTS in
  (rpos =? n)
  && ((-1 =? anextset (widen lvec) n SLOTS)
      && (anextset (widen lvec) n SLOTS
          =? anextset (widen rvec) (anextunset (widen rvec) rpos SLOTS) SLOTS))
  = fatconcat_loop rule (widen lvec) (widen rvec) [0; 1] (cursors lvec rvec 0).
Proof.
  intros Hl Hr Hd Hne Ha Hlen. cbn zeta.
  rewrite !(anextset_widen _ 0) by (done || lia).
  destruct (lowest_spec lvec 0) as (Hrs & Hns & Hbs); [lia|].
  destruct (lowest_spec rvec 0) as (Hro & Hno & Hbo); [lia|].
  cbn [fatconcat_loop]. unfold cursors.
  rewrite fatconcat_step_spec by (done || apply cursor_range; lia).
  rewrite Ha, Hlen. change (testbitint 2 0) with false. cbv iota.
  rewrite fat_take_spec by (done || lia). cbn zeta.
  set (s := lowest lvec 0) in *. set (o := lowest rvec 0) in *.
  destruct (Z.ltb_spec s 64) as [Hs|Hs]; cbn [andb].
  2:{ (* no left component *)
      assert (Hz : lvec = 0).
      { apply (lowest_zero lvec 0); [done|lia| |subst s; lia].
        intros i Hi. lia. }
      assert (Hoz : o ≠ 64).
      { intros Ho. destruct Hne as [Hne|Hne]; [done|]. apply Hne.
        apply (lowest_zero rvec 0); [done|lia| |done]. intros i Hi. lia. }
      subst s. rewrite Hz.
      replace (anextunset (widen 0) (cursor (lowest 0 0)) SLOTS) with (-1)
        by (vm_compute; reflexivity).
      rewrite (cursor_none o) by lia.
      by destruct (Z.eqb_spec o 64). }
  rewrite (cursor_some s) by lia.
  rewrite (anextunset_widen lvec s) by (done || lia).
  specialize (Hbs Hs).
  pose proof (run_end lvec s ltac:(lia) Hbs) as He.
  destruct (nextunset_spec lvec s) as (_ & Hset & Hstop); [lia|].
  set (e := nextunset lvec s) in *.
  rewrite (anextset_widen lvec e) by (done || lia).
  destruct (Z.eqb_spec (cursor o) e) as [Hoe|Hoe]; cbn [andb].
  - (* the right component starts where the left one ends *)
    assert (Ho : o = e ∧ e < 64).
    { unfold cursor in Hoe. destruct (Z.eqb_spec o 64); lia. }
    destruct Ho as [Ho He64]. rewrite Ho in *. clear Hoe.
    rewrite (cursor_some e) by lia. specialize (Hbo He64).
    rewrite (anextunset_widen rvec e) by (done || lia).
    destruct (Z.ltb_spec s e); [|lia]. rewrite Hbo. cbn [negb].
    assert (Hre : lowest rvec e = e).
    { apply lowest_unique; [lia|lia| |done]. intros i Hi. lia. }
    destruct (lowest_spec lvec e) as (Hrx & Hnx & Hbx); [lia|].
    rewrite fatconcat_step_spec by (done || apply cursor_range; lia).
    rewrite Ha, Hlen. change (testbitint 2 1) with true. cbv iota.
    rewrite fat_take_spec by (done || lia || by rewrite Z.land_comm).
    cbn zeta. rewrite Hre.
    pose proof (run_end rvec e ltac:(lia) Hbo) as He'.
    destruct (nextunset_spec rvec e) as (_ & Hset' & Hstop'); [lia|].
    set (e' := nextunset rvec e) in *.
    rewrite (anextset_widen rvec e') by (done || lia).
    destruct (lowest_spec lvec e') as (Hrx' & Hnx' & Hbx'); [lia|].
    destruct (lowest_spec rvec e') as (Hry' & _ & _); [lia|].
    assert (Hle : lowest lvec e = lowest lvec e').
    { apply lowest_unique; [lia|lia| |done]. intros i Hi.
      destruct (decide (i < e')) as [Hlt|Hge]; [|apply Hnx'; lia].
      rewrite Z.land_comm in Hd.
      apply (disjoint_bits rvec lvec); [done|]. apply Hset'. lia. }
    assert (Hlt : e < lowest lvec e).
    { destruct (decide (lowest lvec e = e)) as [Heq|]; [|lia].
      rewrite Heq in Hbx. rewrite Hstop in Hbx by lia.
      by discriminate Hbx. }
    destruct (Z.ltb_spec e 64); [|lia].
    destruct (Z.ltb_spec e (lowest lvec e)); [|lia]. cbn [andb].
    rewrite Hle in *.
    set (x := lowest lvec e') in *. set (y := lowest rvec e') in *.
    destruct (Z.testbit lvec e') eqn:Hbe.
    + assert (Hxe : x = e' ∧ e' < 64).
      { destruct (decide (e' < 64)) as [H64|H64].
        - split; [|done]. apply lowest_unique; [lia|lia| |done].
          intros i Hi. lia.
        - rewrite (word_bits lvec) in Hbe by (done || lia). done. }
      destruct Hxe as [Hxe Hx64]. rewrite Hxe, (cursor_some e') by lia.
      destruct (Z.eqb_spec (-1) e'); [lia|done].
    + cbn [fatconcat_loop].
      destruct (Z.eqb_spec (-1) (cursor x)) as [<-|],
               (Z.eqb_spec (cursor y) (-1)) as [->|];
        cbn [andb]; rewrite ?andb_false_r, ?andb_true_r; try done.
      * by destruct (Z.eqb_spec (-1) (cursor y)).
      * by destruct (Z.eqb_spec (cursor x) (-1)).
  - (* it does not *)
    destruct (Z.ltb_spec s o) as [Hso|Hso]; [|done].
    destruct (Z.testbit rvec e) eqn:Hbe; [|done].
    pose proof (run_clear lvec rvec 0 Hd ltac:(lia) Hs Hso) as Hcl.
    fold s e o in Hcl.
    assert (o = e).
    { destruct (decide (o = e)) as [|Hneq]; [done|].
      rewrite Hno in Hbe by lia. done. }
    assert (e < 64).
    { destruct (decide (e < 64)); [done|].
      rewrite (word_bits rvec) in Hbe by (done || lia). done. }
    destruct Hoe. subst o. by rewrite cursor_some by lia.
Qed.

(** [fatconcat] on one-word vectors, against the walk. *)
Lemma fatconcat_walk rule lvec rvec :
  word lvec → word rvec → lvec ≠ 0 ∨ rvec ≠ 0 → 0 ≤ lengths rule →
  fatconcat rule (widen lvec) (widen rvec) = true
  ↔ Z.land lvec rvec = 0
    ∧ walk (args rule) (lengths rule) (zrange (bitlength (lengths rule)))
           (runs lvec) (runs rvec) None
      = Some (runs (Z.lor lvec rvec)).
Proof.
  intros Hl Hr Hne Hlen. unfold fatconcat. rewrite fat_overlap_widen.
  destruct (Z.eqb_spec (Z.land lvec rvec) 0) as [Hd|Hnd]; cbn [negb].
  2:{ split; [done|by intros [? _]]. }
  destruct (fatconcat_loop_agrees rule lvec rvec Hl Hr Hd
              (zrange (bitlength (lengths rule))) (closes_zrange rule Hlen)
              0 ltac:(lia)) as [_ HB].
  rewrite !runs_rest, <- HB. clear HB.
  destruct ((2 =? args rule) && (args rule =? lengths rule)) eqn:Hfast.
  - apply andb_true_iff in Hfast as [Ha Hal].
    apply Z.eqb_eq in Ha. apply Z.eqb_eq in Hal.
    assert (Hl2 : lengths rule = 2) by lia.
    pose proof (fast_path rule lvec rvec Hl Hr Hd Hne (eq_sym Ha) Hl2) as Hf.
    cbn zeta in Hf. rewrite Hf. rewrite Hl2.
    change (zrange (bitlength 2)) with [0; 1].
    split; [by intros ?|by intros [_ ?]].
  - rewrite !anextset_widen by (done || lia).
    split; [by intros ?|by intros [_ ?]].
Qed.

(** [fatconcat] accepts two one-word vectors, not both empty, exactly when
    they are disjoint and the yield function of the rule, applied to their
    runs, gives the runs of their union. *)
Theorem fatconcat_accepts_iff_yields rule lvec rvec :
  word lvec → word rvec → lvec ≠ 0 ∨ rvec ≠ 0 → 0 ≤ lengths rule →
  fatconcat rule (widen lvec) (widen rvec) = true
  ↔ Z.land lvec rvec = 0 ∧ yields rule lvec rvec.
Proof. intros. rewrite yields_walk. by apply fatconcat_walk. Qed.

(** The plain concatenation of position 0 and position 1. *)
Lemma fatconcat_accepts_witness :
  let rule := mkRule 1 2 3 2 2 0 0 in
  word 1 ∧ word 2 ∧ (1 ≠ 0 ∨ 2 ≠ 0) ∧ 0 ≤ lengths rule
  ∧ (fatconcat rule (widen 1) (widen 2) = true
     ↔ Z.land 1 2 = 0 ∧ yields rule 1 2).
Proof.
  assert (H1 : word 1) by (split; [done|reflexivity]).
  assert (H2 : word 2) by (split; [done|reflexivity]).
  assert (Hne : 1 ≠ 0 ∨ 2 ≠ 0) by (left; discriminate).
  assert (Hlen : 0 ≤ lengths (mkRule 1 2 3 2 2 0 0)) by (simpl; lia).
  split; [exact H1|]. split; [exact H2|]. split; [exact Hne|].
  split; [exact Hlen|].
  exact (fatconcat_accepts_iff_yields (mkRule 1 2 3 2 2 0 0) 1 2 H1 H2 Hne
           Hlen).
Defined.

(** On one-word vectors, not both empty, [fatconcat] accepts exactly what
    [concat] accepts with the child of the first atom starting first. *)
Theorem fatconcat_iff_concat_leads rule lvec rvec :
  word lvec → word rvec → lvec ≠ 0 ∨ rvec ≠ 0 → 0 ≤ lengths rule →
  fatconcat rule (widen lvec) (widen rvec) = true
  ↔ concat rule lvec rvec = true ∧ leads rule lvec rvec.
Proof.
  intros Hl Hr Hne Hlen.
  by rewrite fatconcat_walk, concat_walk.
Qed.

(** A wrapping rule, [args = 0b010] and [lengths = 0b101], on the
    positions 0 and 3 around position 2. *)
Lemma fatconcat_iff_concat_witness :
  let rule := mkRule 1 2 3 2 5 0 0 in
  word 9 ∧ word 4 ∧ (9 ≠ 0 ∨ 4 ≠ 0) ∧ 0 ≤ lengths rule
  ∧ (fatconcat rule (widen 9) (widen 4) = true
     ↔ concat rule 9 4 = true ∧ leads rule 9 4).
Proof.
  assert (H1 : word 9) by (split; [done|reflexivity]).
  assert (H2 : word 4) by (split; [done|reflexivity]).
  assert (Hne : 9 ≠ 0 ∨ 4 ≠ 0) by (left; discriminate).
  assert (Hlen : 0 ≤ lengths (mkRule 1 2 3 2 5 0 0)) by (simpl; lia).
  split; [exact H1|]. split; [exact H2|]. split; [exact Hne|].
  split; [exact Hlen|].
  exact (fatconcat_iff_concat_leads (mkRule 1 2 3 2 5 0 0) 9 4 H1 H2 Hne
           Hlen).
Defined.

End FatYieldFacts.

(** ** [process_edge]: what a call changes *)

Module EffectFacts.
Import Bit Containers Plcfrs.

(** The ways in which [process_edge] leaves the state, with the object it
    returns: [false] for [newitem] itself, [true] for a fresh one. *)
Inductive effect (exhaustive : bool) (newitem : ChartItem) (edge : LEdge)
    (st : PState) : PState → bool → Prop :=
| Blocked :
    Agenda.getitem (agenda st) newitem = None → chart st !! newitem = None →
    effect exhaustive newitem edge st
           (set_blocked st (wrap32 (blocked st + 1))) false
| Added :
    Agenda.getitem (agenda st) newitem = None → chart st !! newitem = None →
    effect exhaustive newitem edge st
           (set_chart (set_agenda st (Agenda.setitem (agenda st) newitem edge))
                      (<[newitem := []]> (chart st))) true
| Compared old :
    exhaustive = false → Agenda.getitem (agenda st) newitem = Some old →
    effect exhaustive newitem edge st
           (set_agenda st (Agenda.setifbetter escore (agenda st) newitem edge))
           true
| Decreased old cell :
    exhaustive = true → Agenda.getitem (agenda st) newitem = Some old →
    inside edge < inside old → chart st !! newitem = Some cell →
    effect exhaustive newitem edge st
           (set_chart (set_agenda st (Agenda.setitem (agenda st) newitem edge))
                      (<[newitem := cell ++ [iscore old]]> (chart st))) true
| Reinserted best :
    Agenda.getitem (agenda st) newitem = None →
    is_Some (chart st !! newitem) →
    ProcessEdgeFacts.viterbi_edge st newitem = Some best →
    inside edge < inside best →
    effect exhaustive newitem edge st
           (add_warning
              (set_agenda st (Agenda.setitem (agenda st) newitem edge))
              newitem) true
| Appended cell :
    exhaustive = true → chart st !! newitem = Some cell →
    effect exhaustive newitem edge st
           (set_chart st (<[newitem := cell ++ [iscore edge]]> (chart st))) true
| Unchanged :
    exhaustive = false → is_Some (chart st !! newitem) →
    effect exhaustive newitem edge st st true.

Lemma process_edge_effect
    newitem score inside prob ruleno left right st exhaustive whitelist
    splitprune markorigin st' fresh :
  process_edge newitem score inside prob ruleno left right st exhaustive
    whitelist splitprune markorigin = Run.Ok (st', fresh) →
  effect exhaustive newitem (new_Edge score inside prob ruleno left right)
         st st' fresh.
Proof.
  unfold process_edge.
  destruct (Agenda.contains (agenda st) newitem) eqn:Hin.
  - apply AgendaFacts.contains_true in Hin as [old Hold].
    rewrite Hold. cbn [negb andb].
    destruct exhaustive; cbn [negb andb].
    + destruct (Z.ltb_spec inside (Containers.inside old)) as [Hlt|Hge].
      * destruct (chart st !! newitem) as [cell|] eqn:Hc;
          cbn [Run.get mbind Run.result_bind]; [|done].
        unfold Agenda.replace. rewrite Hold.
        cbn [Run.get mbind Run.result_bind].
        intros [= <- <-]. by eapply Decreased.
      * cbn [Run.get mbind Run.result_bind].
        destruct (chart st !! newitem) as [cell|] eqn:Hc;
          cbn [Run.get mbind Run.result_bind]; [|done].
        intros [= <- <-]. by eapply Appended.
    + intros [= <- <-]. by eapply Compared.
  - apply AgendaFacts.contains_false in Hin. cbn [negb andb].
    destruct (bool_decide (is_Some (chart st !! newitem))) eqn:Hc;
      cbn [negb andb].
    + apply bool_decide_eq_true in Hc.
      replace (negb exhaustive && false) with false by (by destruct exhaustive).
      destruct (viterbi st !! Z.to_nat (label newitem)) as [d|] eqn:Hd;
        cbn [Run.get mbind Run.result_bind]; [|done].
      destruct (d !! newitem) as [best|] eqn:Hb;
        cbn [Run.get mbind Run.result_bind]; [|done].
      assert (Hv : ProcessEdgeFacts.viterbi_edge st newitem = Some best).
      { unfold ProcessEdgeFacts.viterbi_edge. rewrite Hd. simpl. done. }
      destruct (Z.ltb_spec inside (Containers.inside best)) as [Hlt|Hge].
      * intros [= <- <-]. by eapply Reinserted.
      * destruct exhaustive.
        -- destruct Hc as [cell Hcell]. rewrite Hcell.
           cbn [Run.get mbind Run.result_bind].
           intros [= <- <-]. by eapply Appended.
        -- intros [= <- <-]. by eapply Unchanged.
    + apply bool_decide_eq_false in Hc. apply eq_None_not_Some in Hc.
      destruct (whitelist_rejects whitelist splitprune markorigin newitem)
        as [[|]|e|]; cbn [mbind Run.result_bind]; try done;
        intros [= <- <-]; by constructor.
Qed.

End EffectFacts.

(** ** Invariants carried through the scan and the agenda loop *)

Module CarriedFacts.
Import Bit Containers Plcfrs EffectFacts.

(** What a run keeps: [post] of what it returns; it raises only if
    [allow]. *)
Definition carried {A} (allow : Prop) (post : A → Prop) (r : Run.result A)
  : Prop :=
  match r with
  | Run.Ok a => post a
  | Run.Raise _ => allow
  | Run.OutOfFuel => True
  end.

Lemma carried_bind {A B} allow (post : A → Prop) (post' : B → Prop)
    (m : Run.result A) (f : A → Run.result B) :
  carried allow post m → (∀ a, post a → carried allow post' (f a)) →
  carried allow post' (m ≫= f).
Proof. destruct m; simpl; auto. Qed.

Lemma carried_weaken {A} allow (post post' : A → Prop) (r : Run.result A) :
  carried allow post r → (∀ a, post a → post' a) → carried allow post' r.
Proof. destruct r; simpl; auto. Qed.

Lemma carried_get {A} allow (post : A → Prop) e (o : option A) :
  match o with Some a => post a | None => allow end →
  carried allow post (Run.get e o).
Proof. by destruct o. Qed.

Lemma carried_Ok {A} allow (post : A → Prop) (r : Run.result A) a :
  carried allow post r → r = Run.Ok a → post a.
Proof. by intros H ->. Qed.

Lemma carried_no_raise {A} (post : A → Prop) (r : Run.result A) e :
  carried False post r → r ≠ Run.Raise e.
Proof. by intros H ->. Qed.

Definition turn_state (t : turn) : LState :=
  match t with Break ls | Next ls => ls end.

Lemma popentry_nonempty {K V} `{EqDecision K} (prio : V → Z) (a : list (K * V)) :
  a ≠ [] → is_Some (Agenda.popentry prio a).
Proof.
  intros Ha. unfold Agenda.popentry.
  destruct (AgendaFacts.minentry_is_Some prio a Ha) as [e ->]. eauto.
Qed.

Section loop.
Variable cfg : Config.
Variable allow : Prop.
(** The invariant of the state, and what it holds of an item that is being
    expanded or combined. *)
Variable J : PState → Prop.
Variable G : PState → ChartItem → Prop.

Definition kept (st st' : PState) : Prop := J st' ∧ ∀ x, G st x → G st' x.

Lemma kept_refl st : J st → kept st st.
Proof. by split. Qed.

Lemma kept_trans st1 st2 st3 : kept st1 st2 → kept st2 st3 → kept st1 st3.
Proof. intros [_ H1] [H2 H3]. split; auto. Qed.

Hypothesis H_unary : ∀ st item i sc ins sp,
  J st → G st item →
  let rule := unary (grammar cfg) (label item) i in
  rhs1 rule = label item →
  carried allow (λ p, kept st p.1)
    (process_edge (new_ChartItem (lhs rule) (vec item)) sc ins (prob rule)
       (no rule) item NONE st (exhaustive cfg) (whitelist cfg) sp
       (markorigin cfg)).

Hypothesis H_left : ∀ st item sib i sc ins sp,
  J st → G st item → G st sib →
  let rule := lbinary (grammar cfg) (label item) i in
  rhs1 rule = label item → concat rule (vec item) (vec sib) = true →
  carried allow (λ p, kept st p.1)
    (process_edge (new_ChartItem (lhs rule) (Z.lxor (vec item) (vec sib)))
       sc ins (prob rule) (no rule) item sib st (exhaustive cfg)
       (whitelist cfg) sp (markorigin cfg)).

Hypothesis H_right : ∀ st item sib i sc ins sp,
  J st → G st item → G st sib →
  let rule := rbinary (grammar cfg) (label item) i in
  rhs2 rule = label item → concat rule (vec sib) (vec item) = true →
  carried allow (λ p, kept st p.1)
    (process_edge (new_ChartItem (lhs rule) (Z.lxor (vec sib) (vec item)))
       sc ins (prob rule) (no rule) sib item st (exhaustive cfg)
       (whitelist cfg) sp (markorigin cfg)).

Hypothesis H_siblings_left : ∀ st item i,
  J st → G st item →
  let rule := lbinary (grammar cfg) (label item) i in
  rhs1 rule = label item →
  match viterbi st !! Z.to_nat (rhs2 rule) with
  | Some d => ∀ sib e, d !! sib = Some e → G st sib
  | None => allow
  end.

Hypothesis H_siblings_right : ∀ st item i,
  J st → G st item →
  let rule := rbinary (grammar cfg) (label item) i in
  rhs2 rule = label item →
  match viterbi st !! Z.to_nat (rhs1 rule) with
  | Some d => ∀ sib e, d !! sib = Some e → G st sib
  | None => allow
  end.

Hypothesis H_pop : ∀ st item edge agenda',
  J st →
  Agenda.popentry escore (agenda st) = Some ((item, edge), agenda') →
  match chart st !! item with
  | None => allow
  | Some cell =>
      match viterbi st !! Z.to_nat (label item) with
      | None => allow
      | Some d =>
          let st' :=
            set_viterbi
              (set_chart (set_agenda st agenda')
                         (<[item := cell ++ [iscore edge]]> (chart st)))
              (<[Z.to_nat (label item) := <[item := iscore edge]> d]>
                 (viterbi st)) in
          J st' ∧ G st' item
      end
  end.

Lemma unary_loop_carried item x length left right gaps idxs st :
  J st → G st item →
  carried allow (kept st)
          (unary_loop cfg item x length left right gaps idxs st).
Proof.
  revert st. induction idxs as [|i idxs IH]; intros st HJ HG; simpl.
  - by apply kept_refl.
  - destruct (Z.eqb_spec (rhs1 (unary (grammar cfg) (label item) i))
                         (label item)) as [Hr|Hr]; simpl;
      [|by apply kept_refl].
    destruct (with_estimate _ _ _ _ _ _ _ _) as [score|]; [|by apply IH].
    eapply carried_bind; [by apply H_unary|].
    intros [st1 b] [HJ1 HG1]. simpl in *.
    eapply carried_weaken; [apply IH; auto|].
    intros st2 Hk. eapply kept_trans; [|done]. by split.
Qed.

Lemma left_siblings_carried rule_i item x sibs st bm :
  let rule := lbinary (grammar cfg) (label item) rule_i in
  rhs1 rule = label item →
  J st → G st item → Forall (λ p : ChartItem * LEdge, G st p.1) sibs →
  carried allow (λ p, kept st p.1)
          (left_siblings cfg rule item x sibs st bm).
Proof.
  intros rule Hr. revert st bm.
  induction sibs as [|[sib e] sibs IH]; intros st bm HJ HG Hs; simpl.
  - by apply kept_refl.
  - apply Forall_cons in Hs as [Hsib Hs]. simpl in Hsib.
    destruct (_ && _); [by apply IH|].
    destruct (concat _ _ _) eqn:Hc; [|by apply IH].
    destruct (binary_score _ _ _ _) as [score|]; [|by apply IH].
    eapply carried_bind; [by apply H_left|].
    intros [st1 b] [HJ1 HG1]. simpl in *.
    eapply carried_weaken.
    + apply IH; auto. eapply Forall_impl; [done|]. intros p. apply HG1.
    + intros p Hk. simpl in Hk. eapply kept_trans; [|exact Hk]. by split.
Qed.

Lemma right_siblings_carried rule_i item x sibs st bm :
  let rule := rbinary (grammar cfg) (label item) rule_i in
  rhs2 rule = label item →
  J st → G st item → Forall (λ p : ChartItem * LEdge, G st p.1) sibs →
  carried allow (λ p, kept st p.1)
          (right_siblings cfg rule item x sibs st bm).
Proof.
  intros rule Hr. revert st bm.
  induction sibs as [|[sib e] sibs IH]; intros st bm HJ HG Hs; simpl.
  - by apply kept_refl.
  - apply Forall_cons in Hs as [Hsib Hs]. simpl in Hsib.
    destruct (_ && _); [by apply IH|].
    destruct (concat _ _ _) eqn:Hc; [|by apply IH].
    destruct (binary_score _ _ _ _) as [score|]; [|by apply IH].
    eapply carried_bind; [by apply H_right|].
    intros [st1 b] [HJ1 HG1]. simpl in *.
    eapply carried_weaken.
    + apply IH; auto. eapply Forall_impl; [done|]. intros p. apply HG1.
    + intros p Hk. simpl in Hk. eapply kept_trans; [|exact Hk]. by split.
Qed.

Lemma binary_left_carried item x idxs st bm :
  J st → G st item →
  carried allow (λ p, kept st p.1) (binary_left cfg item x idxs st bm).
Proof.
  revert st bm. induction idxs as [|i idxs IH]; intros st bm HJ HG; simpl.
  - by apply kept_refl.
  - destruct (Z.eqb_spec (rhs1 (lbinary (grammar cfg) (label item) i))
                         (label item)) as [Hr|Hr]; simpl;
      [|by apply kept_refl].
    pose proof (H_siblings_left st item i HJ HG Hr) as Hsib.
    destruct (viterbi st !! _) as [d|]; simpl; [|done].
    eapply carried_bind.
    + apply left_siblings_carried; [done..|].
      apply Forall_forall. intros [sib e] Hin.
      apply elem_of_map_to_list in Hin. by eapply Hsib.
    + intros [st1 bm1] [HJ1 HG1]. simpl in *.
      eapply carried_weaken; [apply IH; auto|].
      intros p Hk. simpl in Hk. eapply kept_trans; [|exact Hk]. by split.
Qed.

Lemma binary_right_carried item x idxs st bm :
  J st → G st item →
  carried allow (λ p, kept st p.1) (binary_right cfg item x idxs st bm).
Proof.
  revert st bm. induction idxs as [|i idxs IH]; intros st bm HJ HG; simpl.
  - by apply kept_refl.
  - destruct (Z.eqb_spec (rhs2 (rbinary (grammar cfg) (label item) i))
                         (label item)) as [Hr|Hr]; simpl;
      [|by apply kept_refl].
    pose proof (H_siblings_right st item i HJ HG Hr) as Hsib.
    destruct (viterbi st !! _) as [d|]; simpl; [|done].
    eapply carried_bind.
    + apply right_siblings_carried; [done..|].
      apply Forall_forall. intros [sib e] Hin.
      apply elem_of_map_to_list in Hin. by eapply Hsib.
    + intros [st1 bm1] [HJ1 HG1]. simpl in *.
      eapply carried_weaken; [apply IH; auto|].
      intros p Hk. simpl in Hk. eapply kept_trans; [|exact Hk]. by split.
Qed.

Lemma expand_carried item edge ls :
  J (pstate ls) → G (pstate ls) item →
  carried allow (λ p, J (pstate p.1)) (expand cfg item edge ls).
Proof.
  intros HJ HG. unfold expand.
  destruct (_ && _); [done|].
  eapply carried_bind; [by apply unary_loop_carried|].
  intros st1 [HJ1 HG1].
  eapply carried_bind; [apply binary_left_carried; auto|].
  intros [st2 bm2] [HJ2 HG2]. simpl in *.
  eapply carried_bind; [apply binary_right_carried; auto|].
  by intros [st3 bm3] [HJ3 HG3].
Qed.

Lemma loop_body_carried goal ls :
  J (pstate ls) → agenda (pstate ls) ≠ [] →
  carried allow (λ t, J (pstate (turn_state t))) (loop_body cfg goal ls).
Proof.
  intros HJ Hne. unfold loop_body.
  destruct (popentry_nonempty escore _ Hne) as [[[item edge] ag'] Hpop].
  rewrite Hpop. cbn [Run.get mbind Run.result_bind].
  pose proof (H_pop _ _ _ _ HJ Hpop) as Hp.
  cbn [agenda chart viterbi set_agenda set_chart set_viterbi fst snd].
  destruct (chart (pstate ls) !! item) as [cell|];
    cbn [Run.get mbind Run.result_bind]; [|done].
  destruct (viterbi (pstate ls) !! Z.to_nat (label item)) as [d|];
    cbn [Run.get mbind Run.result_bind]; [|done].
  destruct Hp as [HJ' HG'].
  destruct (_ && _).
  - destruct (negb _); simpl; [done|]. by rewrite KeysFacts.update_maxA_pstate.
  - eapply carried_bind; [by apply expand_carried|].
    intros [ls1 fin] HJ1. simpl in *.
    destruct fin; [by rewrite KeysFacts.update_maxA_pstate|done].
Qed.

Lemma agenda_loop_carried fuel goal ls :
  J (pstate ls) →
  carried allow (λ ls', J (pstate ls')) (agenda_loop cfg fuel goal ls).
Proof.
  revert ls. induction fuel as [|fuel IH]; intros ls HJ; simpl; [done|].
  destruct (Z.eqb_spec (Agenda.length (agenda (pstate ls))) 0) as [Hz|Hz];
    [done|].
  eapply carried_bind.
  - apply loop_body_carried; [done|]. intros Hnil. apply Hz.
    by rewrite Hnil.
  - intros [ls1|ls1] HJ1; simpl in *; [done|by apply IH].
Qed.

End loop.

Section scanning.
Variable cfg : Config.
Variable allow : Prop.
Variable eps : Z.
(** The number of positions for which the hypotheses are given. *)
Variable bound : nat.
Variable J : PState → Prop.

Hypothesis H_tags : ∀ i,
  (i < bound)%nat → no_tags (tags cfg) = false →
  carried allow (λ _, True) (tag_at (tags cfg) i).

Hypothesis H_lexical : ∀ st i w t sc,
  J st → (i < bound)%nat → t ∈ default [] (lexical (grammar cfg) !! w) →
  carried allow (λ p, J p.1)
    (process_edge
       (new_ChartItem (lex_lhs t) (wrap64 (Z.shiftl 1 (Z.of_nat i)))) sc
       (lex_prob t) (lex_prob t) (-1) (new_ChartItem eps (Z.of_nat i)) NONE
       st (exhaustive cfg) (whitelist cfg) false (markorigin cfg)).

Hypothesis H_tag : ∀ st i t lhs sc,
  J st → (i < bound)%nat → toid (grammar cfg) !! t = Some lhs →
  let tagitem := new_ChartItem lhs (wrap64 (Z.shiftl 1 (Z.of_nat i))) in
  J (set_chart
       (set_agenda st
          (Agenda.setitem (agenda st) tagitem
             (new_Edge sc 0 0 (-1) (new_ChartItem eps (Z.of_nat i)) NONE)))
       (<[tagitem := []]> (chart st))).

Lemma tag_allows_carried i l :
  (i < bound)%nat →
  carried allow (λ _, True) (tag_allows (grammar cfg) (tags cfg) i l).
Proof.
  intros Hi. unfold tag_allows.
  destruct (no_tags (tags cfg)) eqn:Hno; [done|].
  eapply carried_bind; [by apply H_tags|]. done.
Qed.

Lemma scan_terminals_carried i w terminals st recognized :
  (i < bound)%nat →
  (∀ t, t ∈ terminals → t ∈ default [] (lexical (grammar cfg) !! w)) →
  J st →
  carried allow (λ p, J p.1)
    (scan_terminals cfg i (new_ChartItem eps (Z.of_nat i)) terminals st
                    recognized).
Proof.
  intros Hi. revert st recognized.
  induction terminals as [|t ts IH]; intros st r Hts HJ; simpl; [done|].
  assert (Hts' : ∀ t', t' ∈ ts → t' ∈ default [] (lexical (grammar cfg) !! w))
    by (intros t' Ht'; apply Hts; by right).
  eapply carried_bind; [by apply tag_allows_carried|].
  intros [|] _; [|by apply IH].
  destruct (with_estimate _ _ _ _ _ _ _ _) as [score|]; [|by apply IH].
  eapply carried_bind.
  - eapply H_lexical; [done|done|]. apply Hts. left.
  - intros [st1 b] HJ1. by apply IH.
Qed.

Lemma scan_position_carried i w st :
  (i < bound)%nat → J st →
  carried allow (λ r, J (ScanFacts.scanned_state r))
          (scan_position cfg eps i w st).
Proof.
  intros Hi HJ. unfold scan_position.
  eapply carried_bind; [by apply (scan_terminals_carried i w)|].
  intros [st1 r] HJ1. simpl in HJ1.
  destruct (negb r && negb (no_tags (tags cfg))) eqn:Hb.
  - apply andb_true_iff in Hb as [_ Hno]. apply negb_true_iff in Hno.
    eapply carried_bind; [by apply H_tags|]. intros t _.
    destruct (toid (grammar cfg) !! t) as [lhs|] eqn:Hid; [|done].
    destruct (with_estimate _ _ _ _ _ _ _ _) as [score|]; [|done].
    simpl. by apply H_tag with (t := t).
  - by destruct (negb r).
Qed.

Lemma scan_carried j ws st :
  (j + List.length ws ≤ bound)%nat → J st →
  carried allow (λ r, J (ScanFacts.scanned_state r)) (scan cfg eps j ws st).
Proof.
  revert j st. induction ws as [|w ws IH]; intros j st Hlen HJ; simpl; [done|].
  simpl in Hlen.
  eapply carried_bind; [apply scan_position_carried; [lia|done]|].
  intros [st1|st1 tok] HJ1; simpl in *; [|done]. apply IH; [lia|done].
Qed.

End scanning.

End CarriedFacts.

(** ** [parse]: the chart as a hypergraph *)

Module ChartFacts.
Import Bit Containers Plcfrs EffectFacts CarriedFacts.

Abbreviation LChart := (gmap ChartItem (list LEdge)).

(** The item [x] has a cell with at least one edge. *)
Definition has_edges (c : LChart) (x : ChartItem) : Prop :=
  ∃ cell, c !! x = Some cell ∧ cell ≠ [].

(** The three kinds of edges of an item [k]: of a word at position
    [vec (left e)], of a unary rule, of a binary rule. *)
Definition lexical_edge (eps : Z) (k : ChartItem) (e : LEdge) : Prop :=
  ruleno e = -1 ∧ right e = NONE ∧ label (left e) = eps
  ∧ vec k = wrap64 (Z.shiftl 1 (vec (left e))).

Definition unary_edge (c : LChart) (k : ChartItem) (e : LEdge) : Prop :=
  right e = NONE ∧ has_edges c (left e) ∧ vec k = vec (left e).

Definition binary_edge (c : LChart) (k : ChartItem) (e : LEdge) : Prop :=
  has_edges c (left e) ∧ has_edges c (right e)
  ∧ Z.land (vec (left e)) (vec (right e)) = 0
  ∧ vec k = Z.lxor (vec (left e)) (vec (right e)).

Definition edge_ok (eps : Z) (c : LChart) (k : ChartItem) (e : LEdge) : Prop :=
  lexical_edge eps k e ∨ unary_edge c k e ∨ binary_edge c k e.

Definition grows (c c' : LChart) : Prop := ∀ x, has_edges c x → has_edges c' x.

Lemma edge_ok_grows eps c c' k e : grows c c' → edge_ok eps c k e → edge_ok eps c' k e.
Proof.
  intros Hg [H|[(? & ? & ?)|(? & ? & ? & ?)]]; [by left|right; left|right; right];
    split_and!; auto.
Qed.

Lemma edge_ok_iscore eps c k e : edge_ok eps c k e → edge_ok eps c k (iscore e).
Proof. by destruct e. Qed.

Lemma grows_refl c : grows c c.
Proof. by intros x. Qed.

Lemma grows_new c k : c !! k = None → grows c (<[k := []]> c).
Proof.
  intros Hk x (cell & Hx & Hne). exists cell. split; [|done].
  rewrite lookup_insert_ne; [done|]. intros ->. congruence.
Qed.

Lemma grows_append c k cell e :
  c !! k = Some cell → grows c (<[k := cell ++ [e]]> c).
Proof.
  intros Hk x (cell' & Hx & Hne). destruct (decide (x = k)) as [->|Hxk].
  - exists (cell ++ [e]). rewrite lookup_insert_eq. split; [done|].
    by destruct cell.
  - exists cell'. by rewrite lookup_insert_ne.
Qed.

(** *** The agenda as a map *)

Lemma elem_is_Some (a : list (ChartItem * LEdge)) k v :
  (k, v) ∈ a → is_Some (Agenda.getitem a k).
Proof.
  intros Hin. destruct (Agenda.getitem a k) eqn:Hg; [by eexists|].
  rewrite AgendaFacts.getitem_None in Hg. by destruct (Hg v).
Qed.

Lemma setitem_keeps (a : list (ChartItem * LEdge)) k k' v :
  is_Some (Agenda.getitem a k) → is_Some (Agenda.getitem (Agenda.setitem a k' v) k).
Proof.
  intros Hk. destruct (decide (k' = k)) as [->|Hne].
  - rewrite AgendaFacts.getitem_setitem_eq. by eexists.
  - by rewrite AgendaFacts.getitem_setitem_ne.
Qed.

Lemma setifbetter_keeps (a : list (ChartItem * LEdge)) k k' v :
  is_Some (Agenda.getitem a k) →
  is_Some (Agenda.getitem (Agenda.setifbetter escore a k' v) k).
Proof.
  intros Hk. unfold Agenda.setifbetter.
  destruct (Agenda.getitem a k') as [old|]; [|by apply setitem_keeps].
  destruct (_ <? _); [by apply setitem_keeps|done].
Qed.

Lemma setitem_None (a : list (ChartItem * LEdge)) k k' v :
  Agenda.getitem (Agenda.setitem a k' v) k = None → Agenda.getitem a k = None.
Proof.
  intros Hn. destruct (Agenda.getitem a k) eqn:Hg; [|done].
  assert (Hs : is_Some (Agenda.getitem a k)) by (by eexists).
  apply (setitem_keeps _ _ k' v) in Hs. rewrite Hn in Hs. by destruct Hs.
Qed.

Lemma popentry_remove (a a' : list (ChartItem * LEdge)) k e :
  Agenda.popentry escore a = Some ((k, e), a') →
  (k, e) ∈ a ∧ Agenda.getitem a' k = None
  ∧ (∀ k', k' ≠ k → Agenda.getitem a' k' = Agenda.getitem a k')
  ∧ ∀ x, x ∈ a' → x ∈ a.
Proof.
  intros Hpop. pose proof (AgendaFacts.popentry_elem _ _ _ _ Hpop) as [Hin Hsub].
  unfold Agenda.popentry in Hpop.
  destruct (Agenda.minentry escore a) as [m|]; [|done].
  injection Hpop as -> <-. simpl. split_and!; [done| | |done].
  - apply AgendaFacts.getitem_remove_eq.
  - intros k' Hne. by apply AgendaFacts.getitem_remove_ne.
Qed.

(** *** The invariant during the scan: nothing has been extracted yet *)

Record scanning (eps : Z) (st : PState) : Prop := mkScanning {
  s_waiting : ∀ k, is_Some (chart st !! k) → is_Some (Agenda.getitem (agenda st) k);
  s_coupled : ∀ k, is_Some (Agenda.getitem (agenda st) k) → is_Some (chart st !! k);
  s_agenda : ∀ k e, (k, e) ∈ agenda st → lexical_edge eps k e;
  s_chart : ∀ k cell e, chart st !! k = Some cell → e ∈ cell →
                        lexical_edge eps k e ∧ score e = inside e;
  s_viterbi : ∀ d, d ∈ viterbi st → d = ∅
}.

(** *** The invariant of the agenda loop *)

Record closed (eps : Z) (st : PState) : Prop := mkClosed {
  c_coupled : ∀ k, is_Some (Agenda.getitem (agenda st) k) → is_Some (chart st !! k);
  c_waiting : ∀ k, chart st !! k = Some [] → is_Some (Agenda.getitem (agenda st) k);
  c_settled : ∀ k, is_Some (chart st !! k) → Agenda.getitem (agenda st) k = None →
                   is_Some (ProcessEdgeFacts.viterbi_edge st k);
  c_viterbi : ∀ n d k e, viterbi st !! n = Some d → d !! k = Some e →
                         has_edges (chart st) k;
  c_agenda : ∀ k e, (k, e) ∈ agenda st → edge_ok eps (chart st) k e;
  c_chart : ∀ k cell e, chart st !! k = Some cell → e ∈ cell →
                        edge_ok eps (chart st) k e ∧ score e = inside e
}.

Lemma scanning_closed eps st : scanning eps st → closed eps st.
Proof.
  intros [Hw Hc Ha Hch Hv]. split.
  - done.
  - intros k Hk. apply Hw. by rewrite Hk.
  - intros k Hk Hn. apply Hw in Hk. rewrite Hn in Hk. by destruct Hk.
  - intros n d k e Hd Hk. apply list_elem_of_lookup_2 in Hd. apply Hv in Hd.
    subst d. by rewrite lookup_empty in Hk.
  - intros k e Hin. left. by apply Ha.
  - intros k cell e Hk Hin. destruct (Hch k cell e Hk Hin). split; [by left|done].
Qed.

Lemma initial_scanning eps g : scanning eps (initial g).
Proof.
  split; simpl.
  - intros k [? Hk]. by rewrite lookup_empty in Hk.
  - intros k [? Hk]. done.
  - intros k e Hin. inversion Hin.
  - intros k cell e Hk. by rewrite lookup_empty in Hk.
  - intros d Hd. by apply elem_of_replicate in Hd as [-> _].
Qed.

Lemma lexical_iscore eps k e : lexical_edge eps k e → lexical_edge eps k (iscore e).
Proof. by destruct e. Qed.

(** [process_edge] on an edge of a word, during the scan. *)
Lemma process_edge_scanning eps newitem sc ins pr rn l r st exh wl sp mo st' b :
  scanning eps st →
  lexical_edge eps newitem (new_Edge sc ins pr rn l r) →
  process_edge newitem sc ins pr rn l r st exh wl sp mo = Run.Ok (st', b) →
  scanning eps st'.
Proof.
  intros [Hw Hc Ha Hch Hv] Hlex Hrun.
  apply process_edge_effect in Hrun.
  destruct Hrun as [Hg Hk|Hg Hk|old Hex Hg|old cell Hex Hg Hlt Hk|best Hg Hk Hb Hlt
                    |cell Hex Hk|Hex Hk].
  - by split.
  - split; simpl.
    + intros k [x Hx]. destruct (decide (k = newitem)) as [->|Hne].
      * rewrite AgendaFacts.getitem_setitem_eq. by eexists.
      * rewrite lookup_insert_ne in Hx by done.
        rewrite AgendaFacts.getitem_setitem_ne by done. apply Hw. by eexists.
    + intros k Hx. destruct (decide (k = newitem)) as [->|Hne].
      * rewrite lookup_insert_eq. by eexists.
      * rewrite lookup_insert_ne by done.
        rewrite AgendaFacts.getitem_setitem_ne in Hx by done. by apply Hc.
    + intros k e Hin. apply AgendaFacts.elem_of_setitem in Hin as [[-> ->]|Hin];
        [done|by eapply Ha].
    + intros k cell e Hx Hin. destruct (decide (k = newitem)) as [->|Hne].
      * rewrite lookup_insert_eq in Hx. injection Hx as <-. inversion Hin.
      * rewrite lookup_insert_ne in Hx by done. by eapply Hch.
    + done.
  - split; simpl; [| | |done|done].
    + intros k Hx. apply setifbetter_keeps. by apply Hw.
    + intros k Hx. destruct (decide (k = newitem)) as [->|Hne].
      * apply Hc. by rewrite Hg.
      * rewrite AgendaFacts.getitem_setifbetter_ne in Hx by done. by apply Hc.
    + intros k e Hin.
      apply AgendaFacts.elem_of_setifbetter in Hin as [[-> ->]|Hin];
        [done|by eapply Ha].
  - split; simpl.
    + intros k [x Hx]. apply setitem_keeps. apply Hw.
      destruct (decide (k = newitem)) as [->|Hne]; [by rewrite Hk|].
      rewrite lookup_insert_ne in Hx by done. by eexists.
    + intros k Hx. destruct (decide (k = newitem)) as [->|Hne].
      * rewrite lookup_insert_eq. by eexists.
      * rewrite lookup_insert_ne by done.
        rewrite AgendaFacts.getitem_setitem_ne in Hx by done. by apply Hc.
    + intros k e Hin. apply AgendaFacts.elem_of_setitem in Hin as [[-> ->]|Hin];
        [done|by eapply Ha].
    + intros k cell' e Hx Hin. destruct (decide (k = newitem)) as [->|Hne].
      * rewrite lookup_insert_eq in Hx. injection Hx as <-.
        apply elem_of_app in Hin as [Hin|Hin]; [by eapply Hch|].
        apply list_elem_of_singleton in Hin as ->.
        split; [|by destruct old]. apply lexical_iscore.
        apply (Ha newitem). by apply AgendaFacts.getitem_Some_elem.
      * rewrite lookup_insert_ne in Hx by done. by eapply Hch.
    + done.
  - apply Hw in Hk. rewrite Hg in Hk. by destruct Hk.
  - split; simpl; [| |done| |done].
    + intros k [x Hx]. apply Hw.
      destruct (decide (k = newitem)) as [->|Hne]; [by rewrite Hk|].
      rewrite lookup_insert_ne in Hx by done. by eexists.
    + intros k Hx. destruct (decide (k = newitem)) as [->|Hne].
      * rewrite lookup_insert_eq. by eexists.
      * rewrite lookup_insert_ne by done. by apply Hc.
    + intros k cell' e Hx Hin. destruct (decide (k = newitem)) as [->|Hne].
      * rewrite lookup_insert_eq in Hx. injection Hx as <-.
        apply elem_of_app in Hin as [Hin|Hin]; [by eapply Hch|].
        apply list_elem_of_singleton in Hin as ->.
        split; [by apply lexical_iscore|done].
      * rewrite lookup_insert_ne in Hx by done. by eapply Hch.
  - by split.
Qed.

(** The item of a bare tag. *)
Lemma tag_scanning eps st lhs i sc :
  scanning eps st →
  let tagitem := new_ChartItem lhs (wrap64 (Z.shiftl 1 (Z.of_nat i))) in
  scanning eps
    (set_chart
       (set_agenda st
          (Agenda.setitem (agenda st) tagitem
             (new_Edge sc 0 0 (-1) (new_ChartItem eps (Z.of_nat i)) NONE)))
       (<[tagitem := []]> (chart st))).
Proof.
  intros [Hw Hc Ha Hch Hv] tagitem. split; simpl.
  - intros k [x Hx]. destruct (decide (k = tagitem)) as [->|Hne].
    + rewrite AgendaFacts.getitem_setitem_eq. by eexists.
    + rewrite lookup_insert_ne in Hx by done.
      rewrite AgendaFacts.getitem_setitem_ne by done. apply Hw. by eexists.
  - intros k Hx. destruct (decide (k = tagitem)) as [->|Hne].
    + rewrite lookup_insert_eq. by eexists.
    + rewrite lookup_insert_ne by done.
      rewrite AgendaFacts.getitem_setitem_ne in Hx by done. by apply Hc.
  - intros k e Hin. apply AgendaFacts.elem_of_setitem in Hin as [[-> ->]|Hin];
      [done|by eapply Ha].
  - intros k cell e Hx Hin. destruct (decide (k = tagitem)) as [->|Hne].
    + rewrite lookup_insert_eq in Hx. injection Hx as <-. inversion Hin.
    + rewrite lookup_insert_ne in Hx by done. by eapply Hch.
  - done.
Qed.

(** [process_edge] on a well-formed edge, in the agenda loop. *)
Lemma process_edge_closed eps newitem sc ins pr rn l r st exh wl sp mo st' b :
  closed eps st →
  edge_ok eps (chart st) newitem (new_Edge sc ins pr rn l r) →
  process_edge newitem sc ins pr rn l r st exh wl sp mo = Run.Ok (st', b) →
  closed eps st' ∧ grows (chart st) (chart st').
Proof.
  intros [Hc Hw Hs Hv Ha Hch] Hok Hrun.
  apply process_edge_effect in Hrun.
  assert (Hvit : ∀ (s : PState) k,
            viterbi s = viterbi st →
            ProcessEdgeFacts.viterbi_edge s k = ProcessEdgeFacts.viterbi_edge st k).
  { intros s k Hs'. unfold ProcessEdgeFacts.viterbi_edge. by rewrite Hs'. }
  destruct Hrun as [Hg Hk|Hg Hk|old Hex Hg|old cell Hex Hg Hlt Hk|best Hg Hk Hb Hlt
                    |cell Hex Hk|Hex Hk].
  - split; [by split|apply grows_refl].
  - pose proof (grows_new _ _ Hk) as Hgr. split; [|done]. split; simpl.
    + intros k Hx. destruct (decide (k = newitem)) as [->|Hne].
      * rewrite lookup_insert_eq. by eexists.
      * rewrite lookup_insert_ne by done.
        rewrite AgendaFacts.getitem_setitem_ne in Hx by done. by apply Hc.
    + intros k Hx. destruct (decide (k = newitem)) as [->|Hne].
      * rewrite AgendaFacts.getitem_setitem_eq. by eexists.
      * rewrite lookup_insert_ne in Hx by done.
        rewrite AgendaFacts.getitem_setitem_ne by done. by apply Hw.
    + intros k Hx Hn. destruct (decide (k = newitem)) as [->|Hne].
      * by rewrite AgendaFacts.getitem_setitem_eq in Hn.
      * rewrite lookup_insert_ne in Hx by done.
        rewrite AgendaFacts.getitem_setitem_ne in Hn by done.
        rewrite Hvit by done. by apply Hs.
    + intros n d k e Hd Hx. apply Hgr. by eapply Hv.
    + intros k e Hin. eapply edge_ok_grows; [done|].
      apply AgendaFacts.elem_of_setitem in Hin as [[-> ->]|Hin];
        [done|by eapply Ha].
    + intros k cell e Hx Hin. destruct (decide (k = newitem)) as [->|Hne].
      * rewrite lookup_insert_eq in Hx. injection Hx as <-. inversion Hin.
      * rewrite lookup_insert_ne in Hx by done.
        destruct (Hch k cell e Hx Hin). split; [|done].
        by eapply edge_ok_grows.
  - split; [|apply grows_refl]. split; simpl; [| | |done| |done].
    + intros k Hx. destruct (decide (k = newitem)) as [->|Hne].
      * apply Hc. by rewrite Hg.
      * rewrite AgendaFacts.getitem_setifbetter_ne in Hx by done. by apply Hc.
    + intros k Hx. apply setifbetter_keeps. by apply Hw.
    + intros k Hx Hn. rewrite Hvit by done. apply Hs; [done|].
      destruct (Agenda.getitem (agenda st) k) eqn:Hgk; [|done].
      assert (Hsk : is_Some (Agenda.getitem (agenda st) k)) by (by eexists).
      apply (setifbetter_keeps _ _ newitem (new_Edge sc ins pr rn l r)) in Hsk.
      rewrite Hn in Hsk. by destruct Hsk.
    + intros k e Hin.
      apply AgendaFacts.elem_of_setifbetter in Hin as [[-> ->]|Hin];
        [done|by eapply Ha].
  - pose proof (grows_append _ _ _ (iscore old) Hk) as Hgr. split; [|done].
    split; simpl.
    + intros k Hx. destruct (decide (k = newitem)) as [->|Hne].
      * rewrite lookup_insert_eq. by eexists.
      * rewrite lookup_insert_ne by done.
        rewrite AgendaFacts.getitem_setitem_ne in Hx by done. by apply Hc.
    + intros k Hx. destruct (decide (k = newitem)) as [->|Hne].
      * rewrite AgendaFacts.getitem_setitem_eq. by eexists.
      * rewrite lookup_insert_ne in Hx by done.
        rewrite AgendaFacts.getitem_setitem_ne by done. by apply Hw.
    + intros k Hx Hn. destruct (decide (k = newitem)) as [->|Hne].
      * by rewrite AgendaFacts.getitem_setitem_eq in Hn.
      * rewrite lookup_insert_ne in Hx by done.
        rewrite AgendaFacts.getitem_setitem_ne in Hn by done.
        rewrite Hvit by done. by apply Hs.
    + intros n d k e Hd Hx. apply Hgr. by eapply Hv.
    + intros k e Hin. eapply edge_ok_grows; [done|].
      apply AgendaFacts.elem_of_setitem in Hin as [[-> ->]|Hin];
        [done|by eapply Ha].
    + intros k cell' e Hx Hin. destruct (decide (k = newitem)) as [->|Hne].
      * rewrite lookup_insert_eq in Hx. injection Hx as <-.
        apply elem_of_app in Hin as [Hin|Hin].
        -- destruct (Hch newitem cell e Hk Hin). split; [|done].
           by eapply edge_ok_grows.
        -- apply list_elem_of_singleton in Hin as ->.
           split; [|by destruct old]. apply edge_ok_iscore.
           eapply edge_ok_grows; [done|]. apply (Ha newitem).
           by apply AgendaFacts.getitem_Some_elem.
      * rewrite lookup_insert_ne in Hx by done.
        destruct (Hch k cell' e Hx Hin). split; [|done].
        by eapply edge_ok_grows.
  - split; [|apply grows_refl]. split; simpl; [| | |done| |done].
    + intros k Hx. destruct (decide (k = newitem)) as [->|Hne]; [done|].
      rewrite AgendaFacts.getitem_setitem_ne in Hx by done. by apply Hc.
    + intros k Hx. apply setitem_keeps. by apply Hw.
    + intros k Hx Hn. rewrite Hvit by done. apply Hs; [done|].
      by eapply setitem_None.
    + intros k e Hin.
      apply AgendaFacts.elem_of_setitem in Hin as [[-> ->]|Hin];
        [done|by eapply Ha].
  - pose proof (grows_append _ _ _ (iscore (new_Edge sc ins pr rn l r)) Hk)
      as Hgr.
    split; [|done]. split; simpl.
    + intros k Hx. destruct (decide (k = newitem)) as [->|Hne].
      * rewrite lookup_insert_eq. by eexists.
      * rewrite lookup_insert_ne by done. by apply Hc.
    + intros k Hx. destruct (decide (k = newitem)) as [->|Hne].
      * rewrite lookup_insert_eq in Hx. injection Hx as Hx. by destruct cell.
      * rewrite lookup_insert_ne in Hx by done. by apply Hw.
    + intros k Hx Hn. destruct (decide (k = newitem)) as [->|Hne].
      * rewrite Hvit by done. apply Hs; [by rewrite Hk|done].
      * rewrite lookup_insert_ne in Hx by done.
        rewrite Hvit by done. by apply Hs.
    + intros n d k e Hd Hx. apply Hgr. by eapply Hv.
    + intros k e Hin. eapply edge_ok_grows; [done|]. by eapply Ha.
    + intros k cell' e Hx Hin. destruct (decide (k = newitem)) as [->|Hne].
      * rewrite lookup_insert_eq in Hx. injection Hx as <-.
        apply elem_of_app in Hin as [Hin|Hin].
        -- destruct (Hch newitem cell e Hk Hin). split; [|done].
           by eapply edge_ok_grows.
        -- apply list_elem_of_singleton in Hin as ->.
           split; [|done]. apply edge_ok_iscore. by eapply edge_ok_grows.
      * rewrite lookup_insert_ne in Hx by done.
        destruct (Hch k cell' e Hx Hin). split; [|done].
        by eapply edge_ok_grows.
  - split; [by split|apply grows_refl].
Qed.

(** The extraction of the best entry of the agenda. *)
Lemma pop_closed eps st item edge agenda' cell d :
  closed eps st →
  Agenda.popentry escore (agenda st) = Some ((item, edge), agenda') →
  chart st !! item = Some cell →
  viterbi st !! Z.to_nat (label item) = Some d →
  let st' :=
    set_viterbi
      (set_chart (set_agenda st agenda')
                 (<[item := cell ++ [iscore edge]]> (chart st)))
      (<[Z.to_nat (label item) := <[item := iscore edge]> d]> (viterbi st)) in
  closed eps st' ∧ has_edges (chart st') item
  ∧ Agenda.getitem (agenda st') item = None.
Proof.
  intros [Hc Hw Hs Hv Ha Hch] Hpop Hk Hd st'.
  apply popentry_remove in Hpop as (Hin & Hgone & Hother & Hsub).
  pose proof (grows_append _ _ _ (iscore edge) Hk) as Hgr.
  assert (Hlen : (Z.to_nat (label item) < List.length (viterbi st))%nat)
    by (by eapply lookup_lt_Some).
  assert (Hitem : has_edges (chart st') item).
  { exists (cell ++ [iscore edge]). subst st'. simpl.
    rewrite lookup_insert_eq. split; [done|]. by destruct cell. }
  split_and!; [|done|done]. split; subst st'; simpl.
  - intros k Hx. destruct (decide (k = item)) as [->|Hne].
    + rewrite Hgone in Hx. by destruct Hx.
    + rewrite lookup_insert_ne by done. apply Hc. by rewrite <- Hother.
  - intros k Hx. destruct (decide (k = item)) as [->|Hne].
    + rewrite lookup_insert_eq in Hx. injection Hx as Hx. by destruct cell.
    + rewrite lookup_insert_ne in Hx by done. rewrite Hother by done.
      by apply Hw.
  - intros k Hx Hn. unfold ProcessEdgeFacts.viterbi_edge. simpl.
    destruct (decide (k = item)) as [->|Hne].
    + rewrite list_lookup_insert_eq by done. simpl.
      rewrite lookup_insert_eq. by eexists.
    + rewrite lookup_insert_ne in Hx by done. rewrite Hother in Hn by done.
      specialize (Hs k Hx Hn). unfold ProcessEdgeFacts.viterbi_edge in Hs.
      destruct (decide (Z.to_nat (label k) = Z.to_nat (label item))) as [He|He].
      * rewrite He, list_lookup_insert_eq by done. simpl.
        rewrite lookup_insert_ne by done.
        rewrite He, Hd in Hs. done.
      * by rewrite list_lookup_insert_ne by done.
  - intros n d' k e Hd' Hx.
    destruct (decide (n = Z.to_nat (label item))) as [->|Hne].
    + rewrite list_lookup_insert_eq in Hd' by done. injection Hd' as <-.
      destruct (decide (k = item)) as [->|Hki]; [done|].
      rewrite lookup_insert_ne in Hx by done. apply Hgr. by eapply Hv.
    + rewrite list_lookup_insert_ne in Hd' by done. apply Hgr. by eapply Hv.
  - intros k e Hx. eapply edge_ok_grows; [done|]. by apply Ha, Hsub.
  - intros k cell' e Hx Hin'. destruct (decide (k = item)) as [->|Hne].
    + rewrite lookup_insert_eq in Hx. injection Hx as <-.
      apply elem_of_app in Hin' as [Hin'|Hin'].
      * destruct (Hch item cell e Hk Hin'). split; [|done].
        by eapply edge_ok_grows.
      * apply list_elem_of_singleton in Hin' as ->.
        split; [|by destruct edge]. apply edge_ok_iscore.
        eapply edge_ok_grows; [done|]. by apply Ha.
    + rewrite lookup_insert_ne in Hx by done.
      destruct (Hch k cell' e Hx Hin'). split; [|done].
      by eapply edge_ok_grows.
Qed.

End ChartFacts.

(** ** [parse]: what the returned chart holds *)

Module ParseChartFacts.
Import Bit Containers Plcfrs EffectFacts CarriedFacts ChartFacts.

(** The ways in which [parse] returns for a sentence of fewer than 64
    words. *)
Lemma parse_returned
    fuel sent g tags start exhaustive whitelist splitprune markorigin
    estimates beamwidth c item msg :
  parse fuel sent g tags start exhaustive whitelist splitprune markorigin
        estimates beamwidth = Run.Ok (Returned c item msg) →
  ∃ eps et,
    toid g !! "Epsilon" = Some eps
    ∧ estimatetype_of estimates = Run.Ok et
    ∧ (List.length sent < 64)%nat
    ∧ let cfg := ParseFacts.config_of sent g tags exhaustive whitelist
                   splitprune markorigin estimates beamwidth et in
      let goal := goal_of start sent in
      (∃ st tok,
          scan cfg eps 0 sent (initial g) = Run.Ok (NotCovered st tok)
          ∧ c = chart st ∧ item = NONE ∧ msg = ParseFacts.not_covered tok)
      ∨ (∃ st ls,
            scan cfg eps 0 sent (initial g) = Run.Ok (Scanned st)
            ∧ agenda_loop cfg fuel goal (mkLState st ∅ 0) = Run.Ok ls
            ∧ c = chart (pstate ls)
            ∧ ((item = goal ∧ is_Some (c !! goal) ∧ msg = stats ls)
               ∨ (item = NONE ∧ c !! goal = None
                  ∧ msg = "no parse " +:+ stats ls))).
Proof.
  unfold parse.
  destruct (toid g !! "Epsilon") as [eps|] eqn:Heps;
    cbn [Run.get mbind Run.result_bind]; [|done].
  destruct (Z.of_nat (List.length sent) >=? 64) eqn:Hlen; [done|].
  destruct (estimatetype_of estimates) as [et|?|] eqn:Het;
    cbn [mbind Run.result_bind]; [|done..].
  intros Hrun. exists eps, et. split_and!; [done|done| |].
  { rewrite Z.geb_leb in Hlen. apply Z.leb_gt in Hlen. lia. }
  unfold ParseFacts.config_of. cbn zeta.
  destruct (scan _ _ _ _ _) as [[st|st tok]|?|] eqn:Hscan;
    cbn [mbind Run.result_bind] in Hrun; [| |done..].
  - destruct (agenda_loop _ _ _ _) as [ls|?|] eqn:Hloop;
      cbn [mbind Run.result_bind] in Hrun; [|done..].
    right. exists st, ls. split; [done|]. split; [done|].
    destruct (bool_decide _) eqn:Hin; injection Hrun as <- <- <-.
    + apply bool_decide_eq_true in Hin. split; [done|]. by left.
    + apply bool_decide_eq_false in Hin. split; [done|]. right.
      split_and!; [done| |done]. by apply eq_None_not_Some.
  - injection Hrun as <- <- <-. left. by exists st, tok.
Qed.

Section instance.
Variable cfg : Config.
Variable eps : Z.

Let J := closed eps.
Let G := λ (st : PState) x, has_edges (chart st) x.

Lemma closed_candidate newitem sc ins pr rn l r st sp :
  closed eps st →
  edge_ok eps (chart st) newitem (new_Edge sc ins pr rn l r) →
  carried True (λ p, kept J G st p.1)
    (process_edge newitem sc ins pr rn l r st (exhaustive cfg) (whitelist cfg)
                  sp (markorigin cfg)).
Proof.
  intros Hcl Hok.
  destruct (process_edge _ _ _ _ _ _ _ _ _ _ _ _) as [[st' b]|?|] eqn:Hrun;
    simpl; [|done..].
  destruct (process_edge_closed _ _ _ _ _ _ _ _ _ _ _ _ _ _ _ Hcl Hok Hrun)
    as [Hcl' Hgr]. by split.
Qed.

Lemma agenda_loop_closed fuel goal ls ls' :
  closed eps (pstate ls) →
  agenda_loop cfg fuel goal ls = Run.Ok ls' → closed eps (pstate ls').
Proof.
  intros Hcl Hrun.
  eapply (carried_Ok True (λ l, J (pstate l))); [|exact Hrun].
  apply (agenda_loop_carried cfg True J G); [..|done].
  - intros st item i sc ins sp HJ HG rule Hr.
    apply closed_candidate; [done|]. right. left. by split_and!.
  - intros st item sib i sc ins sp HJ HG HGs rule Hr Hc.
    apply closed_candidate; [done|]. right. right. split_and!; try done.
    by apply (ConcatFacts.concat_disjoint rule).
  - intros st item sib i sc ins sp HJ HG HGs rule Hr Hc.
    apply closed_candidate; [done|]. right. right. split_and!; try done.
    by apply (ConcatFacts.concat_disjoint rule).
  - intros st item i HJ HG rule Hr.
    destruct (viterbi st !! _) as [d|] eqn:Hd; [|done].
    intros sib e Hs. by eapply (c_viterbi _ _ HJ).
  - intros st item i HJ HG rule Hr.
    destruct (viterbi st !! _) as [d|] eqn:Hd; [|done].
    intros sib e Hs. by eapply (c_viterbi _ _ HJ).
  - intros st item edge ag' HJ Hpop.
    destruct (chart st !! item) as [cell|] eqn:Hc; [|done].
    destruct (viterbi st !! _) as [d|] eqn:Hd; [|done].
    destruct (pop_closed _ _ _ _ _ _ _ HJ Hpop Hc Hd) as (? & ? & ?). done.
Qed.

Lemma scan_scanning sent g' r :
  scan cfg eps 0 sent (initial g') = Run.Ok r →
  scanning eps (ScanFacts.scanned_state r).
Proof.
  intros Hrun.
  eapply (carried_Ok True (λ r, scanning eps (ScanFacts.scanned_state r)));
    [|exact Hrun].
  apply (scan_carried cfg True eps (List.length sent) (scanning eps)).
  - intros i _ _. by destruct (tag_at _ _).
  - intros st i w t sc HJ _ _.
    destruct (process_edge _ _ _ _ _ _ _ _ _ _ _ _) as [[st' b]|?|] eqn:Hpe;
      simpl; [|done..].
    eapply process_edge_scanning; [done| |done]. by split_and!.
  - intros st i t lhs sc HJ _ _. by apply tag_scanning.
  - simpl. lia.
  - apply initial_scanning.
Qed.


End instance.

(** Every edge of the chart that [parse] returns is the edge of a word, of
    a unary rule over an item that has edges of its own, or of a binary
    rule over two such items whose spans are disjoint and add up to the
    span of the edge's item; and its score is its inside cost. *)
Theorem parse_chart_is_closed
    fuel sent g tags start exhaustive whitelist splitprune markorigin
    estimates beamwidth c item msg :
  parse fuel sent g tags start exhaustive whitelist splitprune markorigin
        estimates beamwidth = Run.Ok (Returned c item msg) →
  ∃ eps, toid g !! "Epsilon" = Some eps
         ∧ ∀ k cell e, c !! k = Some cell → e ∈ cell →
                       edge_ok eps c k e ∧ score e = inside e.
Proof.
  intros Hrun. apply parse_returned in Hrun as (eps & et & Heps & _ & _ & Hrun).
  exists eps. split; [done|]. cbn zeta in Hrun.
  destruct Hrun as [(st & tok & Hscan & -> & _)|(st & ls & Hscan & Hloop & -> & _)].
  - apply scan_scanning in Hscan. simpl in Hscan.
    apply scanning_closed in Hscan. apply (c_chart _ _ Hscan).
  - apply scan_scanning in Hscan. simpl in Hscan.
    apply scanning_closed in Hscan.
    eapply agenda_loop_closed in Hloop; [|done]. apply (c_chart _ _ Hloop).
Qed.

Lemma ab_run :
  Runs.ab_parse
  = Run.Ok (Returned Runs.ab_chart Runs.ab_item Runs.ab_message).
Proof. vm_compute. reflexivity. Qed.

Lemma parse_chart_is_closed_witness :
  Runs.ab_parse = Run.Ok (Returned Runs.ab_chart Runs.ab_item Runs.ab_message)
  ∧ ∃ eps, toid Driver.three_tags !! "Epsilon" = Some eps
           ∧ ∀ k cell e, Runs.ab_chart !! k = Some cell → e ∈ cell →
                         edge_ok eps Runs.ab_chart k e ∧ score e = inside e.
Proof.
  split; [exact ab_run|].
  exact (parse_chart_is_closed 10 Driver.two_words Driver.three_tags None
           Driver.nt_S false None false false None 0 _ _ _ ab_run).
Defined.



End ParseChartFacts.

(** ** [parse]: no exception on a well-formed grammar *)

Module SafetyFacts.
Import Bit Containers Plcfrs EffectFacts CarriedFacts ChartFacts ParseChartFacts.

(** The labels of the grammar are the numbers below the size of [toid], and
    the rule arrays only hold such labels in the rows that are read. *)
Definition label_of (g : Grammar) (l : Z) : Prop :=
  0 ≤ l < Z.of_nat (size (toid g)).

Record well_formed (g : Grammar) : Prop := mkWellFormed {
  wf_epsilon : is_Some (toid g !! "Epsilon");
  wf_toid : ∀ t l, toid g !! t = Some l → label_of g l;
  wf_lexical : ∀ w ts t, lexical g !! w = Some ts → t ∈ ts →
                         label_of g (lex_lhs t);
  wf_unary : ∀ l i, label_of g l → rhs1 (unary g l i) = l →
                    label_of g (lhs (unary g l i));
  wf_lbinary : ∀ l i, label_of g l → rhs1 (lbinary g l i) = l →
                      label_of g (lhs (lbinary g l i))
                      ∧ label_of g (rhs2 (lbinary g l i));
  wf_rbinary : ∀ l i, label_of g l → rhs2 (rbinary g l i) = l →
                      label_of g (lhs (rbinary g l i))
                      ∧ label_of g (rhs1 (rbinary g l i))
}.

(** Gold tags, if given, are given for every word. *)
Definition tags_cover (tags : option (list string)) (sent : list string) : Prop :=
  match tags with
  | None => True
  | Some ts => ts = [] ∨ (List.length sent ≤ List.length ts)%nat
  end.

(** The Viterbi index has a dictionary for each label, and the items of the
    chart carry labels of the grammar. *)
Definition ranged (g : Grammar) (st : PState) : Prop :=
  List.length (viterbi st) = size (toid g)
  ∧ ∀ k, is_Some (chart st !! k) → label_of g (label k).

Lemma ranged_lookup g st l :
  ranged g st → label_of g l → is_Some (viterbi st !! Z.to_nat l).
Proof.
  intros [Hlen _] Hl. apply lookup_lt_is_Some. unfold label_of in Hl. lia.
Qed.

Lemma process_edge_ranged g newitem sc ins pr rn l r st exh wl sp mo st' b :
  ranged g st → label_of g (label newitem) →
  process_edge newitem sc ins pr rn l r st exh wl sp mo = Run.Ok (st', b) →
  ranged g st'.
Proof.
  intros [Hlen Hk] Hnew Hrun.
  apply KeysFacts.process_edge_shape in Hrun as (Hv & _ & Hc).
  split; [by rewrite Hv|]. intros k Hin. destruct (Hc k Hin) as [->|?]; auto.
Qed.

(** Without a whitelist, [process_edge] finds every entry it reads. *)
Lemma process_edge_safe eps newitem sc ins pr rn l r st exh sp mo e :
  closed eps st →
  process_edge newitem sc ins pr rn l r st exh None sp mo ≠ Run.Raise e.
Proof.
  intros [Hc Hw Hs Hv Ha Hch]. unfold process_edge.
  destruct (Agenda.contains (agenda st) newitem) eqn:Hin.
  - apply AgendaFacts.contains_true in Hin.
    destruct (Hc _ Hin) as [cell Hcell]. destruct Hin as [old Hold].
    rewrite Hold, Hcell. cbn [negb andb].
    destruct exh; cbn [negb andb]; [|done].
    unfold Agenda.replace. rewrite Hold.
    by destruct (_ <? _).
  - apply AgendaFacts.contains_false in Hin. cbn [negb andb].
    destruct (bool_decide (is_Some (chart st !! newitem))) eqn:Hk;
      cbn [negb andb]; [|done].
    apply bool_decide_eq_true in Hk.
    replace (negb exh && false) with false by (by destruct exh).
    pose proof (Hs _ Hk Hin) as [best Hbest].
    unfold ProcessEdgeFacts.viterbi_edge in Hbest.
    destruct (viterbi st !! Z.to_nat (label newitem)) as [d|]; [|done].
    cbn [Run.get mbind Run.result_bind].
    simpl in Hbest. rewrite Hbest. cbn [Run.get mbind Run.result_bind].
    destruct (_ <? _); [done|]. destruct exh; [|done].
    destruct Hk as [cell ->]. done.
Qed.

Section instance.
Variable cfg : Config.
Variable eps : Z.
Hypothesis Hwf : well_formed (grammar cfg).
Hypothesis Hwl : whitelist cfg = None.

Let J := λ st, closed eps st ∧ ranged (grammar cfg) st.
Let G := λ (st : PState) x, has_edges (chart st) x.

Lemma has_edges_label st x :
  ranged (grammar cfg) st → has_edges (chart st) x →
  label_of (grammar cfg) (label x).
Proof. intros [_ Hk] (cell & Hx & _). apply Hk. by rewrite Hx. Qed.

Lemma safe_candidate newitem sc ins pr rn l r st sp :
  J st → label_of (grammar cfg) (label newitem) →
  edge_ok eps (chart st) newitem (new_Edge sc ins pr rn l r) →
  carried False (λ p, kept J G st p.1)
    (process_edge newitem sc ins pr rn l r st (exhaustive cfg) (whitelist cfg)
                  sp (markorigin cfg)).
Proof.
  intros [Hcl Hrg] Hl Hok. rewrite Hwl.
  destruct (process_edge _ _ _ _ _ _ _ _ _ _ _ _) as [[st' b]|e|] eqn:Hrun;
    simpl; [| |done].
  - destruct (process_edge_closed _ _ _ _ _ _ _ _ _ _ _ _ _ _ _ Hcl Hok Hrun)
      as [Hcl' Hgr].
    split; [|done]. split; [done|]. by eapply process_edge_ranged.
  - by eapply process_edge_safe.
Qed.

Lemma agenda_loop_safe fuel goal ls :
  J (pstate ls) →
  carried False (λ ls', J (pstate ls')) (agenda_loop cfg fuel goal ls).
Proof.
  intros HJ0.
  apply (agenda_loop_carried cfg False J G); [..|done].
  - intros st item i sc ins sp HJ HG rule Hr.
    pose proof (has_edges_label _ _ (proj2 HJ) HG) as Hl.
    apply safe_candidate; [done|by apply (wf_unary _ Hwf)|].
    right. left. by split_and!.
  - intros st item sib i sc ins sp HJ HG HGs rule Hr Hc.
    pose proof (has_edges_label _ _ (proj2 HJ) HG) as Hl.
    apply safe_candidate; [done|by apply (wf_lbinary _ Hwf)|].
    right. right. split_and!; try done.
    by apply (ConcatFacts.concat_disjoint rule).
  - intros st item sib i sc ins sp HJ HG HGs rule Hr Hc.
    pose proof (has_edges_label _ _ (proj2 HJ) HG) as Hl.
    apply safe_candidate; [done|by apply (wf_rbinary _ Hwf)|].
    right. right. split_and!; try done.
    by apply (ConcatFacts.concat_disjoint rule).
  - intros st item i [Hcl Hrg] HG rule Hr.
    pose proof (has_edges_label _ _ Hrg HG) as Hl.
    destruct (ranged_lookup _ st (rhs2 rule) Hrg) as [d Hd];
      [by apply (wf_lbinary _ Hwf)|].
    rewrite Hd. intros sib e Hs. by eapply (c_viterbi _ _ Hcl).
  - intros st item i [Hcl Hrg] HG rule Hr.
    pose proof (has_edges_label _ _ Hrg HG) as Hl.
    destruct (ranged_lookup _ st (rhs1 rule) Hrg) as [d Hd];
      [by apply (wf_rbinary _ Hwf)|].
    rewrite Hd. intros sib e Hs. by eapply (c_viterbi _ _ Hcl).
  - intros st item edge ag' [Hcl Hrg] Hpop.
    pose proof (popentry_remove _ _ _ _ Hpop) as (Hin & _).
    apply elem_is_Some in Hin. apply (c_coupled _ _ Hcl) in Hin.
    pose proof (proj2 Hrg _ Hin) as Hl.
    destruct Hin as [cell Hc]. rewrite Hc.
    destruct (ranged_lookup _ st _ Hrg Hl) as [d Hd]. rewrite Hd.
    destruct (pop_closed _ _ _ _ _ _ _ Hcl Hpop Hc Hd) as (Hcl' & Hhas & _).
    split; [|done]. split; [done|].
    destruct Hrg as [Hlen Hk]. split; simpl.
    + by rewrite length_insert.
    + intros k Hx. destruct (decide (k = item)) as [->|Hne]; [done|].
      rewrite lookup_insert_ne in Hx by done. by apply Hk.
Qed.

Lemma scan_safe sent :
  tags_cover (tags cfg) sent →
  carried False
    (λ r, scanning eps (ScanFacts.scanned_state r)
          ∧ ranged (grammar cfg) (ScanFacts.scanned_state r))
    (scan cfg eps 0 sent (initial (grammar cfg))).
Proof.
  intros Htags.
  apply (scan_carried cfg False eps (List.length sent)
           (λ st, scanning eps st ∧ ranged (grammar cfg) st)).
  - intros i Hi Hno. unfold tag_at, tags_cover in *.
    destruct (tags cfg) as [ts|]; [|done].
    destruct Htags as [->|Hlen]; [done|].
    destruct (lookup_lt_is_Some_2 ts i) as [t ->]; [lia|done].
  - intros st i w t sc [Hsc Hrg] _ Ht. rewrite Hwl.
    assert (Hl : label_of (grammar cfg) (lex_lhs t)).
    { destruct (lexical (grammar cfg) !! w) as [ts|] eqn:Hw;
        [|by inversion Ht].
      by eapply (wf_lexical _ Hwf). }
    destruct (process_edge _ _ _ _ _ _ _ _ _ _ _ _) as [[st' b]|e|] eqn:Hpe;
      simpl; [| |done].
    + split; [|eapply process_edge_ranged; [exact Hrg| |exact Hpe]; exact Hl].
      eapply process_edge_scanning; [done| |done]. by split_and!.
    + eapply process_edge_safe; [|done]. by apply scanning_closed.
  - intros st i t lhs sc [Hsc Hrg] _ Hid. split; [by apply tag_scanning|].
    destruct Hrg as [Hlen Hk]. split; [done|]. simpl.
    intros k Hx.
    match type of Hx with
    | is_Some (<[?it := _]> _ !! _) =>
        destruct (decide (k = it)) as [->|Hne];
        [simpl; by eapply (wf_toid _ Hwf)|]
    end.
    rewrite lookup_insert_ne in Hx by done. by apply Hk.
  - simpl. lia.
  - split; [apply initial_scanning|]. split; simpl.
    + by rewrite length_replicate.
    + intros k [? Hx]. by rewrite lookup_empty in Hx.
Qed.

End instance.

(** On a well-formed grammar, without a whitelist, with an estimate of a
    known kind (or none) and with gold tags for every word (or none),
    [parse] raises no exception for a sentence of fewer than 64 words: no
    [KeyError] on the chart or the Viterbi index, no [IndexError]. *)
Theorem parse_raises_nothing
    fuel sent g tags start exhaustive splitprune markorigin estimates
    beamwidth e :
  well_formed g →
  (List.length sent < 64)%nat →
  tags_cover tags sent →
  (∀ e', estimatetype_of estimates ≠ Run.Raise e') →
  parse fuel sent g tags start exhaustive None splitprune markorigin
        estimates beamwidth ≠ Run.Raise e.
Proof.
  intros Hwf Hlen Htags Hest. unfold parse.
  destruct (wf_epsilon _ Hwf) as [eps ->].
  cbn [Run.get mbind Run.result_bind].
  rewrite (ParseFacts.short_sentence _ Hlen).
  destruct (estimatetype_of estimates) as [et|e'|] eqn:Het;
    cbn [mbind Run.result_bind]; [|by destruct (Hest e')|done].
  set (cfg := mkConfig _ _ _ _ _ _ _ _ _ _).
  pose proof (scan_safe cfg eps Hwf eq_refl sent Htags) as Hscan.
  change (grammar cfg) with g in Hscan.
  destruct (scan cfg eps 0 sent (initial g)) as [[st|st tok]|e'|];
    cbn [mbind Run.result_bind]; [|done..].
  simpl in Hscan. destruct Hscan as [Hsc Hrg].
  pose proof (agenda_loop_safe cfg eps Hwf eq_refl fuel (goal_of start sent)
                (mkLState st ∅ 0)) as Hloop.
  destruct (agenda_loop _ _ _ _) as [ls|e'|]; cbn [mbind Run.result_bind].
  - by destruct (bool_decide _).
  - simpl in Hloop. destruct Hloop. split; [by apply scanning_closed|done].
  - done.
Qed.

(** The grammar of three tags is well formed. *)
Lemma three_tags_well_formed : well_formed Driver.three_tags.
Proof.
  assert (Hsize : size (toid Driver.three_tags) = 6%nat) by (vm_compute; reflexivity).
  assert (Hsent : ∀ l, label_of Driver.three_tags l →
            rhs1 (Driver.sentinel) ≠ l ∧ rhs2 (Driver.sentinel) ≠ l).
  { intros l Hl. unfold label_of in Hl. rewrite Hsize in Hl.
    change (Z.of_nat 6) with 6 in Hl. simpl. lia. }
  split.
  - by eexists.
  - intros t l Ht. unfold label_of. rewrite Hsize.
    apply elem_of_list_to_map_2, list_elem_of_In in Ht. simpl in Ht.
    repeat (destruct Ht as [[= <- <-]|Ht]; [lia|]). destruct Ht.
  - intros w ts t Hw Ht. unfold label_of. rewrite Hsize.
    apply elem_of_list_to_map_2, list_elem_of_In in Hw. simpl in Hw.
    destruct Hw as [[= <- <-]|[[= <- <-]|[]]];
      apply list_elem_of_In in Ht; simpl in Ht;
      repeat (destruct Ht as [Ht|Ht];
              [subst t; compute; split; [discriminate|reflexivity]|]);
      destruct Ht.
  - intros l i Hl Hr. destruct (Hsent l Hl) as [H1 _]. by destruct H1.
  - intros l i Hl. unfold label_of in *. rewrite Hsize in *.
    change (Z.of_nat 6) with 6 in *.
    change (lbinary Driver.three_tags l i)
      with (Driver.table [(Driver.nt_A3, [Driver.rule_S_A3_B])] l i).
    unfold Driver.table. simpl.
    destruct (decide (Driver.nt_A3 = l)) as [<-|Hne]; simpl; [|lia].
    destruct (Z.to_nat i) as [|[|n]]; intros Hr; compute in Hr |- *;
      [|discriminate Hr..].
    repeat split; discriminate || reflexivity.
  - intros l i Hl. unfold label_of in *. rewrite Hsize in *.
    change (Z.of_nat 6) with 6 in *.
    change (rbinary Driver.three_tags l i)
      with (Driver.table [(Driver.nt_B, [Driver.rule_S_A3_B])] l i).
    unfold Driver.table. simpl.
    destruct (decide (Driver.nt_B = l)) as [<-|Hne]; simpl; [|lia].
    destruct (Z.to_nat i) as [|[|n]]; intros Hr; compute in Hr |- *;
      [|discriminate Hr..].
    repeat split; discriminate || reflexivity.
Qed.

Lemma parse_raises_nothing_witness :
  well_formed Driver.three_tags
  ∧ Runs.ab_parse ≠ Run.Raise Run.KeyError.
Proof.
  split; [exact three_tags_well_formed|].
  apply (parse_raises_nothing 10 Driver.two_words Driver.three_tags None
           Driver.nt_S false false false None 0 Run.KeyError).
  - exact three_tags_well_formed.
  - simpl. lia.
  - exact I.
  - intros e'. discriminate.
Defined.

End SafetyFacts.

(** ** [process_edge] and [parse]: edge cases *)

Module EdgeCaseFacts.
Import Bit Containers Plcfrs EffectFacts CarriedFacts ChartFacts ParseChartFacts.

(** [process_edge] only adds: it leaves the Viterbi index alone (so the
    loops of [parse] may call it while they iterate over a dictionary of
    that index), it keeps every key of the agenda, it creates at most the
    empty cell of [newitem], and an existing cell is only extended at its
    end; in first-parse mode no edge is appended at all. *)
Theorem process_edge_only_adds
    newitem score inside prob ruleno left right st exhaustive whitelist
    splitprune markorigin st' fresh :
  process_edge newitem score inside prob ruleno left right st exhaustive
    whitelist splitprune markorigin = Run.Ok (st', fresh) →
  viterbi st' = viterbi st
  ∧ (∀ k, is_Some (Agenda.getitem (agenda st) k) →
          is_Some (Agenda.getitem (agenda st') k))
  ∧ (∀ k cell, chart st !! k = Some cell →
               ∃ more, chart st' !! k = Some (cell ++ more)
                       ∧ (exhaustive = false → more = [])
                       ∧ (k ≠ newitem → more = []))
  ∧ (∀ k, chart st !! k = None →
          chart st' !! k = None ∨ (k = newitem ∧ chart st' !! k = Some [])).
Proof.
  intros Hrun. apply process_edge_effect in Hrun.
  assert (Hsame : ∀ k cell, chart st !! k = Some cell →
            ∃ more, chart st !! k = Some (cell ++ more)
                    ∧ (exhaustive = false → more = [])
                    ∧ (k ≠ newitem → more = [])).
  { intros k cell Hk. exists []. by rewrite app_nil_r. }
  assert (Happ : ∀ cell0 x, exhaustive = true → chart st !! newitem = Some cell0 →
            ∀ k cell, chart st !! k = Some cell →
            ∃ more, <[newitem := cell0 ++ [x]]> (chart st) !! k = Some (cell ++ more)
                    ∧ (exhaustive = false → more = [])
                    ∧ (k ≠ newitem → more = [])).
  { intros cell0 x Hex Hc k cell Hk. destruct (decide (k = newitem)) as [->|Hne].
    - exists [x]. rewrite lookup_insert_eq. rewrite Hc in Hk. injection Hk as ->.
      split_and!; [done|congruence|done].
    - exists []. rewrite lookup_insert_ne, app_nil_r by done. done. }
  assert (Hnone : ∀ cell0 x, chart st !! newitem = Some cell0 →
            ∀ k, chart st !! k = None →
            <[newitem := cell0 ++ [x]]> (chart st) !! k = None
            ∨ (k = newitem ∧ <[newitem := cell0 ++ [x]]> (chart st) !! k = Some [])).
  { intros cell0 x Hc k Hk. left. rewrite lookup_insert_ne; [done|].
    intros ->. congruence. }
  destruct Hrun as [Hg Hk|Hg Hk|old Hex Hg|old cell0 Hex Hg Hlt Hk|best Hg Hk Hb Hlt
                    |cell0 Hex Hk|Hex Hk]; simpl.
  - split_and!; auto.
  - split_and!; [done| | |].
    + intros k. apply setitem_keeps.
    + intros k cell Hc. exists []. rewrite app_nil_r.
      rewrite lookup_insert_ne; [done|]. intros ->. congruence.
    + intros k Hc. destruct (decide (k = newitem)) as [->|Hne].
      * right. by rewrite lookup_insert_eq.
      * left. by rewrite lookup_insert_ne.
  - split_and!; auto. intros k. apply setifbetter_keeps.
  - split_and!; [done| |by eapply Happ|by eapply Hnone].
    intros k. apply setitem_keeps.
  - split_and!; auto. intros k. apply setitem_keeps.
  - split_and!; [done|done|by eapply Happ|by eapply Hnone].
  - split_and!; auto.
Qed.

Lemma process_edge_only_adds_witness :
  let st := initial Driver.german in
  let st' := mkPState [(new_ChartItem 2 3, new_Edge 0 0 0 0 NONE NONE)]
                      {[ new_ChartItem 2 3 := [] ]}
                      (viterbi (initial Driver.german)) 0 [] in
  process_edge (new_ChartItem 2 3) 0 0 0 0 NONE NONE st false None false false
  = Run.Ok (st', true)
  ∧ viterbi st' = viterbi st
  ∧ (∀ k, is_Some (Agenda.getitem (agenda st) k) →
          is_Some (Agenda.getitem (agenda st') k))
  ∧ (∀ k cell, chart st !! k = Some cell →
               ∃ more, chart st' !! k = Some (cell ++ more)
                       ∧ (false = false → more = [])
                       ∧ (k ≠ new_ChartItem 2 3 → more = []))
  ∧ (∀ k, chart st !! k = None →
          chart st' !! k = None
          ∨ (k = new_ChartItem 2 3 ∧ chart st' !! k = Some [])).
Proof.
  split; [reflexivity|].
  apply (process_edge_only_adds (new_ChartItem 2 3) 0 0 0 0 NONE NONE
           (initial Driver.german) false None false false _ true).
  reflexivity.
Defined.

Lemma viterbi_labels_initial n :
  viterbi_labels (replicate n (∅ : gmap ChartItem LEdge)) = 0.
Proof.
  unfold viterbi_labels. induction n as [|n IH]; [done|].
  simpl. rewrite filter_cons. by rewrite decide_False by (by intros H; apply H).
Qed.

(** The empty sentence: [parse] returns at once with an empty chart, [NONE]
    and the "no parse" message with all counters at zero. *)
Theorem parse_empty_sentence
    fuel g tags start exhaustive whitelist splitprune markorigin estimates
    beamwidth :
  is_Some (toid g !! "Epsilon") →
  (∃ et, estimatetype_of estimates = Run.Ok et) →
  parse (S fuel) [] g tags start exhaustive whitelist splitprune markorigin
        estimates beamwidth
  = Run.Ok (Returned ∅ NONE
      "no parse agenda max 0, now 0, items 0 (0 labels), edges 0, blocked 0").
Proof.
  intros [eps Heps] [et Het]. unfold parse. rewrite Heps, Het.
  cbn [Run.get mbind Run.result_bind List.length scan agenda_loop pstate
       agenda initial].
  change (Z.of_nat 0 >=? 64) with false.
  change (Agenda.length (@nil (ChartItem * LEdge)) =? 0) with true.
  cbn [Run.get mbind Run.result_bind].
  rewrite bool_decide_eq_false_2
    by (cbn [chart pstate initial]; rewrite lookup_empty; by intros [? ?]).
  unfold stats. cbn [pstate maxA agenda chart viterbi blocked initial].
  rewrite viterbi_labels_initial.
  unfold chart_items, chart_edges. rewrite map_to_list_empty. reflexivity.
Qed.

Lemma parse_empty_sentence_witness :
  is_Some (toid Driver.three_tags !! "Epsilon")
  ∧ parse 1 [] Driver.three_tags None Driver.nt_S false None false false None 0
    = Run.Ok (Returned ∅ NONE
        "no parse agenda max 0, now 0, items 0 (0 labels), edges 0, blocked 0").
Proof.
  split; [by eexists|].
  apply (parse_empty_sentence 0 Driver.three_tags None Driver.nt_S false None
           false false None 0).
  - by eexists.
  - by eexists.
Defined.

(** With a start symbol other than 0 (the label of [NONE] and of
    Epsilon), the item that [parse] returns is true in a Boolean context
    exactly when it is the goal item found in the chart: [if not start]
    tests for a failed parse. *)
Theorem parse_item_is_true_iff_parsed
    fuel sent g tags start exhaustive whitelist splitprune markorigin
    estimates beamwidth c item msg :
  start ≠ 0 →
  parse fuel sent g tags start exhaustive whitelist splitprune markorigin
        estimates beamwidth = Run.Ok (Returned c item msg) →
  ChartItem_nonzero item = true
  ↔ item = goal_of start sent ∧ is_Some (c !! goal_of start sent).
Proof.
  intros Hstart Hrun.
  apply parse_returned in Hrun as (eps & et & Heps & _ & Hlen & Hrun).
  cbn zeta in Hrun.
  assert (Hnone : NONE ≠ goal_of start sent).
  { unfold NONE, goal_of. intros [= H _]. by destruct Hstart. }
  destruct Hrun as [(st & tok & Hscan & -> & -> & ->)
                   |(st & ls & Hscan & Hloop & -> & Hitem)].
  { split; [done|]. by intros [? _]. }
  destruct Hitem as [(-> & Hin & _)|(-> & _)]; [|split; [done|by intros [? _]]].
  split; [done|]. intros _.
  unfold ChartItem_nonzero, goal_of. cbn [label vec].
  apply andb_true_iff. split.
  { apply negb_true_iff, Z.eqb_neq. done. }
  apply negb_true_iff, Z.eqb_neq.
  destruct sent as [|w ws].
  - (* no word: the chart stays empty *)
    simpl in Hscan. injection Hscan as <-.
    destruct fuel as [|fuel]; [done|]. simpl in Hloop. injection Hloop as <-.
    simpl in Hin. rewrite lookup_empty in Hin. by destruct Hin.
  - set (n := Z.of_nat (List.length (w :: ws))).
    assert (Hn : 1 ≤ n < 64) by (subst n; simpl in *; lia).
    rewrite BitFacts.unit_span by lia.
    assert (H2 : 2 ≤ 2 ^ n < 2 ^ 64).
    { split; [|apply Z.pow_lt_mono_r; lia].
      change 2 with (2 ^ 1) at 1. apply Z.pow_le_mono_r; lia. }
    unfold wrap64. rewrite Z.mod_small by lia. lia.
Qed.

Lemma parse_item_is_true_witness :
  Runs.ab_parse = Run.Ok (Returned Runs.ab_chart Runs.ab_item Runs.ab_message)
  ∧ (ChartItem_nonzero Runs.ab_item = true
     ↔ Runs.ab_item = goal_of Driver.nt_S Driver.two_words
       ∧ is_Some (Runs.ab_chart !! goal_of Driver.nt_S Driver.two_words)).
Proof.
  split; [exact ab_run|].
  apply (parse_item_is_true_iff_parsed 10 Driver.two_words Driver.three_tags
           None Driver.nt_S false None false false None 0
           Runs.ab_chart Runs.ab_item Runs.ab_message).
  - discriminate.
  - exact ab_run.
Defined.

End EdgeCaseFacts.

(** ** [parse]: the rules behind the edges of the chart *)

Module RuleFacts.
Import Bit Containers Plcfrs EffectFacts CarriedFacts ChartFacts
       ParseChartFacts.

(** The edge [e] of the item [k] applies a unary rule that the grammar
    lists for the label of its child. *)
Definition by_unary (g : Grammar) (k : ChartItem) (e : LEdge) : Prop :=
  ∃ i, let rule := unary g (label (left e)) i in
       rhs1 rule = label (left e) ∧ right e = NONE
       ∧ label k = lhs rule ∧ vec k = vec (left e)
       ∧ ruleno e = no rule ∧ eprob e = prob rule.

(** The edge [e] of the item [k] applies a binary rule that the grammar
    lists for the label of its left child, or for the label of its right
    child, and [concat] accepts the spans of the children in this order. *)
Definition by_binary (g : Grammar) (k : ChartItem) (e : LEdge) : Prop :=
  ∃ rule,
    ((∃ i, rule = lbinary g (label (left e)) i ∧ rhs1 rule = label (left e))
     ∨ (∃ i, rule = rbinary g (label (right e)) i
             ∧ rhs2 rule = label (right e)))
    ∧ label k = lhs rule
    ∧ vec k = Z.lxor (vec (left e)) (vec (right e))
    ∧ concat rule (vec (left e)) (vec (right e)) = true
    ∧ ruleno e = no rule ∧ eprob e = prob rule.

Definition by_rule (g : Grammar) (eps : Z) (k : ChartItem) (e : LEdge)
  : Prop :=
  lexical_edge eps k e ∨ by_unary g k e ∨ by_binary g k e.

Lemma by_rule_iscore g eps k e :
  by_rule g eps k e → by_rule g eps k (iscore e).
Proof. by destruct e. Qed.

(** *** A property of every edge of the agenda and of the chart *)

Section edges.
Variable P : ChartItem → LEdge → Prop.
Hypothesis P_iscore : ∀ k e, P k e → P k (iscore e).

Record all_edges (st : PState) : Prop := mkAllEdges {
  of_agenda : ∀ k e, (k, e) ∈ agenda st → P k e;
  of_chart : ∀ k cell e, chart st !! k = Some cell → e ∈ cell → P k e
}.

Lemma initial_all_edges g : all_edges (initial g).
Proof.
  split; simpl.
  - intros k e Hin. inversion Hin.
  - intros k cell e Hk. by rewrite lookup_empty in Hk.
Qed.

Lemma insert_all_edges (c : LChart) k0 cell0 :
  (∀ k cell e, c !! k = Some cell → e ∈ cell → P k e) →
  (∀ e, e ∈ cell0 → P k0 e) →
  ∀ k cell e, <[k0 := cell0]> c !! k = Some cell → e ∈ cell → P k e.
Proof.
  intros Hc H0 k cell e Hx Hin. destruct (decide (k = k0)) as [->|Hne].
  - rewrite lookup_insert_eq in Hx. injection Hx as <-. by apply H0.
  - rewrite lookup_insert_ne in Hx by done. by eapply Hc.
Qed.

Lemma process_edge_all_edges newitem sc ins pr rn l r st exh wl sp mo st' b :
  all_edges st → P newitem (new_Edge sc ins pr rn l r) →
  process_edge newitem sc ins pr rn l r st exh wl sp mo = Run.Ok (st', b) →
  all_edges st'.
Proof.
  intros [Ha Hc] Hnew Hrun. apply process_edge_effect in Hrun.
  assert (Hset : ∀ k e,
            (k, e) ∈ Agenda.setitem (agenda st) newitem
                       (new_Edge sc ins pr rn l r) → P k e).
  { intros k e Hin.
    apply AgendaFacts.elem_of_setitem in Hin as [[-> ->]|Hin];
      [done|by apply Ha]. }
  destruct Hrun as [Hg Hk|Hg Hk|old Hex Hg|old cell Hex Hg Hlt Hk
                    |best Hg Hk Hb Hlt|cell Hex Hk|Hex Hk].
  - by split.
  - split; simpl; [done|]. apply insert_all_edges; [done|].
    intros e Hin. inversion Hin.
  - split; simpl; [|done]. intros k e Hin.
    apply AgendaFacts.elem_of_setifbetter in Hin as [[-> ->]|Hin];
      [done|by apply Ha].
  - split; simpl; [done|]. apply insert_all_edges; [done|].
    intros e Hin. apply elem_of_app in Hin as [Hin|Hin]; [by eapply Hc|].
    apply list_elem_of_singleton in Hin as ->. apply P_iscore, Ha.
    by apply AgendaFacts.getitem_Some_elem.
  - by split.
  - split; simpl; [done|]. apply insert_all_edges; [done|].
    intros e Hin. apply elem_of_app in Hin as [Hin|Hin]; [by eapply Hc|].
    apply list_elem_of_singleton in Hin as ->. by apply P_iscore.
  - by split.
Qed.

Lemma pop_all_edges st item edge agenda' cell v :
  all_edges st →
  Agenda.popentry escore (agenda st) = Some ((item, edge), agenda') →
  chart st !! item = Some cell →
  all_edges
    (set_viterbi
       (set_chart (set_agenda st agenda')
                  (<[item := cell ++ [iscore edge]]> (chart st))) v).
Proof.
  intros [Ha Hc] Hpop Hk.
  apply popentry_remove in Hpop as (Hin & _ & _ & Hsub).
  split; simpl.
  - intros k e Hx. by apply Ha, Hsub.
  - apply insert_all_edges; [done|].
    intros e Hx. apply elem_of_app in Hx as [Hx|Hx]; [by eapply Hc|].
    apply list_elem_of_singleton in Hx as ->. by apply P_iscore, Ha.
Qed.

Lemma candidate_all_edges newitem sc ins pr rn l r st exh wl sp mo :
  all_edges st → P newitem (new_Edge sc ins pr rn l r) →
  carried True (λ p, kept all_edges (λ _ _, True) st p.1)
    (process_edge newitem sc ins pr rn l r st exh wl sp mo).
Proof.
  intros Hall Hnew.
  destruct (process_edge _ _ _ _ _ _ _ _ _ _ _ _) as [[st' b]|?|] eqn:Hrun;
    simpl; [|done..].
  split; [|done]. by eapply process_edge_all_edges.
Qed.

End edges.

(** *** The edges of [parse] *)

Section rules.
Variable cfg : Config.
Variable eps : Z.

Lemma agenda_loop_by_rule fuel goal ls ls' :
  all_edges (by_rule (grammar cfg) eps) (pstate ls) →
  agenda_loop cfg fuel goal ls = Run.Ok ls' →
  all_edges (by_rule (grammar cfg) eps) (pstate ls').
Proof.
  intros Hall Hrun.
  set (P := by_rule (grammar cfg) eps).
  eapply (carried_Ok True (λ l, all_edges P (pstate l))); [|exact Hrun].
  apply (agenda_loop_carried cfg True (all_edges P) (λ _ _, True)); [..|done].
  - intros st item i sc ins sp HJ _ rule Hr.
    apply candidate_all_edges; [apply by_rule_iscore|done|].
    right. left. exists i. by split_and!.
  - intros st item sib i sc ins sp HJ _ _ rule Hr Hc.
    apply candidate_all_edges; [apply by_rule_iscore|done|].
    right. right. exists rule. split_and!; try done.
    left. by exists i.
  - intros st item sib i sc ins sp HJ _ _ rule Hr Hc.
    apply candidate_all_edges; [apply by_rule_iscore|done|].
    right. right. exists rule. split_and!; try done.
    right. by exists i.
  - intros st item i HJ _ rule Hr. by destruct (viterbi st !! _).
  - intros st item i HJ _ rule Hr. by destruct (viterbi st !! _).
  - intros st item edge ag' HJ Hpop.
    destruct (chart st !! item) as [cell|] eqn:Hc; [|done].
    destruct (viterbi st !! _) as [d|] eqn:Hd; [|done].
    split; [|done]. eapply pop_all_edges; [apply by_rule_iscore|done..].
Qed.

Lemma scan_by_rule sent g' r :
  scan cfg eps 0 sent (initial g') = Run.Ok r →
  all_edges (by_rule (grammar cfg) eps) (ScanFacts.scanned_state r).
Proof.
  intros Hrun.
  set (P := by_rule (grammar cfg) eps).
  eapply (carried_Ok True (λ r, all_edges P (ScanFacts.scanned_state r)));
    [|exact Hrun].
  apply (scan_carried cfg True eps (List.length sent) (all_edges P)).
  - intros i _ _. by destruct (tag_at _ _).
  - intros st i w t sc HJ _ _.
    destruct (process_edge _ _ _ _ _ _ _ _ _ _ _ _) as [[st' b]|?|] eqn:Hpe;
      simpl; [|done..].
    eapply process_edge_all_edges; [apply by_rule_iscore|done| |done].
    left. by split_and!.
  - intros st i t lhs sc [Ha Hc] _ _ tagitem. split; simpl.
    + intros k e Hin.
      apply AgendaFacts.elem_of_setitem in Hin as [[-> ->]|Hin];
        [|by apply Ha]. left. by split_and!.
    + apply insert_all_edges; [done|]. intros e Hin. inversion Hin.
  - simpl. lia.
  - apply initial_all_edges.
Qed.

End rules.

(** Every edge of the chart that [parse] returns is the edge of a word, or
    it applies a rule of the grammar: a unary rule listed for the label of
    the child, or a binary rule listed for the label of one of the children
    for which [concat] accepted the spans of the two children; the label of
    the item is the left-hand side of the rule, and the edge carries the
    number and the cost of the rule. *)
Theorem parse_edges_apply_rules
    fuel sent g tags start exhaustive whitelist splitprune markorigin
    estimates beamwidth c item msg :
  parse fuel sent g tags start exhaustive whitelist splitprune markorigin
        estimates beamwidth = Run.Ok (Returned c item msg) →
  ∃ eps, toid g !! "Epsilon" = Some eps
         ∧ ∀ k cell e, c !! k = Some cell → e ∈ cell → by_rule g eps k e.
Proof.
  intros Hrun. apply parse_returned in Hrun as (eps & et & Heps & _ & _ & Hrun).
  exists eps. split; [done|]. cbn zeta in Hrun.
  destruct Hrun as [(st & tok & Hscan & -> & _)
                   |(st & ls & Hscan & Hloop & -> & _)].
  - apply scan_by_rule in Hscan. simpl in Hscan. apply (of_chart _ _ Hscan).
  - apply scan_by_rule in Hscan. simpl in Hscan.
    eapply agenda_loop_by_rule in Hloop; [|done]. apply (of_chart _ _ Hloop).
Qed.

Lemma parse_edges_apply_rules_witness :
  Runs.ab_parse = Run.Ok (Returned Runs.ab_chart Runs.ab_item Runs.ab_message)
  ∧ ∃ eps, toid Driver.three_tags !! "Epsilon" = Some eps
           ∧ ∀ k cell e, Runs.ab_chart !! k = Some cell → e ∈ cell →
                         by_rule Driver.three_tags eps k e.
Proof.
  split; [exact ab_run|].
  exact (parse_edges_apply_rules 10 Driver.two_words Driver.three_tags None
           Driver.nt_S false None false false None 0 _ _ _ ab_run).
Defined.

End RuleFacts.

(** ** [cfgparse]: the chart and the Viterbi costs *)

Module CfgChartFacts.
Import Containers YieldFunction Plcfrs Cfg CarriedFacts.

(** [v] is the least inside cost among the edges of [cell]. *)
Definition least_inside (cell : list CFGEdge) (v : Z) : Prop :=
  (∃ e, e ∈ cell ∧ cinside e = v) ∧ ∀ e, e ∈ cell → v ≤ cinside e.

(** The chart and the Viterbi costs of a sentence of [n] words agree: the
    chart has a row for each left end and a cell for each right end; a
    label has a finite cost over a span if and only if the cell of the span
    has a list of edges for it, and then the cost is the least inside cost
    of these edges. *)
Record coupled (n : nat) (st : CState) : Prop := mkCoupled {
  k_rows : List.length (chart st) = n;
  k_cols : ∀ row, row ∈ chart st → List.length row = S n;
  k_span : ∀ l a b, is_Some (cost st l a b) →
                    0 ≤ a < Z.of_nat n ∧ 0 ≤ b ≤ Z.of_nat n;
  k_cost : ∀ l a b v, cost st l a b = Some v →
                      ∃ cell, cell_of (chart st) a b !! l = Some cell
                              ∧ least_inside cell v;
  k_cell : ∀ l a b cell, 0 ≤ a → 0 ≤ b →
                         cell_of (chart st) a b !! l = Some cell →
                         is_Some (cost st l a b)
}.

Lemma cell_of_store (c : Chart) a b l edges a' b' n :
  List.length c = n → (∀ row, row ∈ c → List.length row = S n) →
  0 ≤ a < Z.of_nat n → 0 ≤ b ≤ Z.of_nat n → 0 ≤ a' → 0 ≤ b' →
  cell_of (store c a b l edges) a' b'
  = if decide (a = a' ∧ b = b') then <[l := edges]> (cell_of c a b)
    else cell_of c a' b'.
Proof.
  intros Hrows Hcols Ha Hb Ha' Hb'. unfold cell_of, store.
  destruct (lookup_lt_is_Some_2 c (Z.to_nat a)) as [row Hrow]; [lia|].
  assert (Hlen : List.length row = S n)
    by (apply Hcols; by eapply list_elem_of_lookup_2).
  destruct (lookup_lt_is_Some_2 row (Z.to_nat b)) as [cell Hcell]; [lia|].
  destruct (decide (a = a' ∧ b = b')) as [[<- <-]|Hne].
  - rewrite list_lookup_alter_eq, Hrow. simpl.
    rewrite list_lookup_alter_eq, Hcell. done.
  - destruct (decide (Z.to_nat a = Z.to_nat a')) as [Ea|Ea].
    + rewrite <- Ea. rewrite list_lookup_alter_eq, Hrow. simpl.
      rewrite list_lookup_alter_ne; [done|]. intros Eb.
      apply Hne. split; lia.
    + by rewrite list_lookup_alter_ne.
Qed.

Lemma store_rows (c : Chart) a b l edges :
  List.length (store c a b l edges) = List.length c.
Proof. unfold store. by rewrite length_alter. Qed.

Lemma store_cols (c : Chart) a b l edges m :
  (∀ row, row ∈ c → List.length row = m) →
  ∀ row, row ∈ store c a b l edges → List.length row = m.
Proof.
  intros Hcols row Hin. unfold store in Hin.
  apply list_elem_of_lookup in Hin as [i Hi].
  destruct (decide (i = Z.to_nat a)) as [->|Hne].
  - rewrite list_lookup_alter_eq in Hi.
    destruct (c !! Z.to_nat a) as [row0|] eqn:Hr; [|done].
    simpl in Hi. injection Hi as <-. rewrite length_alter.
    apply Hcols. by eapply list_elem_of_lookup_2.
  - rewrite list_lookup_alter_ne in Hi by done.
    apply Hcols. by eapply list_elem_of_lookup_2.
Qed.

Lemma least_inside_singleton e : least_inside [e] (cinside e).
Proof.
  split.
  - exists e. split; [left|done].
  - intros e' Hin. apply list_elem_of_singleton in Hin as ->. lia.
Qed.

Lemma least_inside_snoc cell v e :
  least_inside cell v →
  least_inside (cell ++ [e]) (if cinside e <? v then cinside e else v).
Proof.
  intros [(e0 & Hin0 & He0) Hmin].
  destruct (Z.ltb_spec (cinside e) v) as [Hlt|Hge]; split.
  - exists e. split; [|done]. apply elem_of_app. right. left.
  - intros e' Hin. apply elem_of_app in Hin as [Hin|Hin].
    + specialize (Hmin e' Hin). lia.
    + apply list_elem_of_singleton in Hin as ->. lia.
  - exists e0. split; [|done]. apply elem_of_app. by left.
  - intros e' Hin. apply elem_of_app in Hin as [Hin|Hin]; [by apply Hmin|].
    apply list_elem_of_singleton in Hin as ->. lia.
Qed.

(** A state with the same chart and the same costs. *)
Lemma coupled_ext n st st' :
  chart st' = chart st → viterbi (tables st') = viterbi (tables st) →
  coupled n st → coupled n st'.
Proof.
  intros Ec Ev [H1 H2 H3 H4 H5]. unfold cost in *.
  split; unfold cost; rewrite ?Ec, ?Ev; done.
Qed.

(** A list of edges stored for a label together with its least inside
    cost. *)
Lemma store_coupled n st l a b cell v t' :
  coupled n st →
  0 ≤ a < Z.of_nat n → 0 ≤ b ≤ Z.of_nat n →
  least_inside cell v →
  viterbi t' = <[(l, a, b) := v]> (viterbi (tables st)) →
  coupled n (mkCState (store (chart st) a b l cell) t' (consulted st)).
Proof.
  intros [H1 H2 H3 H4 H5] Ha Hb Hmin Hv. split; unfold cost in *; simpl.
  - by rewrite store_rows.
  - by apply store_cols.
  - intros l' a' b'. rewrite Hv.
    destruct (decide ((l, a, b) = (l', a', b'))) as [[= <- <- <-]|Hne]; [done|].
    rewrite lookup_insert_ne by done. apply H3.
  - intros l' a' b' v'. rewrite Hv.
    destruct (decide ((l, a, b) = (l', a', b'))) as [[= <- <- <-]|Hne].
    + rewrite lookup_insert_eq. intros [= <-].
      rewrite (cell_of_store _ _ _ _ _ _ _ n) by (done || lia).
      rewrite decide_True by done. rewrite lookup_insert_eq.
      eexists. split; done.
    + rewrite lookup_insert_ne by done. intros Hc.
      destruct (H3 l' a' b') as [Ha' Hb']; [by rewrite Hc|].
      rewrite (cell_of_store _ _ _ _ _ _ _ n) by (done || lia).
      destruct (decide (a = a' ∧ b = b')) as [[<- <-]|Hab]; [|by apply H4].
      rewrite lookup_insert_ne by congruence. by apply H4.
  - intros l' a' b' cell' Ha' Hb'. rewrite Hv.
    rewrite (cell_of_store _ _ _ _ _ _ _ n) by (done || lia).
    destruct (decide ((l, a, b) = (l', a', b'))) as [[= <- <- <-]|Hne].
    + rewrite lookup_insert_eq. by eexists.
    + rewrite lookup_insert_ne by done.
      destruct (decide (a = a' ∧ b = b')) as [[<- <-]|Hab]; [|by apply H5].
      rewrite lookup_insert_ne by congruence. by apply H5.
Qed.

(** An edge appended to the list of its label, and the cost lowered to its
    inside cost if that is an improvement. *)
Lemma append_coupled n st l a b e :
  coupled n st →
  0 ≤ a < Z.of_nat n → 0 ≤ b ≤ Z.of_nat n →
  ∃ st1, append_edge st l a b e = Run.Ok st1
         ∧ tables st1 = tables st ∧ consulted st1 = consulted st
         ∧ ∀ t',
             viterbi t'
             = (if improves (cinside e) (cost st l a b)
                then <[(l, a, b) := cinside e]> (viterbi (tables st))
                else viterbi (tables st)) →
             coupled n (set_tables st1 t').
Proof.
  intros Hk Ha Hb. unfold append_edge.
  destruct (cost st l a b) as [v0|] eqn:Ho.
  - rewrite bool_decide_eq_true_2 by (by eexists).
    destruct (k_cost _ _ Hk _ _ _ _ Ho) as (cell & Hcell & Hmin).
    rewrite Hcell. cbn [Run.get mbind Run.result_bind].
    eexists. split; [done|]. split; [done|]. split; [done|].
    intros t' Hv. unfold set_tables, set_chart.
    cbn [chart tables consulted].
    eapply (store_coupled _ _ _ _ _ _
              (if cinside e <? v0 then cinside e else v0));
      [done..|by apply least_inside_snoc|].
    rewrite Hv. unfold improves.
    destruct (cinside e <? v0); [done|].
    symmetry. by apply insert_id.
  - rewrite bool_decide_eq_false_2 by (by intros [? ?]).
    cbn [Run.get mbind Run.result_bind].
    eexists. split; [done|]. split; [done|]. split; [done|].
    intros t' Hv. unfold set_tables, set_chart.
    cbn [chart tables consulted].
    eapply (store_coupled _ _ _ _ _ _ (cinside e));
      [done..|apply least_inside_singleton|].
    by rewrite Hv.
Qed.

End CfgChartFacts.

Module CfgLoopFacts.
Import Containers YieldFunction Plcfrs Cfg CarriedFacts CfgChartFacts.

(** What a run keeps: [post] of what it returns; the exceptions it may
    raise are those of [E]. *)
Definition guarded {A} (E : Run.exn → Prop) (post : A → Prop)
    (r : Run.result A) : Prop :=
  match r with
  | Run.Ok a => post a
  | Run.Raise e => E e
  | Run.OutOfFuel => True
  end.

Lemma guarded_bind {A B} E (post : A → Prop) (post' : B → Prop)
    (m : Run.result A) (f : A → Run.result B) :
  guarded E post m → (∀ a, post a → guarded E post' (f a)) →
  guarded E post' (m ≫= f).
Proof. destruct m; simpl; auto. Qed.

Lemma guarded_weaken {A} E (post post' : A → Prop) (r : Run.result A) :
  guarded E post r → (∀ a, post a → post' a) → guarded E post' r.
Proof. destruct r; simpl; auto. Qed.

(** The labels waiting in the unary agenda of a cell have a finite cost. *)
Definition waiting (left right : Z) (agenda : list (Z * CFGEdge))
    (st : CState) : Prop :=
  ∀ k e, (k, e) ∈ agenda → is_Some (cost st k left right).

(** No cost is lost. *)
Definition keeps_costs (st st' : CState) : Prop :=
  ∀ l a b, is_Some (cost st l a b) → is_Some (cost st' l a b).

Section loops.
Variable g : Grammar.
Variable tags : option (list string).
Variable n : nat.
Variable E : Run.exn → Prop.

Hypothesis H_tags : ∀ i,
  (i < n)%nat → no_tags tags = false → guarded E (λ _, True) (tag_at tags i).

Lemma tag_allows_guarded i l :
  (i < n)%nat → guarded E (λ _, True) (tag_allows g tags i l).
Proof.
  intros Hi. unfold tag_allows.
  destruct (no_tags tags) eqn:Hno; [done|].
  eapply guarded_bind; [by apply H_tags|]. done.
Qed.

Lemma tag_terminals_coupled i terminals st r :
  (i < n)%nat → coupled n st →
  guarded E (λ p, coupled n p.1)
    (tag_terminals g tags i (Z.of_nat i) (Z.of_nat i + 1) terminals st r).
Proof.
  intros Hi. revert st r.
  induction terminals as [|t ts IH]; intros st r Hk; simpl; [done|].
  eapply guarded_bind; [by apply tag_allows_guarded|].
  intros [|] _; [|by apply IH].
  apply IH. unfold set_tables, set_chart. cbn [chart tables consulted].
  eapply (store_coupled _ _ _ _ _ _ (lex_prob t)); [done|lia|lia| |done].
  apply (least_inside_singleton (new_CFGEdge (lex_prob t) None _)).
Qed.

Lemma keeps_costs_refl st : keeps_costs st st.
Proof. by intros l a b. Qed.

Lemma keeps_costs_trans st1 st2 st3 :
  keeps_costs st1 st2 → keeps_costs st2 st3 → keeps_costs st1 st3.
Proof. intros H1 H2 l a b H. by apply H2, H1. Qed.

Lemma unary_rules_coupled left right rhs1 idxs st agenda :
  0 ≤ left < Z.of_nat n → 0 ≤ right ≤ Z.of_nat n →
  coupled n st → waiting left right agenda st →
  is_Some (cost st rhs1 left right) →
  guarded E (λ p, coupled n p.1 ∧ waiting left right p.2 p.1
                  ∧ keeps_costs st p.1)
    (unary_rules g left right rhs1 idxs st agenda).
Proof.
  intros Hl Hr. revert st agenda.
  induction idxs as [|i idxs IH]; intros st agenda Hk Hw Hc; simpl.
  { split_and!; [done|done|apply keeps_costs_refl]. }
  destruct (negb _); [split_and!; [done|done|apply keeps_costs_refl]|].
  destruct Hc as [v Hv]. rewrite Hv. cbn [Run.get mbind Run.result_bind].
  set (rule := unary g rhs1 i).
  set (edge := new_CFGEdge (prob rule + v) (Some rule) right).
  destruct (append_coupled n st (lhs rule) left right edge Hk Hl Hr)
    as (st1 & -> & Et & Ec & Hnew).
  cbn [mbind Run.result_bind].
  assert (Hcost1 : ∀ l a b, cost st1 l a b = cost st l a b)
    by (intros; unfold cost; by rewrite Et).
  rewrite Hcost1. change (prob rule + v) with (cinside edge).
  destruct (improves (cinside edge) (cost st (lhs rule) left right)) eqn:Himp.
  - set (st2 := set_tables st1 _).
    assert (Hk2 : coupled n st2).
    { apply Hnew. simpl. by rewrite Et. }
    assert (Hkeep : keeps_costs st st2).
    { intros l a b Hs. subst st2. unfold cost. simpl. rewrite Et.
      destruct (decide ((lhs rule, left, right) = (l, a, b))) as [<-|Hne].
      - rewrite lookup_insert_eq. by eexists.
      - by rewrite lookup_insert_ne. }
    eapply guarded_weaken.
    + apply IH; [done| |apply Hkeep; by rewrite Hv].
      intros k e Hin. apply AgendaFacts.elem_of_setifbetter in Hin as [[-> _]|Hin].
      * subst st2. unfold cost. simpl. rewrite lookup_insert_eq. by eexists.
      * apply Hkeep. by eapply Hw.
    + intros p (? & ? & H3). split_and!; [done|done|].
      by eapply keeps_costs_trans.
  - assert (Hk1 : coupled n st1).
    { eapply coupled_ext; [| |apply (Hnew (tables st1))]; [done|done|].
      by rewrite Et. }
    assert (Hkeep : keeps_costs st st1)
      by (intros l a b; by rewrite Hcost1).
    eapply guarded_weaken.
    + apply IH; [done| |apply Hkeep; by rewrite Hv].
      intros k e Hin. apply Hkeep. by eapply Hw.
    + intros p (? & ? & H3). split_and!; [done|done|].
      by eapply keeps_costs_trans.
Qed.

Lemma unary_closure_coupled fuel left right agenda st :
  0 ≤ left < Z.of_nat n → 0 ≤ right ≤ Z.of_nat n →
  coupled n st → waiting left right agenda st →
  guarded E (λ st', coupled n st' ∧ keeps_costs st st')
          (unary_closure g fuel left right agenda st).
Proof.
  intros Hl Hr. revert agenda st.
  induction fuel as [|fuel IH]; intros agenda st Hk Hw; simpl; [done|].
  destruct (Agenda.popentry _ _) as [[[k e] agenda']|] eqn:Hpop;
    [|split; [done|apply keeps_costs_refl]].
  apply AgendaFacts.popentry_elem in Hpop as [Hin Hsub].
  eapply guarded_bind.
  - apply unary_rules_coupled; [done|done|done| |by eapply Hw].
    intros k' e' Hin'. eapply Hw. by apply Hsub.
  - intros [st1 agenda1] (Hk1 & Hw1 & Hkeep). simpl in *.
    eapply guarded_weaken; [by apply IH|].
    intros st2 [? ?]. split; [done|]. by eapply keeps_costs_trans.
Qed.

Lemma update_waiting left right st seeds :
  (∀ k e, (k, e) ∈ seeds → is_Some (cost st k left right)) →
  waiting left right (Agenda.update [] seeds) st.
Proof.
  intros Hseeds. unfold Agenda.update.
  assert (Hgen : ∀ acc, waiting left right acc st →
            waiting left right
              (foldl (λ acc e, Agenda.setitem acc e.1 e.2) acc seeds) st).
  { induction seeds as [|[k e] seeds IH]; intros acc Hacc; simpl; [done|].
    apply IH.
    - intros k' e' Hin. apply (Hseeds k' e'). by right.
    - intros k' e' Hin. apply AgendaFacts.elem_of_setitem in Hin as [[-> ->]|Hin].
      + apply (Hseeds k e). left.
      + by eapply Hacc. }
  apply Hgen. intros k e Hin. inversion Hin.
Qed.

Lemma unaries_coupled fuel left right st :
  0 ≤ left < Z.of_nat n → 0 ≤ right ≤ Z.of_nat n →
  coupled n st →
  guarded E (λ st', coupled n st' ∧ keeps_costs st st')
          (unaries g fuel left right st).
Proof.
  intros Hl Hr Hk. unfold unaries.
  apply unary_closure_coupled; [done..|].
  apply update_waiting. intros k e Hin. unfold unary_seed in Hin.
  apply list_elem_of_In, in_flat_map in Hin as (rhs1 & _ & Hin).
  apply list_elem_of_In in Hin.
  destruct (cost st rhs1 left right) as [v|] eqn:Hc; [|inversion Hin].
  destruct (_ =? _); [|inversion Hin].
  apply list_elem_of_singleton in Hin as [= -> _]. by rewrite Hc.
Qed.

Lemma tag_position_coupled fuel i w st :
  (i < n)%nat → coupled n st →
  guarded E (λ r, coupled n (match r with Tagged s | Uncovered s => s end))
          (tag_position g tags fuel i w st).
Proof.
  intros Hi Hk. unfold tag_position.
  eapply guarded_bind; [by apply tag_terminals_coupled|].
  intros [st1 rec] Hk1. simpl in Hk1.
  eapply (guarded_bind E
            (λ r : option CState,
               match r with Some s => coupled n s | None => True end)).
  - destruct (negb rec && negb (no_tags tags)) eqn:Hb.
    + apply andb_true_iff in Hb as [_ Hno]. apply negb_true_iff in Hno.
      eapply guarded_bind; [by apply H_tags|]. intros t _.
      destruct (toid g !! t) as [l|]; simpl; [|done].
      unfold set_tables, set_chart. simpl.
      eapply (store_coupled _ _ _ _ _ _ 0); [done|lia|lia| |done].
      apply (least_inside_singleton (new_CFGEdge 0 None _)).
    + by destruct (negb rec).
  - intros [s|] Hs; [|done].
    eapply guarded_bind; [apply unaries_coupled; [lia|lia|done]|].
    by intros s' [? _].
Qed.

Lemma tag_positions_coupled fuel i ws st :
  (i + List.length ws ≤ n)%nat → coupled n st →
  guarded E (λ r, coupled n (match r with Tagged s | Uncovered s => s end))
          (tag_positions g tags fuel i ws st).
Proof.
  revert i st. induction ws as [|w ws IH]; intros i st Hlen Hk; simpl; [done|].
  simpl in Hlen.
  eapply guarded_bind; [apply tag_position_coupled; [lia|done]|].
  intros [s|s] Hs; [|done]. apply IH; [lia|done].
Qed.

Lemma mid_loop_coupled rule left right mids st fb :
  0 ≤ left < Z.of_nat n → 0 ≤ right ≤ Z.of_nat n →
  coupled n st →
  guarded E (λ p, coupled n p.1) (mid_loop rule left right mids st fb).
Proof.
  intros Hl Hr. revert st fb.
  induction mids as [|mid mids IH]; intros st fb Hk; simpl; [done|].
  destruct (cost st (rhs1 rule) left mid) as [v1|]; [|by apply IH].
  destruct (cost st (rhs2 rule) mid right) as [v2|]; [|by apply IH].
  set (edge := new_CFGEdge (prob rule + v1 + v2) (Some rule) mid).
  destruct (append_coupled n st (lhs rule) left right edge Hk Hl Hr)
    as (st1 & -> & Et & Ec & Hnew).
  cbn [mbind Run.result_bind].
  assert (Hcost1 : ∀ l a b, cost st1 l a b = cost st l a b)
    by (intros; unfold cost; by rewrite Et).
  rewrite Hcost1. change (prob rule + v1 + v2) with (cinside edge).
  destruct (improves (cinside edge) (cost st (lhs rule) left right)) eqn:Himp.
  - apply IH. apply Hnew. simpl. by rewrite Et.
  - apply IH. eapply coupled_ext; [| |apply (Hnew (tables st1))]; [done|done|].
    by rewrite Et.
Qed.

Lemma binary_rule_coupled rule left right st :
  0 ≤ left < Z.of_nat n → 0 ≤ right ≤ Z.of_nat n →
  coupled n st →
  guarded E (coupled n) (binary_rule rule left right st).
Proof.
  intros Hl Hr Hk. unfold binary_rule.
  assert (Hobs : coupled n (observe st rule left right))
    by (by eapply coupled_ext; [| |exact Hk]).
  set (so := observe st rule left right) in *.
  destruct (_ >=? _); [done|]. destruct (_ <? _); [done|].
  eapply guarded_bind; [by apply mid_loop_coupled|].
  intros [st2 fb] Hk2. simpl in Hk2.
  destruct (_ && _); simpl; [|done].
  by eapply coupled_ext; [| |exact Hk2].
Qed.

Lemma binary_rules_coupled left right idxs st :
  0 ≤ left < Z.of_nat n → 0 ≤ right ≤ Z.of_nat n →
  coupled n st →
  guarded E (coupled n) (binary_rules g left right idxs st).
Proof.
  intros Hl Hr. revert st.
  induction idxs as [|i idxs IH]; intros st Hk; simpl; [done|].
  destruct (_ =? _); [done|]. destruct (_ =? _); [by apply IH|].
  eapply guarded_bind; [by apply binary_rule_coupled|]. intros st1 Hk1.
  by apply IH.
Qed.

Lemma fill_cell_coupled fuel left right st :
  0 ≤ left < Z.of_nat n → 0 ≤ right ≤ Z.of_nat n →
  coupled n st →
  guarded E (coupled n) (fill_cell g fuel left right st).
Proof.
  intros Hl Hr Hk. unfold fill_cell.
  eapply guarded_bind; [by apply binary_rules_coupled|]. intros st1 Hk1.
  eapply guarded_weaken; [by apply unaries_coupled|]. by intros st2 [? _].
Qed.

Lemma fill_cells_coupled fuel span lefts st :
  0 < span →
  Forall (λ left, 0 ≤ left ∧ left + span ≤ Z.of_nat n) lefts →
  coupled n st →
  guarded E (coupled n) (fill_cells g fuel span lefts st).
Proof.
  intros Hspan Hlefts. revert st.
  induction Hlefts as [|left lefts Hleft _ IH]; intros st Hk; simpl; [done|].
  eapply guarded_bind; [apply fill_cell_coupled; [lia|lia|done]|].
  intros st1 Hk1. by apply IH.
Qed.

Lemma fill_spans_coupled fuel spans st :
  Forall (λ span, 0 < span) spans →
  coupled n st →
  guarded E (coupled n) (fill_spans g fuel (Z.of_nat n) spans st).
Proof.
  intros Hspans. revert st.
  induction Hspans as [|span spans Hspan _ IH]; intros st Hk; simpl; [done|].
  eapply guarded_bind.
  - apply fill_cells_coupled; [done| |done].
    apply Forall_forall. intros left Hin.
    apply CfgFacts.elem_of_zrange in Hin. lia.
  - intros st1 Hk1. by apply IH.
Qed.

End loops.

Lemma initial_coupled n :
  coupled n (mkCState (empty_chart n) (empty_tables (Z.of_nat n)) []).
Proof.
  split; unfold cost; simpl.
  - unfold empty_chart. by rewrite length_replicate.
  - intros row Hin. unfold empty_chart in Hin.
    apply elem_of_replicate in Hin as [-> _]. by rewrite length_replicate.
  - intros l a b [? H]. by rewrite lookup_empty in H.
  - intros l a b v H. by rewrite lookup_empty in H.
  - intros l a b cell Ha Hb. unfold cell_of, empty_chart.
    destruct (replicate n _ !! Z.to_nat a) as [row|] eqn:Hrow; simpl;
      [|by rewrite lookup_empty].
    apply lookup_replicate in Hrow as [-> _].
    destruct (replicate (S n) _ !! Z.to_nat b) as [c|] eqn:Hc; simpl;
      [|by rewrite lookup_empty].
    apply lookup_replicate in Hc as [-> _]. by rewrite lookup_empty.
Qed.

(** What [cfgparse] keeps, and what it may raise. *)
Lemma cfgparse_guarded fuel sent g start tags (E : Run.exn → Prop) :
  (toid g !! "Epsilon" = None → E Run.KeyError) →
  (sent = [] → E Run.IndexError) →
  (∀ i, (i < List.length sent)%nat → no_tags tags = false →
        guarded E (λ _, True) (tag_at tags i)) →
  guarded E
    (λ p, coupled (List.length sent) p.1
          ∧ (p.2 = CFGNONE
             ∨ (p.2 = new_CFGChartItem start 0 (Z.of_nat (List.length sent))
                ∧ is_Some (cost p.1 start 0 (Z.of_nat (List.length sent))))))
    (cfgparse fuel sent g start tags).
Proof.
  intros Heps Hempty Htags. unfold cfgparse.
  destruct (toid g !! "Epsilon") as [eps|];
    cbn [Run.get mbind Run.result_bind]; [|by apply Heps].
  set (n := List.length sent).
  eapply guarded_bind.
  - apply (tag_positions_coupled g tags n E Htags); [lia|apply initial_coupled].
  - intros [st|st] Hk; cbn [mbind Run.result_bind]; [|split; [done|by left]].
    eapply guarded_bind.
    + apply (fill_spans_coupled g n E); [|done].
      apply Forall_forall. intros span Hin. unfold zrange_from in Hin.
      apply list_elem_of_fmap in Hin as (k & -> & Hk').
      apply CfgFacts.elem_of_zrange in Hk'. lia.
    + intros st1 Hk1.
      destruct (chart st1 !! 0%nat) as [row|] eqn:Hrow;
        cbn [Run.get mbind Run.result_bind].
      2:{ apply Hempty. apply lookup_ge_None in Hrow.
          rewrite (k_rows _ _ Hk1) in Hrow. subst n.
          destruct sent; [done|simpl in Hrow; lia]. }
      destruct (row !! n) as [cell|] eqn:Hcell;
        cbn [Run.get mbind Run.result_bind].
      2:{ apply lookup_ge_None in Hcell.
          rewrite (k_cols _ _ Hk1 row) in Hcell
            by (by eapply list_elem_of_lookup_2). lia. }
      destruct (bool_decide _) eqn:Hin; simpl; (split; [done|]); [|by left].
      right. split; [done|]. apply bool_decide_eq_true in Hin as [edges Hin].
      apply (k_cell _ _ Hk1 _ _ _ edges); [lia|lia|].
      unfold cell_of. change (Z.to_nat 0) with 0%nat. rewrite Hrow. simpl.
      replace (Z.to_nat (Z.of_nat n)) with n by lia. by rewrite Hcell.
Qed.

End CfgLoopFacts.

(** ** [cfgparse]: what it returns and what it raises *)

Module CfgParseFacts.
Import Containers YieldFunction Plcfrs Cfg CarriedFacts CfgChartFacts CfgLoopFacts.

(** In the state [cfgparse] ends in, the chart and the Viterbi costs agree:
    a label has a finite cost over a span exactly when the cell of the span
    lists edges for it, and the cost is the least inside cost among them.
    A goal other than [CFGNONE] is the start symbol over the whole
    sentence, with a finite cost. *)
Theorem cfgparse_cost_is_least_inside fuel sent g start tags st goal :
  cfgparse fuel sent g start tags = Run.Ok (st, goal) →
  (∀ l a b, 0 ≤ a → 0 ≤ b →
     match cost st l a b with
     | Some v => ∃ cell, cell_of (chart st) a b !! l = Some cell
                         ∧ least_inside cell v
     | None => cell_of (chart st) a b !! l = None
     end)
  ∧ (goal = CFGNONE
     ∨ (goal = new_CFGChartItem start 0 (Z.of_nat (List.length sent))
        ∧ is_Some (cost st start 0 (Z.of_nat (List.length sent))))).
Proof.
  intros Hrun.
  pose proof (cfgparse_guarded fuel sent g start tags (λ _, True)) as Hg.
  rewrite Hrun in Hg. simpl in Hg.
  destruct Hg as [Hk Hgoal]; [done|done|by intros; destruct (tag_at _ _)|].
  split; [|done]. intros l a b Ha Hb.
  destruct (cost st l a b) as [v|] eqn:Hc; [by apply (k_cost _ _ Hk)|].
  destruct (cell_of (chart st) a b !! l) as [cell|] eqn:Hcell; [|done].
  apply (k_cell _ _ Hk) in Hcell; [|done..]. rewrite Hc in Hcell.
  by destruct Hcell.
Qed.

Lemma aaa_run : Runs.aaa_cfgparse = Run.Ok (Runs.aaa_state, Runs.aaa_goal).
Proof. vm_compute. reflexivity. Qed.

Lemma cfgparse_cost_witness :
  Runs.aaa_cfgparse = Run.Ok (Runs.aaa_state, Runs.aaa_goal)
  ∧ (∀ l a b, 0 ≤ a → 0 ≤ b →
       match cost Runs.aaa_state l a b with
       | Some v => ∃ cell, cell_of (chart Runs.aaa_state) a b !! l = Some cell
                           ∧ least_inside cell v
       | None => cell_of (chart Runs.aaa_state) a b !! l = None
       end)
  ∧ (Runs.aaa_goal = CFGNONE
     ∨ (Runs.aaa_goal
        = new_CFGChartItem Driver.nt_X 0
            (Z.of_nat (List.length Driver.three_words))
        ∧ is_Some (cost Runs.aaa_state Driver.nt_X 0
                     (Z.of_nat (List.length Driver.three_words))))).
Proof.
  split; [exact aaa_run|].
  exact (cfgparse_cost_is_least_inside 10 Driver.three_words Driver.doubling
           Driver.nt_X None _ _ aaa_run).
Defined.



(** The empty sentence: the chart has no row, and the test for the goal in
    [chart[0][lensent]] raises [IndexError]. *)
Theorem cfgparse_empty_sentence fuel g start tags :
  is_Some (toid g !! "Epsilon") →
  cfgparse fuel [] g start tags = Run.Raise Run.IndexError.
Proof. intros [eps Heps]. unfold cfgparse. by rewrite Heps. Qed.

Lemma cfgparse_empty_sentence_witness :
  is_Some (toid Driver.doubling !! "Epsilon")
  ∧ cfgparse 10 [] Driver.doubling Driver.nt_X None
    = Run.Raise Run.IndexError.
Proof.
  split; [by eexists|].
  apply (cfgparse_empty_sentence 10 Driver.doubling Driver.nt_X None).
  by eexists.
Defined.

(** The split points that the loop over [mid] visits for a rule and a
    cell, given the filters: none if one of the two tests on the filters
    skips the rule. *)
Definition tried (t : Tables) (rule : Rule) (left right : Z) : list Z :=
  let narrowr := mget (minsplitright t) (rhs1 rule) left in
  if narrowr >=? right then []
  else
    let narrowl := mget (minsplitleft t) (rhs2 rule) right in
    if narrowl <? narrowr then []
    else
      let widel := mget (maxsplitleft t) (rhs2 rule) right in
      let minmid := if narrowr >? widel then narrowr else widel in
      let wider := mget (maxsplitright t) (rhs1 rule) left in
      let maxmid := 1 + (if wider <? narrowl then wider else narrowl) in
      zrange_from minmid maxmid.

Lemma binary_rule_tried rule left right st :
  binary_rule rule left right st
  = let so := observe st rule left right in
    '(st', foundbetter) ← mid_loop rule left right
                            (tried (tables so) rule left right) so false;
    if foundbetter && negb (bool_decide (is_Some (cost so (lhs rule) left right)))
    then Run.Ok (set_tables st'
                   (update_filter (tables st') (lhs rule) left right))
    else Run.Ok st'.
Proof.
  unfold binary_rule, tried. cbn zeta.
  destruct (_ >=? _); [done|]. by destruct (_ <? _).
Qed.

Lemma elem_of_zrange_from lo hi k : lo ≤ k < hi → k ∈ zrange_from lo hi.
Proof.
  intros Hk. unfold zrange_from, zrange, zrange_nat.
  apply list_elem_of_fmap. exists (k - lo). split; [lia|].
  apply list_elem_of_fmap. exists (Z.to_nat (k - lo)). split; [lia|].
  apply elem_of_seq. lia.
Qed.

Lemma exact_filter_admits n t rule left right mid :
  CfgFacts.filters_exact n t →
  CfgFacts.derived t (rhs1 rule) left mid →
  CfgFacts.derived t (rhs2 rule) mid right →
  mid ∈ tried t rule left right.
Proof.
  intros [Hbound Hex] H1 H2.
  pose proof (Hbound _ _ _ H1) as B1. pose proof (Hbound _ _ _ H2) as B2.
  destruct (Hex (rhs1 rule) left) as (_ & _ & Hminr & Hmaxr).
  destruct (Hex (rhs2 rule) right) as (Hminl & Hmaxl & _ & _).
  unfold tried.
  set (narrowr := mget (minsplitright t) (rhs1 rule) left) in *.
  set (narrowl := mget (minsplitleft t) (rhs2 rule) right) in *.
  set (widel := mget (maxsplitleft t) (rhs2 rule) right) in *.
  set (wider := mget (maxsplitright t) (rhs1 rule) left) in *.
  assert (Hnr : narrowr ≤ mid).
  { destruct Hminr as [[_ Hn]|[_ Hl]]; [by destruct (Hn mid)|by apply Hl]. }
  assert (Hnl : mid ≤ narrowl).
  { destruct Hminl as [[_ Hn]|[_ Hl]]; [by destruct (Hn mid)|by apply Hl]. }
  assert (Hwl : widel ≤ mid).
  { destruct Hmaxl as [[_ Hn]|[_ Hl]]; [by destruct (Hn mid)|by apply Hl]. }
  assert (Hwr : mid ≤ wider).
  { destruct Hmaxr as [[_ Hn]|[_ Hl]]; [by destruct (Hn mid)|by apply Hl]. }
  destruct (Z.geb_spec narrowr right); [lia|].
  destruct (Z.ltb_spec narrowl narrowr); [lia|].
  apply elem_of_zrange_from.
  destruct (Z.gtb_spec narrowr widel), (Z.ltb_spec wider narrowl); lia.
Qed.

(** The split filter loses nothing.  The loop over [mid] visits the split
    points of [tried]; and each time the binary loop reads the filters for
    a rule and a cell, every split point at which both children have a
    finite Viterbi cost is among them. *)
Theorem cfgparse_filter_is_lossless fuel sent g start tags st goal :
  cfgparse fuel sent g start tags = Run.Ok (st, goal) →
  (∀ rule left right s,
     binary_rule rule left right s
     = let so := observe s rule left right in
       '(s', foundbetter) ← mid_loop rule left right
                              (tried (tables so) rule left right) so false;
       if foundbetter
          && negb (bool_decide (is_Some (cost so (lhs rule) left right)))
       then Run.Ok (set_tables s'
                      (update_filter (tables s') (lhs rule) left right))
       else Run.Ok s')
  ∧ ∀ rule left right t mid,
      (rule, left, right, t) ∈ consulted st →
      is_Some (viterbi t !! (rhs1 rule, left, mid)) →
      is_Some (viterbi t !! (rhs2 rule, mid, right)) →
      mid ∈ tried t rule left right.
Proof.
  intros Hrun. split; [apply binary_rule_tried|].
  assert (Hex : CfgFacts.exact_state (Z.of_nat (List.length sent)) st).
  { revert Hrun. unfold cfgparse. set (n := Z.of_nat (List.length sent)).
    assert (H0 : CfgFacts.exact_state n
                   (mkCState (empty_chart (List.length sent))
                             (empty_tables n) [])).
    { split; [apply CfgFacts.empty_tables_exact|constructor]. }
    destruct (toid g !! "Epsilon") as [eps|]; simpl; [|done].
    destruct (tag_positions _ _ _ _ _ _) as [r|?|] eqn:Htag; simpl; [|done..].
    apply (CfgFacts.tag_positions_exact g tags n) in Htag; [|lia|done].
    destruct r as [s|s]; [|by intros [= <- _]].
    destruct (fill_spans _ _ _ _ _) as [s1|?|] eqn:Hfill; simpl; [|done..].
    apply (CfgFacts.fill_spans_exact g n) in Hfill; [|..|done].
    - destruct (chart s1 !! 0%nat) as [row|]; simpl; [|done].
      destruct (row !! _) as [cell|]; simpl; [|done].
      by destruct (bool_decide _); intros [= <- _].
    - apply Forall_forall. intros span Hin. unfold zrange_from in Hin.
      apply list_elem_of_fmap in Hin as (k & -> & Hk).
      apply CfgFacts.elem_of_zrange in Hk. lia. }
  intros rule left right t mid Hin H1 H2.
  destruct Hex as [_ Hcons]. rewrite Forall_forall in Hcons.
  specialize (Hcons _ Hin). simpl in Hcons.
  by eapply exact_filter_admits.
Qed.

Lemma cfgparse_filter_witness :
  Runs.aaa_cfgparse = Run.Ok (Runs.aaa_state, Runs.aaa_goal)
  ∧ (∀ rule left right s,
       binary_rule rule left right s
       = let so := observe s rule left right in
         '(s', foundbetter) ← mid_loop rule left right
                                (tried (tables so) rule left right) so false;
         if foundbetter
            && negb (bool_decide (is_Some (cost so (lhs rule) left right)))
         then Run.Ok (set_tables s'
                        (update_filter (tables s') (lhs rule) left right))
         else Run.Ok s')
  ∧ ∀ rule left right t mid,
      (rule, left, right, t) ∈ consulted Runs.aaa_state →
      is_Some (viterbi t !! (rhs1 rule, left, mid)) →
      is_Some (viterbi t !! (rhs2 rule, mid, right)) →
      mid ∈ tried t rule left right.
Proof.
  split; [exact aaa_run|].
  exact (cfgparse_filter_is_lossless 10 Driver.three_words Driver.doubling
           Driver.nt_X None _ _ aaa_run).
Defined.

End CfgParseFacts.

(** ** [cfgparse]: the rules behind the edges of the chart *)

Module CfgEdgeFacts.
Import Containers YieldFunction Plcfrs Cfg CarriedFacts CfgChartFacts
       CfgLoopFacts CfgParseFacts.

(** The edge [e] in the cell of the label [l] over the span [(a, b)]: the
    edge of a word spans one position; the edge of a unary rule has its
    split point at the right end, and its inside cost is at least the cost
    of the rule plus the Viterbi cost of its child over the same span; the
    edge of a binary rule has its split point inside the span, and its
    inside cost is the cost of the rule plus the Viterbi costs of the two
    children over the two parts.  The left-hand side of the rule is [l]. *)
Definition cfg_edge_ok (g : Grammar) (st : CState) (l a b : Z) (e : CFGEdge)
  : Prop :=
  match crule e with
  | None => cmid e = b ∧ b = a + 1
  | Some r =>
      lhs r = l
      ∧ ((cmid e = b ∧ (∃ i, r = unary g (rhs1 r) i)
          ∧ ∃ v, cost st (rhs1 r) a b = Some v ∧ prob r + v ≤ cinside e)
         ∨ (a < cmid e < b ∧ (∃ i, r = bylhs g i) ∧ rhs2 r ≠ 0
            ∧ ∃ v1 v2, cost st (rhs1 r) a (cmid e) = Some v1
                       ∧ cost st (rhs2 r) (cmid e) b = Some v2
                       ∧ cinside e = prob r + v1 + v2))
  end.

(** The chart and the costs agree, the finite costs are those of spans of
    one up to [s] positions, and every edge of the chart is as above. *)
Record grounded (g : Grammar) (n : nat) (s : Z) (st : CState) : Prop :=
  mkGrounded {
  g_coupled : coupled n st;
  g_span : ∀ l a b, is_Some (cost st l a b) → a < b ∧ b - a ≤ s;
  g_edges : ∀ l a b cell e, 0 ≤ a → 0 ≤ b →
              cell_of (chart st) a b !! l = Some cell → e ∈ cell →
              cfg_edge_ok g st l a b e
}.

(** What the work on the cell [(left, right)] does to the costs: those of
    the other cells stay, those of the cell are lowered. *)
Definition only_at (left right : Z) (st st' : CState) : Prop :=
  ∀ l a b, (a, b) ≠ (left, right) → cost st' l a b = cost st l a b.

Definition lowers (left right : Z) (st st' : CState) : Prop :=
  ∀ l v, cost st l left right = Some v →
         ∃ v', cost st' l left right = Some v' ∧ v' ≤ v.

Definition touches (left right : Z) (st st' : CState) : Prop :=
  only_at left right st st' ∧ lowers left right st st'.

Lemma touches_same left right st st' :
  (∀ l a b, cost st' l a b = cost st l a b) → touches left right st st'.
Proof.
  intros Hc. split.
  - intros l a b _. apply Hc.
  - intros l v Hv. exists v. by rewrite Hc.
Qed.

Lemma touches_trans left right st1 st2 st3 :
  touches left right st1 st2 → touches left right st2 st3 →
  touches left right st1 st3.
Proof.
  intros [Ho1 Hl1] [Ho2 Hl2]. split.
  - intros l a b Hne. by rewrite Ho2, Ho1.
  - intros l v Hv. destruct (Hl1 l v Hv) as (v' & Hv' & Hle).
    destruct (Hl2 l v' Hv') as (v'' & Hv'' & Hle'). exists v''.
    split; [done|lia].
Qed.

Lemma touches_keeps left right st st' :
  touches left right st st' → keeps_costs st st'.
Proof.
  intros [Ho Hl] l a b [v Hv].
  destruct (decide ((a, b) = (left, right))) as [[= -> ->]|Hne].
  - destruct (Hl l v Hv) as (v' & Hv' & _). by rewrite Hv'.
  - by rewrite Ho, Hv.
Qed.

(** A cost set for the cell, lower than the one it had. *)
Lemma touches_set_cost left right st st' l p :
  viterbi (tables st') = <[(l, left, right) := p]> (viterbi (tables st)) →
  (∀ v, cost st l left right = Some v → p ≤ v) →
  touches left right st st'.
Proof.
  intros Hv Hp. split.
  - intros l' a b Hne. unfold cost. rewrite Hv.
    apply lookup_insert_ne. congruence.
  - intros l' v Hc. unfold cost. rewrite Hv.
    destruct (decide (l' = l)) as [->|Hne].
    + rewrite lookup_insert_eq. exists p. split; [done|]. by apply Hp.
    + rewrite lookup_insert_ne by congruence. exists v. split; [done|lia].
Qed.

Lemma improves_le p old v : improves p old = true → old = Some v → p ≤ v.
Proof. intros Hi ->. simpl in Hi. apply Z.ltb_lt in Hi. lia. Qed.

(** An edge stays as it is when the costs of a cell change whose span is
    not shorter than the span of the edge: the costs of the children of a
    binary edge are those of shorter spans. *)
Lemma cfg_edge_ok_frame g st st' left right l a b e :
  cfg_edge_ok g st l a b e → b - a ≤ right - left →
  only_at left right st st' →
  ((a, b) = (left, right) → lowers left right st st') →
  cfg_edge_ok g st' l a b e.
Proof.
  intros Hok Hspan Ho Hl. unfold cfg_edge_ok in *.
  destruct (crule e) as [r|]; [|done].
  destruct Hok as [Hlhs [(Hm & Hi & v & Hv & Hle)
                        |(Hm & Hi & H2 & v1 & v2 & Hv1 & Hv2 & Hc)]];
    (split; [done|]).
  - left. split_and!; [done|done|].
    destruct (decide ((a, b) = (left, right))) as [Heq|Hne].
    + injection Heq as -> ->.
      destruct (Hl eq_refl _ _ Hv) as (v' & Hv' & Hle').
      exists v'. split; [done|lia].
    + exists v. by rewrite Ho.
  - right. split_and!; [lia|lia|done|done|].
    exists v1, v2. rewrite !Ho; [done| |].
    + intros [= E1 E2]. lia.
    + intros [= E1 E2]. lia.
Qed.

Lemma cfg_edge_ok_touch g st st' left right l a b e :
  cfg_edge_ok g st l a b e → b - a ≤ right - left →
  touches left right st st' → cfg_edge_ok g st' l a b e.
Proof. intros Hok Hspan [Ho Hl]. by eapply cfg_edge_ok_frame. Qed.

Lemma grounded_ext g n s st st' :
  chart st' = chart st → viterbi (tables st') = viterbi (tables st) →
  grounded g n s st → grounded g n s st'.
Proof.
  intros Ec Ev [Hk Hs He].
  assert (Hcost : ∀ l a b, cost st' l a b = cost st l a b)
    by (intros; unfold cost; by rewrite Ev).
  split.
  - by eapply coupled_ext.
  - intros l a b. rewrite Hcost. apply Hs.
  - intros l a b cell e Ha Hb. rewrite Ec. intros Hc Hin.
    assert (Hsp : b - a ≤ b - a) by lia.
    eapply cfg_edge_ok_touch; [by eapply He|exact Hsp|].
    by apply touches_same.
Qed.

Lemma grounded_weaken g n s s' st :
  s ≤ s' → grounded g n s st → grounded g n s' st.
Proof.
  intros Hle [Hk Hs He]. split; [done| |done].
  intros l a b Hc. destruct (Hs l a b Hc). lia.
Qed.

(** A list of edges stored for a label together with its least inside
    cost, in a cell of the longest span there is so far. *)
Lemma store_grounded g n st l a b cell v t' :
  grounded g n (b - a) st →
  0 ≤ a < Z.of_nat n → 0 ≤ b ≤ Z.of_nat n → a < b →
  least_inside cell v →
  viterbi t' = <[(l, a, b) := v]> (viterbi (tables st)) →
  (∀ v0, cost st l a b = Some v0 → v ≤ v0) →
  (∀ e, e ∈ cell →
        cfg_edge_ok g (mkCState (store (chart st) a b l cell) t'
                                (consulted st)) l a b e) →
  grounded g n (b - a)
           (mkCState (store (chart st) a b l cell) t' (consulted st)).
Proof.
  intros [Hk Hs He] Ha Hb Hab Hmin Hv Hlow Hcell.
  set (st' := mkCState (store (chart st) a b l cell) t' (consulted st)) in *.
  assert (Ht : touches a b st st') by (by eapply touches_set_cost).
  assert (Hold : ∀ l' a' b' cell' e, 0 ≤ a' → 0 ≤ b' →
            cell_of (chart st) a' b' !! l' = Some cell' → e ∈ cell' →
            cfg_edge_ok g st' l' a' b' e).
  { intros l' a' b' cell' e Ha' Hb' Hc Hin.
    eapply (cfg_edge_ok_touch _ st st' a b); [by eapply He| |done].
    by apply (Hs l'), (k_cell _ _ Hk _ _ _ cell'). }
  split.
  - by eapply store_coupled.
  - intros l' a' b'. unfold cost. simpl. rewrite Hv.
    destruct (decide ((l, a, b) = (l', a', b'))) as [[= <- <- <-]|Hne];
      [intros _; lia|].
    rewrite lookup_insert_ne by done. apply Hs.
  - intros l' a' b' cell' e Ha' Hb'. simpl.
    rewrite (cell_of_store _ _ _ _ _ _ _ n)
      by (done || lia || apply (k_rows _ _ Hk) || apply (k_cols _ _ Hk)).
    destruct (decide (a = a' ∧ b = b')) as [[<- <-]|Hab'].
    + destruct (decide (l' = l)) as [->|Hne].
      * rewrite lookup_insert_eq. intros [= <-]. apply Hcell.
      * rewrite lookup_insert_ne by done. by apply Hold.
    + by apply Hold.
Qed.

(** An edge appended to the list of its label, and the cost lowered to its
    inside cost if that is an improvement. *)
Lemma append_grounded g n st l a b e :
  grounded g n (b - a) st →
  0 ≤ a < Z.of_nat n → 0 ≤ b ≤ Z.of_nat n → a < b →
  cfg_edge_ok g st l a b e →
  ∃ st1, append_edge st l a b e = Run.Ok st1
         ∧ tables st1 = tables st ∧ consulted st1 = consulted st
         ∧ ∀ t',
             viterbi t'
             = (if improves (cinside e) (cost st l a b)
                then <[(l, a, b) := cinside e]> (viterbi (tables st))
                else viterbi (tables st)) →
             grounded g n (b - a) (set_tables st1 t').
Proof.
  intros Hg Ha Hb Hab Hok. pose proof (g_coupled _ _ _ _ Hg) as Hk.
  unfold append_edge.
  destruct (cost st l a b) as [v0|] eqn:Ho.
  - rewrite bool_decide_eq_true_2 by (by eexists).
    destruct (k_cost _ _ Hk _ _ _ _ Ho) as (cell & Hcell & Hmin).
    rewrite Hcell. cbn [Run.get mbind Run.result_bind].
    eexists. split; [done|]. split; [done|]. split; [done|].
    intros t' Hv. unfold set_tables, set_chart.
    cbn [chart tables consulted].
    set (v := if cinside e <? v0 then cinside e else v0).
    assert (Hv' : viterbi t' = <[(l, a, b) := v]> (viterbi (tables st))).
    { rewrite Hv. unfold improves. subst v.
      destruct (cinside e <? v0); [done|]. symmetry. by apply insert_id. }
    assert (Hlow : ∀ v1, Some v0 = Some v1 → v ≤ v1).
    { intros v1 [= <-]. subst v. destruct (Z.ltb_spec (cinside e) v0); lia. }
    set (st' := mkCState (store (chart st) a b l (cell ++ [e])) t'
                         (consulted st)).
    assert (Ht : touches a b st st').
    { eapply touches_set_cost; [exact Hv'|]. by rewrite Ho. }
    eapply (store_grounded _ _ _ _ _ _ _ v);
      [done..|by apply least_inside_snoc|done|by rewrite Ho|].
    intros e' Hin. fold st'.
    eapply (cfg_edge_ok_touch _ st st' a b); [|lia|done].
    apply elem_of_app in Hin as [Hin|Hin].
    + apply (g_edges _ _ _ _ Hg l a b cell); [lia|lia|done|done].
    + by apply list_elem_of_singleton in Hin as ->.
  - rewrite bool_decide_eq_false_2 by (by intros [? ?]).
    cbn [Run.get mbind Run.result_bind].
    eexists. split; [done|]. split; [done|]. split; [done|].
    intros t' Hv. unfold set_tables, set_chart.
    cbn [chart tables consulted]. simpl in Hv.
    set (st' := mkCState (store (chart st) a b l ([] ++ [e])) t'
                         (consulted st)).
    assert (Ht : touches a b st st').
    { eapply touches_set_cost; [exact Hv|]. by rewrite Ho. }
    eapply (store_grounded _ _ _ _ _ _ _ (cinside e));
      [done..|apply least_inside_singleton|done|by rewrite Ho|].
    intros e' Hin. apply list_elem_of_singleton in Hin as ->.
    by eapply (cfg_edge_ok_touch _ st st' a b); [|lia|done].
Qed.

(** *** The cells of the words *)

(** The cell of the word at [a] holds the edges of words only. *)
Definition lexical_only (a : Z) (st : CState) : Prop :=
  ∀ l cell e, cell_of (chart st) a (a + 1) !! l = Some cell → e ∈ cell →
              crule e = None.

(** The finite costs are those of spans that end at [m] or before. *)
Definition upto (m : Z) (st : CState) : Prop :=
  ∀ l a b, is_Some (cost st l a b) → b ≤ m.

Lemma upto_lexical_only n st a :
  coupled n st → 0 ≤ a → upto a st → lexical_only a st.
Proof.
  intros Hk Ha Hu l cell e Hc _.
  apply (k_cell _ _ Hk) in Hc; [|lia..]. apply Hu in Hc. lia.
Qed.

Lemma upto_touches left right st st' :
  touches left right st st' → upto right st → upto right st'.
Proof.
  intros [Ho _] Hu l a b Hc.
  destruct (decide ((a, b) = (left, right))) as [[= -> ->]|Hne]; [lia|].
  rewrite Ho in Hc by done. by eapply Hu.
Qed.

(** The edge of a word stored as the only edge of its label. *)
Lemma store_lexical g n st l a x t' :
  grounded g n 1 st → 0 ≤ a < Z.of_nat n →
  lexical_only a st → upto (a + 1) st →
  viterbi t' = <[(l, a, a + 1) := x]> (viterbi (tables st)) →
  let st' := mkCState (store (chart st) a (a + 1) l
                             [new_CFGEdge x None (a + 1)])
                      t' (consulted st) in
  grounded g n 1 st' ∧ lexical_only a st' ∧ upto (a + 1) st'.
Proof.
  intros [Hk Hs He] Ha Hlex Hup Hv st'.
  assert (Ho : only_at a (a + 1) st st').
  { intros l' a' b' Hne. unfold cost. simpl. rewrite Hv.
    apply lookup_insert_ne. congruence. }
  assert (Hcell : ∀ l' a' b', 0 ≤ a' → 0 ≤ b' →
            cell_of (chart st') a' b' !! l'
            = if decide ((a, a + 1, l) = (a', b', l'))
              then Some [new_CFGEdge x None (a + 1)]
              else cell_of (chart st) a' b' !! l').
  { intros l' a' b' Ha' Hb'. simpl.
    rewrite (cell_of_store _ _ _ _ _ _ _ n)
      by (done || lia || apply (k_rows _ _ Hk) || apply (k_cols _ _ Hk)).
    destruct (decide (a = a' ∧ a + 1 = b')) as [[<- <-]|Hab].
    - destruct (decide (l' = l)) as [->|Hne].
      + rewrite lookup_insert_eq. by rewrite decide_True.
      + rewrite lookup_insert_ne by done.
        rewrite decide_False; [done|]. congruence.
    - rewrite decide_False; [done|]. intros [= <- <- <-]. by apply Hab. }
  split_and!.
  - split.
    + eapply (store_coupled _ _ _ _ _ _ x); [done|lia|lia| |done].
      apply (least_inside_singleton (new_CFGEdge x None _)).
    + intros l' a' b'. unfold cost. simpl. rewrite Hv.
      destruct (decide ((l, a, a + 1) = (l', a', b'))) as [[= <- <- <-]|Hne];
        [intros _; lia|].
      rewrite lookup_insert_ne by done. apply Hs.
    + intros l' a' b' cell' e Ha' Hb'. rewrite Hcell by done.
      destruct (decide ((a, a + 1, l) = (a', b', l'))) as [[= <- <- <-]|Hne].
      * intros [= <-] Hin. by apply list_elem_of_singleton in Hin as ->.
      * intros Hc Hin.
        pose proof (He l' a' b' cell' e Ha' Hb' Hc Hin) as Hok.
        destruct (decide ((a', b') = (a, a + 1))) as [[= -> ->]|Hab].
        -- pose proof (Hlex l' cell' e Hc Hin) as Hnone.
           unfold cfg_edge_ok in *. by rewrite Hnone in *.
        -- eapply (cfg_edge_ok_frame _ st st' a (a + 1)); [done| |done|done].
           assert (Hsp := Hs l' a' b' (k_cell _ _ Hk _ _ _ _ Ha' Hb' Hc)).
           lia.
  - intros l' cell' e. rewrite Hcell by lia.
    destruct (decide ((a, a + 1, l) = (a, a + 1, l'))) as [_|_].
    + intros [= <-] Hin. by apply list_elem_of_singleton in Hin as ->.
    + apply Hlex.
  - intros l' a' b'. unfold cost. simpl. rewrite Hv.
    destruct (decide ((l, a, a + 1) = (l', a', b'))) as [[= <- <- <-]|Hne];
      [intros _; lia|].
    rewrite lookup_insert_ne by done. apply Hup.
Qed.

Section loops.
Variable g : Grammar.
Variable tags : option (list string).
Variable n : nat.
Variable E : Run.exn → Prop.

Hypothesis H_tags : ∀ i,
  (i < n)%nat → no_tags tags = false → guarded E (λ _, True) (tag_at tags i).

Lemma tag_terminals_grounded i terminals st r :
  (i < n)%nat → grounded g n 1 st →
  lexical_only (Z.of_nat i) st → upto (Z.of_nat i + 1) st →
  guarded E (λ p, grounded g n 1 p.1 ∧ lexical_only (Z.of_nat i) p.1
                  ∧ upto (Z.of_nat i + 1) p.1)
    (tag_terminals g tags i (Z.of_nat i) (Z.of_nat i + 1) terminals st r).
Proof.
  intros Hi. revert st r.
  induction terminals as [|t ts IH]; intros st r Hk Hlex Hup; simpl; [done|].
  eapply guarded_bind; [by apply (tag_allows_guarded g tags n E H_tags)|].
  intros [|] _; [|by apply IH].
  unfold set_tables, set_chart. cbn [chart tables consulted].
  edestruct (store_lexical g n st (lex_lhs t) (Z.of_nat i) (lex_prob t))
    as (Hk' & Hlex' & Hup'); [done|lia|done|done| |by apply IH].
  done.
Qed.

Lemma unary_rules_grounded left right rhs1 idxs st agenda :
  0 ≤ left < Z.of_nat n → 0 ≤ right ≤ Z.of_nat n → left < right →
  grounded g n (right - left) st → waiting left right agenda st →
  is_Some (cost st rhs1 left right) →
  guarded E (λ p, grounded g n (right - left) p.1
                  ∧ waiting left right p.2 p.1
                  ∧ touches left right st p.1)
    (unary_rules g left right rhs1 idxs st agenda).
Proof.
  intros Hl Hr Hlr. revert st agenda.
  assert (Hrefl : ∀ st, touches left right st st)
    by (intros st; by apply touches_same).
  induction idxs as [|i idxs IH]; intros st agenda Hk Hw Hc; simpl.
  { by split_and!. }
  destruct (Z.eqb_spec (Containers.rhs1 (unary g rhs1 i)) rhs1) as [Hrhs|Hrhs];
    cbn [negb]; [|by split_and!].
  destruct Hc as [v Hv]. rewrite Hv. cbn [Run.get mbind Run.result_bind].
  set (rule := unary g rhs1 i) in *.
  set (edge := new_CFGEdge (prob rule + v) (Some rule) right).
  assert (Hok : cfg_edge_ok g st (lhs rule) left right edge).
  { split; [done|]. left. split_and!; [done|exists i; by rewrite Hrhs|].
    exists v. rewrite Hrhs. split; [done|]. simpl. lia. }
  destruct (append_grounded g n st (lhs rule) left right edge Hk Hl Hr Hlr Hok)
    as (st1 & -> & Et & Ec & Hnew).
  cbn [mbind Run.result_bind].
  assert (Hcost1 : ∀ l a b, cost st1 l a b = cost st l a b)
    by (intros; unfold cost; by rewrite Et).
  rewrite Hcost1. change (prob rule + v) with (cinside edge).
  destruct (improves (cinside edge) (cost st (lhs rule) left right)) eqn:Himp.
  - set (st2 := set_tables st1 _).
    assert (Hk2 : grounded g n (right - left) st2).
    { apply Hnew. simpl. by rewrite Et. }
    assert (Ht : touches left right st st2).
    { eapply (touches_set_cost _ _ _ _ (lhs rule) (cinside edge)).
      - subst st2. simpl. by rewrite Et.
      - intros v0 Hv0. by eapply improves_le. }
    pose proof (touches_keeps _ _ _ _ Ht) as Hkeep.
    eapply guarded_weaken.
    + apply IH; [done| |apply Hkeep; by rewrite Hv].
      intros k e Hin.
      apply AgendaFacts.elem_of_setifbetter in Hin as [[-> _]|Hin].
      * subst st2. unfold cost. simpl. rewrite lookup_insert_eq. by eexists.
      * apply Hkeep. by eapply Hw.
    + intros p (? & ? & H3). split_and!; [done|done|].
      by eapply touches_trans.
  - assert (Hk1 : grounded g n (right - left) st1).
    { eapply grounded_ext; [| |apply (Hnew (tables st1))]; [done|done|].
      by rewrite Et. }
    assert (Ht : touches left right st st1) by (by apply touches_same).
    pose proof (touches_keeps _ _ _ _ Ht) as Hkeep.
    eapply guarded_weaken.
    + apply IH; [done| |apply Hkeep; by rewrite Hv].
      intros k e Hin. apply Hkeep. by eapply Hw.
    + intros p (? & ? & H3). split_and!; [done|done|].
      by eapply touches_trans.
Qed.

Lemma unary_closure_grounded fuel left right agenda st :
  0 ≤ left < Z.of_nat n → 0 ≤ right ≤ Z.of_nat n → left < right →
  grounded g n (right - left) st → waiting left right agenda st →
  guarded E (λ st', grounded g n (right - left) st'
                    ∧ touches left right st st')
          (unary_closure g fuel left right agenda st).
Proof.
  intros Hl Hr Hlr. revert agenda st.
  induction fuel as [|fuel IH]; intros agenda st Hk Hw; simpl; [done|].
  destruct (Agenda.popentry _ _) as [[[k e] agenda']|] eqn:Hpop;
    [|split; [done|by apply touches_same]].
  apply AgendaFacts.popentry_elem in Hpop as [Hin Hsub].
  eapply guarded_bind.
  - apply unary_rules_grounded; [done|done|done|done| |by eapply Hw].
    intros k' e' Hin'. eapply Hw. by apply Hsub.
  - intros [st1 agenda1] (Hk1 & Hw1 & Ht). simpl in *.
    eapply guarded_weaken; [by apply IH|].
    intros st2 [? ?]. split; [done|]. by eapply touches_trans.
Qed.

Lemma unaries_grounded fuel left right st :
  0 ≤ left < Z.of_nat n → 0 ≤ right ≤ Z.of_nat n → left < right →
  grounded g n (right - left) st →
  guarded E (λ st', grounded g n (right - left) st'
                    ∧ touches left right st st')
          (unaries g fuel left right st).
Proof.
  intros Hl Hr Hlr Hk. unfold unaries.
  apply unary_closure_grounded; [done..|].
  apply update_waiting. intros k e Hin. unfold unary_seed in Hin.
  apply list_elem_of_In, in_flat_map in Hin as (rhs1 & _ & Hin).
  apply list_elem_of_In in Hin.
  destruct (cost st rhs1 left right) as [v|] eqn:Hc; [|inversion Hin].
  destruct (_ =? _); [|inversion Hin].
  apply list_elem_of_singleton in Hin as [= -> _]. by rewrite Hc.
Qed.

Lemma tag_position_grounded fuel i w st :
  (i < n)%nat → grounded g n 1 st → upto (Z.of_nat i) st →
  guarded E (λ r, let s := match r with Tagged s | Uncovered s => s end in
                  grounded g n 1 s ∧ upto (Z.of_nat i + 1) s)
          (tag_position g tags fuel i w st).
Proof.
  intros Hi Hk Hup. unfold tag_position.
  assert (Hlex : lexical_only (Z.of_nat i) st).
  { eapply upto_lexical_only; [apply Hk|lia|done]. }
  assert (Hup1 : upto (Z.of_nat i + 1) st).
  { intros l a b Hc. apply Hup in Hc. lia. }
  eapply guarded_bind; [by apply tag_terminals_grounded|].
  intros [st1 rec] (Hk1 & Hlex1 & Hu1). simpl in Hk1, Hlex1, Hu1.
  eapply (guarded_bind E
            (λ r : option CState,
               match r with
               | Some s => grounded g n 1 s ∧ upto (Z.of_nat i + 1) s
               | None => grounded g n 1 st1 ∧ upto (Z.of_nat i + 1) st1
               end)).
  - destruct (negb rec && negb (no_tags tags)) eqn:Hb.
    + apply andb_true_iff in Hb as [_ Hno]. apply negb_true_iff in Hno.
      eapply guarded_bind; [by apply H_tags|]. intros t _.
      destruct (toid g !! t) as [l|]; simpl; [|done].
      unfold set_tables, set_chart. simpl.
      edestruct (store_lexical g n st1 l (Z.of_nat i) 0)
        as (Hk' & _ & Hup'); [done|lia|done|done| |split; [|exact Hup']].
      * done.
      * eapply grounded_ext; [| |exact Hk']; done.
    + by destruct (negb rec).
  - intros [s|] [Hs Hus]; cbn [mbind Run.result_bind]; [|done].
    eapply guarded_bind.
    + apply (unaries_grounded fuel (Z.of_nat i) (Z.of_nat i + 1));
        [lia|lia|lia|].
      by replace (Z.of_nat i + 1 - Z.of_nat i) with 1 by lia.
    + intros s' [Hs' Ht]. simpl.
      replace (Z.of_nat i + 1 - Z.of_nat i) with 1 in Hs' by lia.
      split; [done|]. by eapply upto_touches.
Qed.

Lemma tag_positions_grounded fuel i ws st :
  (i + List.length ws ≤ n)%nat → grounded g n 1 st → upto (Z.of_nat i) st →
  guarded E (λ r, grounded g n 1 (match r with Tagged s | Uncovered s => s end))
          (tag_positions g tags fuel i ws st).
Proof.
  revert i st.
  induction ws as [|w ws IH]; intros i st Hlen Hk Hup; simpl; [done|].
  simpl in Hlen.
  eapply guarded_bind; [apply tag_position_grounded; [lia|done|done]|].
  intros [s|s] [Hs Hus]; simpl in Hs, Hus; [|done].
  apply IH; [lia|done|].
  by replace (Z.of_nat (S i)) with (Z.of_nat i + 1) by lia.
Qed.

Lemma mid_loop_grounded rule left right mids st fb :
  0 ≤ left < Z.of_nat n → 0 ≤ right ≤ Z.of_nat n → left < right →
  (∃ i, rule = bylhs g i) → rhs2 rule ≠ 0 →
  grounded g n (right - left) st →
  guarded E (λ p, grounded g n (right - left) p.1)
          (mid_loop rule left right mids st fb).
Proof.
  intros Hl Hr Hlr Hrule Hbin. revert st fb.
  induction mids as [|mid mids IH]; intros st fb Hk; simpl; [done|].
  destruct (cost st (rhs1 rule) left mid) as [v1|] eqn:H1; [|by apply IH].
  destruct (cost st (rhs2 rule) mid right) as [v2|] eqn:H2; [|by apply IH].
  set (edge := new_CFGEdge (prob rule + v1 + v2) (Some rule) mid).
  assert (Hok : cfg_edge_ok g st (lhs rule) left right edge).
  { split; [done|]. right. simpl.
    destruct (g_span _ _ _ _ Hk (rhs1 rule) left mid) as [Hs1 _];
      [by rewrite H1|].
    destruct (g_span _ _ _ _ Hk (rhs2 rule) mid right) as [Hs2 _];
      [by rewrite H2|].
    split_and!; [done|done|done|done|]. by exists v1, v2. }
  destruct (append_grounded g n st (lhs rule) left right edge Hk Hl Hr Hlr Hok)
    as (st1 & -> & Et & Ec & Hnew).
  cbn [mbind Run.result_bind].
  assert (Hcost1 : ∀ l a b, cost st1 l a b = cost st l a b)
    by (intros; unfold cost; by rewrite Et).
  rewrite Hcost1. change (prob rule + v1 + v2) with (cinside edge).
  destruct (improves (cinside edge) (cost st (lhs rule) left right)) eqn:Himp.
  - apply IH. apply Hnew. simpl. by rewrite Et.
  - apply IH. eapply grounded_ext; [| |apply (Hnew (tables st1))]; [done|done|].
    by rewrite Et.
Qed.

Lemma binary_rule_grounded rule left right st :
  0 ≤ left < Z.of_nat n → 0 ≤ right ≤ Z.of_nat n → left < right →
  (∃ i, rule = bylhs g i) → rhs2 rule ≠ 0 →
  grounded g n (right - left) st →
  guarded E (grounded g n (right - left)) (binary_rule rule left right st).
Proof.
  intros Hl Hr Hlr Hrule Hbin Hk. unfold binary_rule.
  assert (Hobs : grounded g n (right - left) (observe st rule left right))
    by (by eapply grounded_ext; [| |exact Hk]).
  set (so := observe st rule left right) in *.
  destruct (_ >=? _); [done|]. destruct (_ <? _); [done|].
  eapply guarded_bind; [by apply mid_loop_grounded|].
  intros [st2 fb] Hk2. simpl in Hk2.
  destruct (_ && _); simpl; [|done].
  by eapply grounded_ext; [| |exact Hk2].
Qed.

Lemma binary_rules_grounded left right idxs st :
  0 ≤ left < Z.of_nat n → 0 ≤ right ≤ Z.of_nat n → left < right →
  grounded g n (right - left) st →
  guarded E (grounded g n (right - left))
          (binary_rules g left right idxs st).
Proof.
  intros Hl Hr Hlr. revert st.
  induction idxs as [|i idxs IH]; intros st Hk; simpl; [done|].
  destruct (_ =? _); [done|].
  destruct (Z.eqb_spec (rhs2 (bylhs g i)) 0) as [|Hbin]; [by apply IH|].
  eapply guarded_bind.
  - apply binary_rule_grounded; [done|done|done|by exists i|done|done].
  - intros st1 Hk1. by apply IH.
Qed.

Lemma fill_cell_grounded fuel left right st :
  0 ≤ left < Z.of_nat n → 0 ≤ right ≤ Z.of_nat n → left < right →
  grounded g n (right - left) st →
  guarded E (grounded g n (right - left)) (fill_cell g fuel left right st).
Proof.
  intros Hl Hr Hlr Hk. unfold fill_cell.
  eapply guarded_bind; [by apply binary_rules_grounded|]. intros st1 Hk1.
  eapply guarded_weaken; [by apply unaries_grounded|]. by intros st2 [? _].
Qed.

Lemma fill_cells_grounded fuel span lefts st :
  0 < span →
  Forall (λ left, 0 ≤ left ∧ left + span ≤ Z.of_nat n) lefts →
  grounded g n span st →
  guarded E (grounded g n span) (fill_cells g fuel span lefts st).
Proof.
  intros Hspan Hlefts. revert st.
  induction Hlefts as [|left lefts Hleft _ IH]; intros st Hk; simpl; [done|].
  eapply guarded_bind.
  - eapply guarded_weaken.
    + apply (fill_cell_grounded fuel left (left + span)); [lia|lia|lia|].
      by replace (left + span - left) with span by lia.
    + intros st1 Hk1. by replace (left + span - left) with span in Hk1 by lia.
  - intros st1 Hk1. by apply IH.
Qed.

(** Spans in the order in which the parser fills them. *)
Fixpoint ascending (s : Z) (spans : list Z) : Prop :=
  match spans with
  | [] => True
  | span :: spans' => s ≤ span ∧ 0 < span ∧ ascending span spans'
  end.

Lemma fill_spans_grounded fuel spans s st :
  ascending s spans →
  grounded g n s st →
  guarded E (λ st', ∃ s', grounded g n s' st')
          (fill_spans g fuel (Z.of_nat n) spans st).
Proof.
  revert s st.
  induction spans as [|span spans IH]; intros s st Hasc Hk; simpl.
  { by exists s. }
  destruct Hasc as (Hle & Hpos & Hasc).
  eapply guarded_bind.
  - apply fill_cells_grounded; [done| |by eapply grounded_weaken].
    apply Forall_forall. intros left Hin.
    apply CfgFacts.elem_of_zrange in Hin. lia.
  - intros st1 Hk1. by eapply IH.
Qed.

End loops.

Lemma ascending_from lo m j s :
  s ≤ lo + Z.of_nat j → 0 < lo + Z.of_nat j →
  ascending s (map (λ k, lo + k) (map Z.of_nat (seq j m))).
Proof.
  revert j s. induction m as [|m IH]; intros j s Hs Hpos; simpl; [done|].
  split_and!; [done|done|]. apply IH; lia.
Qed.

Lemma initial_grounded g n :
  grounded g n 1 (mkCState (empty_chart n) (empty_tables (Z.of_nat n)) []).
Proof.
  pose proof (initial_coupled n) as Hk. split; [done| |].
  - intros l a b [? H]. unfold cost in H. simpl in H.
    by rewrite lookup_empty in H.
  - intros l a b cell e Ha Hb Hc.
    apply (k_cell _ _ Hk) in Hc as [? H]; [|done..].
    unfold cost in H. simpl in H. by rewrite lookup_empty in H.
Qed.

Lemma cfgparse_grounded fuel sent g start tags st goal :
  cfgparse fuel sent g start tags = Run.Ok (st, goal) →
  ∃ s, grounded g (List.length sent) s st.
Proof.
  intros Hrun.
  assert (Hg : guarded (λ _, True)
                 (λ p, ∃ s, grounded g (List.length sent) s p.1)
                 (cfgparse fuel sent g start tags)); [|by rewrite Hrun in Hg].
  clear Hrun. unfold cfgparse.
  destruct (toid g !! "Epsilon") as [eps|];
    cbn [Run.get mbind Run.result_bind]; [|done].
  set (n := List.length sent).
  assert (Htags : ∀ i, (i < n)%nat → no_tags tags = false →
            guarded (λ _ : Run.exn, True) (λ _ : string, True)
                    (tag_at tags i))
    by (intros; by destruct (tag_at _ _)).
  eapply guarded_bind.
  - apply (tag_positions_grounded g tags n _ Htags); [lia| |].
    + apply initial_grounded.
    + intros l a b [? H]. unfold cost in H. simpl in H.
      by rewrite lookup_empty in H.
  - intros [s|s] Hk; cbn [mbind Run.result_bind]; [|by exists 1].
    eapply guarded_bind.
    + apply (fill_spans_grounded g n _ _ _ 1); [|done].
      unfold zrange_from, zrange, zrange_nat.
      apply (ascending_from 2 _ 0%nat 1); lia.
    + intros st1 Hk1.
      destruct (chart st1 !! 0%nat) as [row|];
        cbn [Run.get mbind Run.result_bind]; [|done].
      destruct (row !! n) as [cell|];
        cbn [Run.get mbind Run.result_bind]; [|done].
      by destruct (bool_decide _).
Qed.

(** The label [l] has edges over the span [(a, b)], and [v] is the least
    inside cost among them. *)
Definition best (c : Chart) (l a b v : Z) : Prop :=
  ∃ cell, cell_of c a b !! l = Some cell ∧ least_inside cell v.

(** In the chart that [cfgparse] returns, the edge of a word is in a cell
    over one position.  Every other edge carries a rule of the grammar with
    the label of its cell as left-hand side.  For a unary rule the split
    point is the right end of the span, the child has edges in the same
    cell of the chart, and the inside cost of the edge is at least the cost
    of the rule plus the least inside cost of the child.  For a binary rule
    the split point is strictly inside the span, the two children have
    edges over the two parts, and the inside cost of the edge is the cost
    of the rule plus the least inside costs of the two children. *)
Theorem cfgparse_edges_apply_rules fuel sent g start tags st goal :
  cfgparse fuel sent g start tags = Run.Ok (st, goal) →
  ∀ l a b cell e, 0 ≤ a → 0 ≤ b →
    cell_of (chart st) a b !! l = Some cell → e ∈ cell →
    a < b ≤ Z.of_nat (List.length sent)
    ∧ match crule e with
      | None => cmid e = b ∧ b = a + 1
      | Some r =>
          lhs r = l
          ∧ ((cmid e = b ∧ (∃ i, r = unary g (rhs1 r) i)
              ∧ ∃ v, best (chart st) (rhs1 r) a b v
                     ∧ prob r + v ≤ cinside e)
             ∨ (a < cmid e < b ∧ (∃ i, r = bylhs g i) ∧ rhs2 r ≠ 0
                ∧ ∃ v1 v2, best (chart st) (rhs1 r) a (cmid e) v1
                           ∧ best (chart st) (rhs2 r) (cmid e) b v2
                           ∧ cinside e = prob r + v1 + v2))
      end.
Proof.
  intros Hrun l a b cell e Ha Hb Hc Hin.
  apply cfgparse_grounded in Hrun as (s & [Hk Hs He]).
  split.
  - pose proof (k_cell _ _ Hk _ _ _ _ Ha Hb Hc) as Hcost.
    pose proof (Hs _ _ _ Hcost). pose proof (k_span _ _ Hk _ _ _ Hcost). lia.
  - specialize (He l a b cell e Ha Hb Hc Hin). unfold cfg_edge_ok in He.
    destruct (crule e) as [r|]; [|done].
    destruct He as [Hl [(Hm & Hi & v & Hv & Hle)
                       |(Hm & Hi & H2 & v1 & v2 & Hv1 & Hv2 & Hcost)]];
      (split; [done|]).
    + left. split_and!; [done|done|]. exists v. split; [|done].
      by apply (k_cost _ _ Hk).
    + right. split_and!; [lia|lia|done|done|]. exists v1, v2.
      split_and!; [by apply (k_cost _ _ Hk)|by apply (k_cost _ _ Hk)|done].
Qed.

Lemma cfgparse_edges_witness :
  Runs.aaa_cfgparse = Run.Ok (Runs.aaa_state, Runs.aaa_goal)
  ∧ ∀ l a b cell e, 0 ≤ a → 0 ≤ b →
      cell_of (chart Runs.aaa_state) a b !! l = Some cell → e ∈ cell →
      a < b ≤ Z.of_nat (List.length Driver.three_words)
      ∧ match crule e with
        | None => cmid e = b ∧ b = a + 1
        | Some r =>
            lhs r = l
            ∧ ((cmid e = b ∧ (∃ i, r = unary Driver.doubling (rhs1 r) i)
                ∧ ∃ v, best (chart Runs.aaa_state) (rhs1 r) a b v
                       ∧ prob r + v ≤ cinside e)
               ∨ (a < cmid e < b ∧ (∃ i, r = bylhs Driver.doubling i)
                  ∧ rhs2 r ≠ 0
                  ∧ ∃ v1 v2,
                      best (chart Runs.aaa_state) (rhs1 r) a (cmid e) v1
                      ∧ best (chart Runs.aaa_state) (rhs2 r) (cmid e) b v2
                      ∧ cinside e = prob r + v1 + v2))
        end.
Proof.
  split; [exact aaa_run|].
  exact (cfgparse_edges_apply_rules 10 Driver.three_words Driver.doubling
           Driver.nt_X None _ _ aaa_run).
Defined.

End CfgEdgeFacts.

(** ** The keys of an agenda *)

Module AgendaKeyFacts.
Import Agenda.

Section keys.
Context {K V : Type} `{EqDecision K}.
Variable prio : V → Z.
Implicit Types (a : list (K * V)) (k : K) (v : V).

Lemma remove_keys a k : (remove a k).*1 = filter (λ x, x ≠ k) (a.*1).
Proof.
  unfold remove. induction a as [|[k' v'] a IH]; [done|].
  rewrite fmap_cons, !filter_cons. cbn [fst].
  destruct (decide (k' ≠ k)); [rewrite fmap_cons|]; by rewrite <- IH.
Qed.

Lemma setitem_keys a k v : (setitem a k v).*1 = filter (λ x, x ≠ k) (a.*1) ++ [k].
Proof. unfold setitem. by rewrite fmap_app, remove_keys. Qed.

Lemma setitem_NoDup a k v : NoDup (a.*1) → NoDup ((setitem a k v).*1).
Proof.
  intros Hnd. rewrite setitem_keys. apply NoDup_app. split_and!.
  - by apply NoDup_filter.
  - intros x Hx Hk. apply list_elem_of_filter in Hx as [Hne _].
    apply list_elem_of_singleton in Hk. done.
  - apply NoDup_singleton.
Qed.

Lemma setifbetter_NoDup a k v :
  NoDup (a.*1) → NoDup ((setifbetter prio a k v).*1).
Proof.
  intros Hnd. unfold setifbetter. destruct (getitem a k) as [old|];
    [destruct (_ <? _)|]; by try apply setitem_NoDup.
Qed.

Lemma update_NoDup a es : NoDup (a.*1) → NoDup ((update a es).*1).
Proof.
  unfold update. revert a. induction es as [|e es IH]; intros a Hnd; simpl;
    [done|]. by apply IH, setitem_NoDup.
Qed.

Lemma update_elem a es x :
  x ∈ update a es → x ∈ a ∨ x ∈ es.
Proof.
  unfold update. revert a. induction es as [|[k v] es IH]; intros a Hin; simpl in *;
    [by left|].
  apply IH in Hin as [Hin|Hin]; [|right; by right].
  destruct x as [k' v'].
  apply AgendaFacts.elem_of_setitem in Hin as [[-> ->]|Hin]; [right; left|by left].
Qed.

Lemma popentry_split a e a' :
  popentry prio a = Some (e, a') → e ∈ a ∧ a' = remove a e.1.
Proof.
  intros Hpop. pose proof (AgendaFacts.popentry_elem _ _ _ _ Hpop) as [Hin _].
  unfold popentry in Hpop. destruct (minentry prio a) as [m|]; [|done].
  by injection Hpop as -> <-.
Qed.

Lemma popentry_None a : popentry prio a = None → a = [].
Proof.
  unfold popentry. destruct a as [|e a]; [done|].
  destruct (AgendaFacts.minentry_is_Some prio (e :: a)) as [m ->]; done.
Qed.

End keys.

(** [nsmallest k xs] holds at most [k] values, all of them from [xs]. *)
Lemma insert_sorted_elem {V} (prio : V → Z) v l x :
  x ∈ insert_sorted prio v l → x = v ∨ x ∈ l.
Proof.
  induction l as [|y l IH]; simpl.
  - intros Hin. apply list_elem_of_singleton in Hin. by left.
  - destruct (_ <? _).
    + intros Hin. apply elem_of_cons in Hin as [->|Hin]; [by left|by right].
    + intros Hin. apply elem_of_cons in Hin as [->|Hin]; [right; left|].
      destruct (IH Hin) as [->|?]; [by left|right; by right].
Qed.

Lemma nsmallest_elem {V} (prio : V → Z) k xs x :
  x ∈ nsmallest prio k xs → x ∈ xs.
Proof.
  unfold nsmallest. intros Hin. apply elem_of_take in Hin as (i & Hin & _).
  apply list_elem_of_lookup_2 in Hin. revert Hin.
  assert (Hgen : ∀ acc, x ∈ foldl (λ acc v, insert_sorted prio v acc) acc xs →
                        x ∈ acc ∨ x ∈ xs).
  { induction xs as [|y xs IH]; intros acc Hin; simpl in *; [by left|].
    apply IH in Hin as [Hin|Hin]; [|right; by right].
    apply insert_sorted_elem in Hin as [->|Hin]; [right; left|by left]. }
  intros Hin. apply Hgen in Hin as [Hin|Hin]; [inversion Hin|done].
Qed.

Lemma nsmallest_length {V} (prio : V → Z) k xs :
  Z.of_nat (List.length (nsmallest prio k xs)) ≤ Z.max k 0.
Proof. unfold nsmallest. rewrite length_take. lia. Qed.

Lemma nsmallest_nonpositive {V} (prio : V → Z) k xs :
  k ≤ 0 → nsmallest prio k xs = [].
Proof.
  intros Hk. unfold nsmallest. by replace (Z.to_nat k) with 0%nat by lia.
Qed.

End AgendaKeyFacts.

(** ** The lazy k-best enumerator: what its tables hold *)

Module KbestFacts.
Import Containers Kbest AgendaKeyFacts.

Lemma ranked_insert d c ex v l u :
  ranked (mkKState (<[v := l]> d) c ex) u
  = if decide (v = u) then l else default [] (d !! u).
Proof.
  unfold ranked. simpl. destruct (decide (v = u)) as [->|Hne].
  - by rewrite lookup_insert_eq.
  - by rewrite lookup_insert_ne.
Qed.

Lemma agenda_of_insert d c ex v l u :
  agenda_of (mkKState d (<[v := l]> c) ex) u
  = if decide (v = u) then l else default [] (c !! u).
Proof.
  unfold agenda_of. simpl. destruct (decide (v = u)) as [->|Hne].
  - by rewrite lookup_insert_eq.
  - by rewrite lookup_insert_ne.
Qed.

(** The rank vector a candidate starts with. *)
Definition initial_ranks (x : RankedEdge) : Prop := rleft x = 0 ∧ rright x ≤ 0.

(** The tables are tidy: for every vertex the ranked edges of [D[v]] and of
    the heap [cand[v]] are pairwise distinct; each of them is headed by
    [v], carries ranks from 0 on (-1 for a missing right child), and is
    recorded in [explored] unless it is a candidate the heap started with;
    and a vertex has a heap once it has derivations. *)
Record tidy (st : KState) : Prop := mkTidy {
  t_keys : ∀ v, NoDup ((ranked st v ++ agenda_of st v).*1);
  t_entry : ∀ v x c, (x, c) ∈ ranked st v ++ agenda_of st v →
                     head x = v ∧ 0 ≤ rleft x ∧ -1 ≤ rright x
                     ∧ (x ∈ explored st ∨ initial_ranks x);
  t_explored : ∀ x, x ∈ explored st → 1 ≤ rleft x ∨ 1 ≤ rright x;
  t_seeded : ∀ v, is_Some (D st !! v) → is_Some (cand st !! v)
}.

Lemma empty_tidy : tidy (mkKState ∅ ∅ ∅).
Proof.
  split; unfold ranked, agenda_of; simpl.
  - intros v. rewrite !lookup_empty. simpl. constructor.
  - intros v x c. rewrite !lookup_empty. simpl. intros Hin. inversion Hin.
  - intros x Hx. by apply not_elem_of_empty in Hx.
  - intros v [? Hv]. by rewrite lookup_empty in Hv.
Qed.

Lemma getcandidates_entry chart v k x c :
  (x, c) ∈ getcandidates chart v k →
  ∃ el edges, chart !! v = Some edges ∧ el ∈ edges
              ∧ x = first_ranks v el ∧ c = kinside el.
Proof.
  unfold getcandidates. destruct (chart !! v) as [edges|]; [|by inversion 1].
  intros Hin. apply update_elem in Hin as [Hin|Hin]; [inversion Hin|].
  apply list_elem_of_fmap in Hin as (el & [= -> ->] & Hel).
  apply nsmallest_elem in Hel. by exists el, edges.
Qed.

Lemma getcandidates_NoDup chart v k : NoDup ((getcandidates chart v k).*1).
Proof.
  unfold getcandidates. destruct (chart !! v); [|constructor].
  apply update_NoDup. constructor.
Qed.

Lemma first_ranks_initial v el :
  head (first_ranks v el) = v ∧ 0 ≤ rleft (first_ranks v el)
  ∧ -1 ≤ rright (first_ranks v el) ∧ initial_ranks (first_ranks v el).
Proof.
  unfold first_ranks, initial_ranks. simpl.
  destruct (label (kright el) =? 0); simpl; split_and!; (done || lia).
Qed.

(** The first visit of a vertex. *)
Lemma seed_tidy chart k1 st v :
  tidy st → cand st !! v = None →
  tidy (set_cand st (<[v := getcandidates chart v k1]> (cand st))).
Proof.
  intros [Hk He Hx Hs] Hnone.
  assert (HD : D st !! v = None).
  { destruct (D st !! v) eqn:HD; [|done].
    destruct (Hs v) as [? Hc]; [by eexists|congruence]. }
  unfold set_cand. split.
  - intros u. unfold ranked. rewrite agenda_of_insert. simpl.
    destruct (decide (v = u)) as [<-|Hne]; [|apply (Hk u)].
    rewrite HD. simpl. apply getcandidates_NoDup.
  - intros u x c. unfold ranked. rewrite agenda_of_insert. simpl.
    destruct (decide (v = u)) as [<-|Hne]; [|apply (He u)].
    rewrite HD. simpl. intros Hin.
    apply getcandidates_entry in Hin as (el & edges & _ & _ & -> & _).
    destruct (first_ranks_initial v el) as (? & ? & ? & ?). split_and!; auto.
  - done.
  - simpl. intros u Hu. destruct (decide (v = u)) as [<-|Hne].
    + rewrite lookup_insert_eq. by eexists.
    + rewrite lookup_insert_ne by done. by apply Hs.
Qed.

(** The best candidate of [v] moved from its heap to the end of [D[v]]. *)
Lemma pop_tidy v st heap entry heap' :
  tidy st → cand st !! v = Some heap →
  Agenda.popentry cost_prio heap = Some (entry, heap') →
  tidy (mkKState (<[v := ranked st v ++ [entry]]> (D st))
                 (<[v := heap']> (cand st)) (explored st)).
Proof.
  intros [Hk He Hx Hs] Hheap Hpop.
  apply popentry_split in Hpop as [Hin ->].
  assert (Hagenda : agenda_of st v = heap)
    by (unfold agenda_of; by rewrite Hheap).
  split.
  - intros u. rewrite ranked_insert. unfold agenda_of. simpl.
    destruct (decide (v = u)) as [<-|Hne].
    2:{ rewrite lookup_insert_ne by done. apply (Hk u). }
    rewrite lookup_insert_eq. simpl.
    specialize (Hk v). rewrite Hagenda, fmap_app in Hk.
    apply NoDup_app in Hk as (H1 & H2 & H3).
    rewrite !fmap_app, remove_keys. simpl.
    assert (Hkey : entry.1 ∈ heap.*1)
      by (apply list_elem_of_fmap; by exists entry).
    apply NoDup_app. split_and!.
    + apply NoDup_app. split_and!; [done| |apply NoDup_singleton].
      intros x Hx1 Hx2. apply list_elem_of_singleton in Hx2 as ->.
      by apply (H2 entry.1).
    + intros x Hx1 Hx2. apply list_elem_of_filter in Hx2 as [Hne Hx2].
      apply elem_of_app in Hx1 as [Hx1|Hx1]; [by apply (H2 x)|].
      by apply list_elem_of_singleton in Hx1.
    + by apply NoDup_filter.
  - intros u x c. rewrite ranked_insert. unfold agenda_of. simpl.
    destruct (decide (v = u)) as [<-|Hne].
    2:{ rewrite lookup_insert_ne by done. apply (He u). }
    rewrite lookup_insert_eq. simpl. intros Hx1. apply (He v x c).
    rewrite Hagenda.
    apply elem_of_app in Hx1 as [Hx1|Hx1].
    + apply elem_of_app in Hx1 as [Hx1|Hx1]; [apply elem_of_app; by left|].
      apply list_elem_of_singleton in Hx1 as ->. apply elem_of_app. by right.
    + apply elem_of_app. right. unfold Agenda.remove in Hx1.
      by apply list_elem_of_filter in Hx1 as [_ ?].
  - done.
  - simpl. intros u Hu. destruct (decide (v = u)) as [<-|Hne].
    + rewrite lookup_insert_eq. by eexists.
    + rewrite lookup_insert_ne by done. rewrite lookup_insert_ne in Hu by done.
      by apply Hs.
Qed.

Section with_chart.
Variable chart : KChart.
Variable k1 : Z.

(** A neighbour put on the heap of its head. *)
Lemma push_neighbour_tidy ei rank ej1 st st' :
  tidy st →
  0 ≤ rleft ej1 → -1 ≤ rright ej1 → (1 ≤ rleft ej1 ∨ 1 ≤ rright ej1) →
  push_neighbour chart ei rank ej1 st = Run.Ok st' →
  tidy st'.
Proof.
  intros Ht Hl Hr Hpos. unfold push_neighbour.
  destruct (D st !! ei) as [l|]; [|by intros [= <-]].
  destruct (_ && _) eqn:Hb; [|by intros [= <-]].
  apply andb_true_iff in Hb as [_ Hnew].
  apply negb_true_iff, bool_decide_eq_false in Hnew.
  destruct (getprob chart (D st) ej1) as [prob|?|]; simpl; [|done..].
  destruct (cand st !! head ej1) as [heap|] eqn:Hheap; simpl; [|done].
  intros [= <-]. destruct Ht as [Hk He Hx Hs].
  assert (Hfresh : ∀ c, (ej1, c) ∉ ranked st (head ej1) ++ agenda_of st (head ej1)
                        ∨ (ej1, c) ∈ agenda_of st (head ej1)).
  { intros c. destruct (decide ((ej1, c) ∈ ranked st (head ej1)
                                ++ agenda_of st (head ej1))) as [Hin|Hnin];
      [|by left].
    destruct (He _ _ _ Hin) as (_ & _ & _ & [Hex|[H0 H0']]); [done|lia]. }
  assert (Hnotin : ej1 ∉ (ranked st (head ej1)).*1).
  { intros Hin. apply list_elem_of_fmap in Hin as ([x c] & -> & Hin).
    simpl in *.
    destruct (He (head x) x c) as (_ & _ & _ & [Hex|[H0 H0']]);
      [apply elem_of_app; by left|done|lia]. }
  split.
  - intros u. unfold ranked at 1. rewrite agenda_of_insert. simpl.
    fold (ranked st u).
    destruct (decide (head ej1 = u)) as [<-|Hne]; [|apply (Hk u)].
    specialize (Hk (head ej1)). unfold agenda_of in Hk. rewrite Hheap in Hk.
    simpl in Hk. rewrite fmap_app in Hk. apply NoDup_app in Hk as (H1 & H2 & H3).
    rewrite fmap_app, setitem_keys. apply NoDup_app. split_and!; [done| |].
    + intros x Hx1 Hx2. apply elem_of_app in Hx2 as [Hx2|Hx2].
      * apply list_elem_of_filter in Hx2 as [_ Hx2]. by apply (H2 x).
      * apply list_elem_of_singleton in Hx2 as ->. done.
    + rewrite <- (setitem_keys heap ej1 prob). by apply setitem_NoDup.
  - intros u x c. unfold ranked at 1. rewrite agenda_of_insert. simpl.
    fold (ranked st u).
    destruct (decide (head ej1 = u)) as [<-|Hne].
    + intros Hin. apply elem_of_app in Hin as [Hin|Hin].
      * destruct (He (head ej1) x c) as (? & ? & ? & Hor);
          [apply elem_of_app; by left|].
        split_and!; try done. destruct Hor; [left; apply elem_of_union; by right|by right].
      * apply AgendaFacts.elem_of_setitem in Hin as [[-> ->]|Hin].
        -- split_and!; try done. left. apply elem_of_union. left. by apply elem_of_singleton.
        -- destruct (He (head ej1) x c) as (? & ? & ? & Hor).
           { apply elem_of_app. right. unfold agenda_of. by rewrite Hheap. }
           split_and!; try done. destruct Hor; [left; apply elem_of_union; by right|by right].
    + intros Hin. destruct (He u x c Hin) as (? & ? & ? & Hor).
      split_and!; try done. destruct Hor; [left; apply elem_of_union; by right|by right].
  - intros x Hin. simpl in Hin. apply elem_of_union in Hin as [Hin|Hin]; [|auto].
    apply elem_of_singleton in Hin as ->. done.
  - simpl. intros u Hu. destruct (decide (head ej1 = u)) as [<-|Hne].
    + rewrite lookup_insert_eq. by eexists.
    + rewrite lookup_insert_ne by done. by apply Hs.
Qed.

Section with_solve.
Variable solve : ChartItem → Z → KState → Run.result KState.
Hypothesis solve_tidy : ∀ u k st st',
  tidy st → solve u k st = Run.Ok st' → tidy st'.

Lemma lazynext_tidy ej st st' :
  tidy st → 0 ≤ rleft ej → -1 ≤ rright ej →
  lazynext chart solve ej st = Run.Ok st' → tidy st'.
Proof.
  intros Ht Hl Hr. unfold lazynext.
  destruct (solve (kleft (edge ej)) _ st) as [st1|?|] eqn:H1; simpl; [|done..].
  apply solve_tidy in H1; [|done].
  destruct (push_neighbour _ _ _ _ st1) as [st2|?|] eqn:H2; simpl; [|done..].
  apply push_neighbour_tidy in H2; [|done|simpl; lia..].
  destruct (Z.geb_spec (rright ej) 0) as [Hge|Hlt]; [|by intros [= <-]].
  destruct (solve (kright (edge ej)) _ st2) as [st3|?|] eqn:H3; simpl; [|done..].
  apply solve_tidy in H3; [|done].
  intros H4. apply push_neighbour_tidy in H4; [done|done|simpl; lia..].
Qed.

Lemma kth_loop_tidy n v k st st' :
  tidy st → kth_loop chart solve n v k st = Run.Ok st' → tidy st'.
Proof.
  revert st. induction n as [|n IH]; intros st Ht; simpl; [by intros [= <-]|].
  destruct (_ && _); [by intros [= <-]|].
  assert (Htail : ∀ s, tidy s →
            (heap ← Run.get Run.KeyError (cand s !! v);
             match Agenda.popentry cost_prio heap with
             | Some (entry, heap') =>
                 kth_loop chart solve n v k
                   (mkKState (<[v := ranked s v ++ [entry]]> (D s))
                             (<[v := heap']> (cand s)) (explored s))
             | None => Run.Ok s
             end) = Run.Ok st' → tidy st').
  { intros s Hs. destruct (cand s !! v) as [heap|] eqn:Hheap; simpl; [|done].
    destruct (Agenda.popentry cost_prio heap) as [[entry heap']|] eqn:Hpop;
      [|by intros [= <-]].
    apply IH. by eapply pop_tidy. }
  destruct (D st !! v) as [l|] eqn:HD; simpl; [|by apply Htail].
  destruct (last l) as [[ej c]|] eqn:Hlast; simpl; [|done].
  assert (Hej : 0 ≤ rleft ej ∧ -1 ≤ rright ej).
  { destruct (t_entry _ Ht v ej c) as (_ & ? & ? & _); [|done].
    apply elem_of_app. left. unfold ranked. rewrite HD. simpl.
    apply last_Some in Hlast as [l' ->]. apply elem_of_app. right. left. }
  destruct (lazynext chart solve ej st) as [st1|?|] eqn:Hn; simpl; [|done..].
  apply lazynext_tidy in Hn; [|done|lia..]. by apply Htail.
Qed.

End with_solve.

Lemma lazykthbest_tidy fuel v k st st' :
  tidy st → lazykthbest chart k1 fuel v k st = Run.Ok st' → tidy st'.
Proof.
  revert v k st st'. induction fuel as [|fuel IH]; intros v k st st' Ht;
    [done|].
  cbn [lazykthbest]. intros Hrun.
  eapply kth_loop_tidy in Hrun; [done|apply IH|].
  destruct (bool_decide (is_Some (cand st !! v))) eqn:Hc; [done|].
  apply seed_tidy; [done|].
  apply bool_decide_eq_false in Hc. by apply eq_None_not_Some.
Qed.

End with_chart.

(** No ranked edge occurs twice among the derivations of a vertex: the
    assertion [len(D[goal]) == len(set(D[goal]))] of [main], for every
    vertex and every chart. *)
Theorem lazykthbest_no_duplicates chart k1 fuel v k st :
  lazykthbest chart k1 fuel v k (mkKState ∅ ∅ ∅) = Run.Ok st →
  ∀ u, NoDup ((ranked st u).*1).
Proof.
  intros Hrun u. apply lazykthbest_tidy in Hrun; [|apply empty_tidy].
  pose proof (t_keys _ Hrun u) as Hk. rewrite fmap_app in Hk.
  by apply NoDup_app in Hk as (? & _).
Qed.

Lemma mary_chart_run :
  lazykthbest KbestDriver.mary_chart 2 5 KbestDriver.item_S 2
    (mkKState ∅ ∅ ∅) = Run.Ok KbestDriver.mary_tables.
Proof. vm_compute. reflexivity. Qed.

Lemma lazykthbest_no_duplicates_witness :
  lazykthbest KbestDriver.mary_chart 2 5 KbestDriver.item_S 2
    (mkKState ∅ ∅ ∅) = Run.Ok KbestDriver.mary_tables
  ∧ ∀ u, NoDup ((ranked KbestDriver.mary_tables u).*1).
Proof.
  split; [exact mary_chart_run|].
  apply (lazykthbest_no_duplicates KbestDriver.mary_chart 2 5
           KbestDriver.item_S 2).
  exact mary_chart_run.
Defined.

End KbestFacts.

(** ** The lazy k-best enumerator: ranks, errors and termination *)

Module KbestRunFacts.
Import Containers Kbest AgendaKeyFacts KbestFacts.

(** What a run gives: [post] of the tables it returns; it raises only if
    [fails] and runs out of fuel only if [stop]. *)
Definition outcome (fails stop : Prop) (post : KState → Prop)
    (r : Run.result KState) : Prop :=
  match r with
  | Run.Ok s => post s
  | Run.Raise _ => fails
  | Run.OutOfFuel => stop
  end.

Lemma outcome_bind fails stop (P Q : KState → Prop) (m : Run.result KState)
    (f : KState → Run.result KState) :
  outcome fails stop P m → (∀ s, P s → outcome fails stop Q (f s)) →
  outcome fails stop Q (m ≫= f).
Proof. destruct m; simpl; auto. Qed.

Lemma outcome_weaken fails stop stop' (P Q : KState → Prop) r :
  outcome fails stop P r → (stop → stop') → (∀ s, P s → Q s) →
  outcome fails stop' Q r.
Proof. destruct r; simpl; auto. Qed.

(** The rank [j] points into the derivations of [ei], or it is 0: the best
    derivation of a vertex may be asked for before the vertex is ranked. *)
Definition valid_rank (d : gmap ChartItem (list Entry)) (ei : ChartItem)
    (j : Z) : Prop :=
  j = 0 ∨ j < Z.of_nat (List.length (default [] (d !! ei))).

(** A ranked edge of [v] is an edge of [chart[v]] with a rank for each of
    its children. *)
Definition entry_ok (chart : KChart) (d : gmap ChartItem (list Entry))
    (v : ChartItem) (x : RankedEdge) : Prop :=
  (∃ edges, chart !! v = Some edges ∧ edge x ∈ edges)
  ∧ (0 ≤ rright x ↔ label (kright (edge x)) ≠ 0)
  ∧ valid_rank d (kleft (edge x)) (rleft x)
  ∧ (0 ≤ rright x → valid_rank d (kright (edge x)) (rright x)).

Record sound (chart : KChart) (st : KState) : Prop := mkSound {
  s_nonempty : ∀ v, D st !! v ≠ Some [];
  s_entry : ∀ v x c, (x, c) ∈ ranked st v ++ agenda_of st v →
                     entry_ok chart (D st) v x;
  s_placed : ∀ v i x c, ranked st v !! i = Some (x, c) →
                        rleft x ≤ Z.of_nat i ∧ rright x ≤ Z.of_nat i;
  s_waiting : ∀ v x c, (x, c) ∈ agenda_of st v →
                       rleft x ≤ Z.of_nat (List.length (ranked st v))
                       ∧ rright x ≤ Z.of_nat (List.length (ranked st v))
}.

(** The lists of derivations are only extended at their end, and no list
    or heap is removed. *)
Definition extends (st st' : KState) : Prop :=
  (∀ u, ∃ more, ranked st' u = ranked st u ++ more)
  ∧ (∀ u, is_Some (D st !! u) → is_Some (D st' !! u))
  ∧ (∀ u, is_Some (cand st !! u) → is_Some (cand st' !! u)).

(** Every child of a binary edge has edges in the chart. *)
Definition closed_chart (chart : KChart) : Prop :=
  ∀ v edges el, chart !! v = Some edges → el ∈ edges →
    label (kright el) ≠ 0 →
    (∃ l, chart !! kleft el = Some l ∧ l ≠ [])
    ∧ (∃ r, chart !! kright el = Some r ∧ r ≠ []).

(** The chart is acyclic: [rank] decreases from a vertex to the children
    of its edges. *)
Definition descends (chart : KChart) (rank : ChartItem → nat) : Prop :=
  ∀ v edges el, chart !! v = Some edges → el ∈ edges →
    (rank (kleft el) < rank v)%nat
    ∧ (label (kright el) ≠ 0 → (rank (kright el) < rank v)%nat).

Lemma extends_refl st : extends st st.
Proof.
  split_and!; [|done..]. intros u. exists []. by rewrite app_nil_r.
Qed.

Lemma extends_trans st1 st2 st3 :
  extends st1 st2 → extends st2 st3 → extends st1 st3.
Proof.
  intros (H1 & H2 & H3) (H4 & H5 & H6). split_and!; [|by auto..].
  intros u. destruct (H1 u) as [m1 E1], (H4 u) as [m2 E2].
  exists (m1 ++ m2). by rewrite E2, E1, app_assoc.
Qed.

Lemma extends_elem st st' u e :
  extends st st' → e ∈ ranked st u → e ∈ ranked st' u.
Proof.
  intros (H1 & _) Hin. destruct (H1 u) as [more ->].
  apply elem_of_app. by left.
Qed.

Lemma extends_lookup st st' u i e :
  extends st st' → ranked st u !! i = Some e → ranked st' u !! i = Some e.
Proof.
  intros (H1 & _) Hin. destruct (H1 u) as [more ->].
  by apply lookup_app_l_Some.
Qed.

Lemma ranked_is_Some st u e : e ∈ ranked st u → is_Some (D st !! u).
Proof.
  unfold ranked. destruct (D st !! u); [by eexists|]. simpl. by inversion 1.
Qed.

Lemma valid_rank_mono d d' ei j :
  (∀ u, (List.length (default [] (d !! u))
         ≤ List.length (default [] (d' !! u)))%nat) →
  valid_rank d ei j → valid_rank d' ei j.
Proof.
  intros Hle [->|Hj]; [by left|right]. specialize (Hle ei). lia.
Qed.

Lemma entry_ok_mono chart d d' v x :
  (∀ u, (List.length (default [] (d !! u))
         ≤ List.length (default [] (d' !! u)))%nat) →
  entry_ok chart d v x → entry_ok chart d' v x.
Proof.
  intros Hle (H1 & H2 & H3 & H4). split_and!; [done..| |].
  - by eapply valid_rank_mono.
  - intros Hr. eapply valid_rank_mono; [done|]. by apply H4.
Qed.

Lemma empty_sound chart : sound chart (mkKState ∅ ∅ ∅).
Proof.
  split.
  - intros v. simpl. by rewrite lookup_empty.
  - intros v x c. unfold ranked, agenda_of. simpl. rewrite !lookup_empty.
    simpl. by inversion 1.
  - intros v i x c. unfold ranked. simpl. rewrite lookup_empty. simpl.
    by rewrite lookup_nil.
  - intros v x c. unfold agenda_of. simpl. rewrite lookup_empty. simpl.
    by inversion 1.
Qed.

(** The first visit of a vertex. *)
Lemma seed_sound chart k1 st v :
  tidy st → sound chart st → cand st !! v = None →
  sound chart (set_cand st (<[v := getcandidates chart v k1]> (cand st))).
Proof.
  intros Ht [Hn He Hp Hw] Hnone.
  assert (HD : D st !! v = None).
  { destruct (D st !! v) eqn:HD; [|done].
    destruct (t_seeded _ Ht v) as [? Hc]; [by eexists|congruence]. }
  unfold set_cand. split; [done| |done|].
  - intros u x c. unfold ranked. rewrite agenda_of_insert. simpl.
    destruct (decide (v = u)) as [<-|Hne]; [|apply (He u)].
    rewrite HD. simpl. intros Hin.
    apply getcandidates_entry in Hin as (el & edges & Hc & Hel & -> & _).
    unfold entry_ok, first_ranks, valid_rank. simpl. split_and!.
    + by exists edges.
    + destruct (Z.eqb_spec (label (kright el)) 0) as [->|Hl]; split;
        try done; lia.
    + by left.
    + destruct (label (kright el) =? 0); [lia|by left].
  - intros u x c. rewrite agenda_of_insert. unfold ranked. simpl.
    destruct (decide (v = u)) as [<-|Hne]; [|apply (Hw u)].
    intros Hin.
    apply getcandidates_entry in Hin as (el & edges & _ & _ & -> & _).
    unfold first_ranks. simpl. destruct (label (kright el) =? 0); lia.
Qed.

Lemma seed_extends st c : (∀ u, is_Some (cand st !! u) → is_Some (c !! u)) →
  extends st (set_cand st c).
Proof.
  intros Hc. split_and!; [|done..]. intros u. exists [].
  by rewrite app_nil_r.
Qed.

(** The best candidate of [v] moved from its heap to the end of [D[v]]. *)
Lemma pop_sound chart v st heap entry heap' :
  sound chart st → cand st !! v = Some heap →
  Agenda.popentry cost_prio heap = Some (entry, heap') →
  sound chart (mkKState (<[v := ranked st v ++ [entry]]> (D st))
                        (<[v := heap']> (cand st)) (explored st)).
Proof.
  intros [Hn He Hp Hw] Hheap Hpop.
  apply popentry_split in Hpop as [Hin ->].
  assert (Hagenda : agenda_of st v = heap)
    by (unfold agenda_of; by rewrite Hheap).
  assert (Hle : ∀ u, (List.length (default [] (D st !! u))
            ≤ List.length (default [] (<[v := ranked st v ++ [entry]]> (D st) !! u)))%nat).
  { intros u. destruct (decide (v = u)) as [<-|Hne].
    - rewrite lookup_insert_eq. simpl. rewrite length_app. unfold ranked. lia.
    - by rewrite lookup_insert_ne. }
  split; simpl.
  - intros u. destruct (decide (v = u)) as [<-|Hne].
    + rewrite lookup_insert_eq. intros [= H]. by destruct (ranked st v).
    + rewrite lookup_insert_ne by done. apply Hn.
  - intros u x c. rewrite ranked_insert. unfold agenda_of. simpl.
    intros Hx. eapply entry_ok_mono; [exact Hle|]. apply (He u x c).
    destruct (decide (v = u)) as [<-|Hne].
    2:{ by rewrite lookup_insert_ne in Hx by done. }
    rewrite lookup_insert_eq in Hx. simpl in Hx. rewrite Hagenda.
    apply elem_of_app in Hx as [Hx|Hx].
    + apply elem_of_app in Hx as [Hx|Hx]; [apply elem_of_app; by left|].
      apply list_elem_of_singleton in Hx as ->. apply elem_of_app. by right.
    + apply elem_of_app. right. unfold Agenda.remove in Hx.
      by apply list_elem_of_filter in Hx as [_ ?].
  - intros u i x c. rewrite ranked_insert.
    destruct (decide (v = u)) as [<-|Hne]; [|apply (Hp u)].
    intros Hi. apply lookup_app_Some in Hi as [Hi|[Hge Hi]]; [by apply (Hp v i x c)|].
    apply list_lookup_singleton_Some in Hi as [Hi ->].
    destruct (Hw v x c) as [? ?]; [by rewrite Hagenda|]. lia.
  - intros u x c. rewrite ranked_insert. unfold agenda_of. simpl.
    destruct (decide (v = u)) as [<-|Hne].
    2:{ rewrite lookup_insert_ne by done. apply (Hw u). }
    rewrite lookup_insert_eq. simpl. intros Hx.
    unfold Agenda.remove in Hx. apply list_elem_of_filter in Hx as [_ Hx].
    destruct (Hw v x c) as [? ?]; [by rewrite Hagenda|].
    rewrite length_app. simpl. lia.
Qed.

Lemma pop_extends v st entry heap' :
  extends st (mkKState (<[v := ranked st v ++ [entry]]> (D st))
                       (<[v := heap']> (cand st)) (explored st)).
Proof.
  split_and!; simpl.
  - intros u. rewrite ranked_insert. destruct (decide (v = u)) as [<-|Hne].
    + by exists [entry].
    + exists []. by rewrite app_nil_r.
  - intros u Hu. destruct (decide (v = u)) as [<-|Hne].
    + rewrite lookup_insert_eq. by eexists.
    + by rewrite lookup_insert_ne.
  - intros u Hu. destruct (decide (v = u)) as [<-|Hne].
    + rewrite lookup_insert_eq. by eexists.
    + by rewrite lookup_insert_ne.
Qed.

(** [getprob] finds the costs of the children of a ranked edge with valid
    ranks. *)
Lemma child_cost_runs chart d ei j :
  (∀ v, d !! v ≠ Some []) → 0 ≤ j → valid_rank d ei j →
  (d !! ei = None → ∃ l, chart !! ei = Some l ∧ l ≠ []) →
  ∃ p, child_cost chart d ei j = Run.Ok p.
Proof.
  intros Hn Hj Hv Hc. unfold child_cost, valid_rank in *.
  destruct (d !! ei) as [l|] eqn:Hd; simpl in *.
  - assert (Hlt : (Z.to_nat j < List.length l)%nat).
    { destruct Hv as [->|Hv]; [|lia]. destruct l; [by destruct (Hn ei)|].
      simpl. lia. }
    apply lookup_lt_is_Some_2 in Hlt as [entry ->]. simpl. by eexists.
  - assert (j = 0) as -> by lia. simpl.
    destruct Hc as (l & -> & Hl); [done|]. simpl.
    destruct l as [|e l]; [done|]. simpl.
    destruct (min_edge l) as [m|]; [destruct (_ <? _)|]; simpl; by eexists.
Qed.

Lemma getprob_runs chart d v ej :
  closed_chart chart → (∀ u, d !! u ≠ Some []) →
  entry_ok chart d v ej → 0 ≤ rleft ej →
  (label (kright (edge ej)) = 0 → is_Some (d !! kleft (edge ej))) →
  ∃ p, getprob chart d ej = Run.Ok p.
Proof.
  intros Hcl Hn ((edges & Hc & Hel) & Har & Hl & Hr) H0 Hun. unfold getprob.
  destruct (child_cost_runs chart d (kleft (edge ej)) (rleft ej)) as [p ->];
    [done..| |].
  { intros Hd. destruct (decide (label (kright (edge ej)) = 0)) as [Hz|Hnz].
    - destruct (Hun Hz) as [? ?]. congruence.
    - by destruct (Hcl _ _ _ Hc Hel Hnz) as [? _]. }
  simpl. destruct (Z.geb_spec (rright ej) 0) as [Hge|Hlt]; [|by eexists].
  destruct (child_cost_runs chart d (kright (edge ej)) (rright ej)) as [q ->];
    [done|lia|apply Hr; lia| |by eexists].
  intros Hd. assert (Hnz : label (kright (edge ej)) ≠ 0) by (apply Har; lia).
  by destruct (Hcl _ _ _ Hc Hel Hnz) as [_ ?].
Qed.

Lemma child_cost_fuel chart d ei j : child_cost chart d ei j ≠ Run.OutOfFuel.
Proof.
  unfold child_cost. destruct (d !! ei) as [l|]; simpl.
  - by destruct (l !! Z.to_nat j).
  - destruct (j =? 0); [|done]. destruct (chart !! ei) as [l|]; simpl; [|done].
    by destruct (min_edge l).
Qed.

Lemma getprob_fuel chart d ej : getprob chart d ej ≠ Run.OutOfFuel.
Proof.
  unfold getprob.
  destruct (child_cost chart d (kleft (edge ej)) (rleft ej)) eqn:H1; simpl;
    [|done|by apply child_cost_fuel in H1].
  destruct (_ >=? _); [|done].
  destruct (child_cost chart d (kright (edge ej)) (rright ej)) eqn:H2; simpl;
    [done|done|by apply child_cost_fuel in H2].
Qed.

Section with_chart.
Variable chart : KChart.
Variable k1 : Z.
Variable rank : ChartItem → nat.

(** What a call keeps. *)
Definition preserved (st st' : KState) : Prop :=
  tidy st' ∧ sound chart st' ∧ extends st st'.

(** No vertex has more than [B] derivations. *)
Definition bounded (B : Z) (st : KState) : Prop :=
  ∀ u, Z.of_nat (List.length (ranked st u)) ≤ B.

(** The derivations of the vertices of rank [n] and above are left alone,
    and a bound from [k] on that holds of all lists still holds. *)
Definition modest (n : nat) (k : Z) (st st' : KState) : Prop :=
  (∀ w, (n ≤ rank w)%nat → ranked st' w = ranked st w)
  ∧ ∀ B, k ≤ B → 1 ≤ B → bounded B st → bounded B st'.

(** What a call for [k] derivations of a vertex below rank [n] does; the
    second part is for acyclic charts. *)
Definition call (n : nat) (k : Z) (st st' : KState) : Prop :=
  preserved st st' ∧ (descends chart rank → modest n k st st').

(** The request for [k] derivations of [v] is served: they are there, or
    the heap of [v] has run out of candidates. *)
Definition served (v : ChartItem) (k : Z) (st : KState) : Prop :=
  k ≤ Z.of_nat (List.length (ranked st v)) ∨ agenda_of st v = [].

Lemma preserved_refl st : tidy st → sound chart st → preserved st st.
Proof. intros. split_and!; [done..|apply extends_refl]. Qed.

Lemma preserved_trans st1 st2 st3 : preserved st1 st2 → preserved st2 st3 → preserved st1 st3.
Proof.
  intros (_ & _ & H1) (? & ? & H2). split_and!; [done..|].
  by eapply extends_trans.
Qed.

Lemma modest_same n k st st' : D st' = D st → modest n k st st'.
Proof.
  intros HD. unfold modest, bounded, ranked. rewrite HD. by split.
Qed.

Lemma modest_trans n k st1 st2 st3 :
  modest n k st1 st2 → modest n k st2 st3 → modest n k st1 st3.
Proof.
  intros [H1 H2] [H3 H4]. split.
  - intros w Hw. by rewrite H3, H1.
  - intros B Hk HB Hb. by apply H4, H2.
Qed.

Lemma modest_weaken n n' k k' st st' :
  (n ≤ n')%nat → k ≤ k' → modest n k st st' → modest n' k' st st'.
Proof.
  intros Hn Hk [H1 H2]. split.
  - intros w Hw. apply H1. lia.
  - intros B HB. apply H2. lia.
Qed.

Lemma call_refl n k st : tidy st → sound chart st → call n k st st.
Proof. intros. split; [by apply preserved_refl|]. intros _. by apply modest_same. Qed.

Lemma call_same n k st st' : preserved st st' → D st' = D st → call n k st st'.
Proof. intros. split; [done|]. intros _. by apply modest_same. Qed.

Lemma call_trans n k st1 st2 st3 :
  call n k st1 st2 → call n k st2 st3 → call n k st1 st3.
Proof.
  intros [K1 M1] [K2 M2]. split; [by eapply preserved_trans|].
  intros Hd. eapply modest_trans; eauto.
Qed.

Lemma call_weaken n n' k k' st st' :
  (descends chart rank → (n ≤ n')%nat) → k ≤ k' →
  call n k st st' → call n' k' st st'.
Proof.
  intros Hn Hk [K1 M1]. split; [done|].
  intros Hd. eapply modest_weaken; [by apply Hn|exact Hk|by apply M1].
Qed.

(** A neighbour put on the heap of its head. *)
Lemma push_neighbour_kept stop ei j ej1 st :
  tidy st → sound chart st →
  0 ≤ rleft ej1 → -1 ≤ rright ej1 → (1 ≤ rleft ej1 ∨ 1 ≤ rright ej1) →
  is_Some (cand st !! head ej1) →
  rleft ej1 ≤ Z.of_nat (List.length (ranked st (head ej1)))
  ∧ rright ej1 ≤ Z.of_nat (List.length (ranked st (head ej1))) →
  (∀ l, D st !! ei = Some l → j < Z.of_nat (List.length l) →
        entry_ok chart (D st) (head ej1) ej1
        ∧ (label (kright (edge ej1)) = 0
           → is_Some (D st !! kleft (edge ej1)))) →
  outcome (¬ closed_chart chart) stop (λ st', preserved st st' ∧ D st' = D st)
    (push_neighbour chart ei j ej1 st).
Proof.
  intros Ht Hs Hl Hr Hpos [heap Hheap] Hpl Hok.
  destruct (push_neighbour chart ei j ej1 st) as [st'|e|] eqn:Hrun; simpl.
  - assert (Ht' : tidy st') by (by eapply push_neighbour_tidy).
    revert Ht' Hrun. unfold push_neighbour.
    destruct (D st !! ei) as [l|] eqn:HD;
      [|intros ? [= <-]; split; [by apply preserved_refl|done]].
    destruct (_ && _) eqn:Hb;
      [|intros ? [= <-]; split; [by apply preserved_refl|done]].
    apply andb_true_iff in Hb as [Hlt _]. apply Z.ltb_lt in Hlt.
    destruct (Hok l eq_refl Hlt) as [Hej1 _].
    destruct (getprob chart (D st) ej1) as [prob|?|]; simpl; [|done..].
    rewrite Hheap. simpl. intros Ht' [= <-]. split; [|done].
    split; [done|]. split.
    + destruct Hs as [Hn He Hp Hw]. split; [done| |done|]; simpl.
      * intros u x c. unfold ranked at 1. rewrite agenda_of_insert. simpl.
        fold (ranked st u).
        destruct (decide (head ej1 = u)) as [<-|Hne]; [|apply (He u)].
        intros Hin. apply elem_of_app in Hin as [Hin|Hin].
        -- apply (He (head ej1) x c). apply elem_of_app. by left.
        -- apply AgendaFacts.elem_of_setitem in Hin as [[-> ->]|Hin]; [done|].
           apply (He (head ej1) x c). apply elem_of_app. right.
           unfold agenda_of. by rewrite Hheap.
      * intros u x c. rewrite agenda_of_insert. unfold ranked. simpl.
        fold (ranked st u).
        destruct (decide (head ej1 = u)) as [<-|Hne]; [|apply (Hw u)].
        intros Hin.
        apply AgendaFacts.elem_of_setitem in Hin as [[-> ->]|Hin]; [done|].
        apply (Hw (head ej1) x c). unfold agenda_of. by rewrite Hheap.
    + split_and!; simpl; [|done|].
      * intros u. exists []. by rewrite app_nil_r.
      * intros u Hu. destruct (decide (head ej1 = u)) as [<-|Hne].
        -- rewrite lookup_insert_eq. by eexists.
        -- by rewrite lookup_insert_ne.
  - intros Hcl. revert Hrun. unfold push_neighbour.
    destruct (D st !! ei) as [l|] eqn:HD; [|done].
    destruct (_ && _) eqn:Hb; [|done].
    apply andb_true_iff in Hb as [Hlt _]. apply Z.ltb_lt in Hlt.
    destruct (Hok l eq_refl Hlt) as [Hej1 Hun].
    destruct (getprob_runs chart (D st) (head ej1) ej1) as [p ->];
      [done|apply Hs|done..|].
    simpl. by rewrite Hheap.
  - exfalso. revert Hrun. unfold push_neighbour.
    destruct (D st !! ei) as [l|] eqn:HD; [|done].
    destruct (_ && _) eqn:Hb; [|done].
    destruct (getprob chart (D st) ej1) as [prob|?|] eqn:Hp; simpl; [|done|].
    + by rewrite Hheap.
    + by apply getprob_fuel in Hp.
Qed.

Section with_solve.
Variable solve : ChartItem → Z → KState → Run.result KState.
Variable bound : nat.
Hypothesis solve_kept : ∀ u k st,
  tidy st → sound chart st →
  outcome (¬ closed_chart chart)
          (¬ (descends chart rank ∧ (rank u < bound)%nat))
          (call (S (rank u)) k st) (solve u k st).

Lemma lazynext_kept ej c i st :
  tidy st → sound chart st → ranked st (head ej) !! i = Some (ej, c) →
  outcome (¬ closed_chart chart)
          (¬ (descends chart rank ∧ (rank (head ej) ≤ bound)%nat))
          (call (rank (head ej)) (Z.max (rleft ej) (rright ej) + 2) st)
          (lazynext chart solve ej st).
Proof.
  intros Ht Hs Hi.
  assert (Hej : ∀ s, preserved st s →
            entry_ok chart (D s) (head ej) ej ∧ 0 ≤ rleft ej ∧ -1 ≤ rright ej
            ∧ is_Some (cand s !! head ej)
            ∧ rleft ej + 1 ≤ Z.of_nat (List.length (ranked s (head ej)))
            ∧ rright ej + 1 ≤ Z.of_nat (List.length (ranked s (head ej)))).
  { intros s (Ht' & Hs' & Hex).
    pose proof (extends_lookup _ _ _ _ _ Hex Hi) as Hi'.
    pose proof (list_elem_of_lookup_2 _ _ _ Hi') as Hin'.
    pose proof (lookup_lt_Some _ _ _ Hi') as Hlt.
    destruct (s_placed _ _ Hs' _ _ _ _ Hi') as [? ?].
    assert (Hin2 : (ej, c) ∈ ranked s (head ej) ++ agenda_of s (head ej))
      by (apply elem_of_app; by left).
    destruct (t_entry _ Ht' _ _ _ Hin2) as (_ & ? & ? & _).
    split_and!; [by eapply (s_entry _ _ Hs')|done..| |lia|lia].
    apply (t_seeded _ Ht'). by eapply ranked_is_Some. }
  destruct (Hej st) as (((edges & Hc & Hel) & Har & _) & H0 & H1 & _);
    [by apply preserved_refl|].
  set (n := rank (head ej)). set (K := Z.max (rleft ej) (rright ej) + 2).
  unfold lazynext. cbn zeta.
  eapply outcome_bind with (P := call n K st).
  { eapply outcome_weaken; [by apply solve_kept| |].
    - intros Hstop [Hd Hb]. apply Hstop. split; [done|].
      destruct (Hd _ _ _ Hc Hel) as [? _]. subst n. lia.
    - intros s C. eapply call_weaken; [| |exact C].
      + intros Hd. destruct (Hd _ _ _ Hc Hel) as [? _]. subst n. lia.
      + simpl. subst K. lia. }
  intros st1 C1. pose proof (proj1 C1) as K1.
  eapply outcome_bind with (P := call n K st).
  { eapply outcome_weaken; [apply push_neighbour_kept|intros H; exact H|].
    - apply K1.
    - apply K1.
    - simpl. lia.
    - simpl. lia.
    - simpl. lia.
    - simpl. by apply Hej.
    - simpl. destruct (Hej st1 K1) as (_ & _ & _ & _ & ? & ?). lia.
    - simpl. intros l HD Hlt.
      destruct (Hej st1 K1) as ((_ & _ & Hvl & Hvr) & _).
      split; [|by eexists]. unfold entry_ok. simpl.
      split_and!; [by eexists|done| |done].
      right. by rewrite HD.
    - intros s [K2 HD]. eapply call_trans; [exact C1|by apply call_same]. }
  intros st2 C2. pose proof (proj1 C2) as K2.
  destruct (Z.geb_spec (rright ej) 0) as [Hge|Hlt];
    [|simpl; exact C2].
  assert (Hnz : label (kright (edge ej)) ≠ 0) by (apply Har; lia).
  eapply outcome_bind with (P := call n K st).
  { eapply outcome_weaken; [apply solve_kept| |].
    - apply K2.
    - apply K2.
    - intros Hstop [Hd Hb]. apply Hstop. split; [done|].
      destruct (Hd _ _ _ Hc Hel) as [_ Hr]. specialize (Hr Hnz). subst n. lia.
    - intros s C. eapply call_trans; [exact C2|].
      eapply call_weaken; [| |exact C].
      + intros Hd. destruct (Hd _ _ _ Hc Hel) as [_ Hr]. specialize (Hr Hnz).
        subst n. lia.
      + simpl. subst K. lia. }
  intros st3 C3. pose proof (proj1 C3) as K3.
  eapply outcome_weaken; [apply push_neighbour_kept|done|].
  - apply K3.
  - apply K3.
  - simpl. lia.
  - simpl. lia.
  - simpl. lia.
  - simpl. by apply Hej.
  - simpl. destruct (Hej st3 K3) as (_ & _ & _ & _ & ? & ?). lia.
  - simpl. intros l HD Hlt'.
    destruct (Hej st3 K3) as ((_ & _ & Hvl & Hvr) & _).
    split; [|done]. unfold entry_ok. simpl. split_and!; [by eexists| |done|].
    + split; [done|lia].
    + intros _. right. by rewrite HD.
  - intros s [K4 HD]. eapply call_trans; [exact C3|by apply call_same].
Qed.

Lemma kth_loop_kept n v k st :
  tidy st → sound chart st → is_Some (cand st !! v) →
  (Z.to_nat k < n + List.length (ranked st v))%nat →
  outcome (¬ closed_chart chart)
          (¬ (descends chart rank ∧ (rank v ≤ bound)%nat))
          (λ st', call (S (rank v)) k st st' ∧ served v k st')
          (kth_loop chart solve n v k st).
Proof.
  revert st. induction n as [|n IH]; intros st Ht Hs Hc Hn; simpl.
  { split; [by apply call_refl|]. left. lia. }
  destruct (_ && _) eqn:Hcond.
  { split; [by apply call_refl|]. left.
    apply andb_true_iff in Hcond as [_ Hcond].
    apply negb_true_iff, Z.ltb_ge in Hcond. done. }
  assert (Hlen : ∀ l, D st !! v = Some l → Z.of_nat (List.length l) < k).
  { intros l HD. rewrite bool_decide_eq_true_2 in Hcond by (by eexists).
    simpl in Hcond. apply negb_false_iff, Z.ltb_lt in Hcond.
    unfold ranked in Hcond. by rewrite HD in Hcond. }
  eapply outcome_bind with (P := call (rank v) k st).
  { destruct (D st !! v) as [l|] eqn:HD; [|by apply call_refl].
    destruct (last l) as [[ej c]|] eqn:Hlast; simpl.
    - assert (Hi : ranked st v !! pred (List.length l) = Some (ej, c)).
      { unfold ranked. rewrite HD. simpl. by rewrite <- last_lookup. }
      assert (Hhead : head ej = v).
      { destruct (t_entry _ Ht v ej c) as [? _]; [|done].
        apply elem_of_app. left. by eapply list_elem_of_lookup_2. }
      destruct (s_placed _ _ Hs _ _ _ _ Hi) as [Hpl Hpr].
      specialize (Hlen l eq_refl).
      rewrite <- Hhead in *.
      eapply outcome_weaken; [by eapply lazynext_kept|intros H; exact H|].
      assert (Hpos : (0 < List.length l)%nat)
        by (destruct l; [done|simpl; lia]).
      intros s C. eapply call_weaken; [| |exact C]; [done|lia].
    - apply last_None in Hlast as ->. by destruct (s_nonempty _ _ Hs v). }
  intros st1 C1.
  destruct C1 as ((Ht1 & Hs1 & Hex1) & M1).
  destruct (proj2 (proj2 Hex1) v Hc) as [heap Hheap]. rewrite Hheap. simpl.
  destruct (Agenda.popentry cost_prio heap) as [[entry heap']|] eqn:Hpop.
  2:{ simpl. split.
      - split; [done|]. intros Hd.
        eapply modest_weaken; [| |by apply M1]; lia.
      - right. apply popentry_None in Hpop as ->.
        unfold agenda_of. by rewrite Hheap. }
  eapply outcome_weaken; [apply IH|done|].
  - by eapply pop_tidy.
  - by eapply pop_sound.
  - simpl. rewrite lookup_insert_eq. by eexists.
  - rewrite ranked_insert, decide_True by done. rewrite length_app. simpl.
    destruct (proj1 Hex1 v) as [more ->]. rewrite length_app. lia.
  - intros s [C Hserved]. split; [|done].
    eapply call_trans; [|exact C]. split.
    + split_and!.
      * by eapply pop_tidy.
      * by eapply pop_sound.
      * eapply extends_trans; [exact Hex1|apply pop_extends].
    + intros Hd. destruct (M1 Hd) as [Hsame Hbound]. split.
      * intros w Hw. rewrite ranked_insert.
        destruct (decide (v = w)) as [<-|Hne]; [lia|].
        apply Hsame. lia.
      * intros B Hk HB Hb u. rewrite ranked_insert.
        destruct (decide (v = u)) as [<-|Hne]; [|by apply Hbound].
        rewrite length_app. simpl. rewrite Hsame by lia.
        unfold ranked. destruct (D st !! v) as [l|] eqn:HD; simpl.
        -- specialize (Hlen l eq_refl). lia.
        -- lia.
Qed.

End with_solve.

Lemma lazykthbest_kept fuel v k st :
  tidy st → sound chart st →
  outcome (¬ closed_chart chart)
          (¬ (descends chart rank ∧ (rank v < fuel)%nat))
          (λ st', call (S (rank v)) k st st' ∧ served v k st')
          (lazykthbest chart k1 fuel v k st).
Proof.
  revert v k st. induction fuel as [|fuel IH]; intros v k st Ht Hs.
  { simpl. intros [_ H]. lia. }
  cbn [lazykthbest].
  set (st0 := if bool_decide (is_Some (cand st !! v)) then st
              else set_cand st (<[v := getcandidates chart v k1]> (cand st))).
  assert (K0 : (preserved st st0 ∧ D st0 = D st) ∧ is_Some (cand st0 !! v)).
  { subst st0. destruct (bool_decide (is_Some (cand st !! v))) eqn:Hc.
    - apply bool_decide_eq_true in Hc.
      split; [split; [by apply preserved_refl|done]|done].
    - apply bool_decide_eq_false in Hc. apply eq_None_not_Some in Hc.
      split; [split; [split_and!|done]|].
      + by apply seed_tidy.
      + by apply seed_sound.
      + apply seed_extends. intros u Hu.
        destruct (decide (v = u)) as [<-|Hne].
        * rewrite lookup_insert_eq. by eexists.
        * by rewrite lookup_insert_ne.
      + simpl. rewrite lookup_insert_eq. by eexists. }
  destruct K0 as [[K0 HD0] Hc0].
  eapply outcome_weaken; [apply (kth_loop_kept _ fuel)| |].
  - intros u k' s Hts Hss.
    eapply outcome_weaken; [by apply IH|done|by intros ? [? _]].
  - apply K0.
  - apply K0.
  - done.
  - lia.
  - intros Hstop [Hd Hb]. apply Hstop. split; [done|lia].
  - intros s [C Hserved]. split; [|done].
    eapply call_trans; [by apply call_same|exact C].
Qed.

End with_chart.

(** The chart of [KbestDriver] is closed and acyclic. *)
Lemma mary_chart_lookup v edges :
  KbestDriver.mary_chart !! v = Some edges →
  (v, edges) ∈ KbestDriver.mary_chart_edges.
Proof. apply elem_of_list_to_map_2. Qed.

(** A second request on the tables of [KbestDriver], for a vertex that is
    served already. *)
Lemma mary_chart_again :
  lazykthbest KbestDriver.mary_chart 2 5 KbestDriver.item_NP 2
    KbestDriver.mary_tables = Run.Ok KbestDriver.mary_tables.
Proof. vm_compute. reflexivity. Qed.


Lemma mary_chart_descends :
  descends KbestDriver.mary_chart KbestDriver.height.
Proof.
  intros v edges el Hv Hel. apply mary_chart_lookup in Hv.
  apply list_elem_of_In in Hv. simpl in Hv.
  destruct Hv as [Hv|[Hv|[Hv|[]]]]; injection Hv as <- <-;
    apply list_elem_of_In in Hel; simpl in Hel.
  - destruct Hel as [<-|[]]. split; [|intros _]; vm_compute; lia.
  - destruct Hel as [<-|[<-|[]]]; (split; [|intros _]; vm_compute; lia).
  - destruct Hel as [<-|[]]; (split; [|intros _]; vm_compute; lia).
Qed.

(** Every ranked edge that [lazykthbest] lists for a vertex is headed by
    the vertex and built on one of its edges in the chart.  Its ranks are
    at most its position in the list, and each of them points into the
    list of the child or is 0 (the best derivation of a child that is not
    ranked yet); an edge without a right child has -1 for it. *)
Theorem lazykthbest_ranks_are_valid chart k1 fuel v k st :
  lazykthbest chart k1 fuel v k (mkKState ∅ ∅ ∅) = Run.Ok st →
  ∀ u i x c, ranked st u !! i = Some (x, c) →
    head x = u
    ∧ (∃ edges, chart !! u = Some edges ∧ edge x ∈ edges)
    ∧ 0 ≤ rleft x ≤ Z.of_nat i
    ∧ (rleft x = 0
       ∨ rleft x < Z.of_nat (List.length (ranked st (kleft (edge x)))))
    ∧ (if label (kright (edge x)) =? 0 then rright x = -1
       else 0 ≤ rright x ≤ Z.of_nat i
            ∧ (rright x = 0
               ∨ rright x
                 < Z.of_nat (List.length (ranked st (kright (edge x)))))).
Proof.
  intros Hrun u i x c Hi.
  pose proof (lazykthbest_kept chart k1 (λ _, 0%nat) fuel v k (mkKState ∅ ∅ ∅)
                empty_tidy (empty_sound chart)) as H.
  rewrite Hrun in H. simpl in H. destruct H as [[(Ht & Hs & _) _] _].
  assert (Hin : (x, c) ∈ ranked st u ++ agenda_of st u).
  { apply elem_of_app. left. by eapply list_elem_of_lookup_2. }
  destruct (t_entry _ Ht _ _ _ Hin) as (Hh & Hl & Hr & _).
  destruct (s_entry _ _ Hs _ _ _ Hin) as (He & Har & Hvl & Hvr).
  destruct (s_placed _ _ Hs _ _ _ _ Hi) as [Hpl Hpr].
  split_and!; try done.
  destruct (Z.eqb_spec (label (kright (edge x))) 0) as [Hz|Hnz].
  - destruct (decide (0 ≤ rright x)) as [Hge|Hlt]; [|lia].
    apply Har in Hge. done.
  - apply Har in Hnz. split; [lia|]. by apply Hvr.
Qed.

Lemma lazykthbest_ranks_witness :
  lazykthbest KbestDriver.mary_chart 2 5 KbestDriver.item_S 2
    (mkKState ∅ ∅ ∅) = Run.Ok KbestDriver.mary_tables
  ∧ ∀ u i x c, ranked KbestDriver.mary_tables u !! i = Some (x, c) →
      head x = u
      ∧ (∃ edges, KbestDriver.mary_chart !! u = Some edges ∧ edge x ∈ edges)
      ∧ 0 ≤ rleft x ≤ Z.of_nat i
      ∧ (rleft x = 0
         ∨ rleft x
           < Z.of_nat
               (List.length (ranked KbestDriver.mary_tables (kleft (edge x)))))
      ∧ (if label (kright (edge x)) =? 0 then rright x = -1
         else 0 ≤ rright x ≤ Z.of_nat i
              ∧ (rright x = 0
                 ∨ rright x
                   < Z.of_nat
                       (List.length
                          (ranked KbestDriver.mary_tables
                             (kright (edge x)))))).
Proof.
  split; [exact mary_chart_run|].
  apply (lazykthbest_ranks_are_valid KbestDriver.mary_chart 2 5
           KbestDriver.item_S 2).
  exact mary_chart_run.
Defined.





(** A later call on the tables of an earlier one only appends: the
    derivations already listed keep their places, so the ranks that point
    to them keep their meaning. *)
Theorem lazykthbest_only_appends chart k1 fuel v k st fuel' v' k' st' :
  lazykthbest chart k1 fuel v k (mkKState ∅ ∅ ∅) = Run.Ok st →
  lazykthbest chart k1 fuel' v' k' st = Run.Ok st' →
  ∀ u, ∃ more, ranked st' u = ranked st u ++ more.
Proof.
  intros Hrun Hrun'.
  pose proof (lazykthbest_kept chart k1 (λ _, 0%nat) fuel v k (mkKState ∅ ∅ ∅)
                empty_tidy (empty_sound chart)) as H.
  rewrite Hrun in H. simpl in H. destruct H as [[(Ht & Hs & _) _] _].
  pose proof (lazykthbest_kept chart k1 (λ _, 0%nat) fuel' v' k' st Ht Hs)
    as H'.
  rewrite Hrun' in H'. simpl in H'. destruct H' as [[(_ & _ & Hex) _] _].
  apply Hex.
Qed.

Lemma lazykthbest_only_appends_witness :
  lazykthbest KbestDriver.mary_chart 2 5 KbestDriver.item_S 2
    (mkKState ∅ ∅ ∅) = Run.Ok KbestDriver.mary_tables
  ∧ lazykthbest KbestDriver.mary_chart 2 5 KbestDriver.item_NP 2
      KbestDriver.mary_tables = Run.Ok KbestDriver.mary_tables
  ∧ ∀ u, ∃ more, ranked KbestDriver.mary_tables u
                 = ranked KbestDriver.mary_tables u ++ more.
Proof.
  split; [exact mary_chart_run|]. split; [exact mary_chart_again|].
  apply (lazykthbest_only_appends KbestDriver.mary_chart 2 5
           KbestDriver.item_S 2 _ 5 KbestDriver.item_NP 2).
  - exact mary_chart_run.
  - exact mary_chart_again.
Defined.

(** On an acyclic chart no vertex gets more than [k] derivations (one, for
    [k] below 1): a call asks a child for at most as many derivations as
    it was asked for itself. *)
Theorem lazykthbest_at_most_k chart k1 rank fuel v k st :
  descends chart rank →
  lazykthbest chart k1 fuel v k (mkKState ∅ ∅ ∅) = Run.Ok st →
  ∀ u, Z.of_nat (List.length (ranked st u)) ≤ Z.max k 1.
Proof.
  intros Hd Hrun.
  pose proof (lazykthbest_kept chart k1 rank fuel v k (mkKState ∅ ∅ ∅)
                empty_tidy (empty_sound chart)) as H.
  rewrite Hrun in H. simpl in H. destruct H as [[_ Hm] _].
  destruct (Hm Hd) as [_ Hb]. apply Hb; [lia..|].
  intros u. unfold ranked. simpl. rewrite lookup_empty. simpl. lia.
Qed.

Lemma lazykthbest_at_most_k_witness :
  descends KbestDriver.mary_chart KbestDriver.height
  ∧ lazykthbest KbestDriver.mary_chart 2 5 KbestDriver.item_S 2
      (mkKState ∅ ∅ ∅) = Run.Ok KbestDriver.mary_tables
  ∧ ∀ u, Z.of_nat (List.length (ranked KbestDriver.mary_tables u))
         ≤ Z.max 2 1.
Proof.
  split; [exact mary_chart_descends|]. split; [exact mary_chart_run|].
  apply (lazykthbest_at_most_k KbestDriver.mary_chart 2 KbestDriver.height 5
           KbestDriver.item_S 2).
  - exact mary_chart_descends.
  - exact mary_chart_run.
Defined.

(** [lazykthbest] stops with [k] derivations of its vertex, or with an
    empty heap for it: there are fewer than [k] only when the candidates
    have run out. *)
Theorem lazykthbest_serves_the_request chart k1 fuel v k st :
  lazykthbest chart k1 fuel v k (mkKState ∅ ∅ ∅) = Run.Ok st →
  k ≤ Z.of_nat (List.length (ranked st v)) ∨ agenda_of st v = [].
Proof.
  intros Hrun.
  pose proof (lazykthbest_kept chart k1 (λ _, 0%nat) fuel v k (mkKState ∅ ∅ ∅)
                empty_tidy (empty_sound chart)) as H.
  rewrite Hrun in H. simpl in H. apply H.
Qed.

Lemma lazykthbest_serves_witness :
  lazykthbest KbestDriver.mary_chart 2 5 KbestDriver.item_S 2
    (mkKState ∅ ∅ ∅) = Run.Ok KbestDriver.mary_tables
  ∧ (2 ≤ Z.of_nat (List.length
                     (ranked KbestDriver.mary_tables KbestDriver.item_S))
     ∨ agenda_of KbestDriver.mary_tables KbestDriver.item_S = []).
Proof.
  split; [exact mary_chart_run|].
  apply (lazykthbest_serves_the_request KbestDriver.mary_chart 2 5
           KbestDriver.item_S 2).
  exact mary_chart_run.
Defined.

End KbestRunFacts.
